(** * ParsFood-Common: a shallow embedding of the sync layer, the Vuex
      module compiler and the utilities, with their properties.

    The definitions come first, one module per source file or concern:
    - [Js]               : the JavaScript values, exceptions and array
                           primitives the code uses;
    - [Firestore]        : src/js/firestore-utils.ts (options, reference
                           paths, diff application);
    - [Collections]      : the synced-collections module (sync state per
                           path, subscribers, debounced unsubscribe);
    - [Proxies]          : src/js/proxy.ts and the identity wrapping of
                           src/plugins/vuex/vuex-decorators.ts;
    - [Decorators]       : the module compiler and the unwrapping of the
                           module tree of src/plugins/vuex/vuex-decorators.ts;
    - [Documents]        : what firestore-utils.ts writes back, and the
                           bookkeeping of the events of a list;
    - [Utils]            : src/js/utils.ts (random strings, property keys,
                           property paths);
    - [StateAccess]      : the state accessor of a module of
                           vuex-decorators.ts;
    - [Generations]      : the token tables from one walk to the next;
    - [IdPlugin]         : the component ids;
    - [DependencyPlugin] : src/plugins/vue/DependencyPlugin.ts;
    - [Storage]          : src/js/firebase-utils.ts and
                           src/js/storage-utils.ts;
    - [Lifecycle]        : the synced-collections module under the calls
                           and callbacks of its whole life;
    - [Subscriptions]    : subscribeToCollection and subscribeToDocument of
                           firestore-utils.ts, with the listeners they open
                           and close;
    - [DocumentUpdates]  : updateDocumentFromSnapshot of firestore-utils.ts.
    The properties follow, one module of facts per module of definitions. *)

From Stdlib Require Import ZArith.
From stdpp Require Import base option list gmap strings pretty.

Open Scope Z_scope.
Set Warnings "-register-all".

(** ** JavaScript values *)

Module Js.

(** Values of the document trees: the JSON-like data the database client
    hands out, arrays and plain objects.  Numbers that the code inspects are
    the integer indices of the change stream, hence [Z]. *)
Inductive value :=
| VUndefined
| VNull
| VBool (b : bool)
| VNum (n : Z)
| VStr (s : string)
| VArr (items : list value)
| VObj (props : gmap string value).

(** What a call can throw. *)
Inductive error :=
| TypeError
| ProxyIdError.   (* Error("Cannot generate a unique proxy id.") *)

(** A call either returns or throws. *)
Inductive outcome (A : Type) :=
| Ok (a : A)
| Throw (e : error).
Global Arguments Ok {A} a.
Global Arguments Throw {A} e.

(** Sequencing: a throw ends the call.  With these instances stdpp's
    [x ← m; k] reads as the statements of the source one after the other. *)
Global Instance outcome_ret : MRet outcome := fun A a => Ok a.
Global Instance outcome_bind : MBind outcome := fun A B k m =>
  match m with
  | Ok a => k a
  | Throw e => Throw e
  end.
Global Instance outcome_fmap : FMap outcome := fun A B f m =>
  match m with
  | Ok a => Ok (f a)
  | Throw e => Throw e
  end.

(** [!!v] is false in JS exactly for these values. *)
Definition truthy (v : value) : bool :=
  match v with
  | VUndefined | VNull => false
  | VBool b => b
  | VNum n => negb (n =? 0)
  | VStr s => negb (String.eqb s "")
  | VArr _ | VObj _ => true
  end.

(** [v[k]] for a string key: reading a property of undefined or null
    throws, an absent property reads as undefined.  Arrays and strings only
    answer [length] here; their elements are read with [index]. *)
Definition getProp (v : value) (k : string) : outcome value :=
  match v with
  | VUndefined | VNull => Throw TypeError
  | VObj props => Ok (default VUndefined (props !! k))
  | VArr items =>
      Ok (if String.eqb k "length" then VNum (Z.of_nat (length items)) else VUndefined)
  | VStr s =>
      Ok (if String.eqb k "length" then VNum (Z.of_nat (String.length s)) else VUndefined)
  | VBool _ | VNum _ => Ok VUndefined
  end.

(** [arr[i]] for a numeric index: undefined outside [0, length). *)
Definition index (items : list value) (i : Z) : value :=
  if decide (0 <= i) then default VUndefined (items !! Z.to_nat i) else VUndefined.

(** [Array.prototype.splice(start, deleteCount, ...items)]: a negative start
    counts from the end, both arguments are clamped to the array. *)
Definition splice {A} (l : list A) (start deleteCount : Z) (items : list A) : list A :=
  let len := Z.of_nat (length l) in
  let s := if decide (start < 0) then Z.max (len + start) 0 else Z.min start len in
  let dc := Z.min (Z.max deleteCount 0) (len - s) in
  take (Z.to_nat s) l ++ items ++ drop (Z.to_nat (s + dc)) l.

End Js.

(** ** firestore-utils.ts: reference paths and diff application *)

Module Firestore.
Import Js.

(** [NormalizedFirestoreObjectOptions].  The [query] member only shapes the
    remote listener and plays no part in applying changes locally. *)
Inductive NormalizedFirestoreObjectOptions :=
| NOptions (collectionPath name : string)
           (subcollections : list NormalizedFirestoreObjectOptions).

Definition collectionPath (o : NormalizedFirestoreObjectOptions) : string :=
  match o with NOptions p _ _ => p end.
Definition name (o : NormalizedFirestoreObjectOptions) : string :=
  match o with NOptions _ n _ => n end.
Definition subcollections (o : NormalizedFirestoreObjectOptions)
  : list NormalizedFirestoreObjectOptions :=
  match o with NOptions _ _ s => s end.

(** [FirestoreObjectOptions]: a bare path, an options object, or an object
    that already went through normalisation (its [__normalized] mark). *)
Inductive FirestoreObjectOptions :=
| OptPath (path : string)
| OptObject (collectionPath : string) (name : option string)
            (subcollections : option (list FirestoreObjectOptions))
| OptNormalized (o : NormalizedFirestoreObjectOptions).

Fixpoint normalizeFirestoreObjectOptions (options : FirestoreObjectOptions)
  : NormalizedFirestoreObjectOptions :=
  match options with
  | OptNormalized o => o
  | OptPath p => NOptions p p []
  | OptObject p n subs =>
      NOptions p (default p n)
        (match subs with
         | None => []
         | Some l => map normalizeFirestoreObjectOptions l
         end)
  end.

(** A document snapshot: its id and its data. *)
Record DocumentSnapshot := {
  snap_id : string;
  snap_data : gmap string value;
}.

Inductive DocumentChangeType := added | modified | removed.

(** One entry of [QuerySnapshot.docChanges()]. *)
Record DocumentChange := {
  type : DocumentChangeType;
  doc : DocumentSnapshot;
  oldIndex : Z;
  newIndex : Z;
}.

(** A query snapshot, as far as the code reads it: [docChanges()]. *)
Definition QuerySnapshot := list DocumentChange.

(** [string | number | null] key of the object found by a reference path. *)
Inductive key :=
| KIndex (i : nat)
| KName (s : string).

(** The result of [getObjectFromRefPath].  [object] is a reference into the
    tree in the source; [location] records where it points (the index and
    field steps from the root), so that what is spliced into [object] can be
    seen from the root. *)
Record ObjectInfo := {
  object : value;
  options : NormalizedFirestoreObjectOptions;
  parent : value;
  key_ : option key;
  location : list key;
}.

(** The search loop of the id branch: the first element whose [id] is the
    reference; reading [id] of an undefined or null element throws. *)
Fixpoint findById (items : list value) (ref : string) (i : nat)
  : outcome (option (nat * value)) :=
  match items with
  | [] => Ok None
  | d :: rest =>
      id ← getProp d "id";
      match id with
      | VStr s => if String.eqb s ref then Ok (Some (i, d)) else findById rest ref (S i)
      | _ => findById rest ref (S i)
      end
  end.

(** [subcollections.find(opt => opt.collectionPath === ref)]. *)
Definition findSubcollection (subs : list NormalizedFirestoreObjectOptions) (ref : string)
  : option NormalizedFirestoreObjectOptions :=
  List.find (fun opt => String.eqb (collectionPath opt) ref) subs.

(** The loop of [getObjectFromRefPath] over the remaining references, on the
    loop variables.  [None] is the source's [null].  An id reference searches
    the array [object]; a value that is no array has no [length] to loop on
    (an object with a numeric [length] of its own is not modelled).  A name
    reference reads the field the subcollection's options name. *)
Fixpoint getObjectLoop (refPath : list string) (isRefId : bool) (info : ObjectInfo)
  : outcome (option ObjectInfo) :=
  match refPath with
  | [] => Ok (Some info)
  | ref :: rest =>
      if isRefId then
        match object info with
        | VUndefined | VNull => Throw TypeError
        | VArr items =>
            found ← findById items ref 0;
            match found with
            | None => Ok None
            | Some (i, d) =>
                getObjectLoop rest (negb isRefId)
                  {| object := d; options := options info; parent := object info;
                     key_ := Some (KIndex i);
                     location := location info ++ [KIndex i] |}
            end
        | _ => Ok None
        end
      else
        match findSubcollection (subcollections (options info)) ref with
        | None => Throw TypeError
        | Some sub =>
            o ← getProp (object info) (name sub);
            if truthy o then
              getObjectLoop rest (negb isRefId)
                {| object := o; options := sub; parent := object info;
                   key_ := Some (KName (name (options info)));
                   location := location info ++ [KName (name sub)] |}
            else Ok None
        end
  end.

Definition getObjectFromRefPath (obj : value) (isCollection : bool)
    (refPath : list string) (opts : NormalizedFirestoreObjectOptions)
  : outcome (option ObjectInfo) :=
  getObjectLoop refPath isCollection
    {| object := obj; options := opts; parent := VNull; key_ := None; location := [] |}.

(** [applyDocumentChanges]: the snapshot's id and data (a data field called
    [id] wins over the snapshot's id, as in the object spread), then one field
    per configured subcollection: the list the previous document had, or []. *)
Definition subcollectionField (document : value) (n : string) : value :=
  if truthy document then
    match getProp document n with
    | Ok VUndefined | Throw _ => VArr []
    | Ok v => v
    end
  else VArr [].

Definition applyDocumentChanges (document : value) (snapshot : DocumentSnapshot)
    (opts : NormalizedFirestoreObjectOptions) : value :=
  VObj (fold_left
          (fun updatedDoc sub => <[name sub := subcollectionField document (name sub)]> updatedDoc)
          (subcollections opts)
          (snap_data snapshot ∪ {[ "id" := VStr (snap_id snapshot) ]})).

(** The body of the loop of [applyCollectionChanges] for one change. *)
Definition applyDocumentChange (opts : NormalizedFirestoreObjectOptions)
    (collection : list value) (documentChange : DocumentChange) : list value :=
  match type documentChange with
  | added =>
      let d := applyDocumentChanges VNull (doc documentChange) opts in
      splice collection (newIndex documentChange) 0 [d]
  | modified =>
      let updatedDocument :=
        applyDocumentChanges (index collection (oldIndex documentChange))
                             (doc documentChange) opts in
      if decide (oldIndex documentChange = newIndex documentChange) then
        splice collection (oldIndex documentChange) 1 [updatedDocument]
      else
        splice (splice collection (oldIndex documentChange) 1 [])
               (newIndex documentChange) 0 [updatedDocument]
  | removed =>
      splice collection (oldIndex documentChange) 1 []
  end.

(** [applyCollectionChanges] on an array: the changes of the snapshot, one
    after the other, each on the array the previous one left. *)
Fixpoint applyCollectionChanges (collection : list value) (snapshot : QuerySnapshot)
    (opts : NormalizedFirestoreObjectOptions) : list value :=
  match snapshot with
  | [] => collection
  | documentChange :: rest =>
      applyCollectionChanges (applyDocumentChange opts collection documentChange) rest opts
  end.

(** [applyCollectionChanges] on whatever the reference path found: a value
    that is no array has no [splice], so the first change throws. *)
Definition applyCollectionChangesTo (object : value) (snapshot : QuerySnapshot)
    (opts : NormalizedFirestoreObjectOptions) : outcome value :=
  match object with
  | VArr items => Ok (VArr (applyCollectionChanges items snapshot opts))
  | _ => match snapshot with [] => Ok object | _ => Throw TypeError end
  end.

(** The tree with the value at [loc] replaced: how a mutation of the object
    a reference path found shows from the root. *)
Fixpoint writeAt (root : value) (loc : list key) (new : value) : value :=
  match loc with
  | [] => new
  | KIndex i :: rest =>
      match root with
      | VArr items =>
          match items !! i with
          | Some d => VArr (<[i := writeAt d rest new]> items)
          | None => root
          end
      | _ => root
      end
  | KName n :: rest =>
      match root with
      | VObj props =>
          match props !! n with
          | Some v => VObj (<[n := writeAt v rest new]> props)
          | None => root
          end
      | _ => root
      end
  end.

Definition updateCollectionFromSnapshot (collection : list value)
    (opts : FirestoreObjectOptions) (refPath : list string) (snapshot : QuerySnapshot)
  : outcome (list value) :=
  let normalizedOptions := normalizeFirestoreObjectOptions opts in
  objectInfo ← getObjectFromRefPath (VArr collection) true refPath normalizedOptions;
  match objectInfo with
  | None => Ok collection
  | Some info =>
      changed ← applyCollectionChangesTo (object info) snapshot (options info);
      match writeAt (VArr collection) (location info) changed with
      | VArr items => Ok items
      | _ => Ok collection
      end
  end.

(** The index hints of a change address the list they are applied to: an
    insertion lands inside or right at the end, an update or removal names an
    existing position. *)
Definition indicesInRange (collection : list value) (c : DocumentChange) : Prop :=
  let len := Z.of_nat (length collection) in
  match type c with
  | added => 0 <= newIndex c <= len
  | modified => 0 <= oldIndex c < len /\ 0 <= newIndex c < len
  | removed => 0 <= oldIndex c < len
  end.

(** *** What "the reference path does not resolve" means

    A reference path alternates document ids and subcollection names.  It is
    followed through lists of documents (objects); [docId] is the id a
    document carries. *)
Definition docId (d : value) : option string :=
  match d with
  | VObj props => match props !! "id" with Some (VStr s) => Some s | _ => None end
  | _ => None
  end.

Definition isDocument (d : value) : Prop := exists props, d = VObj props.

(** [Unresolved obj isRefId opts refPath]: following [refPath] from [obj],
    some id segment matches no document of the list it addresses, or the
    field of a named subcollection is absent from the document reached. *)
Inductive Unresolved
  : value -> bool -> NormalizedFirestoreObjectOptions -> list string -> Prop :=
| unresolved_no_document items opts ref rest :
    Forall (fun d => isDocument d /\ docId d <> Some ref) items ->
    Unresolved (VArr items) true opts (ref :: rest)
| unresolved_field_absent props opts sub ref rest :
    findSubcollection (subcollections opts) ref = Some sub ->
    props !! name sub = None ->
    Unresolved (VObj props) false opts (ref :: rest)
| unresolved_below_document before d after opts ref rest :
    Forall (fun d' => isDocument d' /\ docId d' <> Some ref) before ->
    isDocument d -> docId d = Some ref ->
    Unresolved d false opts rest ->
    Unresolved (VArr (before ++ d :: after)) true opts (ref :: rest)
| unresolved_below_field props opts sub ref rest v :
    findSubcollection (subcollections opts) ref = Some sub ->
    props !! name sub = Some v ->
    truthy v = true ->
    Unresolved v true sub rest ->
    Unresolved (VObj props) false opts (ref :: rest).

(** *** Sample data *)

(** A list of three users and the event that moves the first to the end. *)
Definition user (id : string) (age : Z) : value :=
  VObj {[ "id" := VStr id; "age" := VNum age ]}.

Definition usersOptions : NormalizedFirestoreObjectOptions := NOptions "users" "users" [].

Definition moveFirstToEnd : DocumentChange :=
  {| type := modified;
     doc := {| snap_id := "a"; snap_data := {[ "age" := VNum 31 ]} |};
     oldIndex := 0; newIndex := 2 |}.

(** Users with their orders; the path asks for the orders of a user that is
    not in the list. *)
Definition usersWithOrders : FirestoreObjectOptions :=
  OptObject "users" None (Some [OptPath "orders"]).

Definition userWithOrders (id : string) (orders : list value) : value :=
  VObj {[ "id" := VStr id; "orders" := VArr orders ]}.

(** An update in place that names a position beyond the end of the list. *)
Definition staleUpdate : DocumentChange :=
  {| type := modified;
     doc := {| snap_id := "b"; snap_data := {[ "age" := VNum 20 ]} |};
     oldIndex := 1; newIndex := 1 |}.

Definition addOrder : DocumentChange :=
  {| type := added;
     doc := {| snap_id := "o9"; snap_data := {[ "total" := VNum 12 ]} |};
     oldIndex := -1; newIndex := 0 |}.

End Firestore.

(** ** The synced-collections module: subscribers, timers, sync state *)

Module Collections.
Import Js.

(** [CollectionSyncedList<T>]. *)
Record CollectionSyncedList := {
  list_ : list value;
  syncEnabled : bool;
  syncing : bool;
}.

(** [CollectionSubscriber].  A subscriber is an object compared by identity
    ([indexOf]); [subscriberRef] is that identity.  [onError] names the
    callback when there is one. *)
Record CollectionSubscriber := {
  subscriberRef : nat;
  onError : option nat;
}.

(** [CollectionsInfo].  The two unsubscribe functions are what the database
    client and the store hand back; they are known by a handle. *)
Record CollectionsInfo := {
  unsubscribeFromSync : option nat;
  firstSync : bool;
  collectionSubscribers : list CollectionSubscriber;
  unsubscribeFromCollectionOptions : option nat;
}.

(** A pending [setTimeout] callback of an unsubscribe function: the path and
    the subscriber it closes over, and when it is due. *)
Record Timer := {
  due : nat;
  timerPath : string;
  timerSubscriber : nat;
}.

(** What the module does to the outside, in the order it does it. *)
Inductive effect :=
| Listen (handle : nat) (path : string) (opts : Firestore.FirestoreObjectOptions)
    (* subscribeToCollection(options, ...), which returned [handle] *)
| Unlisten (handle : nat)
    (* unsubscribeFromSync() *)
| Watch (handle : nat) (path : string)
    (* store.watch(() => collectionOptions[path], ...), which returned [handle] *)
| Unwatch (handle : nat)
    (* unsubscribeFromCollectionOptions() *)
| ErrorCallback (subscriber : nat) (callback : nat) (error : string).
    (* subscriber.onError(error) *)

(** The module instance with the part of the world it acts on: the
    allocator of handles and subscriber objects, the clock and the pending
    timers (in scheduling order, which is their due order: the delay is one
    constant and the clock only moves forward), and the trace of effects. *)
Record Module := {
  collections : gmap string CollectionSyncedList;
  collectionsInfo : gmap string CollectionsInfo;
  nextRef : nat;
  now : nat;
  timers : list Timer;
  trace : list effect;
}.

Definition setCollections (f : gmap string CollectionSyncedList -> gmap string CollectionSyncedList)
    (this : Module) : Module :=
  {| collections := f (collections this); collectionsInfo := collectionsInfo this;
     nextRef := nextRef this; now := now this; timers := timers this; trace := trace this |}.

Definition setCollectionsInfo (f : gmap string CollectionsInfo -> gmap string CollectionsInfo)
    (this : Module) : Module :=
  {| collections := collections this; collectionsInfo := f (collectionsInfo this);
     nextRef := nextRef this; now := now this; timers := timers this; trace := trace this |}.

Definition emit (e : effect) (this : Module) : Module :=
  {| collections := collections this; collectionsInfo := collectionsInfo this;
     nextRef := nextRef this; now := now this; timers := timers this;
     trace := trace this ++ [e] |}.

(** A fresh handle or object identity. *)
Definition alloc (this : Module) : nat * Module :=
  (nextRef this,
   {| collections := collections this; collectionsInfo := collectionsInfo this;
      nextRef := S (nextRef this); now := now this; timers := timers this;
      trace := trace this |}).

Definition setTimers (ts : list Timer) (this : Module) : Module :=
  {| collections := collections this; collectionsInfo := collectionsInfo this;
     nextRef := nextRef this; now := now this; timers := ts; trace := trace this |}.

Definition setNow (t : nat) (this : Module) : Module :=
  {| collections := collections this; collectionsInfo := collectionsInfo this;
     nextRef := nextRef this; now := t; timers := timers this; trace := trace this |}.

(** A freshly constructed module. *)
Definition newModule : Module :=
  {| collections := ∅; collectionsInfo := ∅; nextRef := 0%nat; now := 0%nat;
     timers := []; trace := [] |}.

Section Methods.
(** [mapCollectionOptions], which subclasses override (by default the path
    itself), and [unsubscribeWaitTime] (by default 5000). *)
Variable mapCollectionOptions : string -> Firestore.FirestoreObjectOptions.
Variable unsubscribeWaitTime : nat.

(** The getter [collectionOptions], read at one path: the options of the
    paths that have a record. *)
Definition collectionOptions (this : Module) (collectionPath : string)
  : option Firestore.FirestoreObjectOptions :=
  match collections this !! collectionPath with
  | Some _ => Some (mapCollectionOptions collectionPath)
  | None => None
  end.

(** Mutation [createCollection]. *)
Definition createCollection (collectionPath : string) (this : Module) : Module :=
  setCollections
    (insert collectionPath {| list_ := []; syncEnabled := false; syncing := false |})
    (setCollectionsInfo
       (insert collectionPath
          {| unsubscribeFromSync := None; firstSync := false;
             collectionSubscribers := []; unsubscribeFromCollectionOptions := None |})
       this).

(** Mutation [setSyncStatus]. *)
Definition setSyncStatus (collectionPath : string) (enabled syncing_ : bool)
    (resetCollection : bool) (this : Module) : Module :=
  match collections this !! collectionPath with
  | Some collection =>
      if resetCollection then
        setCollectionsInfo (delete collectionPath)
          (setCollections (delete collectionPath) this)
      else
        setCollections
          (insert collectionPath
             {| list_ := list_ collection; syncEnabled := enabled; syncing := syncing_ |})
          this
  | None => this
  end.

(** Mutation [clearCollectionSubscribers]. *)
Definition clearCollectionSubscribers (collectionPath : string) (this : Module) : Module :=
  match collectionsInfo this !! collectionPath with
  | Some collectionInfo =>
      setCollectionsInfo
        (insert collectionPath
           {| unsubscribeFromSync := unsubscribeFromSync collectionInfo;
              firstSync := firstSync collectionInfo;
              collectionSubscribers := [];
              unsubscribeFromCollectionOptions :=
                unsubscribeFromCollectionOptions collectionInfo |})
        this
  | None => this
  end.

(** Mutation [updateCollectionFromSnapshot].  Reading [firstSync] of a
    missing info record throws. *)
Definition updateCollectionFromSnapshot (collectionPath : string)
    (refPath : list string) (snapshot : Firestore.QuerySnapshot) (this : Module)
  : outcome Module :=
  match collections this !! collectionPath with
  | Some collection =>
      match collectionsInfo this !! collectionPath with
      | None => Throw TypeError
      | Some collectionInfo =>
          updated ← Firestore.updateCollectionFromSnapshot
                      (if firstSync collectionInfo then [] else list_ collection)
                      (mapCollectionOptions collectionPath) refPath snapshot;
          Ok (setCollections
                (insert collectionPath
                   {| list_ := updated; syncEnabled := syncEnabled collection;
                      syncing := false |})
                (setCollectionsInfo
                   (insert collectionPath
                      {| unsubscribeFromSync := unsubscribeFromSync collectionInfo;
                         firstSync := false;
                         collectionSubscribers := collectionSubscribers collectionInfo;
                         unsubscribeFromCollectionOptions :=
                           unsubscribeFromCollectionOptions collectionInfo |})
                   this))
      end
  | None => Ok this
  end.

(** [stopCollectionSync]: both unsubscribe functions are called and deleted
    when they are there, then the status is cleared. *)
Definition stopCollectionSync (collectionPath : string) (resetCollection : bool)
    (this : Module) : outcome Module :=
  match collections this !! collectionPath with
  | Some collection =>
      if syncEnabled collection then
        match collectionsInfo this !! collectionPath with
        | None => Throw TypeError
        | Some collectionInfo =>
            let this1 :=
              match unsubscribeFromSync collectionInfo with
              | Some h => emit (Unlisten h) this
              | None => this
              end in
            let this2 :=
              match unsubscribeFromCollectionOptions collectionInfo with
              | Some w => emit (Unwatch w) this1
              | None => this1
              end in
            let this3 :=
              setCollectionsInfo
                (insert collectionPath
                   {| unsubscribeFromSync := None;
                      firstSync := firstSync collectionInfo;
                      collectionSubscribers := collectionSubscribers collectionInfo;
                      unsubscribeFromCollectionOptions := None |})
                this2 in
            Ok (setSyncStatus collectionPath false false resetCollection this3)
        end
      else Ok this
  | None => Ok this
  end.

(** [startCollectionSync]: a record is created when there is none; when
    sync is not enabled the first-sync flag is raised, the remote listener
    opened and the status set; the options watch is installed in any case. *)
Definition startCollectionSync (collectionPath : string) (this : Module)
  : outcome Module :=
  let this1 :=
    match collections this !! collectionPath with
    | Some _ => this
    | None => createCollection collectionPath this
    end in
  match collections this1 !! collectionPath, collectionsInfo this1 !! collectionPath with
  | Some collection, Some collectionInfo =>
      let '(this2, collectionInfo2) :=
        if syncEnabled collection then (this1, collectionInfo)
        else
          let '(h, this') := alloc this1 in
          let this'' := emit (Listen h collectionPath (mapCollectionOptions collectionPath)) this' in
          let info' :=
            {| unsubscribeFromSync := Some h; firstSync := true;
               collectionSubscribers := collectionSubscribers collectionInfo;
               unsubscribeFromCollectionOptions :=
                 unsubscribeFromCollectionOptions collectionInfo |} in
          (setSyncStatus collectionPath true true false
             (setCollectionsInfo (insert collectionPath info') this''),
           info') in
      let '(w, this3) := alloc this2 in
      let this4 := emit (Watch w collectionPath) this3 in
      Ok (setCollectionsInfo
            (insert collectionPath
               {| unsubscribeFromSync := unsubscribeFromSync collectionInfo2;
                  firstSync := firstSync collectionInfo2;
                  collectionSubscribers := collectionSubscribers collectionInfo2;
                  unsubscribeFromCollectionOptions := Some w |})
            this4)
  | _, _ => Throw TypeError
  end.

(** The error callback given to [subscribeToCollection]: the loop over
    the subscribers, then the handler itself. *)
Definition notifySubscribers (subscribers : list CollectionSubscriber) (error : string)
    (this : Module) : Module :=
  fold_left
    (fun this' subscriber =>
       match onError subscriber with
       | Some callback => emit (ErrorCallback (subscriberRef subscriber) callback error) this'
       | None => this'
       end)
    subscribers this.

Definition onSyncError (collectionPath : string) (error : string) (this : Module)
  : outcome Module :=
  let collectionInfo := collectionsInfo this !! collectionPath in
  this1 ← stopCollectionSync collectionPath false this;
  match collectionInfo with
  | Some info =>
      Ok (clearCollectionSubscribers collectionPath
            (notifySubscribers (collectionSubscribers info) error this1))
  | None => Ok this1
  end.

(** The callback of the options watch. *)
Definition onOptionsChanged (collectionPath : string) (this : Module) : outcome Module :=
  match collections this !! collectionPath with
  | Some collection =>
      if syncEnabled collection then
        this1 ← stopCollectionSync collectionPath false this;
        startCollectionSync collectionPath this1
      else Ok this
  | None => Ok this
  end.

(** [syncCollection]: the subscriber pushed and the unsubscribe function
    returned, which is known by the path and the subscriber it closes over. *)
Definition syncCollection (collectionPath : string) (onError_ : option nat)
    (this : Module) : outcome ((string * nat) * Module) :=
  needsStart ←
    match collections this !! collectionPath with
    | None => Ok true
    | Some collection =>
        if negb (syncEnabled collection) then Ok true
        else match collectionsInfo this !! collectionPath with
             | None => Throw TypeError
             | Some collectionInfo =>
                 Ok (bool_decide (collectionSubscribers collectionInfo = []))
             end
    end;
  this1 ← (if needsStart : bool then startCollectionSync collectionPath this else Ok this);
  match collectionsInfo this1 !! collectionPath with
  | None => Throw TypeError
  | Some collectionInfo =>
      let '(ref, this2) := alloc this1 in
      let subscriber := {| subscriberRef := ref; onError := onError_ |} in
      Ok ((collectionPath, ref),
          setCollectionsInfo
            (insert collectionPath
               {| unsubscribeFromSync := unsubscribeFromSync collectionInfo;
                  firstSync := firstSync collectionInfo;
                  collectionSubscribers := collectionSubscribers collectionInfo ++ [subscriber];
                  unsubscribeFromCollectionOptions :=
                    unsubscribeFromCollectionOptions collectionInfo |})
            this2)
  end.

(** Calling an unsubscribe function: only a timer is set. *)
Definition unsubscribe (f : string * nat) (this : Module) : Module :=
  setTimers
    (timers this ++
       [{| due := (now this + unsubscribeWaitTime)%nat;
           timerPath := f.1; timerSubscriber := f.2 |}])
    this.

(** [indexOf] and [splice(index, 1)] on the subscribers: the first
    occurrence of the subscriber object is removed. *)
Fixpoint removeSubscriber (ref : nat) (subscribers : list CollectionSubscriber)
  : list CollectionSubscriber :=
  match subscribers with
  | [] => []
  | s :: rest =>
      if Nat.eqb (subscriberRef s) ref then rest else s :: removeSubscriber ref rest
  end.

(** The timer callback of an unsubscribe function. *)
Definition onTimer (t : Timer) (this : Module) : outcome Module :=
  match collectionsInfo this !! timerPath t with
  | Some collectionInfo =>
      let remaining := removeSubscriber (timerSubscriber t) (collectionSubscribers collectionInfo) in
      let this1 :=
        setCollectionsInfo
          (insert (timerPath t)
             {| unsubscribeFromSync := unsubscribeFromSync collectionInfo;
                firstSync := firstSync collectionInfo;
                collectionSubscribers := remaining;
                unsubscribeFromCollectionOptions :=
                  unsubscribeFromCollectionOptions collectionInfo |})
          this in
      if bool_decide (remaining = []) then stopCollectionSync (timerPath t) false this1
      else Ok this1
  | None => Ok this
  end.

(** The callbacks of a list of timers, one after the other. *)
Fixpoint fire (due_ : list Timer) (this : Module) : outcome Module :=
  match due_ with
  | [] => Ok this
  | t :: rest => this1 ← onTimer t this; fire rest this1
  end.

(** Time passes: the clock moves on and the timers that are due fire, in
    order; the others stay pending. *)
Definition advance (dt : nat) (this : Module) : outcome Module :=
  let t := (now this + dt)%nat in
  let isDue (x : Timer) := Nat.leb (due x) t in
  fire (List.filter isDue (timers this))
       (setTimers (List.filter (fun x => negb (isDue x)) (timers this)) (setNow t this)).

(** What happens to a module, from the outside. *)
Inductive op :=
| Subscribe (collectionPath : string) (onError_ : option nat)
| CallUnsubscribe (k : nat)        (* the function the k-th Subscribe returned *)
| Advance (dt : nat).

(** One operation, on the module and the unsubscribe functions handed out
    so far. *)
Definition step (o : op) (st : Module * list (string * nat))
  : outcome (Module * list (string * nat)) :=
  let '(this, fs) := st in
  match o with
  | Subscribe collectionPath onError_ =>
      r ← syncCollection collectionPath onError_ this;
      Ok (r.2, fs ++ [r.1])
  | CallUnsubscribe k =>
      match fs !! k with
      | Some f => Ok (unsubscribe f this, fs)
      | None => Ok (this, fs)
      end
  | Advance dt =>
      this1 ← advance dt this; Ok (this1, fs)
  end.

Fixpoint run (ops : list op) (st : Module * list (string * nat))
  : outcome (Module * list (string * nat)) :=
  match ops with
  | [] => Ok st
  | o :: rest => st1 ← step o st; run rest st1
  end.

(** Every operation of [ops] succeeds and [P] holds of the module after
    each of them. *)
Fixpoint always (P : Module -> Prop) (ops : list op) (st : Module * list (string * nat))
  : Prop :=
  match ops with
  | [] => True
  | o :: rest => exists st1, step o st = Ok st1 /\ P st1.1 /\ always P rest st1
  end.

(** One subscribe call per callback, then every returned unsubscribe
    function is called. *)
Definition subscribeThenUnsubscribeAll (collectionPath : string)
    (callbacks : list (option nat)) : list op :=
  (Subscribe collectionPath <$> callbacks)
    ++ (CallUnsubscribe <$> seq 0 (length callbacks)).

(** ... then, [d] later, one more subscribe, and [dt] passes. *)
Definition resubscribeScenario (collectionPath : string)
    (callbacks : list (option nat)) (d : nat) (again : option nat) (dt : nat) : list op :=
  subscribeThenUnsubscribeAll collectionPath callbacks
    ++ [Advance d; Subscribe collectionPath again; Advance dt].

(** Sync of a path is up on the listener [h]: the status says enabled and
    the info record holds [h]. *)
Definition syncUp (collectionPath : string) (h : nat) (this : Module) : Prop :=
  (exists collection, collections this !! collectionPath = Some collection /\
                      syncEnabled collection = true) /\
  (exists collectionInfo, collectionsInfo this !! collectionPath = Some collectionInfo /\
                          unsubscribeFromSync collectionInfo = Some h).

(** The subscribers of a path. *)
Definition subscribersOf (collectionPath : string) (this : Module)
  : list CollectionSubscriber :=
  match collectionsInfo this !! collectionPath with
  | Some collectionInfo => collectionSubscribers collectionInfo
  | None => []
  end.
End Methods.

(** The error callbacks a list of subscribers is owed, in the order of the
    list: one per subscriber that has a callback. *)
Definition errorCallbacks (subscribers : list CollectionSubscriber) (error : string)
  : list effect :=
  omap (fun s => (fun callback => ErrorCallback (subscriberRef s) callback error) <$> onError s)
       subscribers.

(** *** The states of the resubscribe scenario *)

Section Scenario.
Variable mapCollectionOptions : string -> Firestore.FirestoreObjectOptions.
Variable path : string.
Variable this0 : Module.

(** The module while the path is synced on the listener opened by the
    first subscribe: its subscribers, the pending timers, the clock, and
    how many subscriber objects were allocated. *)
Definition synced (subs : list CollectionSubscriber) (ts : list Timer) (t n : nat) : Module :=
  {| collections :=
       <[path := {| list_ := []; syncEnabled := true; syncing := true |}]> (collections this0);
     collectionsInfo :=
       <[path := {| unsubscribeFromSync := Some (nextRef this0); firstSync := true;
                    collectionSubscribers := subs;
                    unsubscribeFromCollectionOptions := Some (S (nextRef this0)) |}]>
         (collectionsInfo this0);
     nextRef := (S (S (nextRef this0)) + n)%nat; now := t; timers := ts;
     trace := trace this0 ++ [Listen (nextRef this0) path (mapCollectionOptions path);
                              Watch (S (nextRef this0)) path] |}.

(** The module once the last subscriber is gone and sync was stopped. *)
Definition stopped (ts : list Timer) (t n : nat) : Module :=
  {| collections :=
       <[path := {| list_ := []; syncEnabled := false; syncing := false |}]> (collections this0);
     collectionsInfo :=
       <[path := {| unsubscribeFromSync := None; firstSync := true;
                    collectionSubscribers := [];
                    unsubscribeFromCollectionOptions := None |}]>
         (collectionsInfo this0);
     nextRef := (S (S (nextRef this0)) + n)%nat; now := t; timers := ts;
     trace := trace this0 ++ [Listen (nextRef this0) path (mapCollectionOptions path);
                              Watch (S (nextRef this0)) path;
                              Unlisten (nextRef this0); Unwatch (S (nextRef this0))] |}.

(** Subscriber objects allocated one after the other from [ref] on. *)
Fixpoint subscribersFrom (ref : nat) (callbacks : list (option nat))
  : list CollectionSubscriber :=
  match callbacks with
  | [] => []
  | callback :: rest =>
      {| subscriberRef := ref; onError := callback |} :: subscribersFrom (S ref) rest
  end.

Definition unsubscribeFunctions (subs : list CollectionSubscriber) : list (string * nat) :=
  (fun s => (path, subscriberRef s)) <$> subs.

Definition timersOf (due_ : nat) (subs : list CollectionSubscriber) : list Timer :=
  (fun s => {| due := due_; timerPath := path; timerSubscriber := subscriberRef s |}) <$> subs.

(** Sync is up on the listener of the first subscribe, and the module has
    opened that one listener and torn nothing down. *)
Definition undisturbed (this : Module) : Prop :=
  syncUp path (nextRef this0) this /\
  trace this = trace this0 ++ [Listen (nextRef this0) path (mapCollectionOptions path);
                               Watch (S (nextRef this0)) path].
End Scenario.

(** *** Sample data *)

(** A module syncing [users] for two subscribers, one with an error callback. *)
Definition syncedModule : Module :=
  {| collections :=
       {[ "users" := {| list_ := [Firestore.user "u1" 30];
                        syncEnabled := true; syncing := false |} ]};
     collectionsInfo :=
       {[ "users" := {| unsubscribeFromSync := Some 0%nat; firstSync := false;
                        collectionSubscribers :=
                          [{| subscriberRef := 2; onError := Some 7%nat |};
                           {| subscriberRef := 3; onError := None |}];
                        unsubscribeFromCollectionOptions := Some 1%nat |} ]};
     nextRef := 4%nat; now := 0%nat; timers := [];
     trace := [Listen 0 "users" (Firestore.OptPath "users"); Watch 1 "users"] |}.

(** A module that still caches a row of an earlier sync generation. *)
Definition staleModule : Module :=
  {| collections :=
       {[ "users" := {| list_ := [Firestore.user "old" 99];
                        syncEnabled := false; syncing := false |} ]};
     collectionsInfo :=
       {[ "users" := {| unsubscribeFromSync := None; firstSync := true;
                        collectionSubscribers := [];
                        unsubscribeFromCollectionOptions := None |} ]};
     nextRef := 0%nat; now := 0%nat; timers := []; trace := [] |}.

Definition firstUsers : Firestore.QuerySnapshot :=
  [ {| Firestore.type := Firestore.added;
       Firestore.doc := {| Firestore.snap_id := "u1"; Firestore.snap_data := ∅ |};
       Firestore.oldIndex := -1; Firestore.newIndex := 0 |} ].

End Collections.

(** ** proxy.ts and the identity wrapping of vuex-decorators.ts *)

Module Proxies.
Import Js.

(** Values the walk does not enter: [null] and whatever [typeof] does not
    call "object". *)
Inductive primitive :=
| Undefined
| Null
| Boolean (b : bool)
| Number (n : Z)
| String_ (s : string)
| Function_ (f : nat)
| Symbol_ (n : nat)
| BigInt (n : Z).

(** A property is a data property, writable or not, or a getter/setter pair
    over a stored value (the accessors of an observed object). *)
Inductive propertyKind :=
| Data (writable : bool)
| Accessor.

Record attributes := {
  configurable : bool;
  enumerable : bool;
  kind : propertyKind;
}.

(** An object is a live wrapper (a [Proxy] made by [createNonEnumerableProxy],
    answering its id and its target), or an ordinary object or array.  Of an
    ordinary object the walk looks at: its own [__proxy_id] when it is
    defined (a token is a string: only the wrapper writes that property), so
    [Some] token marks a tokenized copy without target; whether it is an
    array; whether its prototype is the bare [Object.prototype]; whether it
    has own symbol keys; and its other own string-keyed properties with their
    descriptors, in [getOwnPropertyNames] order. *)
Inductive pvalue :=
| PLeaf (p : primitive)
| PProxy (id : string) (target : pvalue)
| PObject (token : option string) (isArray plainPrototype ownSymbols : bool)
          (props : list (string * (attributes * pvalue))).

(** The token tables, [Map<string, any>].  In development mode the walk is
    given the same map for both generations; in production a fresh one for
    the new generation. *)
Inductive tables :=
| SameMap (proxyObjects : gmap string pvalue)
| TwoMaps (oldProxyObjects newProxyObjects : gmap string pvalue).

Definition oldProxyObjects (t : tables) : gmap string pvalue :=
  match t with SameMap m => m | TwoMaps old _ => old end.

Definition newProxyObjects (t : tables) : gmap string pvalue :=
  match t with SameMap m => m | TwoMaps _ new => new end.

(** [newProxyObjects.set(id, v)]. *)
Definition setNew (id : string) (v : pvalue) (t : tables) : tables :=
  match t with
  | SameMap m => SameMap (<[id := v]> m)
  | TwoMaps old new => TwoMaps old (<[id := v]> new)
  end.

(** [typeof]. *)
Inductive typeName :=
| TUndefined | TBoolean | TNumber | TString | TObject | TFunction | TSymbol | TBigInt.

Definition typeof (v : pvalue) : typeName :=
  match v with
  | PLeaf Undefined => TUndefined
  | PLeaf Null => TObject
  | PLeaf (Boolean _) => TBoolean
  | PLeaf (Number _) => TNumber
  | PLeaf (String_ _) => TString
  | PLeaf (Function_ _) => TFunction
  | PLeaf (Symbol_ _) => TSymbol
  | PLeaf (BigInt _) => TBigInt
  | PProxy _ _ | PObject _ _ _ _ _ => TObject
  end.

Definition isTruthy (v : pvalue) : bool :=
  match v with
  | PLeaf Undefined | PLeaf Null => false
  | PLeaf (Boolean b) => b
  | PLeaf (Number n) => negb (n =? 0)
  | PLeaf (String_ s) => negb (String.eqb s "")
  | PLeaf (BigInt n) => negb (n =? 0)
  | _ => true
  end.

(** [isProxy]: the target symbol answers. *)
Definition isProxy (v : pvalue) : bool :=
  match v with PProxy _ _ => true | _ => false end.

(** [isProxyWithoutTarget]: a defined [__proxy_id] and no target. *)
Definition isProxyWithoutTarget (v : pvalue) : bool :=
  match v with PObject (Some _) _ _ _ _ => true | _ => false end.

(** [obj[key]] of an own property, undefined when there is none. *)
Definition readProperty (props : list (string * (attributes * pvalue))) (key : string)
  : pvalue :=
  match List.find (fun p => String.eqb p.1 key) props with
  | Some (_, (_, v)) => v
  | None => PLeaf Undefined
  end.

(** The test of one descriptor in [isJsonIncompatible]. *)
Definition descriptorIncompatible (isObservable : bool) (a : attributes) (v : pvalue)
  : bool :=
  negb (configurable a) || negb (enumerable a) ||
  match kind a with
  | Data writable =>
      negb writable ||
      match typeof v with
      | TUndefined | TBoolean | TNumber | TString | TObject => false
      | _ => true
      end
  | Accessor => negb isObservable
  end.

(** [isJsonIncompatible], on an ordinary object. *)
Definition isJsonIncompatible (isArray plainPrototype ownSymbols : bool)
    (props : list (string * (attributes * pvalue))) : bool :=
  if isArray then false
  else if negb plainPrototype then true
  else if ownSymbols then true
  else
    let isObservable := isTruthy (readProperty props "__ob__") in
    existsb (fun p => negb (String.eqb p.1 "__ob__") &&
                      descriptorIncompatible isObservable p.2.1 p.2.2) props.

Section Walk.
(** [randomString(32)]: what its k-th call returns. *)
Variable randomString : nat -> string.

(** The loop of [generateProxyId] with [triesLeft] tries to go, [k] draws
    having been made before; it answers with the number of draws made. *)
Fixpoint generateProxyIdLoop (triesLeft : nat) (old new : gmap string pvalue) (k : nat)
  : outcome string * nat :=
  match triesLeft with
  | O => (Throw ProxyIdError, k)
  | S triesLeft' =>
      let id := randomString k in
      if bool_decide (old !! id = None) && bool_decide (new !! id = None)
      then (Ok id, S k)
      else generateProxyIdLoop triesLeft' old new (S k)
  end.

Definition generateProxyId (old new : gmap string pvalue) (k : nat) : outcome string * nat :=
  generateProxyIdLoop 100 old new k.

(** What a call of [initProxiesRecursively] leaves: the value it returns,
    whether that is the very object it was given ([newValue === oldValue] in
    the caller), the tables, and the number of draws made so far. *)
Record walked := {
  result : pvalue;
  sameObject : bool;
  tablesAfter : tables;
  draws : nat;
}.

(** [obj[key] = newValue] on a property the walk is at: a data property
    that is not writable rejects the write, which throws in a module. *)
Definition assignable (a : attributes) : bool :=
  match kind a with Data writable => writable | Accessor => true end.

(** [initProxiesRecursively].  The value is a tree, so the recursion is on
    it; the loop over the own properties is [walkProps]. *)
Fixpoint initProxiesRecursively (obj : pvalue) (t : tables) (k : nat) : outcome walked :=
  match obj with
  | PLeaf _ => Ok {| result := obj; sameObject := true; tablesAfter := t; draws := k |}
  | PProxy id _ =>
      Ok {| result := obj; sameObject := true; tablesAfter := setNew id obj t; draws := k |}
  | PObject (Some id) _ _ _ _ =>
      let proxy := default (PLeaf Undefined) (oldProxyObjects t !! id) in
      Ok {| result := proxy; sameObject := false; tablesAfter := setNew id proxy t;
            draws := k |}
  | PObject None isArray plainPrototype ownSymbols props =>
      if isJsonIncompatible isArray plainPrototype ownSymbols props then
        match generateProxyId (oldProxyObjects t) (newProxyObjects t) k with
        | (Ok id, k') =>
            let proxy := PProxy id obj in
            Ok {| result := proxy; sameObject := false; tablesAfter := setNew id proxy t;
                  draws := k' |}
        | (Throw e, _) => Throw e
        end
      else
        let walkProps :=
          fix walkProps (ps : list (string * (attributes * pvalue))) (t : tables) (k : nat)
            : outcome (list (string * (attributes * pvalue)) * tables * nat) :=
            match ps with
            | [] => Ok ([], t, k)
            | (key, (a, oldValue)) :: rest =>
                w ← initProxiesRecursively oldValue t k;
                if negb (sameObject w) && negb (assignable a) then Throw TypeError
                else
                  r ← walkProps rest (tablesAfter w) (draws w);
                  Ok ((key, (a, result w)) :: r.1.1, r.1.2, r.2)
            end in
        r ← walkProps props t k;
        Ok {| result := PObject None isArray plainPrototype ownSymbols r.1.1;
              sameObject := true; tablesAfter := r.1.2; draws := r.2 |}
  end.
End Walk.

(** A token is taken when either generation has it. *)
Definition taken (old new : gmap string pvalue) (id : string) : Prop :=
  is_Some (old !! id) \/ is_Some (new !! id).

(** The loop over the own properties, for a given way to walk a value. *)
Fixpoint walkProps (walk : pvalue -> tables -> nat -> outcome walked)
    (ps : list (string * (attributes * pvalue))) (t : tables) (k : nat)
  : outcome (list (string * (attributes * pvalue)) * tables * nat) :=
  match ps with
  | [] => Ok ([], t, k)
  | (key, (a, oldValue)) :: rest =>
      w ← walk oldValue t k;
      if negb (sameObject w) && negb (assignable a) then Throw TypeError
      else
        r ← walkProps walk rest (tablesAfter w) (draws w);
        Ok ((key, (a, result w)) :: r.1.1, r.1.2, r.2)
  end.

(** The only ways a call tells its caller anything are what it returns and
    what it throws, and [walked] has no field for a report: a stale reference
    is surfaced when the call throws. *)
Definition staleReferenceSurfaced (o : outcome walked) : Prop :=
  match o with
  | Throw _ => True
  | Ok _ => False
  end.

(** Walking again what a walk returned, with the tables it left, changes
    nothing: same value, same tables, no further draw. *)
Definition secondWalkIsNoOp (randomString : nat -> string)
    (obj : pvalue) (t : tables) (k : nat) : Prop :=
  forall w, initProxiesRecursively randomString obj t k = Ok w ->
    initProxiesRecursively randomString (result w) (tablesAfter w) (draws w)
    = Ok {| result := result w; sameObject := true;
            tablesAfter := tablesAfter w; draws := draws w |}.

(** The wrappers a processed value holds where the walk goes, in the order
    it meets them. *)
Fixpoint wrappersOf (obj : pvalue) : list (string * pvalue) :=
  match obj with
  | PLeaf _ => []
  | PProxy id _ => [(id, obj)]
  | PObject _ _ _ _ props =>
      (fix each (ps : list (string * (attributes * pvalue))) : list (string * pvalue) :=
         match ps with
         | [] => []
         | p :: rest => wrappersOf p.2.2 ++ each rest
         end) props
  end.

(** A value with nothing left to resolve or wrap where the walk goes. *)
Fixpoint settled (obj : pvalue) : Prop :=
  match obj with
  | PLeaf _ | PProxy _ _ => True
  | PObject (Some _) _ _ _ _ => False
  | PObject None isArray plainPrototype ownSymbols props =>
      isJsonIncompatible isArray plainPrototype ownSymbols props = false /\
      (fix each (ps : list (string * (attributes * pvalue))) : Prop :=
         match ps with
         | [] => True
         | p :: rest => settled p.2.2 /\ each rest
         end) props
  end.

(** Every entry of a table is a live wrapper filed under its own id. *)
Definition wrappersOnly (m : gmap string pvalue) : Prop :=
  forall id v, m !! id = Some v -> exists target, v = PProxy id target.

Definition tablesOfWrappers (t : tables) : Prop :=
  wrappersOnly (oldProxyObjects t) /\ wrappersOnly (newProxyObjects t).

(** No tokenized copy the walk will meet is stale: its token is in the
    previous-generation table.  (The walk does not enter wrappers nor the
    objects it wraps.) *)
Fixpoint resolvable (old : gmap string pvalue) (obj : pvalue) : Prop :=
  match obj with
  | PLeaf _ | PProxy _ _ => True
  | PObject (Some id) _ _ _ _ => is_Some (old !! id)
  | PObject None isArray plainPrototype ownSymbols props =>
      if isJsonIncompatible isArray plainPrototype ownSymbols props then True
      else
        (fix each (ps : list (string * (attributes * pvalue))) : Prop :=
           match ps with
           | [] => True
           | p :: rest => resolvable old p.2.2 /\ each rest
           end) props
  end.

(** *** Filing wrappers, and what the two walks of a value do *)

(** Filing wrappers in the current-generation table, one after the other. *)
Definition registerAll (l : list (string * pvalue)) (t : tables) : tables :=
  foldl (fun t' p => setNew p.1 p.2 t') t l.

Definition insertAll (l : list (string * pvalue)) (m : gmap string pvalue)
  : gmap string pvalue :=
  foldl (fun m' p => <[p.1 := p.2]> m') m l.

(** Every token of the first table is a token of the second. *)
Definition grows (m m' : gmap string pvalue) : Prop :=
  forall id, is_Some (m !! id) -> is_Some (m' !! id).

(** Two properties with the same name and attributes whose values the
    compatibility test cannot tell apart. *)
Definition alike (p p' : string * (attributes * pvalue)) : Prop :=
  p'.1 = p.1 /\ p'.2.1 = p.2.1 /\
  typeof p'.2.2 = typeof p.2.2 /\ isTruthy p'.2.2 = isTruthy p.2.2.

Section Walks.
Variable randomString : nat -> string.

(** What the first walk of a value does, given tables of wrappers and no
    stale token: the value it returns is settled and looks the same to the
    compatibility test of its parent, the tables are the tables before with
    the wrappers of the returned value filed in order, and they are still
    tables of wrappers with every token they had. *)
Definition walkedWell (obj : pvalue) : Prop :=
  forall t k w,
    tablesOfWrappers t -> resolvable (oldProxyObjects t) obj ->
    initProxiesRecursively randomString obj t k = Ok w ->
    settled (result w) /\
    typeof (result w) = typeof obj /\ isTruthy (result w) = isTruthy obj /\
    tablesAfter w = registerAll (wrappersOf (result w)) t /\
    tablesOfWrappers (tablesAfter w) /\
    grows (oldProxyObjects t) (oldProxyObjects (tablesAfter w)).

(** What a walk of a settled value does: it hands the value back, files its
    wrappers again, and draws nothing. *)
Definition walkedAgain (r : pvalue) : Prop :=
  settled r ->
  forall t k,
    initProxiesRecursively randomString r t k
    = Ok {| result := r; sameObject := true;
            tablesAfter := registerAll (wrappersOf r) t; draws := k |}.
End Walks.

(** *** Sample data *)

(** A copy that outlived its source, and a generator for the examples. *)
Definition staleCopy : pvalue := PObject (Some "gone") false true false [].

Definition sampleRandomString (k : nat) : string :=
  match k with
  | O => "t0"
  | 1%nat => "t1"
  | _ => "t2"
  end.

Definition plain : attributes :=
  {| configurable := true; enumerable := true; kind := Data true |}.

(** An observed object (its accessors are those of the observer) whose
    [__ob__] is a stale copy. *)
Definition observedWithStaleObserver : pvalue :=
  PObject None false true false
    [("__ob__", ({| configurable := true; enumerable := false; kind := Data true |},
                 staleCopy));
     ("x", ({| configurable := true; enumerable := true; kind := Accessor |},
            PLeaf (Number 1)))].

(** A state holding a class instance and a copy whose wrapper the previous
    generation still has. *)
Definition sampleState : pvalue :=
  PObject None false true false
    [("session", (plain, PObject None false false false [("user", (plain, PLeaf (String_ "ann")))]));
     ("cart", (plain, PObject (Some "a") false true false []))].

Definition sampleTables : tables :=
  TwoMaps {[ "a" := PProxy "a" (PObject None false false false []) ]} ∅.

End Proxies.

(** ** vuex-decorators.ts: the module compiler and the module tree *)

Module Decorators.
Import Js.

(** The body of a method or accessor of the class, known by a number. *)
Definition code := nat.

(** What can be called: a method of the class, or one of the functions the
    compiler installs, which commit or dispatch under a fixed type. *)
Inductive callable :=
| Original (f : code)
| Commits (type : string)
| Dispatches (type : string).

(** Values the unwrapping does not look into. *)
Inductive leaf :=
| LUndefined
| LNull
| LBoolean (b : bool)
| LNumber (n : Z)
| LString (s : string)
| LFunction (c : callable)
| LComputed (g : code).     (* what reading an accessor of the class gave *)

(** A state tree: leaves and objects with their own enumerable properties in
    [for-in] order.  An object may carry the module-pointer marker
    ([symbols.vuexModule]), which names a module instance. *)
Inductive stree :=
| SLeaf (l : leaf)
| SObject (vuexModule : option nat) (props : list (string * stree)).

(** [wrapState(module)]. *)
Definition wrapState (m : nat) : stree := SObject (Some m) [].

(** What [this[propertyName]] is: a data property, something callable, an
    accessor of the class, or one of the two accessors the compiler
    installs. *)
Inductive slot :=
| Field (v : stree)
| Callable (c : callable)
| Getter (g : code)
| StateAccessor (key : string)       (* get/set this.state[key] *)
| StoreGetter (name : string).       (* get this.context.getters[name] *)

(** The metadata the four decorators leave on a property. *)
Record metadata := {
  isState : option string;
  isGetter : option (string * option code);   (* name, propertyDescriptor.get *)
  isMutation : option string;
  isAction : option (string * bool);          (* name, root *)
}.

(** What sits in the getter, mutation and action maps of the store module. *)
Inductive handler :=
| UserHandler (f : code)              (* put there by the subclass *)
| InitModuleHandler                   (* { root: true, handler: ... } *)
| GetterHandler (g : code)            (* getter.call(this) *)
| MutationHandler (mutator : callable)  (* mutator.apply(this, args) *)
| ActionHandler (action : callable).    (* action.apply(this, args) *)

(** [Module<State, RootState>], the store module under construction. *)
Record Mod := {
  namespaced : option bool;
  getters : option (gmap string handler);
  mutations : option (gmap string handler);
  actions : option (gmap string handler);
  modules : option (gmap string nat);
}.

(** A [VuexModule] instance, as far as compiling and unwrapping read and
    write it.  [members] lists the keys [getAllPropertyKeys] enumerates, each
    with its metadata and what the property currently is. *)
Record VuexModule := {
  namespace : option string;
  module : Mod;
  state : stree;
  vuexModuleInitialized : bool;
  members : list (string * (metadata * slot));
}.

Definition initModuleAction : string := "__initVuexModule__".

Definition namespacePrefix (this : VuexModule) : string :=
  match namespace this with
  | None => ""
  | Some n => n ++ "/"
  end.

Definition contextNamespacePrefix (this : VuexModule) : string :=
  if default false (namespaced (module this)) then "" else namespacePrefix this.

(** What a call of [initVuexModule] defines and registers, in order. *)
Inductive registration :=
| DefinedProperty (propertyName : string)
| RegisteredGetter (name : string)
| RegisteredMutation (name : string)
| RegisteredAction (name : string).

(** [obj[key] = v] on the own properties of an object. *)
Fixpoint setProp (key : string) (v : stree) (props : list (string * stree))
  : list (string * stree) :=
  match props with
  | [] => [(key, v)]
  | (k, old) :: rest =>
      if String.eqb k key then (k, v) :: rest else (k, old) :: setProp key v rest
  end.

(** Reading [this[propertyName]].  The accessor over a store getter reads
    [this.context], which is undefined until the store is set up: it throws. *)
Definition readSlot (this_state : stree) (s : slot) : outcome stree :=
  match s with
  | Field v => Ok v
  | Callable c => Ok (SLeaf (LFunction c))
  | Getter g => Ok (SLeaf (LComputed g))
  | StateAccessor key =>
      match this_state with
      | SObject _ props =>
          Ok (match List.find (fun p => String.eqb p.1 key) props with
              | Some (_, v) => v
              | None => SLeaf LUndefined
              end)
      | SLeaf (LUndefined | LNull) => Throw TypeError
      | SLeaf _ => Ok (SLeaf LUndefined)
      end
  | StoreGetter _ => Throw TypeError
  end.

(** [typeof this[propertyName] === "function"], with the function read. *)
Definition callableSlot (this_state : stree) (s : slot) : outcome (option callable) :=
  v ← readSlot this_state s;
  Ok (match v with
      | SLeaf (LFunction c) => Some c
      | _ => None
      end).

(** The state of the loop of [initVuexModule]: the state object, the three
    maps, and what was defined and registered so far. *)
Record compiling := {
  c_state : stree;
  c_getters : gmap string handler;
  c_mutations : gmap string handler;
  c_actions : gmap string handler;
  c_log : list registration;
}.

(** The last branch of the loop body: a declared action that is a function. *)
Definition compileAction (prefix : string) (propertyName : string)
    (md : metadata) (s : slot) (c : compiling) : outcome (slot * compiling) :=
  match isAction md with
  | Some (name, root) =>
      f ← callableSlot (c_state c) s;
      match f with
      | Some action =>
          Ok (Callable (Dispatches ((if root : bool then "" else prefix) ++ name)),
              {| c_state := c_state c; c_getters := c_getters c;
                 c_mutations := c_mutations c;
                 c_actions := <[name := ActionHandler action]> (c_actions c);
                 c_log := c_log c ++ [DefinedProperty propertyName; RegisteredAction name] |})
      | None => Ok (s, c)
      end
  | None => Ok (s, c)
  end.

(** The body of the loop for one property: the four branches, in the order
    of the source.  It answers the new slot of the property.  Writing a
    property of a state that is no object throws. *)
Definition compileMember (prefix : string) (propertyName : string)
    (md : metadata) (s : slot) (c : compiling) : outcome (slot * compiling) :=
  match isState md with
  | Some key =>
      v ← readSlot (c_state c) s;
      match c_state c with
      | SObject marker props =>
          Ok (StateAccessor key,
              {| c_state := SObject marker (setProp key v props);
                 c_getters := c_getters c; c_mutations := c_mutations c;
                 c_actions := c_actions c;
                 c_log := c_log c ++ [DefinedProperty propertyName] |})
      | SLeaf _ => Throw TypeError
      end
  | None =>
      match isGetter md with
      | Some (name, Some getter) =>
          Ok (StoreGetter name,
              {| c_state := c_state c;
                 c_getters := <[name := GetterHandler getter]> (c_getters c);
                 c_mutations := c_mutations c; c_actions := c_actions c;
                 c_log := c_log c ++ [DefinedProperty propertyName; RegisteredGetter name] |})
      | _ =>
          match isMutation md with
          | Some name =>
              f ← callableSlot (c_state c) s;
              match f with
              | Some mutator =>
                  Ok (Callable (Commits (prefix ++ name)),
                      {| c_state := c_state c; c_getters := c_getters c;
                         c_mutations := <[name := MutationHandler mutator]> (c_mutations c);
                         c_actions := c_actions c;
                         c_log := c_log c ++ [DefinedProperty propertyName;
                                              RegisteredMutation name] |})
              | None => compileAction prefix propertyName md s c
              end
          | None => compileAction prefix propertyName md s c
          end
      end
  end.

(** The loop over the property keys. *)
Fixpoint compileMembers (prefix : string) (ms : list (string * (metadata * slot)))
    (c : compiling) : outcome (list (string * (metadata * slot)) * compiling) :=
  match ms with
  | [] => Ok ([], c)
  | (propertyName, (md, s)) :: rest =>
      r ← compileMember prefix propertyName md s c;
      rs ← compileMembers prefix rest r.2;
      Ok ((propertyName, (md, r.1)) :: rs.1, rs.2)
  end.

(** [initVuexModule]: nothing when the instance is marked as compiled;
    otherwise the mark is set, the missing parts of the store module are
    created, the bootstrap action is registered and the members compiled. *)
Definition initVuexModule (this : VuexModule)
  : outcome (VuexModule * list registration) :=
  if vuexModuleInitialized this then Ok (this, [])
  else
    let storeModule := module this in
    let namespaced' := Some (default true (namespaced storeModule)) in
    let state0 :=
      match state this with
      | SLeaf LUndefined => SObject None []
      | st => st
      end in
    let this1 :=
      {| namespace := namespace this;
         module := {| namespaced := namespaced'; getters := getters storeModule;
                      mutations := mutations storeModule; actions := actions storeModule;
                      modules := modules storeModule |};
         state := state0; vuexModuleInitialized := true; members := members this |} in
    r ← compileMembers (contextNamespacePrefix this1) (members this)
          {| c_state := state0;
             c_getters := default ∅ (getters storeModule);
             c_mutations := default ∅ (mutations storeModule);
             c_actions := <[initModuleAction := InitModuleHandler]> (default ∅ (actions storeModule));
             c_log := [RegisteredAction initModuleAction] |};
    Ok ({| namespace := namespace this;
           module := {| namespaced := namespaced';
                        getters := Some (c_getters r.2);
                        mutations := Some (c_mutations r.2);
                        actions := Some (c_actions r.2);
                        modules := Some (default ∅ (modules storeModule)) |};
           state := c_state r.2; vuexModuleInitialized := true; members := r.1 |},
        c_log r.2).

(** [getModule]: the store module, its state being the marker of the
    instance [self]. *)
Definition getModule (self : nat) (this : VuexModule) : Mod * stree :=
  (module this, wrapState self).

(** *** Unwrapping the module tree *)

Definition setNamespace (n : option string) (this : VuexModule) : VuexModule :=
  {| namespace := n; module := module this; state := state this;
     vuexModuleInitialized := vuexModuleInitialized this; members := members this |}.

Definition setState (st : stree) (this : VuexModule) : VuexModule :=
  {| namespace := namespace this; module := module this; state := st;
     vuexModuleInitialized := vuexModuleInitialized this; members := members this |}.

(** [vuexModule.namespace = namespace] when it is still undefined. *)
Definition assignNamespace (n : option string) (this : VuexModule) : VuexModule :=
  match namespace this with
  | None => setNamespace n this
  | Some _ => this
  end.

(** [namespace === undefined ? propertyName : namespace + "/" + propertyName]. *)
Definition propertyNamespace (namespace_ : option string) (propertyName : string)
  : option string :=
  Some (match namespace_ with
        | None => propertyName
        | Some n => (n ++ "/" ++ propertyName)%string
        end).

(** The loop over the own properties, for a given way to unwrap a value. *)
Fixpoint unwrapProps
    (unwrap : stree -> option string -> gmap nat VuexModule -> list nat ->
              option (stree * gmap nat VuexModule * list nat))
    (namespace_ : option string) (props : list (string * stree))
    (h : gmap nat VuexModule) (modules_ : list nat)
  : option (list (string * stree) * gmap nat VuexModule * list nat) :=
  match props with
  | [] => Some ([], h, modules_)
  | (propertyName, oldValue) :: rest =>
      match unwrap oldValue (propertyNamespace namespace_ propertyName) h modules_ with
      | None => None
      | Some (newValue, h1, modules1) =>
          match unwrapProps unwrap namespace_ rest h1 modules1 with
          | None => None
          | Some (rest', h2, modules2) => Some ((propertyName, newValue) :: rest', h2, modules2)
          end
      end
  end.

(** [unwrapStateRecursively].  Module instances are objects the markers
    point to: [h] holds them by their identity, and the call answers with the
    instances as it leaves them and the [modules] array as it grew.  The
    recursion goes through the state of the modules it meets, so it is
    bounded by [fuel]: [None] is a call that did not finish within it (or a
    marker that names no instance, which a marker of the source cannot). *)
Fixpoint unwrapStateRecursively (fuel : nat) (obj : stree) (namespace_ : option string)
    (h : gmap nat VuexModule) (modules_ : list nat)
  : option (stree * gmap nat VuexModule * list nat) :=
  match fuel with
  | O => None
  | S fuel' =>
      match obj with
      | SLeaf _ => Some (obj, h, modules_)
      | SObject (Some m) _ =>
          match h !! m with
          | None => None
          | Some vuexModule =>
              let vuexModule1 := assignNamespace namespace_ vuexModule in
              match unwrapStateRecursively fuel' (state vuexModule1) namespace_
                      (<[m := vuexModule1]> h) (modules_ ++ [m]) with
              | None => None
              | Some (unwrapped, h2, modules2) =>
                  match h2 !! m with
                  | None => None
                  | Some vuexModule2 =>
                      Some (unwrapped, <[m := setState unwrapped vuexModule2]> h2, modules2)
                  end
              end
          end
      | SObject None props =>
          match unwrapProps (unwrapStateRecursively fuel') namespace_ props h modules_ with
          | None => None
          | Some (props', h', modules') => Some (SObject None props', h', modules')
          end
      end
  end.

(** *** The module tree, as a tree

    An initial state in which every module instance sits under one marker:
    leaves, modules with the state they hold, and plain subtrees. *)
Inductive mtree :=
| MLeaf (l : leaf)
| MModule (m : nat) (instance : VuexModule) (st : mtree)
| MSubTree (props : list (string * mtree)).

(** The state tree as the store holds it before unwrapping: a marker in
    place of every module. *)
Fixpoint layout (t : mtree) : stree :=
  match t with
  | MLeaf l => SLeaf l
  | MModule m _ _ => wrapState m
  | MSubTree props => SObject None (map (fun p => (p.1, layout p.2)) props)
  end.

(** The state tree with every marker replaced by the module's own state,
    unwrapped in turn. *)
Fixpoint unwrapped (t : mtree) : stree :=
  match t with
  | MLeaf l => SLeaf l
  | MModule _ _ st => unwrapped st
  | MSubTree props => SObject None (map (fun p => (p.1, unwrapped p.2)) props)
  end.

(** The modules in pre-order: a module before the modules of its state,
    the properties of a subtree from first to last. *)
Fixpoint preorder (t : mtree) : list nat :=
  match t with
  | MLeaf _ => []
  | MModule m _ st => m :: preorder st
  | MSubTree props => flat_map (fun p => preorder p.2) props
  end.

(** The slash-delimited path of keys; no namespace for the empty path. *)
Definition namespaceOfPath (path : list string) : option string :=
  match path with
  | [] => None
  | _ :: _ => Some (String.concat "/" path)
  end.

(** The instances before unwrapping: each holds the layout of its state. *)
Fixpoint instancesBefore (t : mtree) : list (nat * VuexModule) :=
  match t with
  | MLeaf _ => []
  | MModule m instance st => (m, setState (layout st) instance) :: instancesBefore st
  | MSubTree props => flat_map (fun p => instancesBefore p.2) props
  end.

(** The instances after: the namespace is the path of keys from the root
    to the marker when none was assigned before, and the state is unwrapped. *)
Fixpoint instancesAfter (path : list string) (t : mtree) : list (nat * VuexModule) :=
  match t with
  | MLeaf _ => []
  | MModule m instance st =>
      (m, setState (unwrapped st) (assignNamespace (namespaceOfPath path) instance))
        :: instancesAfter path st
  | MSubTree props => flat_map (fun p => instancesAfter (path ++ [p.1]) p.2) props
  end.

Fixpoint height (t : mtree) : nat :=
  match t with
  | MLeaf _ => O
  | MModule _ _ st => S (height st)
  | MSubTree props => S (foldr (fun p n => Nat.max (height p.2) n) O props)
  end.

(** *** What the proofs speak of *)

(** The state stays an object through the loop, and no property is read
    through a store getter: then the loop does not throw. *)
Definition readable (s : slot) : Prop :=
  match s with StoreGetter _ => False | _ => True end.

(** What unwrapping does on the layout of a module tree. *)
Definition unwrapsWell (t : mtree) : Prop :=
  forall path (h : gmap nat VuexModule) ms fuel,
    NoDup (preorder t) ->
    Forall (fun p => h !! p.1 = Some p.2) (instancesBefore t) ->
    (height t < fuel)%nat ->
    exists h',
      unwrapStateRecursively fuel (layout t) (namespaceOfPath path) h ms
        = Some (unwrapped t, h', ms ++ preorder t) /\
      Forall (fun p => h' !! p.1 = Some p.2) (instancesAfter path t) /\
      (forall m, m ∉ preorder t -> h' !! m = h !! m).

(** Every instance is still there and a namespace that was assigned is
    still the same. *)
Definition keepsNamespaces (h h' : gmap nat VuexModule) : Prop :=
  forall m vm, h !! m = Some vm ->
    exists vm', h' !! m = Some vm' /\
                forall n, namespace vm = Some n -> namespace vm' = Some n.

(** *** Sample data *)

(** A module with a state field, a getter, a mutation and an action. *)
Definition noMetadata : metadata :=
  {| isState := None; isGetter := None; isMutation := None; isAction := None |}.

Definition cartModule : VuexModule :=
  {| namespace := Some "cart";
     module := {| namespaced := None; getters := None; mutations := None;
                  actions := None; modules := None |};
     state := SObject None [];
     vuexModuleInitialized := false;
     members :=
       [("items", ({| isState := Some "items"; isGetter := None; isMutation := None;
                      isAction := None |},
                   Field (SObject None [])));
        ("total", ({| isState := None; isGetter := Some ("total", Some 1%nat);
                      isMutation := None; isAction := None |},
                   Getter 1%nat));
        ("add", ({| isState := None; isGetter := None; isMutation := Some "add";
                    isAction := None |},
                 Callable (Original 2%nat)));
        ("checkout", ({| isState := None; isGetter := None; isMutation := None;
                         isAction := Some ("checkout", false) |},
                      Callable (Original 3%nat)));
        ("init", (noMetadata, Callable (Original 4%nat)))] |}.

(** A store with a cart module, a coupon module inside the cart's state
    (given a namespace by hand), and a user module. *)
Definition bare (n : option string) : VuexModule :=
  {| namespace := n;
     module := {| namespaced := None; getters := None; mutations := None;
                  actions := None; modules := None |};
     state := SLeaf LUndefined; vuexModuleInitialized := false; members := [] |}.

Definition storeTree : mtree :=
  MSubTree
    [("shop", MSubTree
        [("cart", MModule 0 (bare None)
                    (MSubTree [("items", MLeaf (LNumber 0));
                               ("coupon", MModule 1 (bare (Some "coupons"))
                                            (MSubTree [("code", MLeaf (LString "X"))]))]))]);
     ("user", MModule 2 (bare None) (MSubTree [("name", MLeaf (LString "ann"))]))].

Definition storeHeap : gmap nat VuexModule :=
  list_to_map (instancesBefore storeTree).

End Decorators.

(** ** firestore-utils.ts: what is written back, and the events of a list *)

Module Documents.
Import Js Firestore.

(** [DocumentInfo<T>]: the plain document and, for every field that holds a
    subcollection, its key and the options of the subcollection. *)
Record DocumentInfo := {
  document : gmap string value;
  subcollectionsInfo : list (string * NormalizedFirestoreObjectOptions);
}.

(** [options.subcollections.find(subcollection => subcollection.name === key)]. *)
Definition findSubcollectionByName (subs : list NormalizedFirestoreObjectOptions)
    (key : string) : option NormalizedFirestoreObjectOptions :=
  List.find (fun subcollection => String.eqb (name subcollection) key) subs.

(** What an enumerable property of the object to write holds, as far as
    [typeof] tells: a value of the documents, a function or a symbol. *)
Inductive field :=
| Data (v : value)
| Function_
| Symbol_.

(** An enumerable property that [for-in] visits: the object's own, or one
    it inherits from its prototype chain. *)
Inductive property :=
| Own (held : field)
| Inherited (held : field).

Definition held (p : property) : field :=
  match p with Own f | Inherited f => f end.

(** [["function", "symbol"].includes(typeof value)]. *)
Definition isFunctionOrSymbol (f : field) : bool :=
  match f with
  | Data _ => false
  | Function_ | Symbol_ => true
  end.

(** The body of the loop of [getPlainDocumentAndInfo] for one key, when
    [data.hasOwnProperty] is the one of [Object.prototype].  The assignment
    [document[key] = value] under the key [__proto__] reaches the setter of
    [Object.prototype] (as the engine provides it) and leaves the own
    properties of the document as they are. *)
Definition plainStep (opts : NormalizedFirestoreObjectOptions)
    (info : DocumentInfo) (p : string * property) : DocumentInfo :=
  match p.2 with
  | Inherited _ => info
  | Own value =>
      if String.eqb p.1 "id" then info
      else
        match findSubcollectionByName (subcollections opts) p.1 with
        | Some subcollectionOptions =>
            {| document := document info;
               subcollectionsInfo := subcollectionsInfo info ++ [(p.1, subcollectionOptions)] |}
        | None =>
            if isFunctionOrSymbol value then info
            else
              match value with
              | Data v =>
                  if String.eqb p.1 "__proto__" then info
                  else {| document := <[p.1 := v]> (document info);
                          subcollectionsInfo := subcollectionsInfo info |}
              | _ => info
              end
        end
  end.

(** The loop over the keys [for-in] visits. *)
Definition plainLoop (data : list (string * property))
    (opts : NormalizedFirestoreObjectOptions) : DocumentInfo :=
  fold_left (plainStep opts) data {| document := ∅; subcollectionsInfo := [] |}.

(** [getPlainDocumentAndInfo].  [data] lists the enumerable properties of
    the object in the order [for-in] visits them, every key once; their
    values are read without side effects (no getters), and
    [hasOwnProperty] is looked up among them before [Object.prototype] is
    asked.  An object that holds something else than a function under
    [hasOwnProperty] makes the call throw at the first key; what a function
    of the object's own answers is not determined here ([None]). *)
Definition getPlainDocumentAndInfo (data : list (string * property))
    (opts : NormalizedFirestoreObjectOptions) : option (outcome DocumentInfo) :=
  match List.find (fun p => String.eqb p.1 "hasOwnProperty") data with
  | None => Some (Ok (plainLoop data opts))
  | Some p =>
      match held p.2 with
      | Function_ => None
      | Data _ | Symbol_ => Some (Throw TypeError)
      end
  end.

(** The object whose own enumerable properties are the fields of a
    document. *)
Definition ownData (fields : list (string * value)) : list (string * property) :=
  prod_map id (fun v => Own (Data v)) <$> fields.

(** *** What the proofs speak of *)

Definition isType (t : DocumentChangeType) (c : DocumentChange) : bool :=
  match t, type c with
  | added, added | modified, modified | removed, removed => true
  | _, _ => false
  end.

(** How many changes of a snapshot are of one type. *)
Definition countOf (t : DocumentChangeType) (snapshot : QuerySnapshot) : nat :=
  length (List.filter (isType t) snapshot).

(** The index hints of every change address the list the change is applied
    to, that is the list the changes before it left. *)
Fixpoint eachInRange (opts : NormalizedFirestoreObjectOptions) (collection : list value)
    (snapshot : QuerySnapshot) : Prop :=
  match snapshot with
  | [] => True
  | c :: rest =>
      indicesInRange collection c /\
      eachInRange opts (applyDocumentChange opts collection c) rest
  end.

(** The own keys of [data] that hold a subcollection, each with the options
    found for it, in the order of [data]. *)
Definition subcollectionKeys (opts : NormalizedFirestoreObjectOptions)
    (data : list (string * property)) : list (string * NormalizedFirestoreObjectOptions) :=
  omap (fun p : string * property =>
          match p.2 with
          | Inherited _ => None
          | Own _ =>
              if String.eqb p.1 "id" then None
              else (fun o => (p.1, o)) <$> findSubcollectionByName (subcollections opts) p.1
          end)
       data.

(** What the plain document holds of a property of the object: the value
    of an own property that is neither a function nor a symbol, except under
    the key [__proto__]. *)
Definition plainField (k : string) (p : option property) : option value :=
  match p with
  | Some (Own (Data v)) => if String.eqb k "__proto__" then None else Some v
  | _ => None
  end.

(** *** Sample data *)

Definition ordersOptions : NormalizedFirestoreObjectOptions :=
  NOptions "users" "users" [NOptions "orders" "orders" []].

Definition ann : list (string * value) :=
  [("id", VStr "u1"); ("age", VNum 30); ("orders", VArr [VObj {[ "id" := VStr "o1" ]}])].

(** The same user as an instance of a class: with a method of its own and
    an enumerable property of its prototype. *)
Definition annInstance : list (string * property) :=
  ownData ann ++ [("greet", Own Function_); ("tag", Own Symbol_);
                  ("species", Inherited (Data (VStr "human")))].

Definition removeSecond : DocumentChange :=
  {| type := removed;
     doc := {| snap_id := "b"; snap_data := ∅ |};
     oldIndex := 1; newIndex := -1 |}.

End Documents.

(** ** utils.ts: random strings, property keys and property paths *)

Module Utils.
Import Js.

(** *** randomInt, randomString *)

(** What [Math.random()] returns: a number in [0, 1).  Numbers are
    idealised as fractions: the rounding of floating-point products is not
    modelled. *)
Record fraction := {
  numerator : Z;
  denominator : Z;
}.

Definition inUnitInterval (r : fraction) : Prop :=
  0 <= numerator r < denominator r.

(** [randomInt(from, to?)] for the value [random] of [Math.random()]:
    [Math.floor(random * (to - 1 - from) + from)], after the one-argument
    form has made its argument the upper bound. *)
Definition randomInt (random : fraction) (from : Z) (to : option Z) : Z :=
  let '(from, to) :=
    match to with
    | None => (0, from)
    | Some to => (from, to)
    end in
  (numerator random * (to - 1 - from) + from * denominator random) / denominator random.

(** [s.charAt(i)]: the empty string outside the string.  Strings are
    sequences of one-byte characters here. *)
Definition charAt (s : string) (i : Z) : string :=
  if decide (0 <= i) then
    match String.get (Z.to_nat i) s with
    | Some c => String c EmptyString
    | None => EmptyString
    end
  else EmptyString.

(** The loop of [randomString]: [chars[i]] for the [length_] indices from
    the first on, the k-th call of [Math.random()] returning [random k]. *)
Fixpoint randomChars (random : nat -> fraction) (length_ : nat) (charset : string) (k : nat)
  : list string :=
  match length_ with
  | O => []
  | S length' =>
      charAt charset (randomInt (random k) (Z.of_nat (String.length charset)) None)
        :: randomChars random length' charset (S k)
  end.

(** [randomString(length, charset)]: [chars.join("")]. *)
Definition randomString (random : nat -> fraction) (length_ : nat) (charset : string)
    (k : nat) : string :=
  String.concat "" (randomChars random length_ charset k).

Definition numbers : string := "0123456789".

(** *** getAllPropertyKeys *)

(** What [getAllPropertyKeys] looks at in an object: its own enumerable
    string keys in [for-in] order, and for every object of its prototype chain
    below [Object.prototype], from the nearest on, the names
    [Object.getOwnPropertyNames] lists. *)
Record shape := {
  ownEnumerable : list string;
  prototypes : list (list string);
}.

(** [keys.add(key)] on a [Set] in insertion order. *)
Definition add (key : string) (keys : list string) : list string :=
  if bool_decide (key ∈ keys) then keys else keys ++ [key].

Definition getAllPropertyKeys (obj : shape) : list string :=
  let keys := fold_left (fun keys key => add key keys) (ownEnumerable obj) [] in
  fold_left
    (fun keys prototype =>
       fold_left
         (fun keys key => if String.eqb key "constructor" then keys else add key keys)
         prototype keys)
    (prototypes obj) keys.

(** *** getProperty, setProperty *)

(** What an assignment [obj[key] = value] leaves: the object after it, or
    nothing the values here can record (a named property or a new length
    on an array). *)
Inductive assigned (V : Type) :=
| Assigned (obj : V)
| Unrecorded.
Global Arguments Assigned {V} obj.
Global Arguments Unrecorded {V}.

Section Paths.
(** The two functions only read members, test for [undefined] and assign a
    member; they are given for any values with these operations. *)
Context {V : Type}.
Variable undefined : V.
Variable isUndefined : V -> bool.
Variable member : V -> string -> outcome V.
Variable assign : V -> string -> V -> outcome (assigned V).

(** [getProperty(obj, path)]. *)
Fixpoint getProperty (obj : V) (path : list string) : outcome V :=
  match path with
  | [] => Ok obj
  | part :: rest =>
      obj' ← member obj part;
      if isUndefined obj' then Ok obj' else getProperty obj' rest
  end.

(** What the loop and the assignment of [setProperty] leave of the object
    they start from. *)
Inductive written :=
| Written (obj : V)     (* the assignment was made: the object after it *)
| Lost                  (* a value on the way was undefined: nothing was assigned *)
| NotRecorded.          (* the assignment left what the values here record *)

(** The loop of [setProperty] from [obj] on and the assignment at the end of
    a path that is not empty.  In the source the assignment mutates the
    object it reaches; here every object on the way is rebuilt around it. *)
Fixpoint setPropertyAt (obj value : V) (part : string) (rest : list string)
  : outcome written :=
  match rest with
  | [] =>
      r ← assign obj part value;
      Ok (match r with Assigned obj' => Written obj' | Unrecorded => NotRecorded end)
  | next :: rest' =>
      child ← member obj part;
      if isUndefined child then Ok Lost
      else
        w ← setPropertyAt child value next rest';
        match w with
        | Written child' =>
            r ← assign obj part child';
            Ok (match r with Assigned obj' => Written obj' | Unrecorded => NotRecorded end)
        | Lost => Ok Lost
        | NotRecorded => Ok NotRecorded
        end
  end.

(** [setProperty(obj, value, path)]: what it returns and the object it was
    given as the call leaves it; [None] when that is not recorded. *)
Definition setProperty (obj value : V) (path : list string) : outcome (option (V * V)) :=
  match path with
  | [] => Ok (Some (value, obj))
  | part :: rest =>
      w ← setPropertyAt obj value part rest;
      Ok (match w with
          | Written obj' => Some (obj', obj')
          | Lost => Some (undefined, obj)
          | NotRecorded => None
          end)
  end.
End Paths.
Global Arguments Written {V} obj.
Global Arguments Lost {V}.
Global Arguments NotRecorded {V}.

(** *** The members of the values of the document trees *)

Definition digitOf (c : Ascii.ascii) : option N :=
  let n := Ascii.N_of_ascii c in
  if (48 <=? n)%N && (n <=? 57)%N then Some (n - 48)%N else None.

Fixpoint digitsOf (s : string) (acc : N) : option N :=
  match s with
  | EmptyString => Some acc
  | String c rest =>
      match digitOf c with
      | Some d => digitsOf rest (10 * acc + d)%N
      | None => None
      end
  end.

(** A key that is an array index: the decimal numeral of an integer below
    2^32 - 1, without leading zeros. *)
Definition arrayIndex (key : string) : option nat :=
  match key with
  | EmptyString => None
  | String c rest =>
      match digitOf c, rest with
      | Some 0%N, EmptyString => Some O
      | Some 0%N, _ => None
      | _, _ =>
          match digitsOf key 0 with
          | Some n => if (n <? 4294967295)%N then Some (N.to_nat n) else None
          | None => None
          end
      end
  end.

Definition isUndefined (v : value) : bool :=
  match v with VUndefined => true | _ => false end.

(** What the prototype chain of a value holds under a key: nothing, a
    property with a value (a method, [constructor]), or an accessor (as
    [__proto__] of [Object.prototype]). *)
Inductive inheritance :=
| NoMember
| DataMember
| AccessorMember.

(** What reading a member gives: a value of the document trees, or
    something they do not hold (a function, a prototype, whatever a getter
    returns).  From there on nothing is said of what the source does. *)
Inductive reading :=
| Known (v : value)
| Beyond.

Section Members.
(** What the prototype chain of each value holds; it depends on the engine
    and on what the page has added to the prototypes.  The own properties of
    the values are plain (writable, without getters and setters), what the
    prototypes hold as properties is writable, and they hold no array
    indices. *)
Variable prototype : value -> string -> inheritance.

(** [obj[key]] for a key that is no own property of [obj]. *)
Definition inherited (obj : value) (key : string) : reading :=
  match prototype obj key with
  | NoMember => Known VUndefined
  | DataMember | AccessorMember => Beyond
  end.

(** [obj[key]]: of undefined and null it throws; an object answers its own
    properties, an array and a string their elements and their length; any
    other key is looked up in the prototype chain. *)
Definition member (obj : value) (key : string) : outcome reading :=
  match obj with
  | VUndefined | VNull => Throw TypeError
  | VObj props =>
      Ok (match props !! key with
          | Some v => Known v
          | None => inherited obj key
          end)
  | VArr items =>
      Ok (match arrayIndex key with
          | Some i =>
              match items !! i with
              | Some v => Known v
              | None => inherited obj key
              end
          | None =>
              if String.eqb key "length" then Known (VNum (Z.of_nat (length items)))
              else inherited obj key
          end)
  | VStr s =>
      Ok (match arrayIndex key with
          | Some i =>
              match String.get i s with
              | Some c => Known (VStr (String c EmptyString))
              | None => inherited obj key
              end
          | None =>
              if String.eqb key "length" then Known (VNum (Z.of_nat (String.length s)))
              else inherited obj key
          end)
  | VBool _ | VNum _ => Ok (inherited obj key)
  end.

(** Whether a primitive has the key as a property of its own (which cannot
    be written): the characters and the length of a string. *)
Definition ownOfPrimitive (obj : value) (key : string) : bool :=
  match obj with
  | VStr s =>
      match arrayIndex key with
      | Some i => bool_decide (i < String.length s)%nat
      | None => String.eqb key "length"
      end
  | _ => false
  end.

(** [obj[key] = value] in a module (strict mode).  On undefined and null
    it throws.  An inherited accessor takes the assignment to its setter,
    and what that does is not recorded.  Otherwise a primitive throws; an
    object sets its property; an array sets the element of an index, growing
    up to it, and what a key that is no index does to it is not recorded. *)
Definition assign (obj : value) (key : string) (v : reading) : outcome (assigned value) :=
  match obj with
  | VUndefined | VNull => Throw TypeError
  | VBool _ | VNum _ | VStr _ =>
      if ownOfPrimitive obj key then Throw TypeError
      else
        match prototype obj key with
        | AccessorMember => Ok Unrecorded
        | NoMember | DataMember => Throw TypeError
        end
  | VObj props =>
      let stored :=
        match v with
        | Known v => Assigned (VObj (<[key := v]> props))
        | Beyond => Unrecorded
        end in
      Ok (match props !! key with
          | Some _ => stored
          | None =>
              match prototype obj key with
              | AccessorMember => Unrecorded
              | NoMember | DataMember => stored
              end
          end)
  | VArr items =>
      Ok (match arrayIndex key, v with
          | Some i, Known v =>
              Assigned (VArr (if decide (i < length items)%nat then <[i := v]> items
                              else items ++ replicate (i - length items) VUndefined ++ [v]))
          | _, _ => Unrecorded
          end)
  end.

(** The three operations of [getProperty] and [setProperty], on what has
    been read. *)
Definition isUndefinedReading (r : reading) : bool :=
  match r with
  | Known v => isUndefined v
  | Beyond => false
  end.

Definition memberOf (r : reading) (key : string) : outcome reading :=
  match r with
  | Known obj => member obj key
  | Beyond => Ok Beyond
  end.

Definition assignTo (r : reading) (key : string) (v : reading) : outcome (assigned reading) :=
  match r with
  | Known obj =>
      a ← assign obj key v;
      Ok (match a with
          | Assigned obj' => Assigned (Known obj')
          | Unrecorded => Unrecorded
          end)
  | Beyond => Ok Unrecorded
  end.
End Members.

(** What every value inherits from [Object.prototype] in a browser.  (The
    methods of arrays, strings and numbers come on top of these.) *)
Definition objectPrototype (obj : value) (key : string) : inheritance :=
  if String.eqb key "__proto__" then AccessorMember
  else if bool_decide (key ∈ ["constructor"; "hasOwnProperty"; "isPrototypeOf";
                              "propertyIsEnumerable"; "toLocaleString"; "toString";
                              "valueOf"; "__defineGetter__"; "__defineSetter__";
                              "__lookupGetter__"; "__lookupSetter__"])
  then DataMember
  else NoMember.

(** *** Sample data *)

Definition half : fraction := {| numerator := 1; denominator := 2 |}.

Definition store : value :=
  VObj {[ "shop" := VObj {[ "cart" := VObj {[ "items" := VArr [] ]} ]} ]}.

Definition component : shape :=
  {| ownEnumerable := ["state"; "namespace"];
     prototypes := [["constructor"; "add"; "total"]; ["constructor"; "init"; "add"]] |}.

End Utils.

(** ** vuex-decorators.ts: where a module finds its state in the store *)

Module StateAccess.
Import Js Decorators.

(** [namespace.split("/")]. *)
Fixpoint split (s : string) : list string :=
  match s with
  | EmptyString => [EmptyString]
  | String c rest =>
      if String.eqb (String c EmptyString) "/" then EmptyString :: split rest
      else
        match split rest with
        | [] => [String c EmptyString]
        | first :: others => String c first :: others
        end
  end.

(** The getter [stateStorePath]. *)
Definition stateStorePath (this : VuexModule) : list string :=
  match namespace this with
  | None => []
  | Some n => split n
  end.

Definition isUndefined (obj : stree) : bool :=
  match obj with SLeaf LUndefined => true | _ => false end.

(** [obj[key]] on a state tree: what reading [state[key]] through the
    accessor of a state field does. *)
Definition member (obj : stree) (key : string) : outcome stree :=
  readSlot obj (StateAccessor key).

(** The getter of [state] that the bootstrap action installs:
    [getProperty(this.store.state, this.stateStorePath)]. *)
Definition stateGetter (storeState : stree) (this : VuexModule) : outcome stree :=
  Utils.getProperty isUndefined member storeState (stateStorePath this).

(** *** What the proofs speak of *)

Fixpoint hasSlash (s : string) : bool :=
  match s with
  | EmptyString => false
  | String c rest => String.eqb (String c EmptyString) "/" || hasSlash rest
  end.

(** The modules of a module tree, each with the path of keys from the root
    to its marker, its instance and the state it holds. *)
Fixpoint modulesAt (path : list string) (t : mtree)
  : list (list string * nat * VuexModule * mtree) :=
  match t with
  | MLeaf _ => []
  | MModule m instance st => (path, m, instance, st) :: modulesAt path st
  | MSubTree props => flat_map (fun p => modulesAt (path ++ [p.1]) p.2) props
  end.

(** The keys of every object of the tree are distinct (an object has a key
    once) and hold no slash. *)
Fixpoint wellKeyed (t : mtree) : Prop :=
  match t with
  | MLeaf _ => True
  | MModule _ _ st => wellKeyed st
  | MSubTree props =>
      NoDup props.*1 /\
      (fix each (ps : list (string * mtree)) : Prop :=
         match ps with
         | [] => True
         | p :: rest => hasSlash p.1 = false /\ wellKeyed p.2 /\ each rest
         end) props
  end.

(** *** The members of a class and what compiling declares *)

Definition stateKeys (ms : list (string * (metadata * slot))) : list string :=
  omap (fun m => isState m.2.1) ms.

Definition getterNames (ms : list (string * (metadata * slot))) : list string :=
  omap (fun m => fst <$> isGetter m.2.1) ms.

Definition mutationNames (ms : list (string * (metadata * slot))) : list string :=
  omap (fun m => isMutation m.2.1) ms.

Definition actionNames (ms : list (string * (metadata * slot))) : list string :=
  omap (fun m => fst <$> isAction m.2.1) ms.

End StateAccess.

(** ** The identity wrapping across generations *)

Module Generations.
Import Js Proxies.

(** A value as it is before any walk: where the walk goes it holds neither
    a wrapper nor a tokenized copy. *)
Fixpoint raw (obj : pvalue) : Prop :=
  match obj with
  | PLeaf _ => True
  | PProxy _ _ => False
  | PObject (Some _) _ _ _ _ => False
  | PObject None isArray plainPrototype ownSymbols props =>
      if isJsonIncompatible isArray plainPrototype ownSymbols props then True
      else
        (fix each (ps : list (string * (attributes * pvalue))) : Prop :=
           match ps with
           | [] => True
           | p :: rest => raw p.2.2 /\ each rest
           end) props
  end.

(** The tokens of the wrappers a value holds where the walk goes. *)
Definition tokensOf (obj : pvalue) : list string := (wrappersOf obj).*1.

(** What the walk of a raw value mints: wrappers under distinct tokens
    that were in neither table, filed in the current-generation table. *)
Definition mintsFresh (randomString : nat -> string) (obj : pvalue) : Prop :=
  forall t k w,
    raw obj -> initProxiesRecursively randomString obj t k = Ok w ->
    NoDup (tokensOf (result w)) /\
    (forall id, id ∈ tokensOf (result w) ->
       ~ taken (oldProxyObjects t) (newProxyObjects t) id) /\
    tablesAfter w = registerAll (wrappersOf (result w)) t.

(** *** Sample data *)

(** A state with two class instances, before any walk. *)
Definition freshState : pvalue :=
  PObject None false true false
    [("session", (plain, PObject None false false false []));
     ("cart", (plain, PObject None false false false [("n", (plain, PLeaf (Number 1)))]))].

End Generations.

(** ** IdPlugin: component names and ids *)

Module IdPlugin.
Import Js.

(** [componentIds: Map<string, number>]: the last id given under a name. *)
Abbreviation componentIds := (gmap string nat).

(** The option [componentId: string | true]. *)
Inductive componentIdOption :=
| Generated              (* true *)
| Named (name : string).

Section Names.
(** [randomString(8)]: what its k-th call returns. *)
Variable randomString : nat -> string.

(** The [do ... while] loop of [getComponentName] entered with [triesLeft]
    tries, [k] draws having been made before: a name is drawn, and drawn
    again while tries are left and the name is in use.  It answers with the
    number of draws made. *)
Fixpoint getComponentNameLoop (triesLeft : nat) (ids : componentIds) (k : nat)
  : string * nat :=
  let name := randomString k in
  match triesLeft with
  | S (S _ as triesLeft') =>
      if bool_decide (is_Some (ids !! name))
      then getComponentNameLoop triesLeft' ids (S k)
      else (name, S k)
  | _ => (name, S k)
  end.

Definition getComponentName (name : componentIdOption) (ids : componentIds) (k : nat)
  : string * nat :=
  match name with
  | Generated => getComponentNameLoop 100 ids k
  | Named name => (name, k)
  end.
End Names.

(** [generateId(component)]: the id and the map as the call leaves it. *)
Definition generateId (component : string) (ids : componentIds) : string * componentIds :=
  let id :=
    match ids !! component with
    | Some lastId => S lastId
    | None => O
    end in
  ((component ++ pretty id)%string, <[component := id]> ids).

(** The [beforeCreate] hook of the mixin: the [$componentId] the component
    gets, if any. *)
Definition beforeCreate (randomString : nat -> string)
    (componentId : option componentIdOption) (ids : componentIds) (k : nat)
  : option string * componentIds * nat :=
  match componentId with
  | None => (None, ids, k)
  | Some name =>
      let '(componentName, k') := getComponentName randomString name ids k in
      let '(id, ids') := generateId componentName ids in
      (Some id, ids', k')
  end.

(** [$id(field)]. *)
Definition id_ (componentId : option string) (field : option string) : string :=
  let hasComponentId := bool_decide (is_Some componentId) in
  let hasField := bool_decide (is_Some field) in
  (default "" componentId ++ (if hasComponentId && hasField then "-" else "")
     ++ default "" field)%string.

(** [generateId] for one component after the other. *)
Fixpoint generateIds (components : list string) (ids : componentIds)
  : list string * componentIds :=
  match components with
  | [] => ([], ids)
  | component :: rest =>
      let '(id, ids1) := generateId component ids in
      let '(more, ids2) := generateIds rest ids1 in
      (id :: more, ids2)
  end.

(** The number the next id of a component carries. *)
Definition nextId (ids : componentIds) (component : string) : nat :=
  match ids !! component with
  | Some lastId => S lastId
  | None => O
  end.

End IdPlugin.

(** ** DependencyPlugin: provide and inject *)

Module DependencyPlugin.
Import Js.

(** [Dependencies]: the values provided, which are the own properties
    [$provide] has defined on the object. *)
Abbreviation Dependencies := (gmap string value).

(** [$provide(id, value)] on the dependencies of the component:
    [this.$set(this.$dependencies, id, value)] defines the own property, or
    assigns it when it is there.  Under the two ids that reach the
    internals of the object ([__ob__], where Vue keeps its observer, and
    [__proto__]) what it leaves is not determined here. *)
Definition provide (dependencies : Dependencies) (id : string) (v : value)
  : option Dependencies :=
  if String.eqb id "__ob__" || String.eqb id "__proto__" then None
  else Some (<[id := v]> dependencies).

(** What [$inject] returns: a value of the documents, or the member that
    a dependencies object has under an id without anybody having provided it
    (a method of [Object.prototype], the observer of Vue). *)
Inductive found :=
| Value (v : value)
| Builtin (id : string).

Section Inject.
(** The ids under which a dependencies object that was provided nothing
    under them answers something truthy: the members of [Object.prototype]
    and, where [Vue.observable] has observed the object, [__ob__]. *)
Variable builtin : string -> bool.

(** [root.$dependencies[id]] when it is truthy. *)
Definition offers (root : option Dependencies) (id : string) : option found :=
  match root with
  | Some dependencies =>
      match dependencies !! id with
      | Some v => if truthy v then Some (Value v) else None
      | None => if builtin id then Some (Builtin id) else None
      end
  | None => None
  end.

(** [$inject(id)].  [ancestors] is the chain of [$parent], the nearest
    first, each with its [$dependencies] if it has them. *)
Fixpoint inject (ancestors : list (option Dependencies)) (id : string) : found :=
  match ancestors with
  | [] => Value VUndefined
  | root :: rest =>
      match root with
      | Some dependencies =>
          match dependencies !! id with
          | Some v => if truthy v then Value v else inject rest id
          | None => if builtin id then Builtin id else inject rest id
          end
      | None => inject rest id
      end
  end.
End Inject.

(** The members of [Object.prototype] in a browser, and the observer. *)
Definition standardMembers (id : string) : bool :=
  bool_decide (id ∈ ["constructor"; "hasOwnProperty"; "isPrototypeOf";
                     "propertyIsEnumerable"; "toLocaleString"; "toString"; "valueOf";
                     "__defineGetter__"; "__defineSetter__"; "__lookupGetter__";
                     "__lookupSetter__"; "__proto__"; "__ob__"]).

End DependencyPlugin.

(** ** firebase-utils.ts and storage-utils.ts: error guards *)

Module Storage.
Import Js.

(** [v != null]. *)
Definition notNull (v : value) : bool :=
  match v with VUndefined | VNull => false | _ => true end.

(** [error instanceof Object], for the values of the document trees. *)
Definition instanceofObject (v : value) : bool :=
  match v with VObj _ | VArr _ => true | _ => false end.

(** [error.field != null] on an object. *)
Definition has (error : value) (field : string) : bool :=
  match getProp error field with
  | Ok v => notNull v
  | Throw _ => false
  end.

Definition isHttpsError (error : value) : bool :=
  instanceofObject error && has error "code" && has error "message".

Definition isFirestoreError (error : value) : bool :=
  instanceofObject error && has error "code" && has error "message" && has error "name".

(** [s.startsWith(prefix)]. *)
Fixpoint startsWith (s prefix : string) : bool :=
  match prefix, s with
  | EmptyString, _ => true
  | String p prefix', String c s' => Ascii.eqb p c && startsWith s' prefix'
  | String _ _, EmptyString => false
  end.

(** [isStorageError]: the last test calls [startsWith] on the code, which
    only a string has. *)
Definition isStorageError (error : value) : outcome bool :=
  if instanceofObject error && has error "message" && has error "name" && has error "code"
  then
    match getProp error "code" with
    | Ok (VStr code) => Ok (startsWith code "storage/")
    | _ => Throw TypeError
    end
  else Ok false.

(** How an awaited call ends and how an async function does. *)
Inductive settled (A : Type) :=
| Fulfilled (a : A)
| Rejected (reason : value)        (* a value thrown or rejected with *)
| Failed (e : error).              (* an error raised by the language *)
Global Arguments Fulfilled {A} a.
Global Arguments Rejected {A} reason.
Global Arguments Failed {A} e.

(** The [catch] block both functions share, for the reason caught. *)
Definition missingIsFalse (reason : value) : settled bool :=
  match isStorageError reason with
  | Ok true =>
      match getProp reason "code" with
      | Ok (VStr code) =>
          if String.eqb code "storage/object-not-found" then Fulfilled false
          else Rejected reason
      | _ => Rejected reason
      end
  | Ok false => Rejected reason
  | Throw e => Failed e
  end.

(** A path or a reference; a reference is known by a handle. *)
Inductive pathOrRef :=
| Path (path : string)
| Ref (ref : nat).

(** [typeof pathOrRef === "string" ? firebaseStorage.ref(pathOrRef) : pathOrRef],
    [firebaseStorage] being undefined until [setStorage] was called. *)
Definition resolve (firebaseStorage : option (string -> nat)) (target : pathOrRef)
  : outcome nat :=
  match target with
  | Ref ref => Ok ref
  | Path path =>
      match firebaseStorage with
      | Some storage => Ok (storage path)
      | None => Throw TypeError
      end
  end.

(** [storageFileExists], given how [ref.getMetadata()] ends. *)
Definition storageFileExists (firebaseStorage : option (string -> nat))
    (getMetadata : nat -> settled unit) (target : pathOrRef) : settled bool :=
  match resolve firebaseStorage target with
  | Throw e => Failed e
  | Ok ref =>
      match getMetadata ref with
      | Fulfilled _ => Fulfilled true
      | Rejected error => missingIsFalse error
      | Failed e => Failed e
      end
  end.

(** [deleteStorageFile], given how [ref.delete()] ends. *)
Definition deleteStorageFile (firebaseStorage : option (string -> nat))
    (delete_ : nat -> settled unit) (target : pathOrRef) : settled bool :=
  match resolve firebaseStorage target with
  | Throw e => Failed e
  | Ok ref =>
      match delete_ ref with
      | Fulfilled _ => Fulfilled true
      | Rejected error => missingIsFalse error
      | Failed e => Failed e
      end
  end.

(** *** Sample data *)

Definition notFound : value :=
  VObj {[ "code" := VStr "storage/object-not-found"; "message" := VStr "no object";
          "name" := VStr "FirebaseError" ]}.

End Storage.

(** ** The synced-collections module over its whole life *)

Module Lifecycle.
Import Js Collections.

(** The remote listeners a trace leaves open, each with the path it was
    opened for: those opened and not closed since. *)
Definition listenerStep (opened : list (nat * string)) (e : effect) : list (nat * string) :=
  match e with
  | Listen h path _ => opened ++ [(h, path)]
  | Unlisten h => List.filter (fun x => negb (Nat.eqb x.1 h)) opened
  | _ => opened
  end.

Definition openListeners (tr : list effect) : list (nat * string) :=
  foldl listenerStep [] tr.

(** The options watches a trace leaves installed. *)
Definition watchStep (opened : list (nat * string)) (e : effect) : list (nat * string) :=
  match e with
  | Watch w path => opened ++ [(w, path)]
  | Unwatch w => List.filter (fun x => negb (Nat.eqb x.1 w)) opened
  | _ => opened
  end.

Definition openWatches (tr : list effect) : list (nat * string) :=
  foldl watchStep [] tr.

(** The path a handle was opened for, if it is open. *)
Definition pathOf (h : nat) (opened : list (nat * string)) : option string :=
  snd <$> List.find (fun x => Nat.eqb x.1 h) opened.

(** What happens to a module: a call from outside, or one of the callbacks
    it handed to the database client and to the store.  The client calls
    the callbacks of a listener, and the store the callback of a watch, only
    while it is open. *)
Inductive event :=
| Called (o : op)
| SnapshotArrived (h : nat) (refPath : list string) (snapshot : Firestore.QuerySnapshot)
| StreamFailed (h : nat) (error : string)
| OptionsChanged (w : nat).

Definition isSnapshot (e : event) : bool :=
  match e with SnapshotArrived _ _ _ => true | _ => false end.

Section Events.
Variable mapCollectionOptions : string -> Firestore.FirestoreObjectOptions.
Variable unsubscribeWaitTime : nat.

(** One event, on the module and the unsubscribe functions handed out. *)
Definition deliver (e : event) (st : Module * list (string * nat))
  : outcome (Module * list (string * nat)) :=
  match e with
  | Called o => step mapCollectionOptions unsubscribeWaitTime o st
  | SnapshotArrived h refPath snapshot =>
      match pathOf h (openListeners (trace st.1)) with
      | Some collectionPath =>
          this1 ← updateCollectionFromSnapshot mapCollectionOptions collectionPath
                    refPath snapshot st.1;
          Ok (this1, st.2)
      | None => Ok st
      end
  | StreamFailed h error =>
      match pathOf h (openListeners (trace st.1)) with
      | Some collectionPath =>
          this1 ← onSyncError collectionPath error st.1; Ok (this1, st.2)
      | None => Ok st
      end
  | OptionsChanged w =>
      match pathOf w (openWatches (trace st.1)) with
      | Some collectionPath =>
          this1 ← onOptionsChanged mapCollectionOptions collectionPath st.1; Ok (this1, st.2)
      | None => Ok st
      end
  end.

Fixpoint deliverAll (es : list event) (st : Module * list (string * nat))
  : outcome (Module * list (string * nat)) :=
  match es with
  | [] => Ok st
  | e :: rest => st1 ← deliver e st; deliverAll rest st1
  end.
End Events.

(** *** Error callbacks that call back *)

(** What the error callback of a subscriber may do to the module while it
    runs: subscribe, and call an unsubscribe function that was handed out. *)
Inductive call :=
| SubscribeAgain (collectionPath : string) (onError_ : option nat)
| CallReturned (k : nat).

(** What running a callback comes to: the calls it makes, and whether it
    throws after them. *)
Record reaction := {
  calls : list call;
  throws : bool;
}.

(** A callback that leaves the module alone. *)
Definition inert : reaction := {| calls := []; throws := false |}.

(** How the error handler of a listener ends: it returns, or the exception
    of a callback leaves it. *)
Inductive ending :=
| Returned
| Raised.

Section Reentrant.
Variable mapCollectionOptions : string -> Firestore.FirestoreObjectOptions.
Variable unsubscribeWaitTime : nat.
(** What the callback of each name does with an error. *)
Variable react : nat -> string -> reaction.

Definition callStep (c : call) (st : Module * list (string * nat))
  : outcome (Module * list (string * nat)) :=
  step mapCollectionOptions unsubscribeWaitTime
    (match c with
     | SubscribeAgain collectionPath onError_ => Subscribe collectionPath onError_
     | CallReturned k => CallUnsubscribe k
     end) st.

Fixpoint callAll (cs : list call) (st : Module * list (string * nat))
  : outcome (Module * list (string * nat)) :=
  match cs with
  | [] => Ok st
  | c :: rest => st1 ← callStep c st; callAll rest st1
  end.

(** [for (let subscriber of collectionInfo.collectionSubscribers)
    subscriber.onError?.(error)] from [index] on.  The loop reads the array
    of the record as it is when each element is due, so that a subscriber
    pushed by a callback is called in the same loop; [fuel] bounds the
    number of elements visited, and [None] says that it ran out. *)
Fixpoint notifyLive (fuel : nat) (collectionPath : string) (index : nat) (error : string)
    (st : Module * list (string * nat))
  : option (outcome ((Module * list (string * nat)) * ending)) :=
  match fuel with
  | O => None
  | S fuel' =>
      match subscribersOf collectionPath st.1 !! index with
      | None => Some (Ok (st, Returned))
      | Some subscriber =>
          match onError subscriber with
          | None => notifyLive fuel' collectionPath (S index) error st
          | Some callback =>
              let st1 :=
                (emit (ErrorCallback (subscriberRef subscriber) callback error) st.1, st.2) in
              match callAll (calls (react callback error)) st1 with
              | Throw e => Some (Throw e)
              | Ok st2 =>
                  if throws (react callback error) then Some (Ok (st2, Raised))
                  else notifyLive fuel' collectionPath (S index) error st2
              end
          end
      end
  end.

(** The error callback given to [subscribeToCollection], with the
    callbacks of the subscribers run as they are: sync is stopped, the
    subscribers are called, and when the loop has returned they are
    cleared. *)
Definition onSyncErrorLive (fuel : nat) (collectionPath : string) (error : string)
    (st : Module * list (string * nat))
  : option (outcome ((Module * list (string * nat)) * ending)) :=
  let collectionInfo := collectionsInfo st.1 !! collectionPath in
  match stopCollectionSync collectionPath false st.1 with
  | Throw e => Some (Throw e)
  | Ok this1 =>
      match collectionInfo with
      | Some _ =>
          match notifyLive fuel collectionPath 0 error (this1, st.2) with
          | Some (Ok (st2, Returned)) =>
              Some (Ok ((clearCollectionSubscribers collectionPath st2.1, st2.2), Returned))
          | interrupted => interrupted
          end
      | None => Some (Ok ((this1, st.2), Returned))
      end
  end.

(** One event, with the callbacks run as they are.  An exception of a
    callback goes to the database client that called the handler; the
    module stays as the handler left it. *)
Definition deliverWith (fuel : nat) (e : event) (st : Module * list (string * nat))
  : option (outcome (Module * list (string * nat))) :=
  match e with
  | StreamFailed h error =>
      match pathOf h (openListeners (trace st.1)) with
      | Some collectionPath =>
          match onSyncErrorLive fuel collectionPath error st with
          | Some (Ok (st1, _)) => Some (Ok st1)
          | Some (Throw e) => Some (Throw e)
          | None => None
          end
      | None => Some (Ok st)
      end
  | _ => Some (deliver mapCollectionOptions unsubscribeWaitTime e st)
  end.

Fixpoint deliverAllWith (fuel : nat) (es : list event) (st : Module * list (string * nat))
  : option (outcome (Module * list (string * nat))) :=
  match es with
  | [] => Some (Ok st)
  | e :: rest =>
      match deliverWith fuel e st with
      | Some (Ok st1) => deliverAllWith fuel rest st1
      | ended => ended
      end
  end.
End Reentrant.

(** Sync of a path is on, over the listener [h]. *)
Definition listening (this : Module) (collectionPath : string) (h : nat) : Prop :=
  exists collection collectionInfo,
    collections this !! collectionPath = Some collection /\
    collectionsInfo this !! collectionPath = Some collectionInfo /\
    syncEnabled collection = true /\
    unsubscribeFromSync collectionInfo = Some h.

(** ... and the options of the path are watched by [w]. *)
Definition watching (this : Module) (collectionPath : string) (w : nat) : Prop :=
  exists collection collectionInfo,
    collections this !! collectionPath = Some collection /\
    collectionsInfo this !! collectionPath = Some collectionInfo /\
    syncEnabled collection = true /\
    unsubscribeFromCollectionOptions collectionInfo = Some w.

(** The records and the trace of a module fit together: every path has
    both records or none; a path with sync on holds a listener, a watch and
    a subscriber, a path with sync off holds none of the three; the
    listeners and watches the trace leaves open are those the records hold,
    under distinct handles the allocator has given out. *)
Record consistent (cs : gmap string CollectionSyncedList) (infos : gmap string CollectionsInfo)
    (next : nat) (tr : list effect) : Prop := {
  paired : forall p, is_Some (cs !! p) <-> is_Some (infos !! p);
  handles : forall p c i, cs !! p = Some c -> infos !! p = Some i ->
    if syncEnabled c
    then is_Some (unsubscribeFromSync i) /\ is_Some (unsubscribeFromCollectionOptions i) /\
         collectionSubscribers i <> []
    else unsubscribeFromSync i = None /\ unsubscribeFromCollectionOptions i = None /\
         collectionSubscribers i = [];
  listeners : forall h p, (h, p) ∈ openListeners tr <->
    exists i, infos !! p = Some i /\ unsubscribeFromSync i = Some h;
  watches : forall w p, (w, p) ∈ openWatches tr <->
    exists i, infos !! p = Some i /\ unsubscribeFromCollectionOptions i = Some w;
  distinctListeners : NoDup (openListeners tr).*1;
  distinctWatches : NoDup (openWatches tr).*1;
  freshListeners : forall h p, (h, p) ∈ openListeners tr -> (h < next)%nat;
  freshWatches : forall w p, (w, p) ∈ openWatches tr -> (w < next)%nat;
}.

Definition consistentModule (this : Module) : Prop :=
  consistent (collections this) (collectionsInfo this) (nextRef this) (trace this).

(** An effect that opens or closes nothing. *)
Definition isCallback (e : effect) : bool :=
  match e with ErrorCallback _ _ _ => true | _ => false end.

(** *** Sample data *)

(** Two paths are subscribed to, the options of the first change, and the
    stream of its new listener fails. *)
Definition busyDay : list event :=
  [Called (Subscribe "users" (Some 7%nat)); Called (Subscribe "orders" None);
   OptionsChanged 1; StreamFailed 6 "permission-denied"].

(** ... then the subscriber of the second path leaves. *)
Definition quietEvening : list event :=
  busyDay ++ [Called (CallUnsubscribe 1); Called (Advance 50)].

(** No callback does anything. *)
Definition quiet (callback : nat) (error : string) : reaction := inert.

(** The callback 7 subscribes to [users] again when it is told of an
    error. *)
Definition resubscribes (callback : nat) (error : string) : reaction :=
  if Nat.eqb callback 7 then {| calls := [SubscribeAgain "users" None]; throws := false |}
  else inert.

(** The callback 7 throws. *)
Definition throwsBack (callback : nat) (error : string) : reaction :=
  if Nat.eqb callback 7 then {| calls := []; throws := true |} else inert.

(** A subscriber with the callback 7 is told that the stream of its path
    failed. *)
Definition failure : list event :=
  [Called (Subscribe "users" (Some 7%nat)); StreamFailed 0 "permission-denied"].

End Lifecycle.

(** ** firestore-utils.ts: the listeners of a subscription *)

Module Subscriptions.
Import Js Firestore.

(** What [onSnapshot] was called on: a query or a document. *)
Inductive listenerKind := OfQuery | OfDocument.

(** An unsubscribe function: the one [onSnapshot] returned for the listener
    [h], or the closure a call of [subscribeToCollection] or
    [subscribeToDocument] returned, over the [subscriptions] map of that
    call.  The callbacks of the call close over the same map, the normalized
    options and [onUpdate]; an [onUpdate] is known by the reference path it
    prepends before it calls the one of the consumer.  The map is a [Map]:
    its entries in insertion order, one per key. *)
Inductive unsubscriber :=
| Listener (h : nat) (kind : listenerKind)
| Subscription (options : NormalizedFirestoreObjectOptions) (refPath : list string)
    (subscriptions : list (string * unsubscriber)).

(** What a subscription does to the outside, in the order it does it. *)
Inductive effect :=
| Opened (h : nat) (path : string)
    (* onSnapshot on the query or the document of [path], which returned [h] *)
| Closed (h : nat)
    (* the unsubscribe function of the listener [h] was called *)
| Updated (refPath : list string) (snapshot : QuerySnapshot)
    (* onUpdate(refPath, snapshot) of the consumer; isDocument is false or absent *)
| UpdatedDocument (refPath : list string) (snapshot : DocumentSnapshot).
    (* onUpdate(refPath, snapshot, true) of the consumer *)

(** The database client as far as a subscription sees it: the handles it
    gives out, and the trace of effects. *)
Record world := {
  next : nat;
  trace : list effect;
}.

Definition emit (es : list effect) (w : world) : world :=
  {| next := next w; trace := trace w ++ es |}.

(** [onSnapshot] on the query or document of a path. *)
Definition openListener (path : string) (w : world) : nat * world :=
  (next w, {| next := S (next w); trace := trace w ++ [Opened (next w) path] |}).

(** [Map.prototype.get], [set] and [delete]. *)
Fixpoint mapGet {A} (k : string) (m : list (string * A)) : option A :=
  match m with
  | [] => None
  | (k', v) :: rest => if String.eqb k' k then Some v else mapGet k rest
  end.

Fixpoint mapSet {A} (k : string) (v : A) (m : list (string * A)) : list (string * A) :=
  match m with
  | [] => [(k, v)]
  | (k', v') :: rest =>
      if String.eqb k' k then (k, v) :: rest else (k', v') :: mapSet k v rest
  end.

Fixpoint mapDelete {A} (k : string) (m : list (string * A)) : list (string * A) :=
  match m with
  | [] => []
  | (k', v') :: rest =>
      if String.eqb k' k then rest else (k', v') :: mapDelete k rest
  end.

(** Calling an unsubscribe function: the one of a listener closes it, the
    one of a subscription calls every value of its map, in order. *)
Fixpoint unsubscribe (u : unsubscriber) : list effect :=
  match u with
  | Listener h _ => [Closed h]
  | Subscription _ _ subscriptions =>
      flat_map (fun entry => unsubscribe entry.2) subscriptions
  end.

(** [{...options, collectionPath: path}]. *)
Definition withPath (o : NormalizedFirestoreObjectOptions) (path : string)
  : NormalizedFirestoreObjectOptions :=
  NOptions path (name o) (subcollections o).

(** [subscribeToCollection] on normalized options, with the reference path
    its [onUpdate] prepends: one listener is opened, on the query of the
    path, and filed under the path. *)
Definition subscribeToCollectionAt (normalizedOptions : NormalizedFirestoreObjectOptions)
    (refPath : list string) (w : world) : unsubscriber * world :=
  let '(h, w1) := openListener (collectionPath normalizedOptions) w in
  (Subscription normalizedOptions refPath
     [(collectionPath normalizedOptions, Listener h OfQuery)], w1).

(** [subscribeToCollection(options, onUpdate, onError)] as the consumer
    calls it. *)
Definition subscribeToCollection (options : FirestoreObjectOptions) (w : world)
  : unsubscriber * world :=
  subscribeToCollectionAt (normalizeFirestoreObjectOptions options) [] w.

(** The body of the inner loop of the snapshot callback, for one
    subcollection and one change. *)
Definition onDocumentChange (normalizedOptions : NormalizedFirestoreObjectOptions)
    (refPath : list string) (subcollectionOptions : NormalizedFirestoreObjectOptions)
    (st : list (string * unsubscriber) * world) (documentChange : DocumentChange)
  : list (string * unsubscriber) * world :=
  let '(subscriptions, w) := st in
  let id := snap_id (doc documentChange) in
  let path := collectionPath normalizedOptions +:+ "/" +:+ id +:+ "/"
                +:+ collectionPath subcollectionOptions in
  let w1 :=
    match mapGet path subscriptions with
    | Some u => emit (unsubscribe u) w
    | None => w
    end in
  match type documentChange with
  | added =>
      let '(s, w2) :=
        subscribeToCollectionAt (withPath subcollectionOptions path)
          (refPath ++ [id; collectionPath subcollectionOptions]) w1 in
      (mapSet path s subscriptions, w2)
  | removed => (mapDelete path subscriptions, w1)
  | modified => st
  end.

(** The snapshot callback of the listener of a [subscribeToCollection]
    call. *)
Definition onSnapshot (normalizedOptions : NormalizedFirestoreObjectOptions)
    (refPath : list string) (subscriptions : list (string * unsubscriber))
    (snapshot : QuerySnapshot) (w : world) : list (string * unsubscriber) * world :=
  foldl (fun st subcollectionOptions =>
           foldl (onDocumentChange normalizedOptions refPath subcollectionOptions) st snapshot)
        (subscriptions, emit [Updated refPath snapshot] w)
        (subcollections normalizedOptions).

(** [subscribeToDocument(id, options, onUpdate, onError)]: a listener on
    the document, and a collection subscription per configured
    subcollection, filed under its path without a look at what is there. *)
Definition subscribeToDocument (id : string) (options : FirestoreObjectOptions) (w : world)
  : unsubscriber * world :=
  let normalizedOptions := normalizeFirestoreObjectOptions options in
  let documentPath := collectionPath normalizedOptions +:+ "/" +:+ id in
  let '(h, w1) := openListener documentPath w in
  let '(subscriptions, w2) :=
    foldl (fun st subcollectionOptions =>
             let path := documentPath +:+ "/" +:+ collectionPath subcollectionOptions in
             let '(s, w') :=
               subscribeToCollectionAt (withPath subcollectionOptions path)
                 [id; collectionPath subcollectionOptions] st.2 in
             (mapSet path s st.1, w'))
          ([(documentPath, Listener h OfDocument)], w1)
          (subcollections normalizedOptions) in
  (Subscription normalizedOptions [] subscriptions, w2).

(** What the client delivers to a listener. *)
Inductive delivery :=
| QueryResult (snapshot : QuerySnapshot)
| DocumentResult (snapshot : DocumentSnapshot).

(** The listener [h] among the values of a map. *)
Fixpoint ownListener (h : nat) (subscriptions : list (string * unsubscriber))
  : option listenerKind :=
  match subscriptions with
  | [] => None
  | (_, Listener h' kind) :: rest =>
      if Nat.eqb h' h then Some kind else ownListener h rest
  | _ :: rest => ownListener h rest
  end.

(** The client calls the callback given for the listener [h]: the callback
    of the call whose map holds the listener.  The maps are those reachable
    from the unsubscribe function [u]. *)
Fixpoint deliverTo (h : nat) (d : delivery) (u : unsubscriber) (w : world)
  : unsubscriber * world :=
  match u with
  | Listener _ _ => (u, w)
  | Subscription normalizedOptions refPath subscriptions =>
      match ownListener h subscriptions, d with
      | Some OfQuery, QueryResult snapshot =>
          let '(subscriptions', w') :=
            onSnapshot normalizedOptions refPath subscriptions snapshot w in
          (Subscription normalizedOptions refPath subscriptions', w')
      | Some OfDocument, DocumentResult snapshot =>
          (u, emit [UpdatedDocument [] snapshot] w)
      | Some _, _ => (u, w)
      | None, _ =>
          let '(subscriptions', w') :=
            (fix each (entries : list (string * unsubscriber)) (w : world) :=
               match entries with
               | [] => ([], w)
               | (key, child) :: rest =>
                   let '(child', w1) := deliverTo h d child w in
                   let '(rest', w2) := each rest w1 in
                   ((key, child') :: rest', w2)
               end) subscriptions w in
          (Subscription normalizedOptions refPath subscriptions', w')
      end
  end.

(** The loop of [deliverTo] over the entries of a map. *)
Definition deliverEach (h : nat) (d : delivery)
  : list (string * unsubscriber) -> world -> list (string * unsubscriber) * world :=
  fix each (entries : list (string * unsubscriber)) (w : world) :=
    match entries with
    | [] => ([], w)
    | (key, child) :: rest =>
        let '(child', w1) := deliverTo h d child w in
        let '(rest', w2) := each rest w1 in
        ((key, child') :: rest', w2)
    end.

(** The listeners a trace leaves open, each with the path it was opened
    on. *)
Definition listenerStep (opened : list (nat * string)) (e : effect) : list (nat * string) :=
  match e with
  | Opened h path => opened ++ [(h, path)]
  | Closed h => List.filter (fun x => negb (Nat.eqb x.1 h)) opened
  | _ => opened
  end.

Definition openListeners (tr : list effect) : list (nat * string) :=
  foldl listenerStep [] tr.

(** A snapshot the client delivers: to an open listener only. *)
Definition deliver (e : nat * delivery) (st : unsubscriber * world) : unsubscriber * world :=
  if bool_decide (e.1 ∈ (openListeners (trace st.2)).*1)
  then deliverTo e.1 e.2 st.1 st.2
  else st.

Definition deliverAll (events : list (nat * delivery)) (st : unsubscriber * world)
  : unsubscriber * world :=
  foldl (fun st e => deliver e st) st events.

(** The listeners an unsubscribe function reaches, each with the key it is
    filed under. *)
Fixpoint listenersAt (key : string) (u : unsubscriber) : list (nat * string) :=
  match u with
  | Listener h _ => [(h, key)]
  | Subscription _ _ subscriptions =>
      flat_map (fun entry => listenersAt entry.1 entry.2) subscriptions
  end.

Definition listenersOf (subscriptions : list (string * unsubscriber)) : list (nat * string) :=
  flat_map (fun entry => listenersAt entry.1 entry.2) subscriptions.

Definition listeners (u : unsubscriber) : list (nat * string) := listenersAt "" u.

(** The listeners [held] are those a world has open: they are open under
    distinct handles the client has given out, and no other is open. *)
Record accounted (held : list (nat * string)) (w : world) : Prop := {
  distinctHeld : NoDup held.*1;
  freshHeld : forall x, x ∈ held -> (x.1 < next w)%nat;
  heldOpen : forall x, x ∈ openListeners (trace w) <-> x ∈ held;
  distinctOpen : NoDup (openListeners (trace w)).*1;
}.

(** A call of the consumer's [onUpdate]. *)
Definition isCall (e : effect) : bool :=
  match e with
  | Updated _ _ | UpdatedDocument _ _ => true
  | _ => false
  end.

(** [Q] holds of every listener an unsubscribe function reaches: of the
    options and the reference path of the call that opened it, the key it
    is filed under and its kind. *)
Inductive everyListener
    (Q : NormalizedFirestoreObjectOptions -> list string -> string -> listenerKind -> Prop)
  : unsubscriber -> Prop :=
| every_listener h kind : everyListener Q (Listener h kind)
| every_subscription options refPath subscriptions :
    (forall key h kind, (key, Listener h kind) ∈ subscriptions -> Q options refPath key kind) ->
    Forall (fun entry => everyListener Q entry.2) subscriptions ->
    everyListener Q (Subscription options refPath subscriptions).

(** [Q] passes from the listener of a call to the listeners of the calls
    its snapshot callback makes. *)
Definition nests
    (Q : NormalizedFirestoreObjectOptions -> list string -> string -> listenerKind -> Prop)
  : Prop :=
  forall options refPath key sub id,
    Q options refPath key OfQuery ->
    let path := collectionPath options +:+ "/" +:+ id +:+ "/" +:+ collectionPath sub in
    Q (withPath sub path) (refPath ++ [id; collectionPath sub]) path OfQuery.

(** The path a reference path spells below a root: every reference is one
    more segment. *)
Definition spell (root : string) (refPath : list string) : string :=
  foldl (fun path ref => path +:+ "/" +:+ ref) root refPath.

(** A query listener filed under the path of its options, which is the path
    its reference path spells below [root]. *)
Definition spelledFrom (root : string) (options : NormalizedFirestoreObjectOptions)
    (refPath : list string) (key : string) (kind : listenerKind) : Prop :=
  kind = OfQuery /\ key = collectionPath options /\ collectionPath options = spell root refPath.

(** A query listener whose reference path starts with [id], or the
    listener of the document, filed under the path of the document. *)
Definition below (id documentPath : string) (options : NormalizedFirestoreObjectOptions)
    (refPath : list string) (key : string) (kind : listenerKind) : Prop :=
  match kind with
  | OfQuery => exists rest, refPath = id :: rest
  | OfDocument => key = documentPath
  end.

(** *** Sample data *)

Definition newWorld : world := {| next := 0%nat; trace := [] |}.

Definition userArrives (id : string) : DocumentChange :=
  {| type := added; doc := {| snap_id := id; snap_data := ∅ |};
     oldIndex := -1; newIndex := 0 |}.

Definition userLeaves (id : string) : DocumentChange :=
  {| type := removed; doc := {| snap_id := id; snap_data := ∅ |};
     oldIndex := 0; newIndex := -1 |}.

(** Two users arrive, the orders of the first are delivered, the first
    user leaves. *)
Definition usersComeAndGo : list (nat * delivery) :=
  [(0%nat, QueryResult [userArrives "u1"; userArrives "u2"]);
   (1%nat, QueryResult [addOrder]);
   (0%nat, QueryResult [userLeaves "u1"])].

End Subscriptions.

(** ** firestore-utils.ts: a document under the updates of its subscription *)

Module DocumentUpdates.
Import Js Firestore Utils Subscriptions.

(** The property a key names: [key] is a number, a string or null. *)
Definition keyName (k : option key) : string :=
  match k with
  | Some (KName s) => s
  | Some (KIndex i) => pretty i
  | None => "null"
  end.

Section Updates.
(** What the prototype chain of each value holds. *)
Variable prototype : value -> string -> inheritance.

(** [parent[key] = doc]. *)
Definition assignKey (parent : value) (k : option key) (doc : value)
  : outcome (assigned value) :=
  match k, parent with
  | Some (KIndex i), VArr items =>
      if decide (i < length items)%nat then Ok (Assigned (VArr (<[i := doc]> items)))
      else assign prototype parent (keyName k) (Known doc)
  | _, _ => assign prototype parent (keyName k) (Known doc)
  end.

(** [updateDocumentFromSnapshot(document, options, refPath, snapshot,
    isDocument)].  [isDocument] says which of the two the snapshot is; the
    two come together here, as the consumer of a subscription gets them.
    The object the reference path finds is changed in place, which shows in
    the document at the place it was found. *)
Definition updateDocumentFromSnapshot (document : value) (options : FirestoreObjectOptions)
    (refPath : list string) (d : delivery) : outcome (assigned value) :=
  let normalizedOptions := normalizeFirestoreObjectOptions options in
  objectInfo ← getObjectFromRefPath document false refPath normalizedOptions;
  match objectInfo with
  | None => Ok (Assigned document)
  | Some info =>
      match d with
      | DocumentResult snapshot =>
          let doc := applyDocumentChanges (object info) snapshot normalizedOptions in
          if truthy (parent info) then
            r ← assignKey (parent info) (key_ info) doc;
            Ok (match r with
                | Assigned parent' =>
                    Assigned (writeAt document (removelast (location info)) parent')
                | Unrecorded => Unrecorded
                end)
          else Ok (Assigned doc)
      | QueryResult snapshot =>
          changed ← applyCollectionChangesTo (object info) snapshot (Firestore.options info);
          Ok (Assigned (writeAt document (location info) changed))
      end
  end.
End Updates.

End DocumentUpdates.

(** ** Properties of the diff application *)

Module FirestoreFacts.
Import Js Firestore.

Section Splice.
Context {A : Type}.
Implicit Types (l : list A) (x : A) (i : nat).

(** Within the array, [splice(i, 0, x)] puts [x] in front of position [i]. *)
Lemma splice_insert l i x :
  (i <= length l)%nat ->
  splice l (Z.of_nat i) 0 [x] = take i l ++ x :: drop i l.
Proof.
  intros Hi. unfold splice.
  destruct (decide (Z.of_nat i < 0)) as [?|_]; [lia|].
  rewrite Z.min_l by lia.
  rewrite Z.max_r by lia. rewrite Z.min_l by lia.
  rewrite Z.add_0_r, Nat2Z.id. reflexivity.
Qed.

(** [splice(i, 1, x)] on an element of the array overwrites it. *)
Lemma splice_replace l i x :
  (i < length l)%nat ->
  splice l (Z.of_nat i) 1 [x] = <[i := x]> l.
Proof.
  intros Hi. unfold splice.
  destruct (decide (Z.of_nat i < 0)) as [?|_]; [lia|].
  rewrite Z.min_l by lia.
  rewrite Z.max_l by lia. rewrite Z.min_l by lia.
  replace (Z.to_nat (Z.of_nat i + 1)) with (S i) by lia.
  rewrite Nat2Z.id.
  destruct (lookup_lt_is_Some_2 l i Hi) as [y Hy].
  rewrite <- (take_drop_middle l i y Hy) at 3.
  rewrite insert_app_r_alt by (rewrite length_take; lia).
  rewrite length_take, Nat.min_l, Nat.sub_diag by lia.
  reflexivity.
Qed.

(** [splice(i, 1)] on an element of the array removes it. *)
Lemma splice_delete l i :
  (i < length l)%nat ->
  splice l (Z.of_nat i) 1 [] = delete i l.
Proof.
  intros Hi. unfold splice.
  destruct (decide (Z.of_nat i < 0)) as [?|_]; [lia|].
  rewrite Z.min_l by lia.
  rewrite Z.max_l by lia. rewrite Z.min_l by lia.
  replace (Z.to_nat (Z.of_nat i + 1)) with (S i) by lia.
  rewrite Nat2Z.id. simpl. symmetry. apply delete_take_drop.
Qed.

Lemma insert_at_length l i x :
  (i <= length l)%nat -> length (take i l ++ x :: drop i l) = S (length l).
Proof.
  intros Hi. rewrite length_app, length_take. simpl. rewrite length_drop. lia.
Qed.

Lemma insert_at_lookup l i x :
  (i <= length l)%nat -> (take i l ++ x :: drop i l) !! i = Some x.
Proof.
  intros Hi. rewrite lookup_app_r by (rewrite length_take; lia).
  rewrite length_take, Nat.min_l, Nat.sub_diag by lia. reflexivity.
Qed.

Lemma insert_at_delete l i x :
  (i <= length l)%nat -> delete i (take i l ++ x :: drop i l) = l.
Proof.
  intros Hi. rewrite delete_take_drop.
  rewrite take_app_le by (rewrite length_take; lia).
  rewrite take_take, Nat.min_id.
  rewrite drop_app_ge by (rewrite length_take; lia).
  rewrite length_take, Nat.min_l by lia.
  replace (S i - i)%nat with 1%nat by lia. simpl.
  rewrite drop_0. apply take_drop.
Qed.

(** An element found after the insertion, elsewhere than at [i], was in
    the list before. *)
Lemma insert_at_lookup_other l i j x y :
  (i <= length l)%nat -> j <> i ->
  (take i l ++ x :: drop i l) !! j = Some y -> y ∈ l.
Proof.
  intros Hi Hj Hy.
  assert (y ∈ take i l ++ x :: drop i l) as Hin by (eapply list_elem_of_lookup_2; eauto).
  destruct (decide (j < i)%nat) as [Hlt|Hge].
  - rewrite lookup_app_l in Hy by (rewrite length_take; lia).
    rewrite lookup_take_lt in Hy by lia.
    by eapply list_elem_of_lookup_2.
  - rewrite lookup_app_r in Hy by (rewrite length_take; lia).
    rewrite length_take, Nat.min_l in Hy by lia.
    destruct (j - i)%nat as [|k] eqn:Hk; [lia|]. simpl in Hy.
    rewrite lookup_drop in Hy. by eapply list_elem_of_lookup_2.
Qed.
End Splice.

Section ApplyChanges.
Variable opts : NormalizedFirestoreObjectOptions.
Implicit Types (collection : list value) (c : DocumentChange).

(** The changes of a snapshot are applied front to back: applying
    [cs1 ++ cs2] is applying [cs1], then [cs2] to what it left. *)
Lemma applyCollectionChanges_app collection cs1 cs2 :
  applyCollectionChanges collection (cs1 ++ cs2) opts =
  applyCollectionChanges (applyCollectionChanges collection cs1 opts) cs2 opts.
Proof.
  revert collection. induction cs1 as [|c cs1 IH]; intros collection; simpl.
  - reflexivity.
  - apply IH.
Qed.

Lemma index_in_range collection (i : nat) d :
  collection !! i = Some d -> index collection (Z.of_nat i) = d.
Proof.
  intros Hd. unfold index. destruct (decide (0 <= Z.of_nat i)); [|lia].
  rewrite Nat2Z.id, Hd. reflexivity.
Qed.

Lemma applyDocumentChange_added collection c :
  type c = added ->
  0 <= newIndex c <= Z.of_nat (length collection) ->
  let n := Z.to_nat (newIndex c) in
  let d := applyDocumentChanges VNull (doc c) opts in
  let collection' := applyDocumentChange opts collection c in
  collection' = take n collection ++ d :: drop n collection /\
  length collection' = S (length collection) /\
  collection' !! n = Some d /\
  delete n collection' = collection.
Proof.
  intros Ht Hr n d collection'. subst collection'.
  unfold applyDocumentChange. rewrite Ht.
  assert (n <= length collection)%nat as Hn by (subst n; lia).
  replace (newIndex c) with (Z.of_nat n) by (subst n; lia).
  rewrite splice_insert by done. fold d.
  split; [done|]. split; [by apply insert_at_length|].
  split; [by apply insert_at_lookup|by apply insert_at_delete].
Qed.

Lemma applyDocumentChange_modified_in_place collection c :
  type c = modified ->
  oldIndex c = newIndex c ->
  0 <= oldIndex c < Z.of_nat (length collection) ->
  let o := Z.to_nat (oldIndex c) in
  let u := applyDocumentChanges (index collection (oldIndex c)) (doc c) opts in
  let collection' := applyDocumentChange opts collection c in
  collection' = <[o := u]> collection /\
  length collection' = length collection /\
  collection' !! o = Some u.
Proof.
  intros Ht He Hr o u collection'. subst collection'.
  unfold applyDocumentChange. rewrite Ht.
  destruct (decide (oldIndex c = newIndex c)); [|done]. fold u.
  assert (o < length collection)%nat as Ho by (subst o; lia).
  replace (oldIndex c) with (Z.of_nat o) by (subst o; lia).
  rewrite splice_replace by done.
  split; [done|]. split; [apply length_insert|].
  by apply list_lookup_insert_eq.
Qed.

Lemma applyDocumentChange_modified_moved collection c :
  type c = modified ->
  oldIndex c <> newIndex c ->
  0 <= oldIndex c < Z.of_nat (length collection) ->
  0 <= newIndex c < Z.of_nat (length collection) ->
  let o := Z.to_nat (oldIndex c) in
  let n := Z.to_nat (newIndex c) in
  let u := applyDocumentChanges (index collection (oldIndex c)) (doc c) opts in
  let collection' := applyDocumentChange opts collection c in
  collection' = splice (splice collection (oldIndex c) 1 []) (newIndex c) 0 [u] /\
  collection' = take n (delete o collection) ++ u :: drop n (delete o collection) /\
  length collection' = length collection /\
  collection' !! n = Some u /\
  delete n collection' = delete o collection /\
  (forall j, j <> n -> collection' !! j = Some u ->
             exists k, k <> o /\ collection !! k = Some u).
Proof.
  intros Ht Hne Ho Hn o n u collection'. subst collection'.
  unfold applyDocumentChange. rewrite Ht.
  destruct (decide (oldIndex c = newIndex c)); [done|]. fold u.
  split; [done|].
  assert (o < length collection)%nat as Ho' by (subst o; lia).
  assert (length (delete o collection) = (length collection - 1)%nat) as Hlen.
  { pose proof (length_delete collection o (lookup_lt_is_Some_2 collection o Ho')). lia. }
  assert (n <= length (delete o collection))%nat as Hn' by (subst n; lia).
  replace (oldIndex c) with (Z.of_nat o) by (subst o; lia).
  replace (newIndex c) with (Z.of_nat n) by (subst n; lia).
  rewrite splice_delete by done.
  rewrite splice_insert by done.
  split; [done|].
  split; [rewrite insert_at_length by done; lia|].
  split; [by apply insert_at_lookup|].
  split; [by apply insert_at_delete|].
  intros j Hj Hu.
  apply insert_at_lookup_other in Hu; [|done..].
  apply list_elem_of_lookup in Hu as [k Hk].
  destruct (decide (k < o)%nat).
  - exists k. split; [lia|]. by rewrite list_lookup_delete_lt in Hk by lia.
  - exists (S k). split; [lia|]. by rewrite list_lookup_delete_ge in Hk by lia.
Qed.

Lemma applyDocumentChange_removed collection c :
  type c = removed ->
  0 <= oldIndex c < Z.of_nat (length collection) ->
  let o := Z.to_nat (oldIndex c) in
  let collection' := applyDocumentChange opts collection c in
  collection' = delete o collection /\
  S (length collection') = length collection.
Proof.
  intros Ht Ho o collection'. subst collection'.
  unfold applyDocumentChange. rewrite Ht.
  assert (o < length collection)%nat as Ho' by (subst o; lia).
  replace (oldIndex c) with (Z.of_nat o) by (subst o; lia).
  rewrite splice_delete by done. split; [done|].
  pose proof (length_delete collection o (lookup_lt_is_Some_2 collection o Ho')). lia.
Qed.
End ApplyChanges.

Section Fields.
Implicit Types (document : value) (snapshot : DocumentSnapshot).

(** The loop over the subcollections writes one field per name; the fields
    of other names are those of the object it started from. *)
Lemma subcollection_fields_lookup document (subs : list NormalizedFirestoreObjectOptions)
    (start : gmap string value) (k : string) :
  fold_left
    (fun updatedDoc sub => <[name sub := subcollectionField document (name sub)]> updatedDoc)
    subs start !! k
  = if bool_decide (k ∈ name <$> subs) then Some (subcollectionField document k)
    else start !! k.
Proof.
  revert start. induction subs as [|sub subs IH]; intros start; simpl.
  - reflexivity.
  - rewrite IH. destruct (decide (k = name sub)) as [->|Hne].
    + rewrite (bool_decide_eq_true_2 (name sub ∈ name sub :: _)) by apply list_elem_of_here.
      case_bool_decide; [done|]. by rewrite lookup_insert_eq.
    + rewrite lookup_insert_ne by done.
      repeat case_bool_decide; try done.
      * exfalso. apply H0. by apply list_elem_of_further.
      * exfalso. apply elem_of_cons in H0 as [?|?]; done.
Qed.

Lemma applyDocumentChanges_lookup document snapshot opts (k : string) :
  exists props,
    applyDocumentChanges document snapshot opts = VObj props /\
    props !! k =
      if bool_decide (k ∈ name <$> subcollections opts)
      then Some (subcollectionField document k)
      else match snap_data snapshot !! k with
           | Some v => Some v
           | None => if String.eqb k "id" then Some (VStr (snap_id snapshot)) else None
           end.
Proof.
  eexists. split; [reflexivity|].
  rewrite subcollection_fields_lookup. case_bool_decide; [done|].
  rewrite lookup_union. destruct (snap_data snapshot !! k) as [v|] eqn:Hv; simpl.
  - by destruct ({[ "id" := VStr (snap_id snapshot) ]} !! k).
  - destruct (String.eqb_spec k "id") as [->|Hne].
    + by rewrite lookup_singleton_eq.
    + by rewrite lookup_singleton_ne.
Qed.

(** What a document keeps under the name of a subcollection: the value it
    has there when that is defined, and the empty list otherwise. *)
Lemma subcollectionField_cases document (k : string) :
  subcollectionField document k
  = match document with
    | VObj previous =>
        match previous !! k with
        | Some VUndefined | None => VArr []
        | Some v => v
        end
    | VArr items =>
        if String.eqb k "length" then VNum (Z.of_nat (length items)) else VArr []
    | VStr s =>
        if String.eqb s "" then VArr []
        else if String.eqb k "length" then VNum (Z.of_nat (String.length s))
        else VArr []
    | _ => VArr []
    end.
Proof.
  unfold subcollectionField.
  destruct document as [| |b|n|s|items|previous]; simpl; try reflexivity.
  - by destruct b.
  - by destruct (n =? 0).
  - destruct (String.eqb s ""); simpl; [done|]. by destruct (String.eqb k "length").
  - by destruct (String.eqb k "length").
  - destruct (previous !! k) as [[]|]; reflexivity.
Qed.

(** The document built from a snapshot is one object, whose fields are
    given key by key. *)
Lemma applyDocumentChanges_object document snapshot opts :
  exists props,
    applyDocumentChanges document snapshot opts = VObj props /\
    forall k,
      props !! k =
        if bool_decide (k ∈ name <$> subcollections opts)
        then Some (subcollectionField document k)
        else match snap_data snapshot !! k with
             | Some v => Some v
             | None => if String.eqb k "id" then Some (VStr (snap_id snapshot)) else None
             end.
Proof.
  destruct (applyDocumentChanges_lookup document snapshot opts "id") as (props & Hp & _).
  exists props. split; [exact Hp|]. intros k.
  destruct (applyDocumentChanges_lookup document snapshot opts k) as (props' & Hp' & Hk).
  rewrite Hp in Hp'. injection Hp' as <-. exact Hk.
Qed.
End Fields.

(** Not every list and every event keep the length under an update in
    place: a document modified in place ([oldIndex = newIndex]) at an index
    beyond the end of the list is not replaced but appended, and the list
    grows by one. *)
Lemma modified_beyond_end_is_appended :
  type staleUpdate = modified /\
  oldIndex staleUpdate = newIndex staleUpdate /\
  applyCollectionChanges [user "a" 30] [staleUpdate] usersOptions
    = [user "a" 30; user "b" 20] /\
  length (applyCollectionChanges [user "a" 30] [staleUpdate] usersOptions)
    <> length [user "a" 30].
Proof.
  split; [reflexivity|]. split; [reflexivity|].
  assert (applyCollectionChanges [user "a" 30] [staleUpdate] usersOptions
          = [user "a" 30; user "b" 20]) as Happlied by (vm_compute; reflexivity).
  split; [exact Happlied|]. rewrite Happlied. discriminate.
Qed.

(** C1. Diff application is order-preserving when the index hints address
    the list.  The changes of an event are applied in the order the stream
    reports them, each to the list the previous one left, and an event
    without changes leaves the list as it is.  For a change whose index
    hints address the list it is applied to: an added document is inserted
    at [newIndex], and it is the object of the snapshot's data and id with
    an empty list under the name of every configured subcollection; a
    modified document is the object of the snapshot's data and id with,
    under the name of every subcollection, what the document at [oldIndex]
    had there; with [oldIndex = newIndex] it replaces that document in place
    and the length stays; with [oldIndex <> newIndex] the old document is
    spliced out at [oldIndex] and the new one spliced in at [newIndex] (two
    splices), the length stays, the new document is at [newIndex], the rest
    of the list is the old list without the old document, and when no other
    element of the old list equals the new document it is found nowhere but
    at [newIndex]; a removed document is deleted at [oldIndex]. *)
Theorem applyCollectionChanges_order_preserving_in_range
    (opts : NormalizedFirestoreObjectOptions) (collection : list value)
    (earlier : QuerySnapshot) (c : DocumentChange) (rest : QuerySnapshot) :
  let before := applyCollectionChanges collection earlier opts in
  let after := applyDocumentChange opts before c in
  let o := Z.to_nat (oldIndex c) in
  let n := Z.to_nat (newIndex c) in
  let isSubcollection (k : string) := bool_decide (k ∈ name <$> subcollections opts) in
  let ofSnapshot (k : string) : option value :=
    match snap_data (doc c) !! k with
    | Some v => Some v
    | None => if String.eqb k "id" then Some (VStr (snap_id (doc c))) else None
    end in
  let kept (previous : value) (k : string) : value :=
    match previous with
    | VObj fields =>
        match fields !! k with
        | Some VUndefined | None => VArr []
        | Some v => v
        end
    | VArr items =>
        if String.eqb k "length" then VNum (Z.of_nat (length items)) else VArr []
    | VStr s =>
        if String.eqb s "" then VArr []
        else if String.eqb k "length" then VNum (Z.of_nat (String.length s))
        else VArr []
    | _ => VArr []
    end in
  applyCollectionChanges collection [] opts = collection /\
  applyCollectionChanges collection (earlier ++ c :: rest) opts =
    applyCollectionChanges after rest opts /\
  (indicesInRange before c ->
   match type c with
   | added =>
       exists fields,
         (forall k, fields !! k = if isSubcollection k then Some (VArr []) else ofSnapshot k) /\
         after = take n before ++ VObj fields :: drop n before /\
         length after = S (length before) /\
         after !! n = Some (VObj fields)
   | modified =>
       exists previous fields,
         before !! o = Some previous /\
         (forall k, fields !! k = if isSubcollection k then Some (kept previous k)
                                  else ofSnapshot k) /\
         length after = length before /\
         after !! n = Some (VObj fields) /\
         (oldIndex c = newIndex c -> after = <[o := VObj fields]> before) /\
         (oldIndex c <> newIndex c ->
            after = splice (splice before (oldIndex c) 1 []) (newIndex c) 0 [VObj fields] /\
            after = take n (delete o before) ++ VObj fields :: drop n (delete o before) /\
            delete n after = delete o before /\
            ((forall k, k <> o -> before !! k <> Some (VObj fields)) ->
             forall j, after !! j = Some (VObj fields) <-> j = n))
   | removed =>
       after = delete o before /\
       S (length after) = length before
   end).
Proof.
  intros before after o n isSubcollection ofSnapshot kept. subst after.
  split; [reflexivity|]. split.
  { rewrite applyCollectionChanges_app. reflexivity. }
  intros Hr. unfold indicesInRange in Hr.
  destruct (type c) eqn:Ht.
  - destruct (applyDocumentChange_added opts before c Ht Hr) as (H1 & H2 & H3 & _).
    destruct (applyDocumentChanges_object VNull (doc c) opts) as (fields & Hfields & Hk).
    rewrite Hfields in H1, H3. exists fields. split; [|done].
    intros k. rewrite Hk. unfold isSubcollection. by case_bool_decide.
  - destruct Hr as [Ho Hn].
    assert (o < length before)%nat as Ho' by (subst o; lia).
    destruct (lookup_lt_is_Some_2 before o Ho') as [previous Hprevious].
    assert (index before (oldIndex c) = previous) as Hindex.
    { replace (oldIndex c) with (Z.of_nat o) by (subst o; lia). by apply index_in_range. }
    destruct (applyDocumentChanges_object previous (doc c) opts) as (fields & Hfields & Hk).
    exists previous, fields. split; [exact Hprevious|]. split.
    { intros k. rewrite Hk. unfold isSubcollection. case_bool_decide; [|done].
      by rewrite subcollectionField_cases. }
    destruct (decide (oldIndex c = newIndex c)) as [He|Hne].
    + destruct (applyDocumentChange_modified_in_place opts before c Ht He Ho)
        as (H1 & H2 & H3).
      rewrite Hindex, Hfields in H1, H3.
      split; [done|]. split; [subst n; rewrite <- He; done|].
      split; [done|]. intros Hne. done.
    + destruct (applyDocumentChange_modified_moved opts before c Ht Hne Ho Hn)
        as (H1 & H1' & H3 & H4 & H5 & H6).
      rewrite Hindex, Hfields in H1, H1', H4, H6.
      split; [done|]. split; [done|]. split; [done|].
      intros _. split; [done|]. split; [done|]. split; [done|].
      intros Huniq j. split.
      * intros Hj. destruct (decide (j = n)) as [|Hjn]; [done|].
        destruct (H6 j Hjn Hj) as (k & Hk' & Hku). by destruct (Huniq k Hk').
      * intros ->. done.
  - destruct (applyDocumentChange_removed opts before c Ht Hr) as [H1 H2]. auto.
Qed.

Lemma applyCollectionChanges_order_preserving_in_range_witness :
  indicesInRange [user "a" 30; user "b" 20; user "c" 40] moveFirstToEnd /\
  exists fields,
    fields !! "age" = Some (VNum 31) /\
    applyDocumentChange usersOptions [user "a" 30; user "b" 20; user "c" 40] moveFirstToEnd
      !! 2%nat = Some (VObj fields) /\
    length (applyDocumentChange usersOptions [user "a" 30; user "b" 20; user "c" 40]
              moveFirstToEnd) = 3%nat.
Proof.
  assert (indicesInRange [user "a" 30; user "b" 20; user "c" 40] moveFirstToEnd) as Hr.
  { unfold indicesInRange. simpl. lia. }
  split; [exact Hr|].
  destruct (applyCollectionChanges_order_preserving_in_range usersOptions
              [user "a" 30; user "b" 20; user "c" 40] [] moveFirstToEnd [])
    as (_ & _ & H).
  destruct (H Hr) as (previous & fields & _ & Hfields & Hlength & Hat & _).
  exists fields. split; [exact (Hfields "age")|]. split; [exact Hat|exact Hlength].
Defined.

Example applyCollectionChanges_sequential :
  applyCollectionChanges [user "x" 1; user "y" 2]
    [ {| type := added; doc := {| snap_id := "A"; snap_data := {[ "age" := VNum 3 ]} |};
         oldIndex := -1; newIndex := 2 |};
      {| type := added; doc := {| snap_id := "B"; snap_data := {[ "age" := VNum 4 ]} |};
         oldIndex := -1; newIndex := 0 |} ]
    usersOptions
  = [user "B" 4; user "x" 1; user "y" 2; user "A" 3].
Proof. vm_compute. reflexivity. Qed.

Section RefPath.
Implicit Types (items : list value) (ref : string) (info : ObjectInfo).

Lemma getProp_id_document d :
  isDocument d ->
  exists v, getProp d "id" = Ok v /\
            (docId d = match v with VStr s => Some s | _ => None end).
Proof.
  intros [props ->]. simpl. destruct (props !! "id") as [v|]; simpl.
  - exists v. split; [done|]. reflexivity.
  - exists VUndefined. done.
Qed.

(** No document of the list carries the id: the search loop ends without
    a match (and without throwing). *)
Lemma findById_no_document items ref i :
  Forall (fun d => isDocument d /\ docId d <> Some ref) items ->
  findById items ref i = Ok None.
Proof.
  intros Hall. revert i. induction Hall as [|d items [Hd Hne] _ IH]; intros i; simpl.
  - reflexivity.
  - destruct (getProp_id_document d Hd) as (v & -> & Hid). simpl.
    destruct v; try apply IH.
    destruct (String.eqb_spec s ref) as [->|_]; [|apply IH].
    by destruct Hne.
Qed.

(** The first document carrying the id is the one the loop stops at. *)
Lemma findById_first_document before d after ref i :
  Forall (fun d' => isDocument d' /\ docId d' <> Some ref) before ->
  isDocument d -> docId d = Some ref ->
  findById (before ++ d :: after) ref i = Ok (Some ((i + length before)%nat, d)).
Proof.
  intros Hall Hd Hid. revert i.
  induction Hall as [|d' before [Hd' Hne] _ IH]; intros i; simpl.
  - destruct (getProp_id_document d Hd) as (v & -> & Hv). simpl.
    rewrite Hid in Hv. destruct v; try discriminate.
    injection Hv as ->. rewrite String.eqb_refl. by rewrite Nat.add_0_r.
  - destruct (getProp_id_document d' Hd') as (v & -> & Hv). simpl.
    assert (findById (before ++ d :: after) ref (S i)
            = Ok (Some ((i + S (length before))%nat, d))) as Hnext.
    { rewrite IH. by rewrite Nat.add_succ_r. }
    destruct v; try exact Hnext.
    destruct (String.eqb_spec s ref) as [->|_]; [|exact Hnext].
    by destruct Hne.
Qed.

(** An unresolved path makes the loop of [getObjectFromRefPath] return
    null, whatever it has accumulated so far. *)
Lemma getObjectLoop_unresolved obj isRefId opts refPath :
  Unresolved obj isRefId opts refPath ->
  forall info, object info = obj -> options info = opts ->
  getObjectLoop refPath isRefId info = Ok None.
Proof.
  induction 1 as [items opts ref rest Hall
                 |props opts sub ref rest Hsub Habs
                 |before d after opts ref rest Hall Hd Hid _ IH
                 |props opts sub ref rest v Hsub Hv Ht _ IH];
    intros info Hobj Hopts; simpl; rewrite Hobj.
  - rewrite findById_no_document by done. reflexivity.
  - rewrite Hopts, Hsub. simpl. rewrite Habs. reflexivity.
  - rewrite findById_first_document by done. simpl.
    apply IH; simpl; done.
  - rewrite Hopts, Hsub. simpl. rewrite Hv. simpl. rewrite Ht.
    apply IH; simpl; done.
Qed.

(** Whenever the path lookup answers null the caller hands back the very
    list it was given. *)
Lemma updateCollectionFromSnapshot_null collection opts refPath snapshot :
  getObjectFromRefPath (VArr collection) true refPath
    (normalizeFirestoreObjectOptions opts) = Ok None ->
  updateCollectionFromSnapshot collection opts refPath snapshot = Ok collection.
Proof.
  intros Hnull. unfold updateCollectionFromSnapshot. rewrite Hnull. reflexivity.
Qed.
End RefPath.



(** The same event on a path that resolves does reach the nested list. *)
Example updateCollectionFromSnapshot_resolved :
  updateCollectionFromSnapshot [userWithOrders "u1" []; userWithOrders "u2" []]
    usersWithOrders ["u2"; "orders"] [addOrder]
  = Ok [userWithOrders "u1" [];
        userWithOrders "u2" [VObj {[ "id" := VStr "o9"; "total" := VNum 12 ]}]].
Proof. vm_compute. reflexivity. Qed.

End FirestoreFacts.

(** ** Properties of the synced-collections module *)

Module CollectionsFacts.
Import Js Collections.

Section FirstSync.
Variable mapCollectionOptions : string -> Firestore.FirestoreObjectOptions.

(** A diff against the empty list never throws, and what it yields is
    read off the event alone: the changes applied to [] for an event of
    the collection itself, [] for an event of a nested list. *)
Lemma updateCollectionFromSnapshot_empty opts refPath snapshot :
  Firestore.updateCollectionFromSnapshot [] opts refPath snapshot =
  Ok (match refPath with
      | [] => Firestore.applyCollectionChanges [] snapshot
                (Firestore.normalizeFirestoreObjectOptions opts)
      | _ :: _ => []
      end).
Proof.
  unfold Firestore.updateCollectionFromSnapshot, Firestore.getObjectFromRefPath.
  destruct refPath as [|ref rest]; simpl; reflexivity.
Qed.

(** [startCollectionSync] on a path whose record has sync disabled. *)
Lemma startCollectionSync_disabled path this c i :
  collections this !! path = Some c ->
  collectionsInfo this !! path = Some i ->
  syncEnabled c = false ->
  exists this',
    startCollectionSync mapCollectionOptions path this = Ok this' /\
    collections this' !! path
      = Some {| list_ := list_ c; syncEnabled := true; syncing := true |} /\
    collectionsInfo this' !! path
      = Some {| unsubscribeFromSync := Some (nextRef this); firstSync := true;
                collectionSubscribers := collectionSubscribers i;
                unsubscribeFromCollectionOptions := Some (S (nextRef this)) |} /\
    trace this' = trace this ++ [Listen (nextRef this) path (mapCollectionOptions path);
                                 Watch (S (nextRef this)) path] /\
    timers this' = timers this /\ now this' = now this /\
    nextRef this' = S (S (nextRef this)).
Proof.
  intros Hc Hi Hd. unfold startCollectionSync. rewrite !Hc, Hi, Hd. simpl.
  eexists. split; [reflexivity|]. simpl.
  unfold setSyncStatus. simpl. rewrite Hc. simpl.
  rewrite !lookup_insert_eq. rewrite <- app_assoc. done.
Qed.

(** [startCollectionSync] on a path without a record. *)
Lemma startCollectionSync_fresh path this :
  collections this !! path = None ->
  exists this',
    startCollectionSync mapCollectionOptions path this = Ok this' /\
    collections this' !! path
      = Some {| list_ := []; syncEnabled := true; syncing := true |} /\
    collectionsInfo this' !! path
      = Some {| unsubscribeFromSync := Some (nextRef this); firstSync := true;
                collectionSubscribers := [];
                unsubscribeFromCollectionOptions := Some (S (nextRef this)) |} /\
    trace this' = trace this ++ [Listen (nextRef this) path (mapCollectionOptions path);
                                 Watch (S (nextRef this)) path] /\
    timers this' = timers this /\ now this' = now this /\
    nextRef this' = S (S (nextRef this)).
Proof.
  intros Hc.
  destruct (startCollectionSync_disabled path (createCollection path this)
              {| list_ := []; syncEnabled := false; syncing := false |}
              {| unsubscribeFromSync := None; firstSync := false;
                 collectionSubscribers := []; unsubscribeFromCollectionOptions := None |})
    as (this' & Hs & H); simpl; rewrite ?lookup_insert_eq; try done.
  exists this'. split; [|exact H].
  unfold startCollectionSync in *. rewrite Hc.
  simpl in Hs. rewrite lookup_insert_eq in Hs. exact Hs.
Qed.

(** The mutation on a path with a record: which list the event is applied
    to, and what is left of the flags. *)
Lemma updateCollectionFromSnapshot_applied path refPath snapshot this c i updated :
  collections this !! path = Some c ->
  collectionsInfo this !! path = Some i ->
  Firestore.updateCollectionFromSnapshot
    (if firstSync i then [] else list_ c) (mapCollectionOptions path) refPath snapshot
    = Ok updated ->
  exists this',
    updateCollectionFromSnapshot mapCollectionOptions path refPath snapshot this = Ok this' /\
    collections this' !! path
      = Some {| list_ := updated; syncEnabled := syncEnabled c; syncing := false |} /\
    collectionsInfo this' !! path
      = Some {| unsubscribeFromSync := unsubscribeFromSync i; firstSync := false;
                collectionSubscribers := collectionSubscribers i;
                unsubscribeFromCollectionOptions := unsubscribeFromCollectionOptions i |}.
Proof.
  intros Hc Hi Hu. unfold updateCollectionFromSnapshot. rewrite Hc, Hi, Hu. simpl.
  eexists. split; [reflexivity|]. simpl. rewrite !lookup_insert_eq. done.
Qed.

(** C2. First-load semantics.  On a path whose record has sync disabled,
    [startCollectionSync] raises [firstSync] and leaves the cached list in
    place.  While [firstSync] is set an event is diffed against the empty
    list: the list it leaves is computed from the event alone, whatever was
    cached.  Once the flag is down an event is applied to the existing
    list.  Applying an event clears [firstSync] and sets [syncing] to
    false. *)
Theorem first_event_replaces_list
    (path : string) (refPath : list string) (snapshot : Firestore.QuerySnapshot)
    (this : Module) (c : CollectionSyncedList) (i : CollectionsInfo) :
  collections this !! path = Some c ->
  collectionsInfo this !! path = Some i ->
  (syncEnabled c = false ->
   exists started c1 i1,
     startCollectionSync mapCollectionOptions path this = Ok started /\
     collections started !! path = Some c1 /\
     collectionsInfo started !! path = Some i1 /\
     list_ c1 = list_ c /\ firstSync i1 = true /\ syncing c1 = true) /\
  (firstSync i = true ->
   exists this' c' i',
     updateCollectionFromSnapshot mapCollectionOptions path refPath snapshot this = Ok this' /\
     collections this' !! path = Some c' /\
     collectionsInfo this' !! path = Some i' /\
     list_ c' = match refPath with
                | [] => Firestore.applyCollectionChanges [] snapshot
                          (Firestore.normalizeFirestoreObjectOptions (mapCollectionOptions path))
                | _ :: _ => []
                end /\
     firstSync i' = false /\ syncing c' = false) /\
  (firstSync i = false ->
   forall updated,
     Firestore.updateCollectionFromSnapshot (list_ c) (mapCollectionOptions path)
       refPath snapshot = Ok updated ->
     exists this' c' i',
       updateCollectionFromSnapshot mapCollectionOptions path refPath snapshot this = Ok this' /\
       collections this' !! path = Some c' /\
       collectionsInfo this' !! path = Some i' /\
       list_ c' = updated /\
       firstSync i' = false /\ syncing c' = false).
Proof.
  intros Hc Hi. split; [|split].
  - intros Hd.
    destruct (startCollectionSync_disabled path this c i Hc Hi Hd)
      as (started & Hs & Hc1 & Hi1 & _).
    eexists started, _, _.
    split; [exact Hs|]. split; [exact Hc1|]. split; [exact Hi1|]. done.
  - intros Hf.
    edestruct (updateCollectionFromSnapshot_applied path refPath snapshot this c i)
      as (this' & Hu & Hc' & Hi'); [exact Hc|exact Hi| |].
    { rewrite Hf. apply updateCollectionFromSnapshot_empty. }
    eexists this', _, _.
    split; [exact Hu|]. split; [exact Hc'|]. split; [exact Hi'|]. done.
  - intros Hf updated Hupd.
    destruct (updateCollectionFromSnapshot_applied path refPath snapshot this c i updated Hc Hi)
      as (this' & Hu & Hc' & Hi').
    { rewrite Hf. exact Hupd. }
    eexists this', _, _.
    split; [exact Hu|]. split; [exact Hc'|]. split; [exact Hi'|]. done.
Qed.
End FirstSync.

Section StreamError.
Variable mapCollectionOptions : string -> Firestore.FirestoreObjectOptions.

(** The loop over the subscribers only adds to the trace: the callbacks
    owed, in order. *)
Lemma notifySubscribers_trace subscribers error this :
  notifySubscribers subscribers error this =
  {| collections := collections this; collectionsInfo := collectionsInfo this;
     nextRef := nextRef this; now := now this; timers := timers this;
     trace := trace this ++ errorCallbacks subscribers error |}.
Proof.
  revert this. induction subscribers as [|s subscribers IH]; intros this.
  - unfold errorCallbacks. simpl. rewrite app_nil_r. by destruct this.
  - unfold notifySubscribers in *. simpl. rewrite IH. unfold errorCallbacks. simpl.
    destruct (onError s) as [callback|]; simpl; [|done].
    by rewrite <- app_assoc.
Qed.

(** [stopCollectionSync] (without reset) on a path with sync enabled. *)
Lemma stopCollectionSync_enabled path this c i :
  collections this !! path = Some c ->
  collectionsInfo this !! path = Some i ->
  syncEnabled c = true ->
  stopCollectionSync path false this =
  Ok {| collections :=
          <[path := {| list_ := list_ c; syncEnabled := false; syncing := false |}]>
            (collections this);
        collectionsInfo :=
          <[path := {| unsubscribeFromSync := None; firstSync := firstSync i;
                       collectionSubscribers := collectionSubscribers i;
                       unsubscribeFromCollectionOptions := None |}]>
            (collectionsInfo this);
        nextRef := nextRef this; now := now this; timers := timers this;
        trace := trace this
                   ++ option_list (Unlisten <$> unsubscribeFromSync i)
                   ++ option_list (Unwatch <$> unsubscribeFromCollectionOptions i) |}.
Proof.
  intros Hc Hi He. unfold stopCollectionSync. rewrite Hc, He, Hi.
  f_equal. unfold setSyncStatus.
  destruct (unsubscribeFromSync i) as [h|], (unsubscribeFromCollectionOptions i) as [w|];
    simpl; rewrite Hc; unfold setCollections, setCollectionsInfo; simpl;
    rewrite ?app_nil_r, <- ?app_assoc; reflexivity.
Qed.

End StreamError.

Section Resubscribe.
Variable mapCollectionOptions : string -> Firestore.FirestoreObjectOptions.
Variable unsubscribeWaitTime : nat.
Variable path : string.
Variable this0 : Module.
Hypothesis no_record : collections this0 !! path = None.
Hypothesis no_timers : timers this0 = [].

Local Abbreviation synced := (synced mapCollectionOptions path this0).
Local Abbreviation stopped := (stopped mapCollectionOptions path this0).
Local Abbreviation undisturbed := (undisturbed mapCollectionOptions path this0).
Local Abbreviation unsubscribeFunctions := (unsubscribeFunctions path).
Local Abbreviation timersOf := (timersOf path).
Local Abbreviation step := (step mapCollectionOptions unsubscribeWaitTime).
Local Abbreviation run := (run mapCollectionOptions unsubscribeWaitTime).
Local Abbreviation always := (always mapCollectionOptions unsubscribeWaitTime).

Lemma subscribersFrom_length ref callbacks :
  length (subscribersFrom ref callbacks) = length callbacks.
Proof. revert ref. induction callbacks; intros; simpl; auto. Qed.

Lemma subscribersFrom_app ref callbacks1 callbacks2 :
  subscribersFrom ref (callbacks1 ++ callbacks2) =
  subscribersFrom ref callbacks1
    ++ subscribersFrom (ref + length callbacks1) callbacks2.
Proof.
  revert ref. induction callbacks1 as [|c cs IH]; intros ref; simpl.
  - by rewrite Nat.add_0_r.
  - rewrite IH. by rewrite Nat.add_succ_r.
Qed.

Lemma syncUp_synced subs ts t n : syncUp path (nextRef this0) (synced subs ts t n).
Proof.
  split; eexists; (split; [apply lookup_insert_eq|reflexivity]).
Qed.

(** The first subscribe finds no record: sync is started, then the
    subscriber is pushed. *)
Lemma syncCollection_first callback :
  syncCollection mapCollectionOptions path callback this0 =
  Ok ((path, S (S (nextRef this0))),
      synced [{| subscriberRef := S (S (nextRef this0)); onError := callback |}]
             [] (now this0) 1).
Proof.
  unfold syncCollection, startCollectionSync. rewrite no_record. simpl.
  rewrite !lookup_insert_eq. simpl.
  unfold setSyncStatus. simpl. rewrite !lookup_insert_eq. simpl.
  f_equal. f_equal. unfold synced, setCollectionsInfo. simpl.
  rewrite !insert_insert_eq, no_timers, <- app_assoc. f_equal. f_equal. lia.
Qed.

(** A later subscribe finds sync enabled and subscribers on the list: the
    subscriber is pushed and nothing else happens. *)
Lemma syncCollection_next subs ts t n callback :
  subs <> [] ->
  syncCollection mapCollectionOptions path callback (synced subs ts t n) =
  Ok ((path, (S (S (nextRef this0)) + n)%nat),
      synced (subs ++ [{| subscriberRef := (S (S (nextRef this0)) + n)%nat;
                          onError := callback |}]) ts t (S n)).
Proof.
  intros Hne. unfold syncCollection. simpl. rewrite !lookup_insert_eq. simpl.
  rewrite bool_decide_eq_false_2 by done. simpl. rewrite lookup_insert_eq. simpl.
  f_equal. f_equal. unfold synced, setCollectionsInfo. simpl.
  rewrite insert_insert_eq. f_equal. lia.
Qed.

(** Calling an unsubscribe function only queues a timer. *)
Lemma unsubscribe_synced s subs ts t n :
  unsubscribe unsubscribeWaitTime (path, s) (synced subs ts t n) =
  synced subs
    (ts ++ [{| due := (t + unsubscribeWaitTime)%nat; timerPath := path;
               timerSubscriber := s |}]) t n.
Proof. reflexivity. Qed.

Lemma removeSubscriber_head s rest :
  removeSubscriber (subscriberRef s) (s :: rest) = rest.
Proof. simpl. by rewrite Nat.eqb_refl. Qed.

(** The timer of the subscriber at the head of the list, when others stay
    behind: it is removed and sync goes on. *)
Lemma onTimer_head_others due_ s rest ts t n :
  rest <> [] ->
  onTimer {| due := due_; timerPath := path; timerSubscriber := subscriberRef s |}
          (synced (s :: rest) ts t n)
  = Ok (synced rest ts t n).
Proof.
  intros Hne. unfold onTimer. cbn [timerPath timerSubscriber].
  unfold synced at 1. cbn [collectionsInfo]. rewrite lookup_insert_eq.
  cbn [collectionSubscribers]. rewrite removeSubscriber_head.
  rewrite bool_decide_eq_false_2 by done.
  f_equal. unfold synced, setCollectionsInfo. simpl.
  by rewrite insert_insert_eq.
Qed.

(** The timer of the only subscriber left: it is removed and sync is
    stopped. *)
Lemma onTimer_last due_ s ts t n :
  onTimer {| due := due_; timerPath := path; timerSubscriber := subscriberRef s |}
          (synced [s] ts t n)
  = Ok (stopped ts t n).
Proof.
  unfold onTimer. cbn [timerPath timerSubscriber].
  unfold synced at 1. cbn [collectionsInfo]. rewrite lookup_insert_eq.
  cbn [collectionSubscribers]. rewrite removeSubscriber_head.
  rewrite bool_decide_eq_true_2 by done.
  unfold stopCollectionSync, setCollectionsInfo. simpl.
  rewrite !lookup_insert_eq. simpl.
  unfold setSyncStatus. simpl. rewrite lookup_insert_eq. simpl.
  f_equal. unfold stopped, setCollections, setCollectionsInfo. simpl.
  rewrite !insert_insert_eq, <- !app_assoc. reflexivity.
Qed.

(** Timers in the order of the subscribers they belong to: each removes
    the head of the list.  With a subscriber behind them sync goes on. *)
Lemma fire_heads_others due_ subs rest ts t n :
  rest <> [] ->
  fire (timersOf due_ subs) (synced (subs ++ rest) ts t n) = Ok (synced rest ts t n).
Proof.
  intros Hne. induction subs as [|s subs IH]; simpl.
  - reflexivity.
  - rewrite onTimer_head_others by (by destruct subs). simpl. exact IH.
Qed.

(** With nobody behind them the last timer stops sync. *)
Lemma fire_heads_all due_ s subs ts t n :
  fire (timersOf due_ (s :: subs)) (synced (s :: subs) ts t n) = Ok (stopped ts t n).
Proof.
  revert s. induction subs as [|s' subs IH]; intros s.
  - simpl. rewrite onTimer_last. reflexivity.
  - change (timersOf due_ (s :: s' :: subs))
      with ({| due := due_; timerPath := path; timerSubscriber := subscriberRef s |}
              :: timersOf due_ (s' :: subs)).
    cbn [fire]. rewrite onTimer_head_others by done.
    change (Ok (synced (s' :: subs) ts t n) ≫= fire (timersOf due_ (s' :: subs)))
      with (fire (timersOf due_ (s' :: subs)) (synced (s' :: subs) ts t n)).
    apply IH.
Qed.

Lemma filter_timersOf_due due_ subs t :
  (due_ <= t)%nat ->
  List.filter (fun x => Nat.leb (due x) t) (timersOf due_ subs) = timersOf due_ subs /\
  List.filter (fun x => negb (Nat.leb (due x) t)) (timersOf due_ subs) = [].
Proof.
  intros Hle. induction subs as [|s subs [IH1 IH2]]; simpl; [done|].
  rewrite (proj2 (Nat.leb_le _ _) Hle). simpl. by rewrite IH1, IH2.
Qed.

Lemma filter_timersOf_pending due_ subs t :
  (t < due_)%nat ->
  List.filter (fun x => Nat.leb (due x) t) (timersOf due_ subs) = [] /\
  List.filter (fun x => negb (Nat.leb (due x) t)) (timersOf due_ subs) = timersOf due_ subs.
Proof.
  intros Hlt. induction subs as [|s subs [IH1 IH2]]; simpl; [done|].
  rewrite (proj2 (Nat.leb_gt _ _) Hlt). simpl. by rewrite IH1, IH2.
Qed.

(** Time passing short of the delay fires nothing. *)
Lemma advance_pending due_ subs tsubs t n dt :
  (t + dt < due_)%nat ->
  advance dt (synced subs (timersOf due_ tsubs) t n)
  = Ok (synced subs (timersOf due_ tsubs) (t + dt) n).
Proof.
  intros Hlt. unfold advance. cbn [now timers synced].
  destruct (filter_timersOf_pending due_ tsubs (t + dt) Hlt) as [-> ->].
  reflexivity.
Qed.

(** Time passing beyond the delay fires all the timers, in order. *)
Lemma advance_due due_ subs tsubs t n dt :
  (due_ <= t + dt)%nat ->
  advance dt (synced subs (timersOf due_ tsubs) t n)
  = fire (timersOf due_ tsubs) (synced subs [] (t + dt) n).
Proof.
  intros Hle. unfold advance. cbn [now timers synced].
  destruct (filter_timersOf_due due_ tsubs (t + dt) Hle) as [-> ->].
  reflexivity.
Qed.

Lemma run_app ops1 ops2 st st1 :
  run ops1 st = Ok st1 -> run (ops1 ++ ops2) st = run ops2 st1.
Proof.
  revert st. induction ops1 as [|o ops1 IH]; intros st; simpl.
  - by intros [= ->].
  - destruct (step o st) as [st'|e]; simpl; [apply IH|discriminate].
Qed.

Lemma always_app P ops1 ops2 st st1 :
  always P ops1 st -> run ops1 st = Ok st1 -> always P ops2 st1 ->
  always P (ops1 ++ ops2) st.
Proof.
  revert st. induction ops1 as [|o ops1 IH]; intros st; simpl.
  - by intros _ [= ->].
  - intros (st' & Hstep & HP & Hrest). rewrite Hstep. simpl. intros Hrun H2.
    exists st'. split; [done|]. split; [done|]. by apply IH.
Qed.

Lemma undisturbed_synced subs ts t n : undisturbed (synced subs ts t n).
Proof. split; [apply syncUp_synced|reflexivity]. Qed.

Lemma subscribe_more callbacks : forall subs ts t n fs,
  subs <> [] ->
  run (Subscribe path <$> callbacks) (synced subs ts t n, fs)
  = Ok (synced (subs ++ subscribersFrom (S (S (nextRef this0)) + n) callbacks) ts t
               (n + length callbacks),
        fs ++ unsubscribeFunctions (subscribersFrom (S (S (nextRef this0)) + n) callbacks))
  /\ always undisturbed (Subscribe path <$> callbacks) (synced subs ts t n, fs).
Proof.
  induction callbacks as [|c callbacks IH]; intros subs ts t n fs Hne.
  - simpl. rewrite !app_nil_r, Nat.add_0_r. done.
  - cbn [fmap list_fmap Collections.run Collections.always Collections.step].
    rewrite syncCollection_next by done. cbn [mbind outcome_bind fst snd].
    destruct (IH (subs ++ [{| subscriberRef := (S (S (nextRef this0)) + n)%nat;
                              onError := c |}]) ts t (S n)
                 (fs ++ [(path, (S (S (nextRef this0)) + n)%nat)])) as [Hrun Hal].
    { by destruct subs. }
    replace (S (S (nextRef this0)) + S n)%nat
      with (S (S (S (nextRef this0)) + n))%nat in Hrun by lia.
    split.
    + rewrite Hrun. cbn [subscribersFrom length]. unfold unsubscribeFunctions.
      cbn [fmap list_fmap subscriberRef]. rewrite <- !app_assoc. simpl.
      do 3 f_equal. lia.
    + eexists. split; [reflexivity|]. split; [apply undisturbed_synced|exact Hal].
Qed.

Lemma subscribe_all c callbacks :
  let subs := subscribersFrom (S (S (nextRef this0))) (c :: callbacks) in
  run (Subscribe path <$> (c :: callbacks)) (this0, [])
  = Ok (synced subs [] (now this0) (length (c :: callbacks)), unsubscribeFunctions subs)
  /\ always undisturbed (Subscribe path <$> (c :: callbacks)) (this0, []).
Proof.
  intros subs. subst subs.
  cbn [fmap list_fmap Collections.run Collections.always Collections.step].
  rewrite syncCollection_first. cbn [mbind outcome_bind fst snd].
  destruct (subscribe_more callbacks
              [{| subscriberRef := S (S (nextRef this0)); onError := c |}]
              [] (now this0) 1%nat ([] ++ [(path, S (S (nextRef this0)))]))
    as [Hrun Hal]; [done|].
  replace (S (S (nextRef this0)) + 1)%nat with (S (S (S (nextRef this0)))) in Hrun by lia.
  split.
  - rewrite Hrun. reflexivity.
  - eexists. split; [reflexivity|]. split; [apply undisturbed_synced|exact Hal].
Qed.

Lemma unsubscribe_calls rest : forall pre subs ts t n,
  let fs := unsubscribeFunctions (pre ++ rest) in
  run (CallUnsubscribe <$> seq (length pre) (length rest)) (synced subs ts t n, fs)
  = Ok (synced subs (ts ++ timersOf (t + unsubscribeWaitTime) rest) t n, fs)
  /\ always undisturbed (CallUnsubscribe <$> seq (length pre) (length rest))
                        (synced subs ts t n, fs).
Proof.
  induction rest as [|s rest IH]; intros pre subs ts t n fs.
  - simpl. rewrite app_nil_r. done.
  - assert (fs !! length pre = Some (path, subscriberRef s)) as Hf.
    { subst fs. unfold unsubscribeFunctions. rewrite list_lookup_fmap.
      rewrite lookup_app_r by lia. rewrite Nat.sub_diag. reflexivity. }
    cbn [length seq fmap list_fmap Collections.run Collections.always Collections.step].
    rewrite Hf. cbn [mbind outcome_bind fst snd].
    rewrite unsubscribe_synced.
    destruct (IH (pre ++ [s]) subs
                 (ts ++ [{| due := (t + unsubscribeWaitTime)%nat; timerPath := path;
                            timerSubscriber := subscriberRef s |}]) t n) as [Hrun Hal].
    rewrite <- app_assoc in Hrun, Hal. simpl in Hrun, Hal.
    rewrite length_app in Hrun, Hal. simpl in Hrun, Hal.
    rewrite Nat.add_1_r in Hrun, Hal.
    split.
    + fold fs in Hrun. rewrite Hrun. rewrite <- app_assoc. reflexivity.
    + eexists. split; [reflexivity|]. split; [apply undisturbed_synced|exact Hal].
Qed.

End Resubscribe.



Lemma first_event_replaces_list_witness :
  exists this' c',
    updateCollectionFromSnapshot Firestore.OptPath "users" [] firstUsers staleModule = Ok this' /\
    collections this' !! "users" = Some c' /\
    list_ c' = [VObj {[ "id" := VStr "u1" ]}] /\
    syncing c' = false.
Proof.
  destruct (first_event_replaces_list Firestore.OptPath "users" [] firstUsers staleModule
              {| list_ := [Firestore.user "old" 99];
                 syncEnabled := false; syncing := false |}
              {| unsubscribeFromSync := None; firstSync := true;
                 collectionSubscribers := [];
                 unsubscribeFromCollectionOptions := None |})
    as (_ & Hfirst & _); [reflexivity|reflexivity|].
  destruct (Hfirst eq_refl) as (this' & c' & i' & Hu & Hc' & _ & Hl & _ & Hs).
  exists this', c'. split; [exact Hu|]. split; [exact Hc'|]. split; [exact Hl|exact Hs].
Defined.

End CollectionsFacts.


(** ** Properties of the identity wrapping *)

Module ProxiesFacts.
Import Js Proxies.

Section Minting.
Variable randomString : nat -> string.
Implicit Types (old new : gmap string pvalue) (k : nat).

Lemma fresh_or_taken old new id :
  (bool_decide (old !! id = None) && bool_decide (new !! id = None) = true ->
   old !! id = None /\ new !! id = None) /\
  (bool_decide (old !! id = None) && bool_decide (new !! id = None) = false ->
   taken old new id).
Proof.
  unfold taken. split.
  - intros [H1 H2]%andb_prop. split; by eapply bool_decide_eq_true_1.
  - intros [H|H]%andb_false_iff; apply bool_decide_eq_false_1 in H;
      [left|right]; by apply not_eq_None_Some.
Qed.

(** The loop with [n] tries to go draws at most [n] times, stops at the first
    draw that is in neither table, and throws once all [n] were taken. *)
Lemma generateProxyIdLoop_spec n : forall old new k,
  let r := generateProxyIdLoop randomString n old new k in
  (k <= r.2 <= k + n)%nat /\
  match r.1 with
  | Ok id =>
      (k < r.2)%nat /\ id = randomString (r.2 - 1) /\
      old !! id = None /\ new !! id = None /\
      (forall j, (k <= j < r.2 - 1)%nat -> taken old new (randomString j))
  | Throw e =>
      e = ProxyIdError /\ r.2 = (k + n)%nat /\
      (forall j, (k <= j < k + n)%nat -> taken old new (randomString j))
  end.
Proof.
  induction n as [|n IH]; intros old new k; simpl.
  - split; [lia|]. split; [done|]. split; [lia|]. intros j Hj. lia.
  - destruct (fresh_or_taken old new (randomString k)) as [Hfresh Htaken].
    destruct (bool_decide (old !! randomString k = None)
              && bool_decide (new !! randomString k = None)) eqn:Hb; simpl.
    + destruct (Hfresh eq_refl) as [Ho Hn].
      split; [lia|]. split; [lia|].
      split; [f_equal; lia|]. split; [done|]. split; [done|]. intros j Hj. lia.
    + specialize (IH old new (S k)). simpl in IH.
      destruct IH as [Hrange IH]. split; [lia|].
      destruct (generateProxyIdLoop randomString n old new (S k)).1 as [id|e].
      * destruct IH as (Hlt & Hid & Ho & Hn & Hbefore).
        split; [lia|]. split; [done|]. split; [done|]. split; [done|].
        intros j Hj. destruct (decide (j = k)) as [->|Hne]; [by apply Htaken|].
        apply Hbefore. lia.
      * destruct IH as (He & Hr & Hall).
        split; [done|]. split; [lia|].
        intros j Hj. destruct (decide (j = k)) as [->|Hne]; [by apply Htaken|].
        apply Hall. lia.
Qed.

(** C6. Token minting is bounded.  [generateProxyId] draws at least once
    and at most 100 times.  When it returns, the token is the last draw, it
    is in neither the previous- nor the current-generation table, and every
    draw before it was taken.  When all of the 100 draws are taken it throws
    the generation error, and it throws in no other case. *)
Theorem generateProxyId_bounded_and_fresh old new k :
  let r := generateProxyId randomString old new k in
  (k < r.2 <= k + 100)%nat /\
  match r.1 with
  | Ok id =>
      id = randomString (r.2 - 1) /\
      old !! id = None /\ new !! id = None /\
      (forall j, (k <= j < r.2 - 1)%nat -> taken old new (randomString j))
  | Throw e =>
      e = ProxyIdError /\ r.2 = (k + 100)%nat /\
      (forall j, (k <= j < k + 100)%nat -> taken old new (randomString j))
  end /\
  ((forall j, (k <= j < k + 100)%nat -> taken old new (randomString j)) ->
   r.1 = Throw ProxyIdError).
Proof.
  intros r. subst r. unfold generateProxyId.
  pose proof (generateProxyIdLoop_spec 100 old new k) as H. cbv zeta in H.
  set (r := generateProxyIdLoop randomString 100 old new k) in *.
  destruct H as [Hrange H].
  destruct (r.1) as [id|e] eqn:Hr.
  - destruct H as (Hlt & Hid & Ho & Hn & Hbefore).
    split; [lia|]. split; [done|].
    intros Hall. exfalso.
    destruct (Hall (r.2 - 1)%nat) as [[v Hv]|[v Hv]]; [lia| |];
      rewrite <- Hid in Hv; congruence.
  - destruct H as (He & Hk & Hall).
    split; [lia|]. split; [done|]. intros _. by rewrite He.
Qed.
End Minting.

(** A generator whose third draw is the first one not taken. *)
Example generateProxyId_third_draw :
  generateProxyId sampleRandomString
    {[ "t0" := PProxy "t0" (PLeaf Null) ]} {[ "t1" := PProxy "t1" (PLeaf Null) ]} 0
  = (Ok "t2", 3%nat).
Proof. vm_compute. reflexivity. Qed.

(** A generator that only ever draws a token that is taken: 100 draws, then
    the error. *)
Example generateProxyId_exhausted :
  generateProxyId (fun _ => "t0") {[ "t0" := PProxy "t0" (PLeaf Null) ]} ∅ 5
  = (Throw ProxyIdError, 105%nat).
Proof. vm_compute. reflexivity. Qed.

Section Induction.
(** Induction on a value along the walk: into the properties of an ordinary
    object, not into a wrapper. *)
Variable P : pvalue -> Prop.
Hypothesis leaf_case : forall p, P (PLeaf p).
Hypothesis proxy_case : forall id target, P (PProxy id target).
Hypothesis object_case : forall token isArray plainPrototype ownSymbols props,
  Forall (fun p => P p.2.2) props ->
  P (PObject token isArray plainPrototype ownSymbols props).

Fixpoint pvalue_walk_ind (obj : pvalue) : P obj :=
  match obj with
  | PLeaf p => leaf_case p
  | PProxy id target => proxy_case id target
  | PObject token isArray plainPrototype ownSymbols props =>
      object_case token isArray plainPrototype ownSymbols props
        ((fix each (ps : list (string * (attributes * pvalue)))
            : Forall (fun p => P p.2.2) ps :=
            match ps with
            | [] => List.Forall_nil _
            | p :: rest => List.Forall_cons _ p rest (pvalue_walk_ind p.2.2) (each rest)
            end) props)
  end.
End Induction.

Section Unfold.
Variable randomString : nat -> string.
Implicit Types (ps props : list (string * (attributes * pvalue))).

Lemma resolvable_object old isArray plainPrototype ownSymbols props :
  resolvable old (PObject None isArray plainPrototype ownSymbols props) <->
  (isJsonIncompatible isArray plainPrototype ownSymbols props = false ->
   Forall (fun p => resolvable old p.2.2) props).
Proof.
  simpl. destruct (isJsonIncompatible _ _ _ _); [split; [discriminate|done]|].
  assert (forall ps,
    (fix each ps : Prop :=
       match ps with [] => True | p :: rest => resolvable old p.2.2 /\ each rest end) ps
    <-> Forall (fun p => resolvable old p.2.2) ps) as Heach.
  { induction ps as [|p ps IH]; [split; auto|].
    rewrite Forall_cons, <- IH. reflexivity. }
  rewrite Heach. split; [auto|]. intros H. by apply H.
Qed.

Lemma settled_object isArray plainPrototype ownSymbols props :
  settled (PObject None isArray plainPrototype ownSymbols props) <->
  isJsonIncompatible isArray plainPrototype ownSymbols props = false /\
  Forall (fun p => settled p.2.2) props.
Proof.
  simpl.
  assert (forall ps,
    (fix each ps : Prop :=
       match ps with [] => True | p :: rest => settled p.2.2 /\ each rest end) ps
    <-> Forall (fun p => settled p.2.2) ps) as Heach.
  { induction ps as [|p ps IH]; [split; auto|].
    rewrite Forall_cons, <- IH. reflexivity. }
  rewrite Heach. reflexivity.
Qed.

Lemma wrappersOf_object token isArray plainPrototype ownSymbols props :
  wrappersOf (PObject token isArray plainPrototype ownSymbols props)
  = flat_map (fun p => wrappersOf p.2.2) props.
Proof.
  simpl. induction props as [|p props IH]; [done|]. simpl. by rewrite IH.
Qed.

(** The walk of an ordinary object without token, with its loop named. *)
Lemma initProxiesRecursively_object isArray plainPrototype ownSymbols props t k :
  initProxiesRecursively randomString
    (PObject None isArray plainPrototype ownSymbols props) t k
  = if isJsonIncompatible isArray plainPrototype ownSymbols props then
      match generateProxyId randomString (oldProxyObjects t) (newProxyObjects t) k with
      | (Ok id, k') =>
          Ok {| result := PProxy id (PObject None isArray plainPrototype ownSymbols props);
                sameObject := false;
                tablesAfter :=
                  setNew id (PProxy id (PObject None isArray plainPrototype ownSymbols props)) t;
                draws := k' |}
      | (Throw e, _) => Throw e
      end
    else
      r ← walkProps (initProxiesRecursively randomString) props t k;
      Ok {| result := PObject None isArray plainPrototype ownSymbols r.1.1;
            sameObject := true; tablesAfter := r.1.2; draws := r.2 |}.
Proof.
  cbn [initProxiesRecursively].
  destruct (isJsonIncompatible isArray plainPrototype ownSymbols props); [reflexivity|].
  match goal with
  | |- ?loop props t k ≫= _ = _ =>
      assert (forall ps t k,
                loop ps t k = walkProps (initProxiesRecursively randomString) ps t k) as ->
  end; [|reflexivity].
  induction ps as [|[key [a v]] ps IH]; intros t' k'; [reflexivity|].
  cbn [walkProps].
  destruct (initProxiesRecursively randomString v t' k') as [w|e]; [|reflexivity].
  cbn [mbind outcome_bind].
  destruct (negb (sameObject w) && negb (assignable a)); [reflexivity|].
  rewrite IH. reflexivity.
Qed.
End Unfold.

Section Registering.
Implicit Types (m : gmap string pvalue) (t : tables) (l : list (string * pvalue)).

Lemma registerAll_app l1 l2 t :
  registerAll (l1 ++ l2) t = registerAll l2 (registerAll l1 t).
Proof. unfold registerAll. apply foldl_app. Qed.

Lemma registerAll_tables l t :
  registerAll l t =
  match t with
  | SameMap m => SameMap (insertAll l m)
  | TwoMaps old new => TwoMaps old (insertAll l new)
  end.
Proof.
  revert t. induction l as [|p l IH]; intros t.
  - by destruct t.
  - unfold registerAll, insertAll in *. simpl. rewrite IH. by destruct t.
Qed.

Lemma insertAll_union l m : insertAll l m = insertAll l ∅ ∪ m.
Proof.
  revert m. induction l as [|p l IH] using rev_ind; intros m.
  - unfold insertAll. simpl. by rewrite (left_id_L ∅ (∪)).
  - unfold insertAll in *. rewrite !foldl_app. simpl.
    rewrite IH. by rewrite insert_union_l.
Qed.

(** Filing the same wrappers a second time changes nothing. *)
Lemma insertAll_twice l m : insertAll l (insertAll l m) = insertAll l m.
Proof.
  rewrite (insertAll_union l (insertAll l m)), (insertAll_union l m).
  rewrite (assoc_L (∪)). by rewrite (idemp_L (∪)).
Qed.

Lemma registerAll_twice l t : registerAll l (registerAll l t) = registerAll l t.
Proof.
  rewrite !registerAll_tables. destruct t; by rewrite insertAll_twice.
Qed.

Lemma wrappersOnly_insert m id target :
  wrappersOnly m -> wrappersOnly (<[id := PProxy id target]> m).
Proof.
  intros Hm id' v. rewrite lookup_insert. case_decide as Hid.
  - intros [= <-]. subst. eauto.
  - apply Hm.
Qed.

Lemma tablesOfWrappers_setNew id target t :
  tablesOfWrappers t -> tablesOfWrappers (setNew id (PProxy id target) t).
Proof.
  intros [Hold Hnew]. destruct t; split; simpl in *;
    auto using wrappersOnly_insert.
Qed.

Lemma grows_refl m : grows m m.
Proof. by intros id. Qed.

Lemma grows_trans m1 m2 m3 : grows m1 m2 -> grows m2 m3 -> grows m1 m3.
Proof. intros H12 H23 id H. auto. Qed.

Lemma grows_setNew id v t : grows (oldProxyObjects t) (oldProxyObjects (setNew id v t)).
Proof.
  destruct t; simpl; [|apply grows_refl].
  intros id' H. rewrite lookup_insert. by case_decide.
Qed.

Lemma resolvable_grows m m' obj : grows m m' -> resolvable m obj -> resolvable m' obj.
Proof.
  intros Hg. induction obj as [p|id target|token a b c props IH] using pvalue_walk_ind.
  - done.
  - done.
  - destruct token as [id|]; [apply Hg|].
    rewrite !resolvable_object. intros Hres Hc. specialize (Hres Hc).
    rewrite Forall_forall in IH, Hres |- *. auto.
Qed.
End Registering.

Section TwoWalks.
Variable randomString : nat -> string.
Implicit Types (ps props : list (string * (attributes * pvalue))) (t : tables).

Local Abbreviation walk := (initProxiesRecursively randomString).
Local Abbreviation walkedWell := (walkedWell randomString).
Local Abbreviation walkedAgain := (walkedAgain randomString).

Lemma readProperty_alike ps ps' key :
  Forall2 alike ps ps' ->
  isTruthy (readProperty ps' key) = isTruthy (readProperty ps key).
Proof.
  unfold readProperty.
  induction 1 as [|[n [a v]] [n' [a' v']] ps ps' (Hn & Ha & Hty & Htr) _ IH]; [done|].
  simpl in *. subst n' a'. destruct (String.eqb n key); [exact Htr|exact IH].
Qed.

Lemma isJsonIncompatible_alike isArray plainPrototype ownSymbols ps ps' :
  Forall2 alike ps ps' ->
  isJsonIncompatible isArray plainPrototype ownSymbols ps'
  = isJsonIncompatible isArray plainPrototype ownSymbols ps.
Proof.
  intros Hal. unfold isJsonIncompatible.
  destruct isArray; [done|]. destruct (negb plainPrototype); [done|].
  destruct ownSymbols; [done|].
  rewrite (readProperty_alike ps ps' "__ob__" Hal).
  generalize (isTruthy (readProperty ps "__ob__")). intros obs.
  induction Hal as [|[n [a v]] [n' [a' v']] ps ps' (Hn & Ha & Hty & Htr) _ IH]; [done|].
  simpl in *. subst n' a'. rewrite IH. f_equal. f_equal.
  unfold descriptorIncompatible. by rewrite Hty.
Qed.

Lemma walkProps_well ps :
  Forall (fun p => walkedWell p.2.2) ps ->
  forall t k ps' t' k',
    tablesOfWrappers t ->
    Forall (fun p => resolvable (oldProxyObjects t) p.2.2) ps ->
    walkProps walk ps t k = Ok (ps', t', k') ->
    Forall2 alike ps ps' /\
    Forall (fun p => settled p.2.2) ps' /\
    t' = registerAll (flat_map (fun p => wrappersOf p.2.2) ps') t /\
    tablesOfWrappers t' /\
    grows (oldProxyObjects t) (oldProxyObjects t').
Proof.
  induction 1 as [|[key [a v]] ps Hv _ IH]; intros t k ps' t' k' Hw Hres Hrun.
  - simpl in Hrun. injection Hrun as <- <- <-.
    split; [constructor|]. split; [constructor|]. split; [done|].
    split; [done|apply grows_refl].
  - cbn [walkProps] in Hrun. apply Forall_cons in Hres as [Hresv Hresps].
    destruct (walk v t k) as [w|e] eqn:Hwalk; [|discriminate].
    cbn [mbind outcome_bind] in Hrun.
    destruct (negb (sameObject w) && negb (assignable a)); [discriminate|].
    destruct (walkProps walk ps (tablesAfter w) (draws w)) as [[[qs tq] kq]|e] eqn:Hrest;
      [|discriminate].
    cbn [mbind outcome_bind fst snd] in Hrun. injection Hrun as <- <- <-.
    destruct (Hv t k w Hw Hresv Hwalk) as (Hset & Hty & Htr & Htab & Hw' & Hg).
    destruct (IH (tablesAfter w) (draws w) qs tq kq Hw') as (Hal & Hsets & Htq & Hwq & Hgq).
    { eapply Forall_impl; [exact Hresps|]. intros p. by apply resolvable_grows. }
    { exact Hrest. }
    split; [constructor; [done|exact Hal]|].
    split; [constructor; [exact Hset|exact Hsets]|].
    split. { cbn [flat_map fst snd]. rewrite registerAll_app, <- Htab. exact Htq. }
    split; [exact Hwq|]. eapply grows_trans; eauto.
Qed.

Lemma first_walk_well obj : walkedWell obj.
Proof.
  induction obj as [p|id target|token isArray plainPrototype ownSymbols props IH]
    using pvalue_walk_ind; intros t k w Hw Hres Hwalk.
  - simpl in Hwalk. injection Hwalk as <-. simpl.
    repeat split; try done; try apply Hw. apply grows_refl.
  - simpl in Hwalk. injection Hwalk as <-. cbn [result tablesAfter].
    split; [done|]. split; [done|]. split; [done|]. split; [done|].
    split; [by apply tablesOfWrappers_setNew|apply grows_setNew].
  - destruct token as [id|].
    + simpl in Hwalk, Hres. destruct Hres as [v Hv].
      destruct (proj1 Hw id v Hv) as [target ->].
      rewrite Hv in Hwalk. injection Hwalk as <-. cbn [result tablesAfter default].
      split; [done|]. split; [done|]. split; [done|]. split; [done|].
      split; [by apply tablesOfWrappers_setNew|apply grows_setNew].
    + rewrite initProxiesRecursively_object in Hwalk.
      destruct (isJsonIncompatible isArray plainPrototype ownSymbols props) eqn:Hc.
      * destruct (generateProxyId randomString (oldProxyObjects t) (newProxyObjects t) k)
          as [[id|e] k'] eqn:Hid; [|discriminate].
        injection Hwalk as <-. cbn [result tablesAfter].
        split; [done|]. split; [done|]. split; [done|]. split; [done|].
        split; [by apply tablesOfWrappers_setNew|apply grows_setNew].
      * apply resolvable_object in Hres; [|exact Hc].
        destruct (walkProps walk props t k) as [[[ps' t'] k']|e] eqn:Hrun; [|discriminate].
        cbn [mbind outcome_bind fst snd] in Hwalk. injection Hwalk as <-.
        cbn [result tablesAfter].
        destruct (walkProps_well props IH t k ps' t' k' Hw Hres Hrun)
          as (Hal & Hsets & Ht' & Hw' & Hg).
        split. { apply settled_object. split; [|exact Hsets].
                 by rewrite (isJsonIncompatible_alike _ _ _ props ps' Hal). }
        split; [done|]. split; [done|].
        split; [by rewrite wrappersOf_object|]. split; done.
Qed.

Lemma walkProps_again ps :
  Forall (fun p => walkedAgain p.2.2) ps ->
  Forall (fun p => settled p.2.2) ps ->
  forall t k,
    walkProps walk ps t k
    = Ok (ps, registerAll (flat_map (fun p => wrappersOf p.2.2) ps) t, k).
Proof.
  induction 1 as [|[key [a v]] ps Hv _ IH]; intros Hset t k; [reflexivity|].
  apply Forall_cons in Hset as [Hsetv Hsetps].
  cbn [walkProps]. simpl in Hv, Hsetv. rewrite (Hv Hsetv t k).
  cbn [mbind outcome_bind sameObject negb andb result tablesAfter draws].
  rewrite (IH Hsetps). cbn [mbind outcome_bind fst snd flat_map].
  by rewrite registerAll_app.
Qed.

Lemma second_walk_again r : walkedAgain r.
Proof.
  induction r as [p|id target|token isArray plainPrototype ownSymbols props IH]
    using pvalue_walk_ind; intros Hset t k.
  - reflexivity.
  - reflexivity.
  - destruct token as [id|]; [destruct Hset|].
    apply settled_object in Hset as [Hc Hsets].
    rewrite initProxiesRecursively_object, Hc.
    rewrite (walkProps_again props IH Hsets). cbn [mbind outcome_bind fst snd].
    by rewrite wrappersOf_object.
Qed.

End TwoWalks.

Section Stale.
Variable randomString : nat -> string.

(** C8, as the code has it.  A tokenized copy whose token is not in the
    previous-generation table raises nothing and reports nothing: the walk
    returns normally, the value it hands back in place of the copy is
    [undefined] (what the failed table lookup gave), the token is filed in the
    current-generation table with [undefined], and no draw is made. *)
Theorem stale_reference_replaced_by_undefined
    (id : string) (isArray plainPrototype ownSymbols : bool)
    (props : list (string * (attributes * pvalue))) (t : tables) (k : nat) :
  oldProxyObjects t !! id = None ->
  initProxiesRecursively randomString
    (PObject (Some id) isArray plainPrototype ownSymbols props) t k
  = Ok {| result := PLeaf Undefined; sameObject := false;
          tablesAfter := setNew id (PLeaf Undefined) t; draws := k |}.
Proof. intros Hstale. simpl. rewrite Hstale. reflexivity. Qed.
End Stale.

Lemma stale_reference_replaced_by_undefined_witness :
  oldProxyObjects (TwoMaps ∅ ∅) !! "gone" = None /\
  initProxiesRecursively sampleRandomString staleCopy (TwoMaps ∅ ∅) 0
  = Ok {| result := PLeaf Undefined; sameObject := false;
          tablesAfter := TwoMaps ∅ {[ "gone" := PLeaf Undefined ]}; draws := 0 |}.
Proof.
  assert (oldProxyObjects (TwoMaps ∅ ∅) !! "gone" = None) as Hstale by reflexivity.
  split; [exact Hstale|].
  exact (stale_reference_replaced_by_undefined sampleRandomString "gone" false true false []
           (TwoMaps ∅ ∅) 0%nat Hstale).
Defined.



Example sampleState_walked :
  result <$> initProxiesRecursively sampleRandomString sampleState sampleTables 0
  = Ok (PObject None false true false
          [("session", (plain, PProxy "t0" (PObject None false false false
                                              [("user", (plain, PLeaf (String_ "ann")))])));
           ("cart", (plain, PProxy "a" (PObject None false false false [])))]).
Proof. reflexivity. Qed.

(** The stale copy is not surfaced: the call returns, with [undefined] in
    place of the copy. *)
Lemma stale_reference_not_surfaced :
  initProxiesRecursively sampleRandomString staleCopy (TwoMaps ∅ ∅) 0
  = Ok {| result := PLeaf Undefined; sameObject := false;
          tablesAfter := TwoMaps ∅ {[ "gone" := PLeaf Undefined ]}; draws := 0 |} /\
  ~ staleReferenceSurfaced
      (initProxiesRecursively sampleRandomString staleCopy (TwoMaps ∅ ∅) 0).
Proof. split; [reflexivity|]. simpl. tauto. Qed.

End ProxiesFacts.

(** ** Properties of the module compiler *)

Module DecoratorsFacts.
Import Js Decorators.

Lemma readSlot_object marker props s :
  readable s -> exists v, readSlot (SObject marker props) s = Ok v.
Proof. destruct s; simpl; intros H; try done; eauto. Qed.

Lemma compileMember_object prefix propertyName md s c marker props :
  c_state c = SObject marker props -> readable s ->
  exists s' c' props',
    compileMember prefix propertyName md s c = Ok (s', c') /\
    c_state c' = SObject marker props'.
Proof.
  intros Hst Hs. unfold compileMember, compileAction, callableSlot.
  destruct (readSlot_object marker props s Hs) as [v Hv]. rewrite Hst, Hv.
  destruct (isState md) as [key|]; simpl.
  { eexists _, _, _. split; [reflexivity|]. reflexivity. }
  destruct (isGetter md) as [[name [getter|]]|]; simpl.
  { eexists _, _, _. split; [reflexivity|]. reflexivity. }
  all: destruct (isMutation md) as [name'|]; simpl;
    repeat match goal with
    | |- context [match ?x with _ => _ end] => destruct x; simpl
    end;
    eexists _, _, _; (split; [reflexivity|]); simpl; try rewrite Hst; reflexivity.
Qed.

Lemma compileMembers_object prefix ms : forall c marker props,
  c_state c = SObject marker props ->
  Forall (fun m => readable m.2.2) ms ->
  exists ms' c', compileMembers prefix ms c = Ok (ms', c').
Proof.
  induction ms as [|[propertyName [md s]] ms IH]; intros c marker props Hst Hall.
  - simpl. eauto.
  - apply Forall_cons in Hall as [Hs Hall]. simpl in Hs.
    destruct (compileMember_object prefix propertyName md s c marker props Hst Hs)
      as (s' & c' & props' & Hc & Hst').
    destruct (IH c' marker props' Hst' Hall) as (ms' & c'' & Hrest).
    simpl. rewrite Hc. simpl. rewrite Hrest. simpl. eauto.
Qed.

(** C5. Module compilation is idempotent.  A call on an instance marked as
    compiled returns it as it is and defines and registers nothing.  A first
    call that returns leaves the instance marked, so a second call on the
    same instance is that no-op: the instance, hence the store module it
    holds, is the one of the first call, and no getter, mutation or action is
    registered again.  A first call does return whenever the state is
    undefined or an object and no member is an accessor over a store
    getter. *)
Theorem initVuexModule_idempotent (this : VuexModule) :
  (vuexModuleInitialized this = true -> initVuexModule this = Ok (this, [])) /\
  (forall compiled log,
     initVuexModule this = Ok (compiled, log) ->
     vuexModuleInitialized compiled = true /\
     initVuexModule compiled = Ok (compiled, []) /\
     (fun r => module r.1) <$> initVuexModule compiled = Ok (module compiled)) /\
  ((state this = SLeaf LUndefined \/ exists marker props, state this = SObject marker props) ->
   Forall (fun m => readable m.2.2) (members this) ->
   exists compiled log, initVuexModule this = Ok (compiled, log)).
Proof.
  split; [|split].
  - intros Hinit. unfold initVuexModule. rewrite Hinit. reflexivity.
  - intros compiled log Hfirst.
    assert (vuexModuleInitialized compiled = true) as Hmarked.
    { unfold initVuexModule in Hfirst.
      destruct (vuexModuleInitialized this) eqn:Hinit.
      - injection Hfirst as <- <-. exact Hinit.
      - destruct (compileMembers _ _ _) as [[ms c]|e]; [|discriminate].
        simpl in Hfirst. injection Hfirst as <- <-. reflexivity. }
    assert (initVuexModule compiled = Ok (compiled, [])) as Hsecond.
    { unfold initVuexModule. rewrite Hmarked. reflexivity. }
    split; [exact Hmarked|]. split; [exact Hsecond|].
    rewrite Hsecond. reflexivity.
  - intros Hstate Hread. unfold initVuexModule.
    destruct (vuexModuleInitialized this); [eauto|].
    match goal with
    | |- context [compileMembers ?prefix ?ms ?c] =>
        assert (exists marker props, c_state c = SObject marker props) as (marker & props & Hst)
    end.
    { simpl. destruct Hstate as [->|(marker & props & ->)]; eauto. }
    match goal with
    | |- context [compileMembers ?prefix ?ms ?c] =>
        destruct (compileMembers_object prefix ms c marker props Hst Hread)
          as (ms' & c' & ->)
    end.
    simpl. eauto.
Qed.

Lemma initVuexModule_idempotent_witness :
  exists compiled log,
    initVuexModule cartModule = Ok (compiled, log) /\
    vuexModuleInitialized compiled = true /\
    initVuexModule compiled = Ok (compiled, []).
Proof.
  destruct (initVuexModule_idempotent cartModule) as (_ & Hsecond & Hfirst).
  destruct Hfirst as (compiled & log & Hrun).
  - right. eexists _, _. reflexivity.
  - repeat constructor.
  - exists compiled, log. split; [exact Hrun|].
    destruct (Hsecond compiled log Hrun) as (Hmarked & Hnoop & _).
    split; [exact Hmarked|exact Hnoop].
Defined.

Example cartModule_compiled_once :
  exists compiled,
    initVuexModule cartModule
    = Ok (compiled,
          [RegisteredAction initModuleAction;
           DefinedProperty "items";
           DefinedProperty "total"; RegisteredGetter "total";
           DefinedProperty "add"; RegisteredMutation "add";
           DefinedProperty "checkout"; RegisteredAction "checkout"]) /\
    mutations (module compiled) = Some {[ "add" := MutationHandler (Original 2%nat) ]} /\
    initVuexModule compiled = Ok (compiled, []).
Proof. eexists. split; [vm_compute; reflexivity|]. split; vm_compute; reflexivity. Qed.

Section TreeInduction.
(** Induction on a module tree: into the state of a module and into the
    properties of a subtree. *)
Variable P : mtree -> Prop.
Hypothesis leaf_case : forall l, P (MLeaf l).
Hypothesis module_case : forall m instance st, P st -> P (MModule m instance st).
Hypothesis subtree_case : forall props,
  Forall (fun p => P p.2) props -> P (MSubTree props).

Fixpoint mtree_ind' (t : mtree) : P t :=
  match t with
  | MLeaf l => leaf_case l
  | MModule m instance st => module_case m instance st (mtree_ind' st)
  | MSubTree props =>
      subtree_case props
        ((fix each (ps : list (string * mtree)) : Forall (fun p => P p.2) ps :=
            match ps with
            | [] => List.Forall_nil _
            | p :: rest => List.Forall_cons _ p rest (mtree_ind' p.2) (each rest)
            end) props)
  end.
End TreeInduction.

Section Namespaces.
Local Open Scope string_scope.

Lemma append_assoc (s1 s2 s3 : string) : (s1 ++ s2) ++ s3 = s1 ++ (s2 ++ s3).
Proof.
  induction s1 as [|a s1 IH]; [reflexivity|].
  change (String a ((s1 ++ s2) ++ s3) = String a (s1 ++ (s2 ++ s3))). by rewrite IH.
Qed.

Lemma concat_snoc (sep : string) (path : list string) (key : string) :
  path <> [] ->
  String.concat sep (path ++ [key]) = String.concat sep path ++ sep ++ key.
Proof.
  induction path as [|p path IH]; [done|]. intros _.
  destruct path as [|q path]; [reflexivity|].
  change (String.concat sep ((p :: q :: path) ++ [key]))
    with (p ++ sep ++ String.concat sep ((q :: path) ++ [key])).
  rewrite IH by done.
  change (String.concat sep (p :: q :: path))
    with (p ++ sep ++ String.concat sep (q :: path)).
  by rewrite !append_assoc.
Qed.

(** The namespace the walk builds key by key is the slash-delimited path. *)
Lemma propertyNamespace_path (path : list string) (key : string) :
  propertyNamespace (namespaceOfPath path) key = namespaceOfPath (path ++ [key]).
Proof.
  unfold propertyNamespace, namespaceOfPath.
  destruct path as [|p path]; [reflexivity|].
  rewrite concat_snoc by done. reflexivity.
Qed.
End Namespaces.

Section Unwrapping.
Implicit Types (t : mtree) (h : gmap nat VuexModule) (ms : list nat).

Lemma instancesBefore_refs t : (instancesBefore t).*1 = preorder t.
Proof.
  induction t as [l|m instance st IH|props IH] using mtree_ind';
    cbn [instancesBefore preorder].
  - reflexivity.
  - rewrite fmap_cons. cbn [fst]. by rewrite IH.
  - induction IH as [|p ps Hp _ IHps]; cbn [flat_map]; [done|].
    by rewrite fmap_app, Hp, IHps.
Qed.

Lemma instancesAfter_refs t : forall path, (instancesAfter path t).*1 = preorder t.
Proof.
  induction t as [l|m instance st IH|props IH] using mtree_ind'; intros path;
    cbn [instancesAfter preorder].
  - reflexivity.
  - rewrite fmap_cons. cbn [fst]. by rewrite IH.
  - induction IH as [|p ps Hp _ IHps]; cbn [flat_map]; [done|].
    by rewrite fmap_app, Hp, IHps.
Qed.

(** Instances held by the heap stay held when the heap only changes at
    other references. *)
Lemma held_frame (l : list (nat * VuexModule)) (refs : list nat) h h' :
  (forall m, m ∉ refs -> h' !! m = h !! m) ->
  (forall m, m ∈ l.*1 -> m ∉ refs) ->
  Forall (fun p => h !! p.1 = Some p.2) l ->
  Forall (fun p => h' !! p.1 = Some p.2) l.
Proof.
  intros Hframe Hdisj Hheld. rewrite Forall_forall in Hheld |- *.
  intros p Hp. rewrite Hframe; [by apply Hheld|].
  apply Hdisj. by apply list_elem_of_fmap_2.
Qed.

Lemma setState_assignNamespace st st' n instance :
  setState st' (assignNamespace n (setState st instance))
  = setState st' (assignNamespace n instance).
Proof.
  unfold assignNamespace. cbn [setState namespace].
  destruct (namespace instance); reflexivity.
Qed.

Lemma unwrapProps_well (props : list (string * mtree)) :
  Forall (fun p => unwrapsWell p.2) props ->
  forall path h ms fuel,
    NoDup (flat_map (fun p => preorder p.2) props) ->
    Forall (fun p => h !! p.1 = Some p.2) (flat_map (fun p => instancesBefore p.2) props) ->
    Forall (fun p => height p.2 < fuel)%nat props ->
    exists h',
      unwrapProps (unwrapStateRecursively fuel) (namespaceOfPath path)
        (map (fun p => (p.1, layout p.2)) props) h ms
        = Some (map (fun p => (p.1, unwrapped p.2)) props, h',
                ms ++ flat_map (fun p => preorder p.2) props) /\
      Forall (fun p => h' !! p.1 = Some p.2)
             (flat_map (fun p => instancesAfter (path ++ [p.1]) p.2) props) /\
      (forall m, m ∉ flat_map (fun p => preorder p.2) props -> h' !! m = h !! m).
Proof.
  induction 1 as [|[key c] ps Hc _ IH]; intros path h ms fuel Hnd Hheld Hfuel.
  - exists h. simpl. rewrite app_nil_r. split; [done|]. split; [constructor|done].
  - cbn [flat_map fst snd] in Hnd, Hheld.
    apply NoDup_app in Hnd as (Hndc & Hdisj & Hndps).
    apply Forall_app in Hheld as [Hheldc Hheldps].
    apply Forall_cons in Hfuel as [Hfc Hfps]. simpl in Hfc, Hc.
    destruct (Hc (path ++ [key]) h ms fuel Hndc Hheldc Hfc) as (h1 & Hrun & Hafter & Hframe).
    rewrite <- propertyNamespace_path in Hrun.
    destruct (IH path h1 (ms ++ preorder c) fuel Hndps) as (h2 & Hrest & Hafters & Hframes).
    { eapply held_frame; [exact Hframe| |exact Hheldps].
      intros m Hm Hin. apply (Hdisj m Hin).
      clear -Hm. induction ps as [|p ps IHps]; simpl in *; [done|].
      rewrite fmap_app, instancesBefore_refs in Hm.
      apply elem_of_app in Hm as [Hm|Hm]; apply elem_of_app; [by left|right; auto]. }
    { exact Hfps. }
    exists h2. cbn [map unwrapProps fst snd flat_map]. rewrite Hrun, Hrest.
    split; [by rewrite <- app_assoc|]. split.
    + apply Forall_app. split; [|exact Hafters].
      eapply held_frame; [exact Hframes| |exact Hafter].
      intros m Hm Hin. rewrite instancesAfter_refs in Hm. by apply (Hdisj m Hm).
    + intros m Hm. rewrite not_elem_of_app in Hm. destruct Hm as [Hmc Hmps].
      rewrite Hframes by done. by apply Hframe.
Qed.

Lemma height_props (props : list (string * mtree)) (fuel : nat) :
  (foldr (fun p n => Nat.max (height p.2) n) O props < fuel)%nat ->
  Forall (fun p => height p.2 < fuel)%nat props.
Proof.
  induction props as [|p ps IH]; simpl; intros H; constructor; [lia|apply IH; lia].
Qed.

Lemma unwrap_well t : unwrapsWell t.
Proof.
  induction t as [l|m instance st IH|props IH] using mtree_ind';
    intros path h ms fuel Hnd Hheld Hfuel;
    (destruct fuel as [|fuel]; [simpl in Hfuel; lia|]).
  - exists h. simpl. rewrite app_nil_r. split; [done|]. split; [constructor|done].
  - cbn [preorder instancesBefore height] in Hnd, Hheld, Hfuel.
    apply NoDup_cons in Hnd as [Hm Hnd].
    apply Forall_cons in Hheld as [Hhm Hheld]. simpl in Hhm.
    set (vm1 := assignNamespace (namespaceOfPath path) (setState (layout st) instance)).
    assert (state vm1 = layout st) as Hst.
    { subst vm1. unfold assignNamespace. by destruct (namespace _). }
    destruct (IH path (<[m := vm1]> h) (ms ++ [m]) fuel Hnd) as (h2 & Hrun & Hafter & Hframe).
    { eapply held_frame with (refs := [m]); [| |exact Hheld].
      - intros m' Hm'. apply lookup_insert_ne. intros ->.
        by apply Hm', list_elem_of_singleton.
      - intros m' Hm' ->%list_elem_of_singleton.
        by rewrite instancesBefore_refs in Hm'. }
    { lia. }
    exists (<[m := setState (unwrapped st) vm1]> h2).
    cbn [layout wrapState unwrapStateRecursively]. rewrite Hhm. fold vm1.
    rewrite Hst, Hrun. rewrite (Hframe m Hm), lookup_insert_eq.
    split; [by rewrite <- app_assoc|]. split.
    + cbn [instancesAfter unwrapped]. constructor.
      * cbn [fst snd]. rewrite lookup_insert_eq. f_equal. subst vm1.
        apply setState_assignNamespace.
      * eapply held_frame with (refs := [m]); [| |exact Hafter].
        -- intros m' Hm'. apply lookup_insert_ne. intros ->.
           by apply Hm', list_elem_of_singleton.
        -- intros m' Hm' ->%list_elem_of_singleton.
           by rewrite instancesAfter_refs in Hm'.
    + intros m' Hm'. cbn [preorder] in Hm'. rewrite not_elem_of_cons in Hm'.
      destruct Hm' as [Hne Hnin].
      rewrite lookup_insert_ne by done. rewrite Hframe by done.
      by rewrite lookup_insert_ne.
  - cbn [preorder instancesBefore height] in Hnd, Hheld, Hfuel.
    destruct (unwrapProps_well props IH path h ms fuel Hnd Hheld) as (h' & Hrun & Hafter & Hframe).
    { apply height_props. lia. }
    exists h'. cbn [layout unwrapped unwrapStateRecursively]. rewrite Hrun.
    split; [done|]. split; [exact Hafter|exact Hframe].
Qed.

Lemma keepsNamespaces_refl h : keepsNamespaces h h.
Proof. intros m vm Hm. eauto. Qed.

Lemma keepsNamespaces_trans h1 h2 h3 :
  keepsNamespaces h1 h2 -> keepsNamespaces h2 h3 -> keepsNamespaces h1 h3.
Proof.
  intros H12 H23 m vm Hm.
  destruct (H12 m vm Hm) as (vm2 & Hm2 & Hn2).
  destruct (H23 m vm2 Hm2) as (vm3 & Hm3 & Hn3).
  exists vm3. split; [done|]. auto.
Qed.

Lemma keepsNamespaces_insert h m vm vm' :
  h !! m = Some vm ->
  (forall n, namespace vm = Some n -> namespace vm' = Some n) ->
  keepsNamespaces h (<[m := vm']> h).
Proof.
  intros Hm Hn m0 vm0 Hm0. destruct (decide (m0 = m)) as [->|Hne].
  - rewrite lookup_insert_eq. exists vm'. split; [done|].
    rewrite Hm in Hm0. injection Hm0 as <-. exact Hn.
  - rewrite lookup_insert_ne by done. eauto.
Qed.

(** On any state tree and any instances, shared or not: a call that
    finishes only appends to [modules] and re-assigns no namespace. *)
Lemma unwrap_keeps fuel : forall obj ns h ms r h' ms',
  unwrapStateRecursively fuel obj ns h ms = Some (r, h', ms') ->
  keepsNamespaces h h' /\ exists found, ms' = ms ++ found.
Proof.
  induction fuel as [|fuel IH]; intros obj ns h ms r h' ms' Hrun; [discriminate|].
  destruct obj as [l|[m|] props]; cbn [unwrapStateRecursively] in Hrun.
  - injection Hrun as <- <- <-. split; [apply keepsNamespaces_refl|].
    exists []. by rewrite app_nil_r.
  - destruct (h !! m) as [vm|] eqn:Hm; [|discriminate].
    destruct (unwrapStateRecursively fuel _ ns _ (ms ++ [m])) as [[[u h2] ms2]|] eqn:Hrec;
      [|discriminate].
    destruct (h2 !! m) as [vm2|] eqn:Hm2; [|discriminate].
    injection Hrun as <- <- <-.
    destruct (IH _ _ _ _ _ _ _ Hrec) as [Hkeep [found ->]].
    split; [|exists (m :: found); by rewrite <- app_assoc].
    eapply keepsNamespaces_trans; [|eapply keepsNamespaces_trans; [exact Hkeep|]].
    + apply (keepsNamespaces_insert h m vm); [done|].
      intros n Hn. unfold assignNamespace. by rewrite Hn.
    + by apply (keepsNamespaces_insert h2 m vm2).
  - destruct (unwrapProps _ ns props h ms) as [[[props' h1] ms1]|] eqn:Hprops; [|discriminate].
    injection Hrun as <- <- <-.
    revert h ms props' h1 ms1 Hprops.
    induction props as [|[key v] props IHprops]; intros h ms props' h1 ms1 Hprops.
    + simpl in Hprops. injection Hprops as <- <- <-.
      split; [apply keepsNamespaces_refl|]. exists []. by rewrite app_nil_r.
    + cbn [unwrapProps] in Hprops.
      destruct (unwrapStateRecursively fuel v _ h ms) as [[[v' hv] msv]|] eqn:Hv;
        [|discriminate].
      destruct (unwrapProps _ ns props hv msv) as [[[rest' hr] msr]|] eqn:Hrest;
        [|discriminate].
      injection Hprops as <- <- <-.
      destruct (IH _ _ _ _ _ _ _ Hv) as [Hkeepv [foundv ->]].
      destruct (IHprops _ _ _ _ _ Hrest) as [Hkeepr [foundr ->]].
      split; [eapply keepsNamespaces_trans; eauto|].
      exists (foundv ++ foundr). by rewrite <- app_assoc.
Qed.

(** C9. The walk of the initial state tree, on the layout of a module tree
    in which every instance sits under one marker, started at the path
    walked so far: it finishes (given fuel beyond the height of the tree),
    yields the tree with every marker replaced by the module's own unwrapped
    state, and appends the modules to the list in pre-order.  Afterwards each
    module holds its unwrapped state, and its namespace is the
    slash-delimited path of the keys from the root to its marker if it had
    none, and the one it had otherwise; no other instance is touched.  On any
    tree (instances shared or not), a call that finishes re-assigns no
    namespace that was assigned. *)
Theorem unwrapStateRecursively_preorder_namespaces
    (t : mtree) (path : list string) (h : gmap nat VuexModule) (ms : list nat)
    (fuel : nat) :
  NoDup (preorder t) ->
  Forall (fun p => h !! p.1 = Some p.2) (instancesBefore t) ->
  (height t < fuel)%nat ->
  (exists h',
     unwrapStateRecursively fuel (layout t) (namespaceOfPath path) h ms
       = Some (unwrapped t, h', ms ++ preorder t) /\
     Forall (fun p => h' !! p.1 = Some p.2) (instancesAfter path t) /\
     (forall m, m ∉ preorder t -> h' !! m = h !! m)) /\
  (forall fuel0 obj ns h0 ms0 r h1 ms1 m vm n,
     unwrapStateRecursively fuel0 obj ns h0 ms0 = Some (r, h1, ms1) ->
     h0 !! m = Some vm -> namespace vm = Some n ->
     exists vm', h1 !! m = Some vm' /\ namespace vm' = Some n).
Proof.
  intros Hnd Hheld Hfuel. split.
  - by apply unwrap_well.
  - intros fuel0 obj ns h0 ms0 r h1 ms1 m vm n Hrun Hm Hn.
    destruct (unwrap_keeps fuel0 obj ns h0 ms0 r h1 ms1 Hrun) as [Hkeep _].
    destruct (Hkeep m vm Hm) as (vm' & Hm' & Hn'). eauto.
Qed.
End Unwrapping.

(** An instance met under two markers is listed twice, and keeps the
    namespace of the first marker. *)
Example unwrapStateRecursively_shared_instance :
  let h : gmap nat VuexModule :=
    {[ 0%nat := {| namespace := None;
                  module := {| namespaced := None; getters := None; mutations := None;
                               actions := None; modules := None |};
                  state := SObject None [("n", SLeaf (LNumber 1))];
                  vuexModuleInitialized := false; members := [] |} ]} in
  exists h',
    unwrapStateRecursively 5 (SObject None [("a", wrapState 0); ("b", wrapState 0)]) None h []
      = Some (SObject None [("a", SObject None [("n", SLeaf (LNumber 1))]);
                            ("b", SObject None [("n", SLeaf (LNumber 1))])],
              h', [0; 0]%nat) /\
    namespace <$> h' !! 0%nat = Some (Some "a").
Proof. eexists. split; [vm_compute; reflexivity|]. vm_compute. reflexivity. Qed.

Lemma unwrapStateRecursively_preorder_namespaces_witness :
  exists h',
    unwrapStateRecursively 10 (layout storeTree) None storeHeap []
      = Some (unwrapped storeTree, h', [0; 1; 2]%nat) /\
    namespace <$> h' !! 0%nat = Some (Some "shop/cart") /\
    namespace <$> h' !! 1%nat = Some (Some "coupons") /\
    namespace <$> h' !! 2%nat = Some (Some "user").
Proof.
  destruct (unwrapStateRecursively_preorder_namespaces storeTree [] storeHeap [] 10)
    as [(h' & Hrun & Hafter & _) _].
  - apply (bool_decide_unpack _). vm_compute. exact I.
  - simpl. repeat constructor.
  - simpl. lia.
  - exists h'. split; [exact Hrun|].
    simpl in Hafter.
    apply Forall_cons in Hafter as [H0 Hafter].
    apply Forall_cons in Hafter as [H1 Hafter].
    apply Forall_cons in Hafter as [H2 _].
    simpl in H0, H1, H2. rewrite H0, H1, H2. repeat split.
Defined.

End DecoratorsFacts.

(** ** Properties of the documents written back and of the events of a list *)

Module DocumentsFacts.
Import Js Firestore Documents.


Section Counting.
Variable opts : NormalizedFirestoreObjectOptions.

Lemma applyDocumentChange_length collection c :
  indicesInRange collection c ->
  (length (applyDocumentChange opts collection c)
     + (if isType removed c then 1 else 0)
   = length collection + (if isType added c then 1 else 0))%nat.
Proof.
  intros Hr. unfold indicesInRange in Hr. unfold isType.
  destruct (type c) eqn:Ht.
  - destruct (FirestoreFacts.applyDocumentChange_added opts collection c Ht Hr)
      as (_ & Hlen & _). lia.
  - destruct Hr as [Ho Hn].
    destruct (decide (oldIndex c = newIndex c)) as [He|Hne].
    + destruct (FirestoreFacts.applyDocumentChange_modified_in_place opts collection c Ht He Ho)
        as (_ & Hlen & _). lia.
    + destruct (FirestoreFacts.applyDocumentChange_modified_moved opts collection c Ht Hne Ho Hn)
        as (_ & _ & Hlen & _). lia.
  - destruct (FirestoreFacts.applyDocumentChange_removed opts collection c Ht Hr)
      as (_ & Hlen). lia.
Qed.
End Counting.

(** X2. The length of a list after an event: when the index hints of every
    change address the list the change is applied to, the list grows by the
    number of added documents and shrinks by the number of removed ones;
    modified documents, moved or not, do not count. *)
Theorem applyCollectionChanges_length
    (opts : NormalizedFirestoreObjectOptions) (collection : list value)
    (snapshot : QuerySnapshot) :
  eachInRange opts collection snapshot ->
  (length (applyCollectionChanges collection snapshot opts) + countOf removed snapshot
   = length collection + countOf added snapshot)%nat.
Proof.
  revert collection. induction snapshot as [|c rest IH]; intros collection; simpl.
  - intros _. unfold countOf. simpl. lia.
  - intros [Hr Hrest]. specialize (IH _ Hrest).
    pose proof (applyDocumentChange_length opts collection c Hr) as Hc.
    unfold countOf in *. cbn [List.filter].
    destruct (isType removed c), (isType added c); simpl in *; lia.
Qed.

Lemma applyCollectionChanges_length_witness :
  let collection := [user "a" 30; user "b" 20; user "c" 40] in
  let snapshot := [moveFirstToEnd; removeSecond] in
  eachInRange usersOptions collection snapshot /\
  length (applyCollectionChanges collection snapshot usersOptions) = 2%nat.
Proof.
  intros collection snapshot.
  assert (eachInRange usersOptions collection snapshot) as Hr.
  { vm_compute. repeat split; discriminate. }
  split; [exact Hr|].
  pose proof (applyCollectionChanges_length usersOptions collection snapshot Hr) as H.
  change (countOf removed snapshot) with 1%nat in H.
  change (countOf added snapshot) with 0%nat in H.
  change (length collection) with 3%nat in H.
  lia.
Defined.

Section OutOfRange.
Context {A : Type}.

(** [splice] at or beyond the end: nothing is there to delete, the items
    are appended. *)
Lemma splice_beyond (l : list A) (start deleteCount : Z) (items : list A) :
  Z.of_nat (length l) <= start ->
  splice l start deleteCount items = l ++ items.
Proof.
  intros Hs. unfold splice.
  destruct (decide (start < 0)) as [?|_]; [lia|].
  rewrite Z.min_r by lia.
  replace (Z.min (Z.max deleteCount 0) (Z.of_nat (length l) - Z.of_nat (length l)))
    with 0 by lia.
  rewrite Z.add_0_r, Nat2Z.id.
  rewrite firstn_all, drop_all. by rewrite app_nil_r.
Qed.

(** [splice(-1, 1)] deletes the last element. *)
Lemma splice_last (l : list A) (x : A) :
  splice (l ++ [x]) (-1) 1 [] = l.
Proof.
  unfold splice. rewrite length_app. simpl.
  destruct (decide (-1 < 0)) as [_|?]; [|lia].
  rewrite Z.max_l by lia. rewrite Z.max_l by lia. rewrite Z.min_l by lia.
  replace (Z.to_nat (Z.of_nat (length l + 1) + -1)) with (length l) by lia.
  replace (Z.to_nat (Z.of_nat (length l + 1) + -1 + 1)) with (length l + 1)%nat by lia.
  rewrite take_app_length. rewrite drop_ge; [by rewrite app_nil_r|].
  rewrite length_app. simpl. lia.
Qed.
End OutOfRange.

(** X3. Index hints outside the list are not rejected: nothing is thrown
    and [splice] clamps them.  An added document whose [newIndex] lies beyond
    the end is appended; a removed document whose [oldIndex] lies at or
    beyond the end removes nothing; a document modified in place at such an
    index is appended, built as if it were new; and the index [-1] (which
    the stream uses for "not in the list") removes the last document. *)
Theorem applyDocumentChange_out_of_range
    (opts : NormalizedFirestoreObjectOptions) (collection : list value)
    (c : DocumentChange) :
  let len := Z.of_nat (length collection) in
  (type c = added -> len <= newIndex c ->
   applyDocumentChange opts collection c
   = collection ++ [applyDocumentChanges VNull (doc c) opts]) /\
  (type c = removed -> len <= oldIndex c ->
   applyDocumentChange opts collection c = collection) /\
  (type c = modified -> oldIndex c = newIndex c -> len <= oldIndex c ->
   applyDocumentChange opts collection c
   = collection ++ [applyDocumentChanges VUndefined (doc c) opts] /\
   applyDocumentChanges VUndefined (doc c) opts = applyDocumentChanges VNull (doc c) opts) /\
  (type c = removed -> oldIndex c = -1 ->
   forall front d, collection = front ++ [d] ->
   applyDocumentChange opts collection c = front).
Proof.
  intros len. subst len. unfold applyDocumentChange.
  split; [|split; [|split]].
  - intros -> Hn. by rewrite splice_beyond.
  - intros -> Ho. rewrite splice_beyond by done. by rewrite app_nil_r.
  - intros -> He Ho. destruct (decide (oldIndex c = newIndex c)); [|done].
    assert (index collection (oldIndex c) = VUndefined) as ->.
    { unfold index. destruct (decide (0 <= oldIndex c)); [|done].
      rewrite lookup_ge_None_2; [done|lia]. }
    split; [by rewrite splice_beyond|reflexivity].
  - intros -> Ho front d ->. rewrite Ho. apply splice_last.
Qed.

Lemma applyDocumentChange_out_of_range_witness :
  applyDocumentChange usersOptions [user "a" 30]
    {| type := removed; doc := {| snap_id := "z"; snap_data := ∅ |};
       oldIndex := 5; newIndex := -1 |}
  = [user "a" 30].
Proof.
  destruct (applyDocumentChange_out_of_range usersOptions [user "a" 30]
              {| type := removed; doc := {| snap_id := "z"; snap_data := ∅ |};
                 oldIndex := 5; newIndex := -1 |}) as (_ & Hremoved & _).
  apply Hremoved; [reflexivity|simpl; lia].
Defined.

Section Nested.
Implicit Types (collection items : list value) (props : gmap string value).

Lemma findById_at before d after ref :
  Forall (fun d' => isDocument d' /\ docId d' <> Some ref) before ->
  isDocument d -> docId d = Some ref ->
  findById (before ++ d :: after) ref 0 = Ok (Some (length before, d)).
Proof.
  intros. by rewrite FirestoreFacts.findById_first_document.
Qed.

Lemma updateCollectionFromSnapshot_in_document
    before props after (opts : FirestoreObjectOptions) ref subPath sub items snapshot :
  Forall (fun d' => isDocument d' /\ docId d' <> Some ref) before ->
  docId (VObj props) = Some ref ->
  findSubcollection (subcollections (normalizeFirestoreObjectOptions opts)) subPath
    = Some sub ->
  props !! name sub = Some (VArr items) ->
  updateCollectionFromSnapshot (before ++ VObj props :: after) opts [ref; subPath] snapshot
  = Ok (before
          ++ VObj (<[name sub := VArr (applyCollectionChanges items snapshot sub)]> props)
          :: after).
Proof.
  intros Hbefore Hid Hsub Hitems.
  unfold updateCollectionFromSnapshot, getObjectFromRefPath.
  cbn [getObjectLoop object options location].
  rewrite findById_at; [|done|by eexists|done].
  cbn [mbind outcome_bind negb object options location].
  rewrite Hsub. cbn [getProp]. rewrite Hitems.
  cbn [mbind outcome_bind default id truthy negb getObjectLoop object options location
       applyCollectionChangesTo app writeAt].
  rewrite list_lookup_middle by done. rewrite Hitems.
  rewrite insert_app_r_alt by lia. rewrite Nat.sub_diag. reflexivity.
Qed.
End Nested.

(** X4. An event of a nested list reaches that list and nothing else.
    When the reference path names a document of the collection (the first
    one carrying the id) and one of the configured subcollections, and the
    document holds a list under the subcollection's name, the changes are
    applied to that list, in place: the other fields of the document and
    every other document of the collection are as before. *)
Theorem updateCollectionFromSnapshot_nested_list
    (before : list value) (props : gmap string value) (after : list value)
    (opts : FirestoreObjectOptions) (ref subPath : string)
    (sub : NormalizedFirestoreObjectOptions) (items : list value)
    (snapshot : QuerySnapshot) :
  Forall (fun d' => isDocument d' /\ docId d' <> Some ref) before ->
  docId (VObj props) = Some ref ->
  findSubcollection (subcollections (normalizeFirestoreObjectOptions opts)) subPath
    = Some sub ->
  props !! name sub = Some (VArr items) ->
  exists props',
    updateCollectionFromSnapshot (before ++ VObj props :: after) opts [ref; subPath] snapshot
    = Ok (before ++ VObj props' :: after) /\
    props' !! name sub = Some (VArr (applyCollectionChanges items snapshot sub)) /\
    (forall k, k <> name sub -> props' !! k = props !! k).
Proof.
  intros Hbefore Hid Hsub Hitems.
  eexists. split; [by apply updateCollectionFromSnapshot_in_document|].
  split; [apply lookup_insert_eq|].
  intros k Hk. by apply lookup_insert_ne.
Qed.

Lemma updateCollectionFromSnapshot_nested_list_witness :
  exists props',
    updateCollectionFromSnapshot
      [userWithOrders "u1" []; userWithOrders "u2" []] usersWithOrders
      ["u2"; "orders"] [addOrder]
    = Ok ([userWithOrders "u1" []] ++ VObj props' :: []) /\
    props' !! "id" = Some (VStr "u2").
Proof.
  destruct (updateCollectionFromSnapshot_nested_list
              [userWithOrders "u1" []] {[ "id" := VStr "u2"; "orders" := VArr [] ]} []
              usersWithOrders "u2" "orders" (NOptions "orders" "orders" []) [] [addOrder])
    as (props' & Hu & _ & Hother).
  - repeat constructor; [by eexists|vm_compute; discriminate].
  - reflexivity.
  - reflexivity.
  - reflexivity.
  - exists props'. split; [exact Hu|].
    rewrite Hother by discriminate. reflexivity.
Defined.

Section Plain.
Variable opts : NormalizedFirestoreObjectOptions.
Implicit Types (data : list (string * property)) (info : DocumentInfo).

Lemma plainLoop_snoc data p :
  plainLoop (data ++ [p]) opts = plainStep opts (plainLoop data opts) p.
Proof. unfold plainLoop. by rewrite fold_left_app. Qed.

Lemma findSubcollectionByName_elem sub :
  sub ∈ subcollections opts ->
  is_Some (findSubcollectionByName (subcollections opts) (name sub)).
Proof.
  unfold findSubcollectionByName.
  induction (subcollections opts) as [|s subs IH]; intros Hin.
  - by apply elem_of_nil in Hin.
  - simpl. destruct (String.eqb_spec (name s) (name sub)); [by eexists|].
    apply IH. apply elem_of_cons in Hin as [->|Hin]; done.
Qed.

Lemma findSubcollectionByName_name k o :
  findSubcollectionByName (subcollections opts) k = Some o ->
  k ∈ name <$> subcollections opts.
Proof.
  unfold findSubcollectionByName. intros Hfind.
  apply find_some in Hfind as [Hin Heq]. apply String.eqb_eq in Heq. subst k.
  apply list_elem_of_fmap. exists o. split; [done|]. by apply list_elem_of_In.
Qed.

(** What the plain document holds under a key. *)
Lemma plainLoop_document data k :
  NoDup data.*1 ->
  document (plainLoop data opts) !! k
  = if String.eqb k "id" then None
    else match findSubcollectionByName (subcollections opts) k with
         | Some _ => None
         | None => plainField k ((list_to_map data : gmap string property) !! k)
         end.
Proof.
  induction data as [|p data IH] using rev_ind; intros Hnd.
  - simpl. rewrite lookup_empty.
    destruct (String.eqb k "id"); [done|].
    by destruct (findSubcollectionByName (subcollections opts) k).
  - rewrite fmap_app in Hnd. apply NoDup_app in Hnd as (Hnd & Hfresh & _).
    specialize (IH Hnd).
    rewrite plainLoop_snoc.
    assert ((list_to_map (data ++ [p]) : gmap string property) !! k
            = if decide (k = p.1) then Some p.2
              else (list_to_map data : gmap string property) !! k) as Hmap.
    { rewrite list_to_map_app, lookup_union. simpl.
      destruct (decide (k = p.1)) as [->|Hne].
      - rewrite lookup_insert_eq.
        rewrite (not_elem_of_list_to_map_1 data p.1); [done|].
        intros Hin. apply (Hfresh p.1 Hin). simpl. apply list_elem_of_here.
      - rewrite lookup_insert_ne by done. rewrite lookup_empty.
        by destruct (list_to_map data !! k). }
    rewrite Hmap. clear Hmap.
    assert ((list_to_map data : gmap string property) !! p.1 = None) as Hnew.
    { apply not_elem_of_list_to_map_1. intros Hin. apply (Hfresh p.1 Hin).
      simpl. apply list_elem_of_here. }
    destruct p as [key value]. simpl in *. unfold plainStep. simpl.
    destruct (decide (k = key)) as [->|Hne].
    + rewrite Hnew in IH.
      destruct value as [value|value]; simpl.
      * destruct (String.eqb key "id"); [done|].
        destruct (findSubcollectionByName (subcollections opts) key); [done|].
        destruct value as [v| |]; simpl; try exact IH.
        destruct (String.eqb key "__proto__"); [exact IH|].
        simpl. apply lookup_insert_eq.
      * rewrite IH. destruct (String.eqb key "id"); [done|].
        by destruct (findSubcollectionByName (subcollections opts) key).
    + destruct value as [value|value]; simpl; [|exact IH].
      destruct (String.eqb key "id"); [exact IH|].
      destruct (findSubcollectionByName (subcollections opts) key); [exact IH|].
      destruct value as [v| |]; simpl; try exact IH.
      destruct (String.eqb key "__proto__"); [exact IH|].
      simpl. rewrite lookup_insert_ne by done. exact IH.
Qed.

Lemma plainLoop_info data :
  subcollectionsInfo (plainLoop data opts) = subcollectionKeys opts data.
Proof.
  induction data as [|p data IH] using rev_ind.
  - reflexivity.
  - rewrite plainLoop_snoc. unfold plainStep, subcollectionKeys.
    rewrite omap_app. fold (subcollectionKeys opts data). rewrite <- IH. simpl.
    destruct p.2 as [value|value]; simpl; [|by rewrite app_nil_r].
    destruct (String.eqb p.1 "id"); simpl; [by rewrite app_nil_r|].
    destruct (findSubcollectionByName (subcollections opts) p.1); simpl; [done|].
    rewrite app_nil_r.
    destruct value as [v| |]; simpl; try done.
    by destruct (String.eqb p.1 "__proto__").
Qed.

(** Without a property [hasOwnProperty] among those of the object, the
    call runs the loop and returns. *)
Lemma getPlainDocumentAndInfo_standard data :
  "hasOwnProperty" ∉ data.*1 ->
  getPlainDocumentAndInfo data opts = Some (Ok (plainLoop data opts)).
Proof.
  intros Hno. unfold getPlainDocumentAndInfo.
  destruct (List.find _ data) as [p|] eqn:Hfind; [|done].
  exfalso. apply find_some in Hfind as [Hin Heq]. apply String.eqb_eq in Heq.
  apply Hno. rewrite <- Heq. apply list_elem_of_fmap. exists p.
  split; [done|]. by apply list_elem_of_In.
Qed.

Lemma list_to_map_ownData (fields : list (string * value)) (k : string) :
  (list_to_map (ownData fields) : gmap string property) !! k
  = (fun v => Own (Data v)) <$> (list_to_map fields : gmap string value) !! k.
Proof.
  unfold ownData. induction fields as [|[key v] fields IH]; simpl.
  - by rewrite !lookup_empty.
  - destruct (decide (k = key)) as [->|Hne].
    + by rewrite !lookup_insert_eq.
    + rewrite !lookup_insert_ne by done. exact IH.
Qed.

Lemma ownData_keys (fields : list (string * value)) :
  (ownData fields).*1 = fields.*1.
Proof.
  unfold ownData. induction fields as [|[key v] fields IH]; [done|].
  cbn [fmap list_fmap prod_map fst id]. f_equal. exact IH.
Qed.
End Plain.



(** An object that holds a value other than a function under
    [hasOwnProperty] cannot be written: the test of the first key throws. *)
Example getPlainDocumentAndInfo_shadowed_hasOwnProperty :
  getPlainDocumentAndInfo (ownData [("age", VNum 30); ("hasOwnProperty", VBool true)])
    ordersOptions
  = Some (Throw TypeError).
Proof. reflexivity. Qed.

(** X6. Writing a document and reading it back.  For a document as it is
    loaded (an object whose own properties are values of the documents,
    with a string [id], a defined value under the name of every configured
    subcollection and no key [hasOwnProperty] or [__proto__]), the plain
    document [getPlainDocumentAndInfo] extracts, read back as the snapshot
    of that id and merged by [applyDocumentChanges] into the document, gives
    the document again: no field is lost, added or changed. *)
Theorem plain_document_round_trip
    (fields : list (string * Js.value)) (opts : NormalizedFirestoreObjectOptions)
    (id : string) :
  NoDup fields.*1 ->
  "hasOwnProperty" ∉ fields.*1 ->
  "__proto__" ∉ fields.*1 ->
  (list_to_map fields : gmap string value) !! "id" = Some (VStr id) ->
  (forall sub, sub ∈ subcollections opts ->
     exists v, (list_to_map fields : gmap string value) !! name sub = Some v /\
               v <> VUndefined) ->
  exists info,
    getPlainDocumentAndInfo (ownData fields) opts = Some (Js.Ok info) /\
    applyDocumentChanges (VObj (list_to_map fields))
      {| snap_id := id; snap_data := document info |} opts
    = VObj (list_to_map fields).
Proof.
  intros Hnd Hno Hproto Hid Hsubs.
  exists (plainLoop (ownData fields) opts).
  split; [apply getPlainDocumentAndInfo_standard; by rewrite ownData_keys|].
  set (snapshot := {| snap_id := id;
                      snap_data := document (plainLoop (ownData fields) opts) |}).
  destruct (FirestoreFacts.applyDocumentChanges_object (VObj (list_to_map fields))
              snapshot opts) as (props & Hp & Hk).
  rewrite Hp. f_equal. apply map_eq. intros k.
  rewrite Hk. clear Hp Hk props.
  subst snapshot. cbn [snap_data snap_id].
  case_bool_decide as Hin.
  - apply list_elem_of_fmap in Hin as (sub & -> & Hin).
    destruct (Hsubs sub Hin) as (v & Hv & Hdef). rewrite Hv.
    unfold subcollectionField. simpl. rewrite Hv. simpl. by destruct v.
  - rewrite plainLoop_document by (by rewrite ownData_keys).
    destruct (String.eqb_spec k "id") as [->|Hk]; [by rewrite Hid|].
    destruct (findSubcollectionByName (subcollections opts) k) as [o|] eqn:Hfind.
    + exfalso. apply Hin. by apply (findSubcollectionByName_name opts k o).
    + rewrite list_to_map_ownData. unfold plainField.
      destruct (list_to_map fields !! k) as [v|] eqn:Hv; simpl; [|done].
      destruct (String.eqb_spec k "__proto__") as [->|]; [|done].
      exfalso. apply Hproto. apply (elem_of_list_to_map_2 (M := gmap string)) in Hv.
      apply list_elem_of_fmap. by exists ("__proto__", v).
Qed.

Lemma plain_document_round_trip_witness :
  exists info,
    getPlainDocumentAndInfo (ownData ann) ordersOptions = Some (Js.Ok info) /\
    applyDocumentChanges (VObj (list_to_map ann))
      {| snap_id := "u1"; snap_data := document info |} ordersOptions
    = VObj (list_to_map ann).
Proof.
  apply (plain_document_round_trip ann ordersOptions "u1").
  - apply (bool_decide_unpack _). vm_compute. exact I.
  - apply (bool_decide_unpack _). vm_compute. exact I.
  - apply (bool_decide_unpack _). vm_compute. exact I.
  - reflexivity.
  - intros sub Hsub. apply list_elem_of_singleton in Hsub. subst sub.
    eexists. split; [reflexivity|discriminate].
Defined.

End DocumentsFacts.

(** ** Properties of the utilities *)

Module UtilsFacts.
Import Js Utils.

Section Random.
Variable random : nat -> fraction.
Hypothesis random_in_unit_interval : forall k, inUnitInterval (random k).

(** With one argument of at least 2 the result lies in [0, to - 2]. *)
Lemma randomInt_below (r : fraction) (to : Z) :
  inUnitInterval r -> 2 <= to -> 0 <= randomInt r to None < to - 1.
Proof.
  unfold inUnitInterval, randomInt. intros [Hn Hd] Hto.
  rewrite Z.mul_0_l, Z.add_0_r, Z.sub_0_r.
  split.
  - apply Z.div_pos; nia.
  - apply Z.div_lt_upper_bound; nia.
Qed.

Lemma get_in_range (s : string) (i : nat) :
  (i < String.length s)%nat -> exists c, String.get i s = Some c.
Proof.
  revert i. induction s as [|c s IH]; intros i Hi; simpl in *; [lia|].
  destruct i as [|i]; [by eexists|]. apply IH. lia.
Qed.

Lemma concat_char (c : Ascii.ascii) (l : list string) :
  String.concat "" (String c EmptyString :: l) = String c (String.concat "" l).
Proof. destruct l; reflexivity. Qed.

(** Every character of the loop is a single character of the charset, at an
    index before the last. *)
Lemma randomChars_drawn (n : nat) (charset : string) (k : nat) :
  (2 <= String.length charset)%nat ->
  Forall (fun s => exists (j : nat) c,
                     (j + 1 < String.length charset)%nat /\
                     String.get j charset = Some c /\ s = String c EmptyString)
         (randomChars random n charset k) /\
  length (randomChars random n charset k) = n.
Proof.
  intros Hlen. revert k. induction n as [|n IH]; intros k; simpl.
  - split; [constructor|reflexivity].
  - destruct (IH (S k)) as [IHall IHlen]. split; [|by rewrite IHlen].
    constructor; [|exact IHall].
    destruct (randomInt_below (random k) (Z.of_nat (String.length charset))
                (random_in_unit_interval k)) as [Hlo Hhi]; [lia|].
    set (i := randomInt (random k) (Z.of_nat (String.length charset)) None) in *.
    destruct (get_in_range charset (Z.to_nat i)) as [c Hc]; [lia|].
    exists (Z.to_nat i), c. split; [lia|]. split; [exact Hc|].
    unfold charAt. destruct (decide (0 <= i)); [|lia]. by rewrite Hc.
Qed.

Lemma concat_chars (l : list string) (P : Ascii.ascii -> Prop) :
  Forall (fun s => exists c, P c /\ s = String c EmptyString) l ->
  String.length (String.concat "" l) = length l /\
  forall i c, String.get i (String.concat "" l) = Some c -> P c.
Proof.
  induction 1 as [|s l (c & Hc & ->) _ [IHlen IHget]].
  - split; [reflexivity|]. intros i c Hget. by destruct i.
  - rewrite concat_char. split; [simpl; by rewrite IHlen|].
    intros [|i] c' Hget; simpl in Hget.
    + by injection Hget as <-.
    + by apply (IHget i).
Qed.
End Random.

(** X7. [randomString] returns a string of the length asked for, and draws
    every character from the charset without its last character: with
    [randomInt(charset.length)] the index stays below [charset.length - 1].
    (For a charset of at least two characters, and whatever [Math.random]
    returns in [0, 1).) *)
Theorem randomString_never_last_character
    (random : nat -> fraction) (length_ : nat) (charset : string) (k : nat) :
  (forall k, inUnitInterval (random k)) ->
  (2 <= String.length charset)%nat ->
  String.length (randomString random length_ charset k) = length_ /\
  forall i c, String.get i (randomString random length_ charset k) = Some c ->
    exists j, (j + 1 < String.length charset)%nat /\ String.get j charset = Some c.
Proof.
  intros Hrandom Hlen.
  destruct (randomChars_drawn random Hrandom length_ charset k Hlen) as [Hall Hn].
  destruct (concat_chars (randomChars random length_ charset k)
              (fun c => exists j, (j + 1 < String.length charset)%nat /\
                                  String.get j charset = Some c)) as [Hl Hget].
  { eapply Forall_impl; [exact Hall|]. intros s (j & c & Hj & Hc & ->). eauto. }
  unfold randomString. split; [by rewrite Hl|exact Hget].
Qed.

Lemma randomString_never_last_character_witness :
  String.length (randomString (fun _ => half) 4 numbers 0) = 4%nat.
Proof.
  apply (randomString_never_last_character (fun _ => half) 4 numbers 0).
  - intros _. unfold inUnitInterval. simpl. lia.
  - simpl. lia.
Defined.

(** Whatever is drawn, no [9] comes out of the digits. *)
Example randomString_numbers :
  randomString (fun k => {| numerator := 999 - Z.of_nat k; denominator := 1000 |}) 3 numbers 0
  = "888"%string.
Proof. vm_compute. reflexivity. Qed.

Section Keys.
Implicit Types (key : string) (keys : list string).

Lemma add_spec key keys :
  (NoDup keys -> NoDup (add key keys)) /\
  (forall k, k ∈ add key keys <-> k = key \/ k ∈ keys) /\
  (exists more, add key keys = keys ++ more).
Proof.
  unfold add. case_bool_decide as Hin.
  - split; [done|]. split; [|exists []; by rewrite app_nil_r].
    intros k. split; [auto|]. intros [->|?]; done.
  - split; [|split; [|by eexists]].
    + intros Hnd. apply NoDup_app. split; [done|]. split; [|apply NoDup_singleton].
      intros k Hk Hk'. apply list_elem_of_singleton in Hk'. by subst.
    + intros k. rewrite elem_of_app, list_elem_of_singleton. tauto.
Qed.

Lemma add_all_spec (skip : string -> bool) (l keys : list string) :
  let keys' := fold_left (fun keys key => if skip key then keys else add key keys) l keys in
  (NoDup keys -> NoDup keys') /\
  (forall k, k ∈ keys' <-> (k ∈ l /\ skip k = false) \/ k ∈ keys) /\
  (exists more, keys' = keys ++ more).
Proof.
  revert keys. induction l as [|key l IH]; intros keys; simpl.
  - split; [done|]. split; [|exists []; by rewrite app_nil_r].
    intros k. split; [auto|]. intros [[H _]|?]; [by apply elem_of_nil in H|done].
  - set (keys1 := if skip key then keys else add key keys).
    destruct (IH keys1) as (IHnd & IHin & more & IHmore).
    destruct (add_spec key keys) as (Hnd & Hin & more1 & Hmore1).
    split; [|split].
    + intros H. apply IHnd. subst keys1. destruct (skip key); auto.
    + intros k. rewrite IHin, elem_of_cons. subst keys1.
      destruct (skip key) eqn:Hskip.
      * split; [tauto|]. intros [[[->|?] Hk]|?]; [congruence|tauto|tauto].
      * rewrite Hin. split; [|tauto].
        intros [[? ?]|[->|?]]; tauto.
    + rewrite IHmore. subst keys1. destruct (skip key); [by eexists|].
      rewrite Hmore1, <- app_assoc. by eexists.
Qed.

Lemma add_fresh_all (acc l : list string) :
  NoDup (acc ++ l) ->
  fold_left (fun keys key => add key keys) l acc = acc ++ l.
Proof.
  revert acc. induction l as [|key l IH]; intros acc Hnd; simpl.
  - by rewrite app_nil_r.
  - unfold add at 2. rewrite bool_decide_eq_false_2.
    + rewrite IH; rewrite <- app_assoc; done.
    + apply NoDup_app in Hnd as (_ & Hfresh & _). intros Hin.
      apply (Hfresh key Hin). apply list_elem_of_here.
Qed.
End Keys.

(** X8. The keys [getAllPropertyKeys] collects: every own enumerable key of
    the object, first and in their order, then the names the objects of the
    prototype chain own, except [constructor]; no key twice.  A key
    [constructor] is collected only when it is an own enumerable key of the
    object itself. *)
Theorem getAllPropertyKeys_collects (obj : shape) :
  NoDup (ownEnumerable obj) ->
  let keys := getAllPropertyKeys obj in
  NoDup keys /\
  (forall k, k ∈ keys <->
     k ∈ ownEnumerable obj \/
     (k <> "constructor" /\ exists prototype, prototype ∈ prototypes obj /\ k ∈ prototype)) /\
  (exists inherited, keys = ownEnumerable obj ++ inherited).
Proof.
  intros Hown keys. subst keys. unfold getAllPropertyKeys.
  assert (fold_left (fun keys key => add key keys) (ownEnumerable obj) [] = ownEnumerable obj)
    as Hkeys0 by (by apply (add_fresh_all [])).
  rewrite Hkeys0.
  generalize (ownEnumerable obj) Hown. clear Hkeys0 Hown.
  induction (prototypes obj) as [|prototype chain IH]; intros keys Hnd; simpl.
  - split; [done|]. split; [|exists []; by rewrite app_nil_r].
    intros k. split; [auto|]. intros [?|(_ & p & Hp & _)]; [done|by apply elem_of_nil in Hp].
  - destruct (add_all_spec (fun key => String.eqb key "constructor") prototype keys)
      as (Hnd1 & Hin1 & more1 & Hm1). simpl in Hnd1, Hin1, Hm1.
    destruct (IH _ (Hnd1 Hnd)) as (IHnd & IHin & more & IHm).
    split; [done|]. split.
    + intros k. rewrite IHin, Hin1. split.
      * intros [[[Hk Hc]|?]|(Hc & p & Hp & Hk)]; [right|by left|right].
        -- split; [by apply String.eqb_neq|]. exists prototype.
           split; [apply list_elem_of_here|done].
        -- split; [done|]. exists p. split; [by apply list_elem_of_further|done].
      * intros [?|(Hc & p & Hp & Hk)]; [by left; right|].
        apply elem_of_cons in Hp as [->|Hp].
        -- left. left. split; [done|]. by apply String.eqb_neq.
        -- right. split; [done|]. by exists p.
    + rewrite IHm, Hm1, <- app_assoc. by eexists.
Qed.

Lemma getAllPropertyKeys_collects_witness :
  NoDup (ownEnumerable component) /\
  getAllPropertyKeys component = ["state"; "namespace"; "add"; "total"; "init"] /\
  NoDup (getAllPropertyKeys component).
Proof.
  assert (NoDup (ownEnumerable component)) as Hown.
  { apply (bool_decide_unpack _). vm_compute. exact I. }
  split; [exact Hown|]. split; [vm_compute; reflexivity|].
  exact (proj1 (getAllPropertyKeys_collects component Hown)).
Defined.

Section Paths.
Variable prototype : Js.value -> string -> inheritance.
Local Abbreviation getProperty :=
  (Utils.getProperty isUndefinedReading (memberOf prototype)).
Local Abbreviation setPropertyAt :=
  (Utils.setPropertyAt isUndefinedReading (memberOf prototype) (assignTo prototype)).
Local Abbreviation setProperty :=
  (Utils.setProperty (Known VUndefined) isUndefinedReading (memberOf prototype)
     (assignTo prototype)).
Implicit Types (obj value : reading) (path : list string).

(** Reading the member that was just assigned gives the value assigned,
    and what an assignment leaves is an object. *)
Lemma member_assign obj key value obj' :
  assignTo prototype obj key value = Ok (Assigned obj') ->
  memberOf prototype obj' key = Ok value /\ isUndefinedReading obj' = false.
Proof.
  destruct obj as [obj|]; [|discriminate]. cbn [assignTo].
  destruct obj as [| |b|n|s|items|props]; cbn [assign]; try discriminate.
  - destruct (ownOfPrimitive _ _); [discriminate|].
    by destruct (prototype _ _).
  - destruct (ownOfPrimitive _ _); [discriminate|].
    by destruct (prototype _ _).
  - destruct (ownOfPrimitive _ _); [discriminate|].
    by destruct (prototype _ _).
  - destruct (arrayIndex key) as [i|] eqn:Hi; [|discriminate].
    destruct value as [v|]; [|discriminate].
    simpl. intros [= <-]. simpl. rewrite Hi. split; [|done]. f_equal.
    destruct (decide (i < length items)%nat).
    + by rewrite list_lookup_insert_eq.
    + rewrite lookup_app_r by lia. rewrite lookup_app_r by (rewrite length_replicate; lia).
      rewrite length_replicate, Nat.sub_diag. reflexivity.
  - assert (forall a : assigned Js.value,
              (a = Unrecorded \/ exists v, value = Known v /\
                                           a = Assigned (VObj (<[key := v]> props))) ->
              Ok (match a with
                  | Assigned o => Assigned (Known o)
                  | Unrecorded => Unrecorded
                  end) = Ok (Assigned obj') ->
              memberOf prototype obj' key = Ok value /\ isUndefinedReading obj' = false)
      as Hstored.
    { intros a [->|(v & -> & ->)]; [discriminate|].
      intros [= <-]. simpl. by rewrite lookup_insert_eq. }
    simpl. apply Hstored.
    destruct value as [v|].
    + destruct (props !! key); [by eauto|]. destruct (prototype _ _); eauto.
    + left. destruct (props !! key); [done|]. by destruct (prototype _ _).
Qed.

Lemma setPropertyAt_written obj value part rest obj' :
  setPropertyAt obj value part rest = Ok (Written obj') ->
  getProperty obj' (part :: rest) = Ok value /\ isUndefinedReading obj' = false.
Proof.
  revert obj part obj'. induction rest as [|next rest IH]; intros obj part obj'; simpl.
  - destruct (assignTo prototype obj part value) as [[o|]|e] eqn:Ha; simpl; try discriminate.
    intros [= <-]. destruct (member_assign _ _ _ _ Ha) as [-> Ho]. simpl.
    split; [by destruct (isUndefinedReading value)|done].
  - destruct (memberOf prototype obj part) as [child|e]; simpl; [|discriminate].
    destruct (isUndefinedReading child); [discriminate|].
    destruct (setPropertyAt child value next rest) as [[child'| |]|e] eqn:Hw;
      simpl; try discriminate.
    destruct (assignTo prototype obj part child') as [[o|]|e] eqn:Ha; simpl; try discriminate.
    intros [= <-]. destruct (member_assign _ _ _ _ Ha) as [-> Ho].
    destruct (IH _ _ _ Hw) as [Hget Hchild]. simpl. rewrite Hchild.
    split; [exact Hget|done].
Qed.

Lemma setPropertyAt_lost obj value part rest last :
  getProperty obj (part :: rest) = Ok (Known VUndefined) ->
  setPropertyAt obj value part (rest ++ [last]) = Ok Lost.
Proof.
  revert obj part. induction rest as [|next rest IH]; intros obj part; simpl.
  - destruct (memberOf prototype obj part) as [child|e]; simpl; [|discriminate].
    destruct (isUndefinedReading child) eqn:Hu; [done|].
    intros [= ->]. discriminate.
  - destruct (memberOf prototype obj part) as [child|e]; simpl; [|discriminate].
    destruct (isUndefinedReading child) eqn:Hu; [done|].
    intros Hget. specialize (IH child next). simpl in IH. by rewrite IH.
Qed.

Lemma setPropertyAt_throws obj value part rest last e :
  getProperty obj (part :: rest) = Throw e ->
  setPropertyAt obj value part (rest ++ [last]) = Throw e.
Proof.
  revert obj part. induction rest as [|next rest IH]; intros obj part; simpl.
  - destruct (memberOf prototype obj part) as [child|e']; simpl; [|by intros [= ->]].
    by destruct (isUndefinedReading child).
  - destruct (memberOf prototype obj part) as [child|e']; simpl; [|by intros [= ->]].
    destruct (isUndefinedReading child) eqn:Hu; [done|].
    intros Hget. specialize (IH child next). simpl in IH. by rewrite IH.
Qed.
End Paths.

(** X9. Reading back what [setProperty] wrote.  Whatever the prototypes
    hold: when a call with a path that is not empty returns something other
    than undefined and the assignment is one the values here record (of an
    own or a new property of an object or of an element of an array; not
    through an accessor the object inherits such as [__proto__], whose
    setter leaves no property of that name), it returns the object it was
    given, and [getProperty] along the same path finds the value in it. *)
Theorem setProperty_then_getProperty
    (prototype : Js.value -> string -> inheritance)
    (obj value : Js.value) (path : list string) (returned obj' : reading) :
  path <> [] ->
  setProperty (Known VUndefined) isUndefinedReading (memberOf prototype) (assignTo prototype)
    (Known obj) (Known value) path
    = Ok (Some (returned, obj')) ->
  returned <> Known VUndefined ->
  returned = obj' /\
  getProperty isUndefinedReading (memberOf prototype) obj' path = Ok (Known value).
Proof.
  intros Hpath Hset Hdef. destruct path as [|part rest]; [done|].
  unfold setProperty in Hset.
  destruct (setPropertyAt isUndefinedReading (memberOf prototype) (assignTo prototype)
              (Known obj) (Known value) part rest)
    as [[o| |]|e] eqn:Hw; simpl in Hset; try discriminate.
  - injection Hset as <- <-. split; [done|].
    by destruct (setPropertyAt_written _ _ _ _ _ _ Hw).
  - injection Hset as <- <-. done.
Qed.

Lemma setProperty_then_getProperty_witness :
  exists obj',
    setProperty (Known VUndefined) isUndefinedReading (memberOf objectPrototype)
      (assignTo objectPrototype) (Known store) (Known (VNum 3)) ["shop"; "cart"; "items"]
      = Ok (Some (obj', obj')) /\
    getProperty isUndefinedReading (memberOf objectPrototype) obj' ["shop"; "cart"; "items"]
      = Ok (Known (VNum 3)).
Proof.
  eexists. split; [vm_compute; reflexivity|].
  eapply (setProperty_then_getProperty objectPrototype store (VNum 3)
            ["shop"; "cart"; "items"]).
  - discriminate.
  - vm_compute. reflexivity.
  - discriminate.
Defined.

(** Under [__proto__] nothing is stored and nothing is read back: the
    assignment goes to the setter of [Object.prototype], and the read finds
    the prototype. *)
Example setProperty_proto :
  assign objectPrototype store "__proto__" (Known (VNum 5)) = Ok Unrecorded /\
  getProperty isUndefinedReading (memberOf objectPrototype) (Known store) ["__proto__"]
    = Ok Beyond.
Proof. split; reflexivity. Qed.

(** X10. A path whose parent is missing.  When [getProperty] along the path
    without its last key ends in undefined, [setProperty] assigns nothing:
    it returns undefined, nothing is thrown, and the object is as before.
    When reading the parent throws (a null on the way), [setProperty] throws
    the same.  This holds whatever the prototypes hold. *)
Theorem setProperty_missing_parent
    (prototype : Js.value -> string -> inheritance)
    (obj value : Js.value) (parents : list string) (last : string) :
  parents <> [] ->
  (getProperty isUndefinedReading (memberOf prototype) (Known obj) parents
     = Ok (Known VUndefined) ->
   setProperty (Known VUndefined) isUndefinedReading (memberOf prototype) (assignTo prototype)
     (Known obj) (Known value) (parents ++ [last])
     = Ok (Some (Known VUndefined, Known obj))) /\
  (forall e, getProperty isUndefinedReading (memberOf prototype) (Known obj) parents
             = Throw e ->
   setProperty (Known VUndefined) isUndefinedReading (memberOf prototype) (assignTo prototype)
     (Known obj) (Known value) (parents ++ [last])
     = Throw e).
Proof.
  intros Hne. destruct parents as [|part rest]; [done|]. split.
  - intros Hget. unfold setProperty. simpl.
    by rewrite setPropertyAt_lost.
  - intros e Hget. unfold setProperty. simpl.
    by rewrite (setPropertyAt_throws _ _ _ _ _ _ e).
Qed.

Lemma setProperty_missing_parent_witness :
  setProperty (Known VUndefined) isUndefinedReading (memberOf objectPrototype)
    (assignTo objectPrototype) (Known store) (Known (VNum 3))
    (["shop"; "wishlist"] ++ ["items"])
  = Ok (Some (Known VUndefined, Known store)).
Proof.
  apply (setProperty_missing_parent objectPrototype store (VNum 3) ["shop"; "wishlist"] "items").
  - discriminate.
  - vm_compute. reflexivity.
Defined.

End UtilsFacts.

(** ** Properties of the state accessor and of what compiling leaves *)

Module StateAccessFacts.
Import Js Decorators StateAccess.

Section Splitting.
Local Open Scope string_scope.

Lemma append_String c (s t : string) : String c s ++ t = String c (s ++ t).
Proof. reflexivity. Qed.

Lemma append_empty_r (s : string) : s ++ "" = s.
Proof.
  induction s as [|c s IH]; [reflexivity|]. by rewrite append_String, IH.
Qed.

Lemma split_not_nil (s : string) : split s <> [].
Proof.
  induction s as [|c s IH]; cbn [split]; [done|].
  destruct (String.eqb (String c "") "/"); [done|]. by destruct (split s).
Qed.

(** A key without slash in front of a string joins the first segment. *)
Lemma split_append (key s : string) :
  hasSlash key = false ->
  split (key ++ s) =
  match split s with
  | [] => []
  | first :: others => (key ++ first) :: others
  end.
Proof.
  induction key as [|c key IH]; intros Hkey.
  - change ("" ++ s) with s. by destruct (split s).
  - cbn [hasSlash] in Hkey. apply orb_false_iff in Hkey as [Hc Hkey].
    rewrite append_String. cbn [split]. rewrite Hc, (IH Hkey).
    destruct (split s) eqn:Hs; [by apply split_not_nil in Hs|].
    by rewrite append_String.
Qed.

Lemma split_slash (s : string) : split ("/" ++ s) = "" :: split s.
Proof. reflexivity. Qed.

Lemma split_concat (key : string) (keys : list string) :
  Forall (fun key => hasSlash key = false) (key :: keys) ->
  split (String.concat "/" (key :: keys)) = key :: keys.
Proof.
  revert key. induction keys as [|next keys IH]; intros key Hall.
  - apply Forall_cons in Hall as [Hkey _].
    change (String.concat "/" [key]) with key.
    rewrite <- (append_empty_r key) at 1. rewrite split_append by done.
    simpl. by rewrite append_empty_r.
  - apply Forall_cons in Hall as [Hkey Hall].
    change (String.concat "/" (key :: next :: keys))
      with (key ++ "/" ++ String.concat "/" (next :: keys)).
    rewrite split_append by done. rewrite split_slash.
    rewrite (IH next Hall). by rewrite append_empty_r.
Qed.
End Splitting.

(** X11. The path under which a module looks for its state is the path of
    its marker: for a namespace built from the keys on the way to the marker
    (as the unwrapping assigns it), [stateStorePath] gives these keys back,
    provided no key holds a slash.  A module at the root, which gets no
    namespace, has the empty path. *)
Theorem stateStorePath_of_assigned_namespace (path : list string) (this : VuexModule) :
  Forall (fun key => hasSlash key = false) path ->
  stateStorePath (setNamespace (namespaceOfPath path) this) = path.
Proof.
  intros Hall. unfold stateStorePath, setNamespace, namespaceOfPath. simpl.
  destruct path as [|key keys]; [reflexivity|]. by apply split_concat.
Qed.

Lemma stateStorePath_of_assigned_namespace_witness :
  stateStorePath (setNamespace (namespaceOfPath ["shop"; "cart"]) (bare None))
  = ["shop"; "cart"].
Proof.
  apply (stateStorePath_of_assigned_namespace ["shop"; "cart"] (bare None)).
  repeat constructor.
Defined.

(** A slash in a key breaks it: the state is looked for one level too deep. *)
Example stateStorePath_key_with_slash :
  stateStorePath (setNamespace (namespaceOfPath ["a/b"]) (bare None)) = ["a"; "b"].
Proof. reflexivity. Qed.

Section Reading.
Local Abbreviation getProperty := (Utils.getProperty isUndefined member).
Implicit Types (t st : mtree) (path : list string).

Lemma wellKeyed_subtree (props : list (string * mtree)) :
  wellKeyed (MSubTree props) <->
  NoDup props.*1 /\
  Forall (fun p => hasSlash p.1 = false /\ wellKeyed p.2) props.
Proof.
  cbn [wellKeyed].
  assert (forall ps,
    (fix each (ps : list (string * mtree)) : Prop :=
       match ps with
       | [] => True
       | p :: rest => hasSlash p.1 = false /\ wellKeyed p.2 /\ each rest
       end) ps
    <-> Forall (fun p => hasSlash p.1 = false /\ wellKeyed p.2) ps) as Heach.
  { induction ps as [|p ps IH]; [split; auto|].
    rewrite Forall_cons, <- IH. tauto. }
  by rewrite Heach.
Qed.

(** The member of a subtree under one of its keys. *)
Lemma member_subtree (props : list (string * mtree)) (key : string) (child : mtree) :
  NoDup props.*1 -> (key, child) ∈ props ->
  member (SObject None (map (fun p => (p.1, unwrapped p.2)) props)) key
  = Ok (unwrapped child).
Proof.
  intros Hnd Hin. unfold member. cbn [readSlot]. f_equal.
  induction props as [|[k c] props IH]; [by apply elem_of_nil in Hin|].
  cbn [map fst snd List.find]. rewrite fmap_cons in Hnd.
  apply NoDup_cons in Hnd as [Hk Hnd].
  apply elem_of_cons in Hin as [[= <- <-]|Hin].
  - by rewrite String.eqb_refl.
  - destruct (String.eqb_spec k key) as [->|_]; [|by apply IH].
    exfalso. apply Hk. apply list_elem_of_fmap. by exists (key, child).
Qed.

(** From the root of the unwrapped tree, the keys on the way to a module
    lead to the state of the module. *)
Lemma getProperty_module t :
  wellKeyed t ->
  forall path0 p m instance st,
    (p, m, instance, st) ∈ modulesAt path0 t ->
    exists suffix, p = path0 ++ suffix /\
                   getProperty (unwrapped t) suffix = Ok (unwrapped st).
Proof.
  induction t as [l|m0 instance0 st0 IH|props IH] using DecoratorsFacts.mtree_ind';
    intros Hkeyed path0 p m instance st Hin.
  - by apply elem_of_nil in Hin.
  - cbn [modulesAt] in Hin. apply elem_of_cons in Hin as [[= -> -> -> ->]|Hin].
    + exists []. by rewrite app_nil_r.
    + by apply (IH Hkeyed path0 p m instance st).
  - apply wellKeyed_subtree in Hkeyed as [Hnd Hall].
    cbn [modulesAt] in Hin. apply list_elem_of_In, in_flat_map in Hin as ([key child] & Hc & Hin).
    apply list_elem_of_In in Hc, Hin. cbn [fst snd] in Hin.
    rewrite Forall_forall in IH, Hall.
    destruct (Hall _ Hc) as [_ Hchild].
    destruct (IH _ Hc Hchild (path0 ++ [key]) p m instance st Hin) as (suffix & -> & Hget).
    cbn [snd] in Hget.
    exists (key :: suffix). split; [by rewrite <- app_assoc|].
    cbn [unwrapped Utils.getProperty]. rewrite (member_subtree props key child Hnd Hc).
    cbn [mbind outcome_bind].
    destruct (isUndefined (unwrapped child)) eqn:Hu; [|exact Hget].
    destruct (unwrapped child) as [[]|]; try discriminate.
    destruct suffix; [exact Hget|discriminate].
Qed.

Lemma instancesAfter_modulesAt t : forall path,
  instancesAfter path t
  = map (fun x => (x.1.1.2,
                   setState (unwrapped x.2)
                     (assignNamespace (namespaceOfPath x.1.1.1) x.1.2)))
        (modulesAt path t).
Proof.
  induction t as [l|m instance st IH|props IH] using DecoratorsFacts.mtree_ind';
    intros path; cbn [instancesAfter modulesAt map].
  - reflexivity.
  - by rewrite IH.
  - induction IH as [|p ps Hp _ IHps]; cbn [flat_map]; [done|].
    by rewrite map_app, Hp, IHps.
Qed.

Lemma modulesAt_noslash t : wellKeyed t -> forall path0 p m instance st,
  Forall (fun key => hasSlash key = false) path0 ->
  (p, m, instance, st) ∈ modulesAt path0 t ->
  Forall (fun key => hasSlash key = false) p.
Proof.
  induction t as [l|m0 instance0 st0 IH|props IH] using DecoratorsFacts.mtree_ind';
    intros Hkeyed path0 p m instance st Hpath Hin.
  - by apply elem_of_nil in Hin.
  - cbn [modulesAt] in Hin. apply elem_of_cons in Hin as [[= -> -> -> ->]|Hin]; [done|].
    by apply (IH Hkeyed path0 p m instance st).
  - apply wellKeyed_subtree in Hkeyed as [Hnd Hall].
    cbn [modulesAt] in Hin. apply list_elem_of_In, in_flat_map in Hin as ([key child] & Hc & Hin).
    apply list_elem_of_In in Hc, Hin. cbn [fst snd] in Hin.
    rewrite Forall_forall in IH, Hall.
    destruct (Hall _ Hc) as [Hkey Hchild]. cbn [fst] in Hkey.
    apply (IH _ Hc Hchild (path0 ++ [key]) p m instance st); [|exact Hin].
    apply Forall_app. split; [exact Hpath|]. by constructor.
Qed.
End Reading.

(** X12. After the unwrapping each module reads its own state through the
    store.  For a module tree whose objects have distinct keys without
    slashes and whose instances each sit under one marker: the unwrapping of
    the store state finishes, and for every module that had no namespace
    assigned by hand, the state getter the bootstrap action installs
    ([getProperty(store.state, stateStorePath)]) returns, on the unwrapped
    store state, exactly the state the instance holds. *)
Theorem state_getter_reads_own_state
    (t : mtree) (h : gmap nat VuexModule) (fuel : nat) :
  NoDup (preorder t) ->
  wellKeyed t ->
  Forall (fun p => h !! p.1 = Some p.2) (instancesBefore t) ->
  (height t < fuel)%nat ->
  exists storeState h' modules_,
    unwrapStateRecursively fuel (layout t) None h [] = Some (storeState, h', modules_) /\
    forall p m instance st,
      (p, m, instance, st) ∈ modulesAt [] t ->
      namespace instance = None ->
      exists this,
        h' !! m = Some this /\
        stateGetter storeState this = Ok (state this).
Proof.
  intros Hnd Hkeyed Hheld Hfuel.
  destruct (DecoratorsFacts.unwrap_well t [] h [] fuel Hnd Hheld Hfuel)
    as (h' & Hrun & Hafter & _).
  exists (unwrapped t), h', ([] ++ preorder t). split; [exact Hrun|].
  intros p m instance st Hin Hns.
  rewrite instancesAfter_modulesAt, Forall_forall in Hafter.
  specialize (Hafter (m, setState (unwrapped st)
                           (assignNamespace (namespaceOfPath p) instance))).
  exists (setState (unwrapped st) (assignNamespace (namespaceOfPath p) instance)). split.
  { apply Hafter. apply list_elem_of_fmap. by exists (p, m, instance, st). }
  unfold stateGetter, stateStorePath, assignNamespace. rewrite Hns.
  cbn [setState setNamespace namespace state].
  destruct (getProperty_module t Hkeyed [] p m instance st Hin) as (suffix & -> & Hget).
  cbn [app] in *.
  assert (Forall (fun key => hasSlash key = false) suffix) as Hsuffix.
  { by apply (modulesAt_noslash t Hkeyed [] suffix m instance st). }
  unfold namespaceOfPath. destruct suffix as [|key keys]; [exact Hget|].
  by rewrite split_concat.
Qed.

Lemma state_getter_reads_own_state_witness :
  exists storeState h' modules_ this,
    unwrapStateRecursively 10 (layout storeTree) None storeHeap []
      = Some (storeState, h', modules_) /\
    h' !! 0%nat = Some this /\
    stateGetter storeState this = Ok (state this).
Proof.
  destruct (state_getter_reads_own_state storeTree storeHeap 10)
    as (storeState & h' & modules_ & Hrun & Hget).
  - apply (bool_decide_unpack _). vm_compute. exact I.
  - simpl. repeat split; apply (bool_decide_unpack _); vm_compute; exact I.
  - simpl. repeat constructor.
  - simpl. lia.
  - destruct (Hget ["shop"; "cart"] 0%nat (bare None)
                (MSubTree [("items", MLeaf (LNumber 0));
                           ("coupon", MModule 1 (bare (Some "coupons"))
                                        (MSubTree [("code", MLeaf (LString "X"))]))]))
      as (this & Hthis & Hstate).
    + simpl. apply list_elem_of_here.
    + reflexivity.
    + exists storeState, h', modules_, this. split; [exact Hrun|]. split; [exact Hthis|exact Hstate].
Defined.

End StateAccessFacts.

Module CompilingFacts.
Import Js Decorators StateAccess.

Section Members.
Variable prefix : string.
Implicit Types (c : compiling) (ms : list (string * (metadata * slot))) (md : metadata).

Lemma readSlot_setProp marker props key v key' :
  readSlot (SObject marker (setProp key v props)) (StateAccessor key')
  = if String.eqb key key' then Ok v
    else readSlot (SObject marker props) (StateAccessor key').
Proof.
  cbn [readSlot].
  induction props as [|[k old] props IH]; cbn [setProp List.find fst].
  - destruct (String.eqb key key'); reflexivity.
  - destruct (String.eqb_spec k key) as [->|Hk]; cbn [List.find fst].
    + destruct (String.eqb key key'); reflexivity.
    + destruct (String.eqb_spec k key') as [->|Hk'].
      * destruct (String.eqb_spec key key') as [->|_]; [done|reflexivity].
      * exact IH.
Qed.

(** What the body of the loop does for one member. *)
Lemma compileMember_spec propertyName md s c s' c' :
  compileMember prefix propertyName md s c = Ok (s', c') ->
  match isState md with
  | Some key =>
      exists marker props v,
        c_state c = SObject marker props /\ readSlot (c_state c) s = Ok v /\
        s' = StateAccessor key /\
        c_state c' = SObject marker (setProp key v props) /\
        c_getters c' = c_getters c /\ c_mutations c' = c_mutations c /\
        c_actions c' = c_actions c
  | None =>
      c_state c' = c_state c /\
      (forall n, fst <$> isGetter md <> Some n -> c_getters c' !! n = c_getters c !! n) /\
      (forall n, isMutation md <> Some n -> c_mutations c' !! n = c_mutations c !! n) /\
      (forall n, fst <$> isAction md <> Some n -> c_actions c' !! n = c_actions c !! n)
  end.
Proof.
  unfold compileMember, compileAction, callableSlot. intros Hrun.
  destruct (isState md) as [key|].
  { destruct (readSlot (c_state c) s) as [v|e] eqn:Hv; [|discriminate Hrun].
    cbn [mbind outcome_bind] in Hrun.
    destruct (c_state c) as [l|marker props] eqn:Hst; [discriminate Hrun|].
    injection Hrun as <- <-. by eexists _, _, _. }
  assert (forall (m : gmap string handler) (n n' : string) (x : handler),
            Some n' <> Some n -> <[n' := x]> m !! n = m !! n) as Hother.
  { intros m n n' x Hn. apply lookup_insert_ne. congruence. }
  destruct (isGetter md) as [[name [getter|]]|]; cbn [fmap option_fmap option_map fst].
  { injection Hrun as <- <-. cbn. repeat split; try done.
    intros n Hn. by apply Hother. }
  all: destruct (readSlot (c_state c) s) as [v|e];
    cbn [mbind outcome_bind] in Hrun;
    destruct (isMutation md) as [name'|];
    destruct (isAction md) as [[name'' root]|];
    try discriminate Hrun;
    cbn [fmap option_fmap option_map fst];
    repeat match type of Hrun with
    | context [match ?x with _ => _ end] => destruct x
    end;
    cbn [mbind outcome_bind] in Hrun;
    try discriminate Hrun;
    injection Hrun as <- <-; cbn; repeat split; try done;
    intros n Hn; by apply Hother.
Qed.

(** Compiling touches the state only under the keys of the state fields,
    and the three maps only under the names the decorators declare. *)
Lemma compileMembers_frame ms : forall c ms' c',
  compileMembers prefix ms c = Ok (ms', c') ->
  (forall key, key ∉ stateKeys ms ->
     readSlot (c_state c') (StateAccessor key) = readSlot (c_state c) (StateAccessor key)) /\
  (forall n, n ∉ getterNames ms -> c_getters c' !! n = c_getters c !! n) /\
  (forall n, n ∉ mutationNames ms -> c_mutations c' !! n = c_mutations c !! n) /\
  (forall n, n ∉ actionNames ms -> c_actions c' !! n = c_actions c !! n).
Proof.
  induction ms as [|[propertyName [md s]] ms IH]; intros c ms' c' Hrun.
  - simpl in Hrun. injection Hrun as <- <-. done.
  - cbn [compileMembers] in Hrun.
    destruct (compileMember prefix propertyName md s c) as [[s1 c1]|e] eqn:Hm; [|discriminate].
    cbn [mbind outcome_bind snd fst] in Hrun.
    destruct (compileMembers prefix ms c1) as [[ms2 c2]|e] eqn:Hrest; [|discriminate].
    cbn [mbind outcome_bind snd fst] in Hrun. injection Hrun as <- <-.
    destruct (IH _ _ _ Hrest) as (IHs & IHg & IHm & IHa).
    pose proof (compileMember_spec _ _ _ _ _ _ Hm) as Hspec.
    unfold stateKeys, getterNames, mutationNames, actionNames.
    cbn [omap list_omap fst snd].
    destruct (isState md) as [key0|] eqn:Hstate.
    + destruct Hspec as (marker & props & v & Hst & Hv & _ & Hst1 & Hg & Hmu & Ha).
      split; [|split; [|split]].
      * intros key Hkey. apply not_elem_of_cons in Hkey as [Hne Hkey].
        rewrite IHs by done. rewrite Hst1, Hst, readSlot_setProp.
        destruct (String.eqb_spec key0 key); [congruence|done].
      * intros n Hn. rewrite <- Hg. apply IHg.
        destruct (fst <$> isGetter md); [by apply not_elem_of_cons in Hn as [_ ?]|done].
      * intros n Hn. rewrite <- Hmu. apply IHm.
        destruct (isMutation md); [by apply not_elem_of_cons in Hn as [_ ?]|done].
      * intros n Hn. rewrite <- Ha. apply IHa.
        destruct (fst <$> isAction md); [by apply not_elem_of_cons in Hn as [_ ?]|done].
    + destruct Hspec as (Hst & Hg & Hmu & Ha).
      split; [|split; [|split]].
      * intros key Hkey. rewrite IHs by done. by rewrite Hst.
      * intros n Hn. destruct (fst <$> isGetter md) as [n0|] eqn:Hn0.
        -- apply not_elem_of_cons in Hn as [Hne Hn]. rewrite IHg by done.
           apply Hg. congruence.
        -- rewrite IHg by done. by apply Hg.
      * intros n Hn. destruct (isMutation md) as [n0|] eqn:Hn0.
        -- apply not_elem_of_cons in Hn as [Hne Hn]. rewrite IHm by done.
           apply Hmu. congruence.
        -- rewrite IHm by done. by apply Hmu.
      * intros n Hn. destruct (fst <$> isAction md) as [n0|] eqn:Hn0.
        -- apply not_elem_of_cons in Hn as [Hne Hn]. rewrite IHa by done.
           apply Ha. congruence.
        -- rewrite IHa by done. by apply Ha.
Qed.

(** A state field ends up in the state under its key, and the property
    becomes the accessor over that key. *)
Lemma compileMembers_state_fields ms : forall c ms' c',
  NoDup (stateKeys ms) ->
  compileMembers prefix ms c = Ok (ms', c') ->
  forall propertyName md v key,
    (propertyName, (md, Field v)) ∈ ms -> isState md = Some key ->
    (propertyName, (md, StateAccessor key)) ∈ ms' /\
    readSlot (c_state c') (StateAccessor key) = Ok v.
Proof.
  induction ms as [|[name0 [md0 s0]] ms IH]; intros c ms' c' Hnd Hrun name md v key Hin Hkey.
  - by apply elem_of_nil in Hin.
  - cbn [compileMembers] in Hrun.
    destruct (compileMember prefix name0 md0 s0 c) as [[s1 c1]|e] eqn:Hm; [|discriminate].
    cbn [mbind outcome_bind snd fst] in Hrun.
    destruct (compileMembers prefix ms c1) as [[ms2 c2]|e] eqn:Hrest; [|discriminate].
    cbn [mbind outcome_bind snd fst] in Hrun. injection Hrun as <- <-.
    unfold stateKeys in Hnd. cbn [omap list_omap fst snd] in Hnd.
    apply elem_of_cons in Hin as [[= -> -> <-]|Hin].
    + rewrite Hkey in Hnd. apply NoDup_cons in Hnd as [Hfresh _].
      pose proof (compileMember_spec _ _ _ _ _ _ Hm) as Hspec. rewrite Hkey in Hspec.
      destruct Hspec as (marker & props & v' & Hst & Hv & -> & Hst1 & _).
      cbn [readSlot] in Hv. injection Hv as <-.
      split; [apply list_elem_of_here|].
      destruct (compileMembers_frame ms c1 ms2 c2 Hrest) as (Hframe & _).
      rewrite (Hframe key Hfresh), Hst1, readSlot_setProp. by rewrite String.eqb_refl.
    + assert (NoDup (stateKeys ms)) as Hnd'.
      { destruct (isState md0); [by apply NoDup_cons in Hnd as [_ ?]|done]. }
      destruct (IH c1 ms2 c2 Hnd' Hrest name md v key Hin Hkey) as [Hin' Hread].
      split; [by apply list_elem_of_further|exact Hread].
Qed.
End Members.

(** X13. A state field moves into the state and reads as before.  After a
    first [initVuexModule] that returns, on a class whose state fields have
    distinct keys: every property declared as state that held a value is the
    accessor over its key ([get]/[set] of [this.state[key]]), and reading it
    gives the value the property held. *)
Theorem initVuexModule_state_fields
    (this compiled : VuexModule) (log : list registration) :
  vuexModuleInitialized this = false ->
  NoDup (stateKeys (members this)) ->
  initVuexModule this = Ok (compiled, log) ->
  forall propertyName md v key,
    (propertyName, (md, Field v)) ∈ members this -> isState md = Some key ->
    (propertyName, (md, StateAccessor key)) ∈ members compiled /\
    readSlot (state compiled) (StateAccessor key) = Ok v.
Proof.
  intros Hinit Hnd Hrun propertyName md v key Hin Hkey.
  unfold initVuexModule in Hrun. rewrite Hinit in Hrun.
  destruct (compileMembers _ (members this) _) as [[ms c]|e] eqn:Hms; [|discriminate].
  cbn [mbind outcome_bind fst snd] in Hrun. injection Hrun as <- <-.
  cbn [members state].
  by eapply compileMembers_state_fields.
Qed.

Lemma initVuexModule_state_fields_witness :
  exists compiled log,
    initVuexModule cartModule = Ok (compiled, log) /\
    readSlot (state compiled) (StateAccessor "items") = Ok (SObject None []).
Proof.
  assert (exists compiled log, initVuexModule cartModule = Ok (compiled, log))
    as (compiled & log & Hrun).
  { eexists _, _. vm_compute. reflexivity. }
  exists compiled, log. split; [exact Hrun|].
  eapply (initVuexModule_state_fields cartModule compiled log eq_refl).
  - apply (bool_decide_unpack _). vm_compute. exact I.
  - exact Hrun.
  - apply list_elem_of_here.
  - reflexivity.
Defined.

(** X14. What compiling leaves alone.  After a first [initVuexModule] that
    returns, the store module has its three maps; a getter, mutation or
    action that one of them held before under a name no decorator of the
    class declares is still there, unchanged; the bootstrap action is
    registered under its name and replaces an action of that name, unless a
    decorated action of the class carries the name; and [namespaced] is what
    it was, or [true] when it was not set. *)
Theorem initVuexModule_frame
    (this compiled : VuexModule) (log : list registration) :
  vuexModuleInitialized this = false ->
  initVuexModule this = Ok (compiled, log) ->
  exists gs mus acs,
    getters (module compiled) = Some gs /\
    mutations (module compiled) = Some mus /\
    actions (module compiled) = Some acs /\
    (forall n, n ∉ getterNames (members this) ->
       gs !! n = default ∅ (getters (module this)) !! n) /\
    (forall n, n ∉ mutationNames (members this) ->
       mus !! n = default ∅ (mutations (module this)) !! n) /\
    (forall n, n ∉ actionNames (members this) ->
       acs !! n = if decide (n = initModuleAction) then Some InitModuleHandler
                  else default ∅ (actions (module this)) !! n) /\
    namespaced (module compiled) = Some (default true (namespaced (module this))).
Proof.
  intros Hinit Hrun. unfold initVuexModule in Hrun. rewrite Hinit in Hrun.
  destruct (compileMembers _ (members this) _) as [[ms c]|e] eqn:Hms; [|discriminate].
  cbn [mbind outcome_bind fst snd] in Hrun. injection Hrun as <- <-.
  cbn [module getters mutations actions namespaced].
  destruct (compileMembers_frame _ _ _ _ _ Hms) as (_ & Hg & Hmu & Ha).
  cbn [c_getters c_mutations c_actions] in Hg, Hmu, Ha.
  eexists _, _, _. split; [reflexivity|]. split; [reflexivity|]. split; [reflexivity|].
  split; [exact Hg|]. split; [exact Hmu|]. split; [|reflexivity].
  intros n Hn. rewrite (Ha n Hn).
  destruct (decide (n = initModuleAction)) as [->|Hne];
    [apply lookup_insert_eq|by apply lookup_insert_ne].
Qed.

Lemma initVuexModule_frame_witness :
  exists compiled log acs,
    initVuexModule cartModule = Ok (compiled, log) /\
    actions (module compiled) = Some acs /\
    acs !! initModuleAction = Some InitModuleHandler.
Proof.
  assert (exists compiled log, initVuexModule cartModule = Ok (compiled, log))
    as (compiled & log & Hrun).
  { eexists _, _. vm_compute. reflexivity. }
  destruct (initVuexModule_frame cartModule compiled log eq_refl Hrun)
    as (gs & mus & acs & _ & _ & Hacs & _ & _ & Ha & _).
  exists compiled, log, acs. split; [exact Hrun|]. split; [exact Hacs|].
  rewrite Ha; [reflexivity|].
  intros Hin. apply list_elem_of_singleton in Hin. discriminate.
Defined.

End CompilingFacts.

(** ** Properties of the wrapping across generations *)

Module GenerationsFacts.
Import Js Proxies Generations.

Section Tables.
Implicit Types (m : gmap string pvalue) (t : tables) (l : list (string * pvalue)).

Lemma insertAll_snoc l p m : insertAll (l ++ [p]) m = <[p.1 := p.2]> (insertAll l m).
Proof. unfold insertAll. by rewrite foldl_app. Qed.

(** The tokens of a map after filing: those it had and those filed. *)
Lemma insertAll_is_Some l m id :
  is_Some (insertAll l m !! id) <-> id ∈ l.*1 \/ is_Some (m !! id).
Proof.
  induction l as [|p l IH] using rev_ind.
  - unfold insertAll. simpl. split; [auto|]. intros [H|H]; [by apply elem_of_nil in H|done].
  - rewrite insertAll_snoc, fmap_app, elem_of_app. simpl.
    rewrite list_elem_of_singleton.
    destruct (decide (id = p.1)) as [->|Hne].
    + rewrite lookup_insert_eq. split; [auto|by eexists].
    + rewrite lookup_insert_ne by done. rewrite IH. tauto.
Qed.

(** What is found under a token after filing into an empty map was filed. *)
Lemma insertAll_empty_lookup l id v :
  insertAll l ∅ !! id = Some v -> (id, v) ∈ l.
Proof.
  induction l as [|p l IH] using rev_ind.
  - unfold insertAll. simpl. by rewrite lookup_empty.
  - rewrite insertAll_snoc. destruct (decide (id = p.1)) as [->|Hne].
    + rewrite lookup_insert_eq. intros [= <-]. apply elem_of_app. right.
      destruct p. apply list_elem_of_here.
    + rewrite lookup_insert_ne by done. intros H. apply elem_of_app. left. auto.
Qed.

Lemma taken_registerAll l t id :
  taken (oldProxyObjects t) (newProxyObjects t) id ->
  taken (oldProxyObjects (registerAll l t)) (newProxyObjects (registerAll l t)) id.
Proof.
  rewrite ProxiesFacts.registerAll_tables. unfold taken.
  destruct t as [m|old new]; simpl; rewrite !insertAll_is_Some; tauto.
Qed.

Lemma registered_taken l t id :
  id ∈ l.*1 ->
  taken (oldProxyObjects (registerAll l t)) (newProxyObjects (registerAll l t)) id.
Proof.
  rewrite ProxiesFacts.registerAll_tables. unfold taken. intros Hin. right.
  destruct t as [m|old new]; simpl; rewrite insertAll_is_Some; auto.
Qed.
End Tables.

Section Walk.
Variable randomString : nat -> string.
Local Abbreviation walk := (initProxiesRecursively randomString).
Implicit Types (ps props : list (string * (attributes * pvalue))) (t : tables).

Lemma generateProxyId_draws old new k r k' :
  generateProxyId randomString old new k = (r, k') -> (k <= k')%nat.
Proof.
  unfold generateProxyId. intros Hr.
  pose proof (ProxiesFacts.generateProxyIdLoop_spec randomString 100 old new k) as H.
  cbv zeta in H. rewrite Hr in H. simpl in H. lia.
Qed.

Lemma generateProxyId_fresh old new k id k' :
  generateProxyId randomString old new k = (Ok id, k') -> ~ taken old new id.
Proof.
  unfold generateProxyId. intros Hr.
  pose proof (ProxiesFacts.generateProxyIdLoop_spec randomString 100 old new k) as H.
  cbv zeta in H. rewrite Hr in H. simpl in H.
  destruct H as (_ & _ & _ & Ho & Hn & _).
  intros [[v Hv]|[v Hv]]; congruence.
Qed.

(** Whatever the value and the tables, a walk only files entries in the
    current-generation table, and the count of draws only grows. *)
Lemma walk_files obj : forall t k w,
  walk obj t k = Ok w ->
  (exists l, tablesAfter w = registerAll l t) /\ (k <= draws w)%nat.
Proof.
  induction obj as [p|id target|token isArray plainPrototype ownSymbols props IH]
    using ProxiesFacts.pvalue_walk_ind; intros t k w Hwalk.
  - simpl in Hwalk. injection Hwalk as <-. split; [by exists []|done].
  - simpl in Hwalk. injection Hwalk as <-. split; [by exists [(id, PProxy id target)]|done].
  - destruct token as [id|].
    + simpl in Hwalk. injection Hwalk as <-. split; [|done].
      by exists [(id, default (PLeaf Undefined) (oldProxyObjects t !! id))].
    + rewrite ProxiesFacts.initProxiesRecursively_object in Hwalk.
      destruct (isJsonIncompatible isArray plainPrototype ownSymbols props).
      * destruct (generateProxyId randomString (oldProxyObjects t) (newProxyObjects t) k)
          as [[id|e] k'] eqn:Hid; [|discriminate].
        injection Hwalk as <-. cbn [tablesAfter draws]. split.
        -- by exists [(id, PProxy id (PObject None isArray plainPrototype ownSymbols props))].
        -- by eapply generateProxyId_draws.
      * destruct (walkProps walk props t k) as [[[ps' t'] k']|e] eqn:Hrun; [|discriminate].
        cbn [mbind outcome_bind fst snd] in Hwalk. injection Hwalk as <-.
        cbn [tablesAfter draws].
        clear -IH Hrun. revert t k ps' t' k' Hrun.
        induction IH as [|[key [a v]] ps Hv _ IHps]; intros t k ps' t' k' Hrun.
        -- simpl in Hrun. injection Hrun as <- <- <-. split; [by exists []|done].
        -- cbn [walkProps] in Hrun.
           destruct (walk v t k) as [w|e] eqn:Hwalk; [|discriminate].
           cbn [mbind outcome_bind] in Hrun.
           destruct (negb (sameObject w) && negb (assignable a)); [discriminate|].
           destruct (walkProps walk ps (tablesAfter w) (draws w)) as [[[qs tq] kq]|e] eqn:Hrest;
             [|discriminate].
           cbn [mbind outcome_bind fst snd] in Hrun. injection Hrun as <- <- <-.
           destruct (Hv t k w Hwalk) as [[l1 Hl1] Hk1].
           destruct (IHps _ _ _ _ _ Hrest) as [[l2 Hl2] Hk2].
           split; [|lia]. exists (l1 ++ l2).
           by rewrite ProxiesFacts.registerAll_app, <- Hl1.
Qed.
End Walk.

(** X15. What a walk never does to the token tables, whatever the value
    and whatever the tables hold: it removes no token from the
    current-generation table, it leaves the previous-generation table
    exactly as it was when the two tables are distinct maps (production),
    it keeps one map one map (development), and it never takes a draw back. *)
Theorem walk_keeps_generations
    (randomString : nat -> string) (obj : pvalue) (t : tables) (k : nat) (w : walked) :
  initProxiesRecursively randomString obj t k = Ok w ->
  grows (newProxyObjects t) (newProxyObjects (tablesAfter w)) /\
  (forall old new, t = TwoMaps old new ->
     exists new', tablesAfter w = TwoMaps old new') /\
  (forall m, t = SameMap m -> exists m', tablesAfter w = SameMap m') /\
  (k <= draws w)%nat.
Proof.
  intros Hwalk. destruct (walk_files randomString obj t k w Hwalk) as [[l Hl] Hk].
  rewrite Hl, ProxiesFacts.registerAll_tables.
  split; [|split; [|split; [|exact Hk]]].
  - intros id Hid. destruct t; simpl in *; apply insertAll_is_Some; auto.
  - intros old new ->. eauto.
  - intros m ->. eauto.
Qed.

Lemma walk_keeps_generations_witness :
  exists w,
    initProxiesRecursively sampleRandomString sampleState sampleTables 0 = Ok w /\
    oldProxyObjects (tablesAfter w) = oldProxyObjects sampleTables.
Proof.
  eexists. split; [reflexivity|].
  destruct (walk_keeps_generations sampleRandomString sampleState sampleTables 0 _ eq_refl)
    as (_ & Htwo & _).
  destruct (Htwo _ _ eq_refl) as [new' Hnew]. rewrite Hnew. reflexivity.
Defined.



Section Minting.
Variable randomString : nat -> string.
Local Abbreviation walk := (initProxiesRecursively randomString).
Implicit Types (ps props : list (string * (attributes * pvalue))) (t : tables).

Lemma raw_object isArray plainPrototype ownSymbols props :
  raw (PObject None isArray plainPrototype ownSymbols props) <->
  (isJsonIncompatible isArray plainPrototype ownSymbols props = false ->
   Forall (fun p => raw p.2.2) props).
Proof.
  simpl. destruct (isJsonIncompatible _ _ _ _); [split; [discriminate|done]|].
  assert (forall ps,
    (fix each ps : Prop :=
       match ps with [] => True | p :: rest => raw p.2.2 /\ each rest end) ps
    <-> Forall (fun p => raw p.2.2) ps) as Heach.
  { induction ps as [|p ps IH]; [split; auto|].
    rewrite Forall_cons, <- IH. reflexivity. }
  rewrite Heach. split; [auto|]. intros H. by apply H.
Qed.

Local Abbreviation mintsFresh := (mintsFresh randomString).

Lemma walkProps_mints ps :
  Forall (fun p => mintsFresh p.2.2) ps ->
  forall t k ps' t' k',
    Forall (fun p => raw p.2.2) ps ->
    walkProps walk ps t k = Ok (ps', t', k') ->
    let l := flat_map (fun p => wrappersOf p.2.2) ps' in
    NoDup l.*1 /\
    (forall id, id ∈ l.*1 -> ~ taken (oldProxyObjects t) (newProxyObjects t) id) /\
    t' = registerAll l t.
Proof.
  induction 1 as [|[key [a v]] ps Hv _ IH]; intros t k ps' t' k' Hraw Hrun.
  - simpl in Hrun. injection Hrun as <- <- <-. simpl.
    split; [constructor|]. split; [|done]. intros id Hid. by apply elem_of_nil in Hid.
  - cbn [walkProps] in Hrun. apply Forall_cons in Hraw as [Hrawv Hrawps].
    destruct (walk v t k) as [w|e] eqn:Hwalk; [|discriminate].
    cbn [mbind outcome_bind] in Hrun.
    destruct (negb (sameObject w) && negb (assignable a)); [discriminate|].
    destruct (walkProps walk ps (tablesAfter w) (draws w)) as [[[qs tq] kq]|e] eqn:Hrest;
      [|discriminate].
    cbn [mbind outcome_bind fst snd] in Hrun. injection Hrun as <- <- <-.
    destruct (Hv t k w Hrawv Hwalk) as (Hnd1 & Hfresh1 & Htab1).
    destruct (IH (tablesAfter w) (draws w) qs tq kq Hrawps Hrest) as (Hnd2 & Hfresh2 & Htab2).
    cbn [flat_map fst snd]. rewrite fmap_app. unfold tokensOf in *.
    split; [|split].
    + apply NoDup_app. split; [exact Hnd1|]. split; [|exact Hnd2].
      intros id Hid1 Hid2. apply (Hfresh2 id Hid2).
      rewrite Htab1. by apply registered_taken.
    + intros id Hid. apply elem_of_app in Hid as [Hid|Hid]; [by apply Hfresh1|].
      intros Htaken. apply (Hfresh2 id Hid). rewrite Htab1. by apply taken_registerAll.
    + rewrite ProxiesFacts.registerAll_app, <- Htab1. exact Htab2.
Qed.

Lemma walk_mints obj : mintsFresh obj.
Proof.
  induction obj as [p|id target|token isArray plainPrototype ownSymbols props IH]
    using ProxiesFacts.pvalue_walk_ind; intros t k w Hraw Hwalk.
  - simpl in Hwalk. injection Hwalk as <-. unfold tokensOf. simpl.
    split; [constructor|]. split; [|done]. intros id Hid. by apply elem_of_nil in Hid.
  - destruct Hraw.
  - destruct token as [id|]; [destruct Hraw|].
    rewrite ProxiesFacts.initProxiesRecursively_object in Hwalk.
    destruct (isJsonIncompatible isArray plainPrototype ownSymbols props) eqn:Hc.
    + destruct (generateProxyId randomString (oldProxyObjects t) (newProxyObjects t) k)
        as [[id|e] k'] eqn:Hid; [|discriminate].
      injection Hwalk as <-. unfold tokensOf. cbn [result tablesAfter wrappersOf fmap list_fmap fst].
      split; [apply NoDup_singleton|]. split; [|done].
      intros id' ->%list_elem_of_singleton. by eapply generateProxyId_fresh.
    + apply raw_object in Hraw; [|exact Hc].
      destruct (walkProps walk props t k) as [[[ps' t'] k']|e] eqn:Hrun; [|discriminate].
      cbn [mbind outcome_bind fst snd] in Hwalk. injection Hwalk as <-.
      unfold tokensOf. cbn [result tablesAfter].
      rewrite ProxiesFacts.wrappersOf_object.
      exact (walkProps_mints props IH t k ps' t' k' Hraw Hrun).
Qed.
End Minting.



End GenerationsFacts.

(** ** Properties of the component ids *)

Module IdPluginFacts.
Import Js IdPlugin.

Section Ids.
Implicit Types (ids : componentIds) (component : string) (components : list string).

Lemma nextId_generateId component ids c :
  nextId (generateId component ids).2 c
  = if decide (c = component) then S (nextId ids c) else nextId ids c.
Proof.
  unfold generateId, nextId. cbn [snd].
  destruct (decide (c = component)) as [->|Hne].
  - by rewrite lookup_insert_eq.
  - by rewrite lookup_insert_ne.
Qed.

(** The i-th id given to a list of components: the name of the component
    followed by the number its next id carried at the start plus the number
    of earlier ids given under the same name. *)
Lemma generateIds_lookup components : forall ids i component,
  components !! i = Some component ->
  (generateIds components ids).1 !! i
  = Some (component
            ++ pretty (nextId ids component
                       + length (List.filter (String.eqb component) (take i components)))%nat)%string.
Proof.
  induction components as [|c components IH]; intros ids i component Hi; [done|].
  cbn [generateIds].
  destruct (generateId c ids) as [id ids1] eqn:Hg.
  destruct (generateIds components ids1) as [more ids2] eqn:Hrest.
  destruct i as [|i]; cbn [fst];
    [change ((id :: more) !! 0%nat) with (Some id)
    |change ((id :: more) !! S i) with (more !! i)].
  - simpl in Hi. injection Hi as ->. unfold generateId in Hg. injection Hg as <- _.
    cbn [take List.filter length]. unfold nextId. by rewrite Nat.add_0_r.
  - simpl in Hi. specialize (IH ids1 i component Hi). rewrite Hrest in IH. cbn [fst] in IH.
    rewrite IH. do 3 f_equal.
    assert (ids1 = (generateId c ids).2) as -> by (by rewrite Hg).
    rewrite nextId_generateId. cbn [take List.filter].
    destruct (decide (component = c)) as [->|Hne].
    + rewrite String.eqb_refl. simpl. lia.
    + destruct (String.eqb_spec component c); [done|]. reflexivity.
Qed.

Lemma filter_take_lt (f : string -> bool) (l : list string) (i j : nat) (x : string) :
  (i < j)%nat -> l !! i = Some x -> f x = true ->
  (length (List.filter f (take i l)) < length (List.filter f (take j l)))%nat.
Proof.
  revert i j. induction l as [|y l IH]; intros i j Hij Hi Hx; [done|].
  destruct j as [|j]; [lia|]. destruct i as [|i]; cbn [take List.filter].
  - simpl in Hi. injection Hi as ->. rewrite Hx. simpl. lia.
  - simpl in Hi. specialize (IH i j ltac:(lia) Hi Hx).
    destruct (f y); simpl; lia.
Qed.
End Ids.

(** X18. Ids are unique per component name.  However many ids
    [generateId] hands out and whatever the map held before, two ids given
    under the same name differ: each is the name followed by a counter that
    goes up by one with every id of that name. *)
Theorem generateId_unique_per_component
    (components : list string) (ids : componentIds) (i j : nat) (component : string) :
  i <> j ->
  components !! i = Some component ->
  components !! j = Some component ->
  (generateIds components ids).1 !! i <> (generateIds components ids).1 !! j.
Proof.
  assert (forall i j, (i < j)%nat ->
            components !! i = Some component -> components !! j = Some component ->
            (generateIds components ids).1 !! i <> (generateIds components ids).1 !! j)
    as Hlt.
  { clear i j. intros i j Hij Hi Hj.
    rewrite (generateIds_lookup components ids i component Hi).
    rewrite (generateIds_lookup components ids j component Hj).
    intros [= Heq]. apply String.app_inj, pretty_nat_inj in Heq.
    pose proof (filter_take_lt (String.eqb component) components i j component Hij Hi
                  (String.eqb_refl component)).
    lia. }
  intros Hij Hi Hj. destruct (decide (i < j)%nat) as [Hl|Hl]; [by apply Hlt|].
  intros Heq. symmetry in Heq. revert Heq. apply Hlt; [lia|done|done].
Qed.

Lemma generateId_unique_per_component_witness :
  (generateIds ["menu"; "dish"; "menu"] ∅).1 !! 0%nat
  <> (generateIds ["menu"; "dish"; "menu"] ∅).1 !! 2%nat.
Proof.
  apply (generateId_unique_per_component ["menu"; "dish"; "menu"] ∅ 0 2 "menu");
    [lia|reflexivity|reflexivity].
Defined.

(** Across names ids can collide: the tenth id of [a] is the first of [a1]. *)
Example generateId_collision_across_components :
  (generateId "a" {[ "a" := 9%nat ]}).1 = (generateId "a1" ∅).1.
Proof. vm_compute. reflexivity. Qed.

Section Names.
Variable randomString : nat -> string.
Implicit Types (ids : componentIds) (k : nat).

Lemma getComponentNameLoop_more n ids k :
  getComponentNameLoop randomString (S (S n)) ids k
  = if bool_decide (is_Some (ids !! randomString k))
    then getComponentNameLoop randomString (S n) ids (S k)
    else (randomString k, S k).
Proof. reflexivity. Qed.

Lemma getComponentNameLoop_spec n : forall ids k,
  let r := getComponentNameLoop randomString n ids k in
  (k < r.2 <= k + Nat.max n 1)%nat /\
  r.1 = randomString (r.2 - 1)%nat /\
  (forall j, (k <= j < r.2 - 1)%nat -> is_Some (ids !! randomString j)) /\
  (ids !! r.1 = None \/ r.2 = (k + Nat.max n 1)%nat).
Proof.
  induction n as [|n IH]; intros ids k.
  - simpl. split; [lia|]. split; [f_equal; lia|]. split; [intros j Hj; lia|right; lia].
  - destruct n as [|n].
    + simpl. split; [lia|]. split; [f_equal; lia|]. split; [intros j Hj; lia|right; lia].
    + rewrite getComponentNameLoop_more. case_bool_decide as Hin.
      * specialize (IH ids (S k)). cbv zeta in IH.
        set (r := getComponentNameLoop randomString (S n) ids (S k)) in *.
        destruct IH as (Hrange & Hname & Hbefore & Hend).
        split; [lia|]. split; [exact Hname|]. split.
        -- intros j Hj. destruct (decide (j = k)) as [->|Hne]; [exact Hin|].
           apply Hbefore. lia.
        -- destruct Hend as [?|Hend]; [by left|right; lia].
      * simpl. split; [lia|]. split; [f_equal; lia|]. split; [intros j Hj; lia|].
        left. replace (k - 0)%nat with k by lia. by apply eq_None_not_Some.
Qed.
End Names.

(** X19. Generating a component name is bounded and never fails.  For the
    option [true], [getComponentName] draws at least once and at most 100
    times, and returns its last draw; every draw before it was a name in use;
    the name returned is not in use, unless it is the 100th draw, which is
    returned whether it is in use or not.  A name given as a string is
    returned as it is, without a draw. *)
Theorem getComponentName_bounded
    (randomString : nat -> string) (ids : componentIds) (k : nat) :
  let r := getComponentName randomString Generated ids k in
  (k < r.2 <= k + 100)%nat /\
  r.1 = randomString (r.2 - 1)%nat /\
  (forall j, (k <= j < r.2 - 1)%nat -> is_Some (ids !! randomString j)) /\
  (ids !! r.1 = None \/ r.2 = (k + 100)%nat) /\
  ((forall j, (k <= j < k + 100)%nat -> is_Some (ids !! randomString j)) ->
   r = (randomString (k + 99)%nat, (k + 100)%nat)) /\
  (forall name, getComponentName randomString (Named name) ids k = (name, k)).
Proof.
  intros r. subst r. unfold getComponentName.
  pose proof (getComponentNameLoop_spec randomString 100 ids k) as H. cbv zeta in H.
  set (r := getComponentNameLoop randomString 100 ids k) in *.
  destruct H as (Hrange & Hname & Hbefore & Hend).
  replace (Nat.max 100 1) with 100%nat in * by reflexivity.
  split; [exact Hrange|]. split; [exact Hname|]. split; [exact Hbefore|].
  split; [exact Hend|]. split; [|reflexivity].
  intros Hall.
  assert (r.2 = (k + 100)%nat) as H2.
  { destruct Hend as [Hnone|?]; [|done].
    destruct (decide (r.2 = (k + 100)%nat)) as [?|Hne]; [done|].
    destruct (Hall (r.2 - 1)%nat) as [v Hv]; [lia|].
    rewrite <- Hname in Hv. congruence. }
  destruct r as [name k']. simpl in *. subst k'. f_equal. rewrite Hname. f_equal. lia.
Qed.

Example getComponentName_all_in_use :
  getComponentName (fun _ => "menu") Generated {[ "menu" := 0%nat ]} 0 = ("menu", 100%nat).
Proof. vm_compute. reflexivity. Qed.

End IdPluginFacts.

(** ** Properties of provide and inject *)

Module DependencyPluginFacts.
Import Js DependencyPlugin.

Section Inject.
Variable builtin : string -> bool.
Implicit Types (ancestors : list (option Dependencies)) (id : string).

Lemma inject_unfold root rest id :
  inject builtin (root :: rest) id
  = match offers builtin root id with
    | Some f => f
    | None => inject builtin rest id
    end.
Proof.
  cbn [inject]. unfold offers. destruct root as [dependencies|]; [|done].
  destruct (dependencies !! id) as [v|].
  - by destruct (truthy v).
  - by destruct (builtin id).
Qed.

Lemma inject_None ancestors id :
  Forall (fun root => offers builtin root id = None) ancestors ->
  inject builtin ancestors id = Value VUndefined.
Proof.
  induction 1 as [|root rest Hroot _ IH]; [reflexivity|].
  by rewrite inject_unfold, Hroot.
Qed.

Lemma inject_nearest nearer root further id f :
  Forall (fun root => offers builtin root id = None) nearer ->
  offers builtin root id = Some f ->
  inject builtin (nearer ++ root :: further) id = f.
Proof.
  intros Hnearer Hroot. induction Hnearer as [|r rest Hr _ IH]; cbn [app].
  - by rewrite inject_unfold, Hroot.
  - by rewrite inject_unfold, Hr.
Qed.

Lemma offers_found root id f :
  offers builtin root id = Some f ->
  match f with
  | Value v =>
      truthy v = true /\ exists dependencies, root = Some dependencies /\
                                              dependencies !! id = Some v
  | Builtin id' =>
      id' = id /\ builtin id = true /\
      exists dependencies, root = Some dependencies /\ dependencies !! id = None
  end.
Proof.
  unfold offers. destruct root as [dependencies|]; [|discriminate].
  destruct (dependencies !! id) as [v|] eqn:Hv.
  - destruct (truthy v) eqn:Ht; [|discriminate]. intros [= <-]. eauto.
  - destruct (builtin id) eqn:Hb; [|discriminate]. intros [= <-]. eauto.
Qed.
End Inject.

(** X20. What [$inject] finds.  What is injected is what the nearest
    ancestor answers truthily under the id: the value it was provided, when
    that is truthy, or, when it was provided nothing under the id, the
    member its dependencies object has of itself (a method of
    [Object.prototype] such as [constructor], the observer under [__ob__]).
    Ancestors without dependencies, and those with a falsy value under the id
    (0, the empty string, false, null), are passed over, so a falsy value is
    never injected and hides nothing further up; an id the dependencies
    objects answer of themselves hides everything provided beyond the
    nearest ancestor with dependencies; with no ancestor answering, the
    result is undefined.  A truthy value a parent provides is what its child
    injects. *)
Theorem inject_nearest_truthy
    (builtin : string -> bool)
    (ancestors : list (option Dependencies)) (id : string) :
  (Forall (fun root => offers builtin root id = None) ancestors ->
   inject builtin ancestors id = Value VUndefined) /\
  (forall nearer root further f,
     ancestors = nearer ++ root :: further ->
     Forall (fun root => offers builtin root id = None) nearer ->
     offers builtin root id = Some f ->
     inject builtin ancestors id = f /\
     match f with
     | Value v =>
         truthy v = true /\
         exists dependencies, root = Some dependencies /\ dependencies !! id = Some v
     | Builtin id' =>
         id' = id /\ builtin id = true /\
         exists dependencies, root = Some dependencies /\ dependencies !! id = None
     end) /\
  (forall nearer dependencies further,
     ancestors = nearer ++ Some dependencies :: further ->
     Forall (fun root => root = None) nearer ->
     dependencies !! id = None ->
     builtin id = true ->
     inject builtin ancestors id = Builtin id) /\
  (forall dependencies dependencies' v,
     truthy v = true ->
     provide dependencies id v = Some dependencies' ->
     inject builtin (Some dependencies' :: ancestors) id = Value v).
Proof.
  split; [apply inject_None|]. split; [|split].
  - intros nearer root further f -> Hnearer Hroot.
    split; [by apply inject_nearest|]. by apply offers_found.
  - intros nearer dependencies further -> Hnearer Hnone Hb.
    apply inject_nearest.
    + eapply Forall_impl; [exact Hnearer|]. by intros root ->.
    + unfold offers. by rewrite Hnone, Hb.
  - intros dependencies dependencies' v Hv Hprovide. unfold provide in Hprovide.
    destruct (String.eqb id "__ob__" || String.eqb id "__proto__"); [discriminate|].
    injection Hprovide as <-. cbn [inject].
    rewrite lookup_insert_eq. by rewrite Hv.
Qed.

Lemma inject_nearest_truthy_witness :
  inject standardMembers
    [Some {[ "theme" := VNum 0 ]}; None; Some {[ "theme" := VStr "dark" ]}] "theme"
  = Value (VStr "dark").
Proof.
  destruct (inject_nearest_truthy standardMembers
              [Some {[ "theme" := VNum 0 ]}; None; Some {[ "theme" := VStr "dark" ]}] "theme")
    as (_ & Hnearest & _).
  apply (Hnearest [Some {[ "theme" := VNum 0 ]}; None] (Some {[ "theme" := VStr "dark" ]}) []
           (Value (VStr "dark"))).
  - reflexivity.
  - repeat constructor.
  - reflexivity.
Defined.

(** A component that injects [constructor] gets the constructor of the
    dependencies object of its parent, whatever an ancestor has provided
    under that name. *)
Example inject_constructor :
  inject standardMembers [Some ∅; Some {[ "constructor" := VStr "Cart" ]}] "constructor"
  = Builtin "constructor".
Proof. reflexivity. Qed.

End DependencyPluginFacts.

(** ** Properties of the storage helpers *)

Module StorageFacts.
Import Js Storage.

Section Guards.
Implicit Types (error : value).

Lemma isStorageError_true error :
  isStorageError error = Ok true <->
  exists props code,
    error = VObj props /\ props !! "code" = Some (VStr code) /\
    startsWith code "storage/" = true /\
    has error "message" = true /\ has error "name" = true.
Proof.
  unfold isStorageError. split.
  - destruct error as [| |b|n|s|items|props]; simpl; try discriminate.
    destruct (has (VObj props) "message") eqn:Hm; simpl; [|discriminate].
    destruct (has (VObj props) "name") eqn:Hn; simpl; [|discriminate].
    destruct (has (VObj props) "code") eqn:Hc; simpl; [|discriminate].
    destruct (props !! "code") as [[]|] eqn:Hcode; simpl; try discriminate.
    intros [= Hs]. eauto 10.
  - intros (props & code & -> & Hcode & Hs & Hm & Hn). simpl. rewrite Hm, Hn. simpl.
    unfold has. simpl. rewrite Hcode. simpl. by rewrite Hs.
Qed.

Lemma isStorageError_firestore error :
  isStorageError error = Ok true -> isFirestoreError error = true.
Proof.
  intros (props & code & -> & Hcode & _ & Hm & Hn)%isStorageError_true.
  unfold isFirestoreError. rewrite Hm, Hn. unfold has. simpl. by rewrite Hcode.
Qed.

Lemma isFirestoreError_https error :
  isFirestoreError error = true -> isHttpsError error = true.
Proof.
  unfold isFirestoreError, isHttpsError. by intros [? _]%andb_prop.
Qed.
End Guards.

(** X21. What the two storage helpers make of a failure.  With the
    reference resolved, [storageFileExists] answers true when the metadata
    request succeeds, and false exactly when it was rejected with a storage
    error (an object with a message, a name and a code starting with
    [storage/]) whose code is [storage/object-not-found]; any other rejection
    that the guard classifies is passed on with the reason it had, unchanged.
    [deleteStorageFile] treats the outcome of the deletion in the same way.
    With a path and no storage set, both fail before any request.  The
    guards are nested: what [isStorageError] accepts [isFirestoreError]
    accepts, and what that accepts [isHttpsError] accepts. *)
Theorem storage_missing_object_is_false
    (firebaseStorage : option (string -> nat)) (remote : nat -> settled unit)
    (target : pathOrRef) (ref : nat) :
  resolve firebaseStorage target = Ok ref ->
  (remote ref = Fulfilled tt ->
   storageFileExists firebaseStorage remote target = Fulfilled true) /\
  (forall error,
     remote ref = Rejected error ->
     (storageFileExists firebaseStorage remote target = Fulfilled false <->
      isStorageError error = Ok true /\
      getProp error "code" = Ok (VStr "storage/object-not-found")) /\
     (forall answer, isStorageError error = Ok answer ->
        storageFileExists firebaseStorage remote target <> Fulfilled false ->
        storageFileExists firebaseStorage remote target = Rejected error)) /\
  deleteStorageFile firebaseStorage remote target
    = storageFileExists firebaseStorage remote target /\
  (forall path, storageFileExists None remote (Path path) = Failed TypeError) /\
  (forall error, isStorageError error = Ok true -> isFirestoreError error = true) /\
  (forall error, isFirestoreError error = true -> isHttpsError error = true).
Proof.
  intros Href. unfold storageFileExists, deleteStorageFile. rewrite Href.
  split; [by intros ->|]. split; [|split; [reflexivity|split; [reflexivity|split]]];
    [|apply isStorageError_firestore|apply isFirestoreError_https].
  intros error ->. unfold missingIsFalse. split.
  - split.
    + destruct (isStorageError error) as [[]|e] eqn:Hs; try discriminate.
      destruct (getProp error "code") as [[]|] eqn:Hc; try discriminate.
      destruct (String.eqb_spec s "storage/object-not-found") as [->|]; [done|discriminate].
    + intros [-> ->]. reflexivity.
  - intros answer Hs Hne. rewrite Hs in *. destruct answer; [|reflexivity].
    destruct (getProp error "code") as [[]|]; try reflexivity.
    destruct (String.eqb s "storage/object-not-found"); [done|reflexivity].
Qed.

Lemma storage_missing_object_is_false_witness :
  storageFileExists None (fun _ => Rejected notFound) (Ref 7) = Fulfilled false.
Proof.
  destruct (storage_missing_object_is_false None (fun _ => Rejected notFound) (Ref 7) 7 eq_refl)
    as (_ & Hrejected & _).
  destruct (Hrejected notFound eq_refl) as [Hfalse _].
  apply Hfalse. split; reflexivity.
Defined.

(** A code that is no string makes the guard itself fail. *)
Example isStorageError_numeric_code :
  isStorageError (VObj {[ "code" := VNum 404; "message" := VStr "m"; "name" := VStr "n" ]})
  = Throw TypeError.
Proof. vm_compute. reflexivity. Qed.

End StorageFacts.

(** ** Properties of the synced-collections module over its whole life *)

Module LifecycleFacts.
Import Js Collections Lifecycle.

Section Opened.
Implicit Types (tr : list effect) (opened : list (nat * string)).

Lemma openListeners_app tr tr' :
  openListeners (tr ++ tr') = foldl listenerStep (openListeners tr) tr'.
Proof. unfold openListeners. apply foldl_app. Qed.

Lemma openWatches_app tr tr' :
  openWatches (tr ++ tr') = foldl watchStep (openWatches tr) tr'.
Proof. unfold openWatches. apply foldl_app. Qed.

Lemma callbacks_open tr tr' :
  forallb isCallback tr' = true ->
  openListeners (tr ++ tr') = openListeners tr /\ openWatches (tr ++ tr') = openWatches tr.
Proof.
  rewrite openListeners_app, openWatches_app.
  generalize (openListeners tr) (openWatches tr).
  induction tr' as [|e tr' IH]; intros ls ws Hall; [done|].
  simpl in Hall. apply andb_prop in Hall as [He Hall].
  destruct e; try discriminate. simpl. by apply IH.
Qed.

Lemma errorCallbacks_callbacks subscribers error :
  forallb isCallback (errorCallbacks subscribers error) = true.
Proof.
  unfold errorCallbacks. induction subscribers as [|s subscribers IH]; [done|].
  simpl. destruct (onError s); simpl; exact IH.
Qed.

Lemma elem_of_closed opened h h' p :
  (h', p) ∈ List.filter (fun x => negb (Nat.eqb x.1 h)) opened <->
  (h', p) ∈ opened /\ h' <> h.
Proof.
  rewrite !list_elem_of_In, filter_In. simpl.
  rewrite negb_true_iff, Nat.eqb_neq. reflexivity.
Qed.

Lemma closed_handles opened h :
  NoDup opened.*1 -> NoDup (List.filter (fun x => negb (Nat.eqb x.1 h)) opened).*1.
Proof.
  induction opened as [|[h' p] opened IH]; [done|].
  rewrite fmap_cons. cbn [List.filter fst].
  intros [Hfresh Hnd]%NoDup_cons. destruct (negb (h' =? h)%nat); [|by apply IH].
  rewrite fmap_cons. apply NoDup_cons. split; [|by apply IH].
  intros Hin. apply Hfresh. apply list_elem_of_fmap in Hin as ([h2 p2] & Heq & Hin).
  simpl in Heq. subst h2. apply list_elem_of_In, filter_In in Hin as [Hin _].
  apply list_elem_of_fmap. exists (h', p2). split; [done|]. by apply list_elem_of_In.
Qed.

Lemma pathOf_Some h opened p :
  pathOf h opened = Some p -> (h, p) ∈ opened.
Proof.
  unfold pathOf. destruct (List.find _ opened) as [[h' p']|] eqn:Hfind; [|discriminate].
  intros [= <-]. apply find_some in Hfind as [Hin Heq].
  apply Nat.eqb_eq in Heq. simpl in Heq. subst. by apply list_elem_of_In.
Qed.
End Opened.

Section Consistency.
Implicit Types (cs : gmap string CollectionSyncedList) (infos : gmap string CollectionsInfo)
  (tr : list effect).

(** Handles go on being allocated, and callbacks are traced. *)
Lemma consistent_more cs infos next next' tr tr' :
  consistent cs infos next tr ->
  (next <= next')%nat ->
  openListeners tr' = openListeners tr -> openWatches tr' = openWatches tr ->
  consistent cs infos next' tr'.
Proof.
  intros [H1 H2 H3 H4 H5 H6 H7 H8] Hnext Hl Hw.
  split; rewrite ?Hl, ?Hw; try done.
  - intros h p Hin. specialize (H7 h p Hin). lia.
  - intros w p Hin. specialize (H8 w p Hin). lia.
Qed.

(** The list and the flag [syncing] of a record change. *)
Lemma consistent_collection cs infos next tr p c c' :
  consistent cs infos next tr ->
  cs !! p = Some c -> syncEnabled c' = syncEnabled c ->
  consistent (<[p := c']> cs) infos next tr.
Proof.
  intros [H1 H2 H3 H4 H5 H6 H7 H8] Hc He. split; try done.
  - intros q. destruct (decide (q = p)) as [->|Hne].
    + rewrite lookup_insert_eq. rewrite <- H1, Hc. split; by eexists.
    + by rewrite lookup_insert_ne.
  - intros q c0 i0. destruct (decide (q = p)) as [->|Hne].
    + rewrite lookup_insert_eq. intros [= <-] Hi. rewrite He. by apply (H2 p c i0).
    + rewrite lookup_insert_ne by done. apply H2.
Qed.

(** The subscribers and the flag [firstSync] of a record change. *)
Lemma consistent_info cs infos next tr p i i' :
  consistent cs infos next tr ->
  infos !! p = Some i ->
  unsubscribeFromSync i' = unsubscribeFromSync i ->
  unsubscribeFromCollectionOptions i' = unsubscribeFromCollectionOptions i ->
  (forall c, cs !! p = Some c ->
     if syncEnabled c then collectionSubscribers i' <> [] else collectionSubscribers i' = []) ->
  consistent cs (<[p := i']> infos) next tr.
Proof.
  intros [H1 H2 H3 H4 H5 H6 H7 H8] Hi Hs Hw Hsubs. split; try done.
  - intros q. destruct (decide (q = p)) as [->|Hne].
    + rewrite lookup_insert_eq. rewrite H1, Hi. split; by eexists.
    + by rewrite lookup_insert_ne.
  - intros q c0 i0. destruct (decide (q = p)) as [->|Hne].
    + rewrite lookup_insert_eq. intros Hc [= <-]. specialize (H2 p c0 i Hc Hi).
      rewrite Hs, Hw. specialize (Hsubs c0 Hc). destruct (syncEnabled c0) eqn:He.
      * destruct H2 as (? & ? & _). done.
      * destruct H2 as (? & ? & _). done.
    + rewrite lookup_insert_ne by done. apply H2.
  - intros h q. rewrite H3. destruct (decide (q = p)) as [->|Hne].
    + rewrite lookup_insert_eq. split.
      * intros (i0 & Hi0 & Hh). exists i'. split; [done|]. congruence.
      * intros (i0 & [= <-] & Hh). exists i. split; [done|]. congruence.
    + by rewrite lookup_insert_ne.
  - intros w q. rewrite H4. destruct (decide (q = p)) as [->|Hne].
    + rewrite lookup_insert_eq. split.
      * intros (i0 & Hi0 & Hh). exists i'. split; [done|]. congruence.
      * intros (i0 & [= <-] & Hh). exists i. split; [done|]. congruence.
    + by rewrite lookup_insert_ne.
Qed.

(** Sync of a path is stopped: its listener and its watch are closed. *)
Lemma consistent_closed cs infos next tr tr' p c i h w c' i' :
  consistent cs infos next tr ->
  cs !! p = Some c -> infos !! p = Some i ->
  unsubscribeFromSync i = Some h -> unsubscribeFromCollectionOptions i = Some w ->
  syncEnabled c' = false ->
  unsubscribeFromSync i' = None -> unsubscribeFromCollectionOptions i' = None ->
  collectionSubscribers i' = [] ->
  openListeners tr' = listenerStep (openListeners tr) (Unlisten h) ->
  openWatches tr' = watchStep (openWatches tr) (Unwatch w) ->
  consistent (<[p := c']> cs) (<[p := i']> infos) next tr'.
Proof.
  intros [H1 H2 H3 H4 H5 H6 H7 H8] Hc Hi Hh Hw He Hh' Hw' Hsubs Hl Hws.
  simpl in Hl, Hws.
  assert ((h, p) ∈ openListeners tr) as Hopen by (apply H3; eauto).
  assert ((w, p) ∈ openWatches tr) as Hwopen by (apply H4; eauto).
  split; rewrite ?Hl, ?Hws.
  - intros q. destruct (decide (q = p)) as [->|Hne].
    + rewrite !lookup_insert_eq. split; by eexists.
    + by rewrite !lookup_insert_ne.
  - intros q c0 i0. destruct (decide (q = p)) as [->|Hne].
    + rewrite !lookup_insert_eq. intros [= <-] [= <-]. by rewrite He.
    + rewrite !lookup_insert_ne by done. apply H2.
  - intros h0 q. rewrite elem_of_closed, H3. destruct (decide (q = p)) as [->|Hne].
    + rewrite lookup_insert_eq. split.
      * intros [(i0 & Hi0 & Hh0) Hneq]. congruence.
      * intros (i0 & [= <-] & Hh0). congruence.
    + rewrite lookup_insert_ne by done. split; [tauto|].
      intros (i0 & Hi0 & Hh0). split; [eauto|]. intros ->.
      assert ((h, q) ∈ openListeners tr) as Hq by (apply H3; eauto).
      apply Hne. clear -H5 Hopen Hq.
      apply list_elem_of_lookup in Hopen as [a Ha]. apply list_elem_of_lookup in Hq as [b Hb].
      assert (a = b) as ->.
      { eapply NoDup_lookup; [exact H5| |]; rewrite list_lookup_fmap; [by rewrite Ha|by rewrite Hb]. }
      congruence.
  - intros w0 q. rewrite elem_of_closed, H4. destruct (decide (q = p)) as [->|Hne].
    + rewrite lookup_insert_eq. split.
      * intros [(i0 & Hi0 & Hw0) Hneq]. congruence.
      * intros (i0 & [= <-] & Hw0). congruence.
    + rewrite lookup_insert_ne by done. split; [tauto|].
      intros (i0 & Hi0 & Hw0). split; [eauto|]. intros ->.
      assert ((w, q) ∈ openWatches tr) as Hq by (apply H4; eauto).
      apply Hne. clear -H6 Hwopen Hq.
      apply list_elem_of_lookup in Hwopen as [a Ha]. apply list_elem_of_lookup in Hq as [b Hb].
      assert (a = b) as ->.
      { eapply NoDup_lookup; [exact H6| |]; rewrite list_lookup_fmap; [by rewrite Ha|by rewrite Hb]. }
      congruence.
  - by apply closed_handles.
  - by apply closed_handles.
  - intros h0 q [Hin _]%elem_of_closed. eauto.
  - intros w0 q [Hin _]%elem_of_closed. eauto.
Qed.

(** Sync of a path that holds neither listener nor watch is started, on the
    next two handles of the allocator. *)
Lemma consistent_opened cs infos next next' tr tr' p o c' i' :
  consistent cs infos next tr ->
  (forall i, infos !! p = Some i ->
     unsubscribeFromSync i = None /\ unsubscribeFromCollectionOptions i = None) ->
  syncEnabled c' = true ->
  unsubscribeFromSync i' = Some next ->
  unsubscribeFromCollectionOptions i' = Some (S next) ->
  collectionSubscribers i' <> [] ->
  (S (S next) <= next')%nat ->
  openListeners tr' = listenerStep (openListeners tr) (Listen next p o) ->
  openWatches tr' = watchStep (openWatches tr) (Watch (S next) p) ->
  consistent (<[p := c']> cs) (<[p := i']> infos) next' tr'.
Proof.
  intros [H1 H2 H3 H4 H5 H6 H7 H8] Hnone He Hh' Hw' Hsubs Hnext Hl Hws.
  simpl in Hl, Hws.
  split; rewrite ?Hl, ?Hws.
  - intros q. destruct (decide (q = p)) as [->|Hne].
    + rewrite !lookup_insert_eq. split; by eexists.
    + by rewrite !lookup_insert_ne.
  - intros q c0 i0. destruct (decide (q = p)) as [->|Hne].
    + rewrite !lookup_insert_eq. intros [= <-] [= <-]. rewrite He, Hh', Hw'.
      split; [by eexists|]. split; [by eexists|done].
    + rewrite !lookup_insert_ne by done. apply H2.
  - intros h0 q. rewrite elem_of_app, list_elem_of_singleton, H3.
    destruct (decide (q = p)) as [->|Hne].
    + rewrite lookup_insert_eq. split.
      * intros [(i0 & Hi0 & Hh0)|[= ->]]; [|eauto].
        destruct (Hnone i0 Hi0) as [Hn _]. congruence.
      * intros (i0 & [= <-] & Hh0). right. congruence.
    + rewrite lookup_insert_ne by done. split; [|by left].
      intros [?|[= _ ->]]; done.
  - intros w0 q. rewrite elem_of_app, list_elem_of_singleton, H4.
    destruct (decide (q = p)) as [->|Hne].
    + rewrite lookup_insert_eq. split.
      * intros [(i0 & Hi0 & Hw0)|[= ->]]; [|eauto].
        destruct (Hnone i0 Hi0) as [_ Hn]. congruence.
      * intros (i0 & [= <-] & Hw0). right. congruence.
    + rewrite lookup_insert_ne by done. split; [|by left].
      intros [?|[= _ ->]]; done.
  - rewrite fmap_app. apply NoDup_app. split; [done|]. split; [|apply NoDup_singleton].
    intros h0 Hin ->%list_elem_of_singleton.
    apply list_elem_of_fmap in Hin as ([h1 q] & Heq & Hin). simpl in Heq. subst h1.
    specialize (H7 _ _ Hin). lia.
  - rewrite fmap_app. apply NoDup_app. split; [done|]. split; [|apply NoDup_singleton].
    intros w0 Hin ->%list_elem_of_singleton.
    apply list_elem_of_fmap in Hin as ([w1 q] & Heq & Hin). simpl in Heq. subst w1.
    specialize (H8 _ _ Hin). lia.
  - intros h0 q [Hin|[= -> _]%list_elem_of_singleton]%elem_of_app; [|lia].
    specialize (H7 _ _ Hin). lia.
  - intros w0 q [Hin|[= -> _]%list_elem_of_singleton]%elem_of_app; [|lia].
    specialize (H8 _ _ Hin). lia.
Qed.
End Consistency.

Section Operations.
Variable mapCollectionOptions : string -> Firestore.FirestoreObjectOptions.
Variable unsubscribeWaitTime : nat.

Local Abbreviation startCollectionSync := (startCollectionSync mapCollectionOptions).
Local Abbreviation syncCollection := (syncCollection mapCollectionOptions).
Local Abbreviation onOptionsChanged := (onOptionsChanged mapCollectionOptions).
Local Abbreviation deliver := (deliver mapCollectionOptions unsubscribeWaitTime).
Local Abbreviation deliverAll := (deliverAll mapCollectionOptions unsubscribeWaitTime).

Lemma consistent_newModule : consistentModule newModule.
Proof.
  split; simpl; try done.
  - intros p. rewrite !lookup_empty. split; intros [? ?]; done.
  - intros h p. split; [by intros ?%elem_of_nil|]. intros (i & Hi & _). by rewrite lookup_empty in Hi.
  - intros w p. split; [by intros ?%elem_of_nil|]. intros (i & Hi & _). by rewrite lookup_empty in Hi.
  - apply NoDup_nil_2.
  - apply NoDup_nil_2.
  - by intros h p ?%elem_of_nil.
  - by intros w p ?%elem_of_nil.
Qed.

(** [startCollectionSync] on a path whose record has sync disabled: the
    whole module afterwards. *)
Lemma startCollectionSync_record path this c i :
  collections this !! path = Some c ->
  collectionsInfo this !! path = Some i ->
  syncEnabled c = false ->
  startCollectionSync path this =
  Ok {| collections :=
          <[path := {| list_ := list_ c; syncEnabled := true; syncing := true |}]>
            (collections this);
        collectionsInfo :=
          <[path := {| unsubscribeFromSync := Some (nextRef this); firstSync := true;
                       collectionSubscribers := collectionSubscribers i;
                       unsubscribeFromCollectionOptions := Some (S (nextRef this)) |}]>
            (collectionsInfo this);
        nextRef := S (S (nextRef this)); now := now this; timers := timers this;
        trace := trace this ++ [Listen (nextRef this) path (mapCollectionOptions path);
                                Watch (S (nextRef this)) path] |}.
Proof.
  intros Hc Hi Hd. unfold Collections.startCollectionSync. rewrite !Hc, Hi, Hd. simpl.
  unfold setSyncStatus. simpl. rewrite Hc. simpl.
  unfold setCollectionsInfo. simpl. rewrite insert_insert_eq, <- app_assoc. reflexivity.
Qed.

(** ... and on a path without records. *)
Lemma startCollectionSync_absent path this :
  collections this !! path = None ->
  startCollectionSync path this =
  Ok {| collections :=
          <[path := {| list_ := []; syncEnabled := true; syncing := true |}]>
            (collections this);
        collectionsInfo :=
          <[path := {| unsubscribeFromSync := Some (nextRef this); firstSync := true;
                       collectionSubscribers := [];
                       unsubscribeFromCollectionOptions := Some (S (nextRef this)) |}]>
            (collectionsInfo this);
        nextRef := S (S (nextRef this)); now := now this; timers := timers this;
        trace := trace this ++ [Listen (nextRef this) path (mapCollectionOptions path);
                                Watch (S (nextRef this)) path] |}.
Proof.
  intros Hc.
  pose proof (startCollectionSync_record path (createCollection path this)
              {| list_ := []; syncEnabled := false; syncing := false |}
              {| unsubscribeFromSync := None; firstSync := false;
                 collectionSubscribers := []; unsubscribeFromCollectionOptions := None |}) as Hs.
  simpl in Hs. rewrite !lookup_insert_eq, !insert_insert_eq in Hs.
  specialize (Hs eq_refl eq_refl eq_refl).
  unfold Collections.startCollectionSync in *. rewrite Hc.
  simpl in Hs. rewrite lookup_insert_eq in Hs. exact Hs.
Qed.

Lemma paired_info this p c :
  consistentModule this -> collections this !! p = Some c ->
  exists i, collectionsInfo this !! p = Some i.
Proof. intros [H1 _ _ _ _ _ _ _] Hc. apply H1. by eexists. Qed.

Lemma paired_collection this p i :
  consistentModule this -> collectionsInfo this !! p = Some i ->
  exists c, collections this !! p = Some c.
Proof. intros [H1 _ _ _ _ _ _ _] Hi. apply H1. by eexists. Qed.

Lemma paired_absent this p :
  consistentModule this -> collections this !! p = None ->
  collectionsInfo this !! p = None.
Proof.
  intros [H1 _ _ _ _ _ _ _] Hc. destruct (collectionsInfo this !! p) as [i|] eqn:Hi; [|done].
  destruct (proj2 (H1 p)) as [c Hc']; [by eexists|]. congruence.
Qed.

Lemma enabled_handles this p c i :
  consistentModule this -> collections this !! p = Some c ->
  collectionsInfo this !! p = Some i -> syncEnabled c = true ->
  exists h w, unsubscribeFromSync i = Some h /\ unsubscribeFromCollectionOptions i = Some w /\
              collectionSubscribers i <> [].
Proof.
  intros [_ H2 _ _ _ _ _ _] Hc Hi He. specialize (H2 p c i Hc Hi). rewrite He in H2.
  destruct H2 as ([h Hh] & [w Hw] & Hs). eauto.
Qed.

Lemma disabled_handles this p c i :
  consistentModule this -> collections this !! p = Some c ->
  collectionsInfo this !! p = Some i -> syncEnabled c = false ->
  unsubscribeFromSync i = None /\ unsubscribeFromCollectionOptions i = None /\
  collectionSubscribers i = [].
Proof.
  intros [_ H2 _ _ _ _ _ _] Hc Hi He. specialize (H2 p c i Hc Hi). by rewrite He in H2.
Qed.

(** A subscribe call succeeds and keeps the module consistent. *)
Lemma syncCollection_consistent path callback this :
  consistentModule this ->
  exists r, syncCollection path callback this = Ok r /\ consistentModule r.2.
Proof.
  intros Hinv. unfold Collections.syncCollection.
  destruct (collections this !! path) as [c|] eqn:Hc.
  - destruct (paired_info _ _ _ Hinv Hc) as [i Hi].
    destruct (syncEnabled c) eqn:He; simpl.
    + destruct (enabled_handles _ _ _ _ Hinv Hc Hi He) as (h & w & Hh & Hw & Hsubs).
      rewrite Hi. simpl. rewrite bool_decide_eq_false_2 by done. simpl. rewrite Hi. simpl.
      eexists. split; [reflexivity|]. unfold consistentModule. simpl.
      eapply consistent_more with (next := nextRef this); [|lia|done|done].
      eapply consistent_info; [exact Hinv|exact Hi|done|done|].
      simpl. intros c0. rewrite Hc. intros [= <-]. rewrite He.
      by destruct (collectionSubscribers i).
    + destruct (disabled_handles _ _ _ _ Hinv Hc Hi He) as (Hh & Hw & Hnone).
      rewrite (startCollectionSync_record _ _ _ _ Hc Hi He). simpl.
      rewrite lookup_insert_eq. simpl.
      eexists. split; [reflexivity|]. unfold consistentModule. simpl.
      rewrite insert_insert_eq.
      eapply consistent_opened with (next := nextRef this) (o := mapCollectionOptions path);
        [exact Hinv| |done|done|done| |lia|..]; simpl.
      * intros i0 Hi0. rewrite Hi in Hi0. by injection Hi0 as <-.
      * by destruct (collectionSubscribers i).
      * by rewrite !openListeners_app.
      * by rewrite !openWatches_app.
  - pose proof (paired_absent _ _ Hinv Hc) as Hi. simpl.
    rewrite (startCollectionSync_absent _ _ Hc). simpl.
    rewrite lookup_insert_eq. simpl.
    eexists. split; [reflexivity|]. unfold consistentModule. simpl.
    rewrite insert_insert_eq.
    eapply consistent_opened with (next := nextRef this) (o := mapCollectionOptions path);
      [exact Hinv| |done|done|done|done|lia|..]; simpl.
    + intros i0 Hi0. congruence.
    + by rewrite !openListeners_app.
    + by rewrite !openWatches_app.
Qed.

(** The subscribers and the first-sync flag of a path change, its handles
    stay. *)
Lemma consistent_subscribers this path i subscribers first :
  consistentModule this ->
  collectionsInfo this !! path = Some i ->
  (forall c, collections this !! path = Some c ->
     if syncEnabled c then subscribers <> [] else subscribers = []) ->
  consistentModule
    (setCollectionsInfo
       (insert path
          {| unsubscribeFromSync := unsubscribeFromSync i; firstSync := first;
             collectionSubscribers := subscribers;
             unsubscribeFromCollectionOptions := unsubscribeFromCollectionOptions i |})
       this).
Proof.
  intros Hinv Hi Hsubs. unfold consistentModule. simpl.
  eapply consistent_info; [exact Hinv|exact Hi|done|done|exact Hsubs].
Qed.

(** The timer of an unsubscribe function runs through and keeps the module
    consistent. *)
Lemma onTimer_consistent t this :
  consistentModule this ->
  exists this', onTimer t this = Ok this' /\ consistentModule this'.
Proof.
  intros Hinv. unfold onTimer.
  destruct (collectionsInfo this !! timerPath t) as [i|] eqn:Hi; [|eauto].
  destruct (paired_collection _ _ _ Hinv Hi) as [c Hc].
  set (remaining := removeSubscriber (timerSubscriber t) (collectionSubscribers i)).
  assert (syncEnabled c = false -> remaining = []) as Hoff.
  { intros He. destruct (disabled_handles _ _ _ _ Hinv Hc Hi He) as (_ & _ & Hnone).
    unfold remaining. by rewrite Hnone. }
  destruct (decide (remaining = [])) as [Hrem|Hrem].
  - rewrite bool_decide_eq_true_2 by done. rewrite Hrem.
    destruct (syncEnabled c) eqn:He.
    + destruct (enabled_handles _ _ _ _ Hinv Hc Hi He) as (h & w & Hh & Hw & Hsubs).
      erewrite CollectionsFacts.stopCollectionSync_enabled;
        [|exact Hc|simpl; by rewrite lookup_insert_eq|exact He].
      simpl. rewrite Hh, Hw. simpl.
      eexists. split; [reflexivity|]. unfold consistentModule. simpl.
      rewrite insert_insert_eq.
      eapply consistent_closed; [exact Hinv|exact Hc|exact Hi|exact Hh|exact Hw|done..| |].
      * by rewrite openListeners_app.
      * by rewrite openWatches_app.
    + unfold stopCollectionSync. simpl. rewrite Hc, He.
      eexists. split; [reflexivity|]. apply consistent_subscribers; [done..|].
      intros c0. rewrite Hc. intros [= <-]. by rewrite He.
  - rewrite bool_decide_eq_false_2 by done.
    eexists. split; [reflexivity|]. apply consistent_subscribers; [done..|].
    intros c0. rewrite Hc. intros [= <-]. destruct (syncEnabled c); [done|]. by destruct Hrem; apply Hoff.
Qed.

Lemma fire_consistent due_ : forall this,
  consistentModule this ->
  exists this', fire due_ this = Ok this' /\ consistentModule this'.
Proof.
  induction due_ as [|t due_ IH]; intros this Hinv; simpl; [eauto|].
  destruct (onTimer_consistent t this Hinv) as (this1 & -> & Hinv1). simpl. by apply IH.
Qed.

(** The error callback of a listener runs through and keeps the module
    consistent. *)
Lemma onSyncError_consistent path error this :
  consistentModule this ->
  exists this', onSyncError path error this = Ok this' /\ consistentModule this'.
Proof.
  intros Hinv. unfold onSyncError.
  destruct (collections this !! path) as [c|] eqn:Hc.
  - destruct (paired_info _ _ _ Hinv Hc) as [i Hi]. rewrite Hi.
    destruct (callbacks_open (trace this) (errorCallbacks (collectionSubscribers i) error)
                (errorCallbacks_callbacks _ _)) as [Hl Hw'].
    destruct (syncEnabled c) eqn:He.
    + destruct (enabled_handles _ _ _ _ Hinv Hc Hi He) as (h & w & Hh & Hw & Hsubs).
      rewrite (CollectionsFacts.stopCollectionSync_enabled _ _ _ _ Hc Hi He), Hh, Hw. simpl.
      eexists. split; [reflexivity|].
      rewrite CollectionsFacts.notifySubscribers_trace.
      unfold clearCollectionSubscribers. simpl. rewrite lookup_insert_eq.
      unfold consistentModule. simpl. rewrite insert_insert_eq.
      destruct (callbacks_open (trace this ++ [Unlisten h; Unwatch w])
                  (errorCallbacks (collectionSubscribers i) error)
                  (errorCallbacks_callbacks _ _)) as [Hl1 Hw1].
      eapply consistent_closed; [exact Hinv|exact Hc|exact Hi|exact Hh|exact Hw|done..| |].
      * rewrite Hl1. by rewrite openListeners_app.
      * rewrite Hw1. by rewrite openWatches_app.
    + unfold stopCollectionSync. rewrite Hc, He. simpl.
      eexists. split; [reflexivity|].
      rewrite CollectionsFacts.notifySubscribers_trace.
      unfold clearCollectionSubscribers. simpl. rewrite Hi.
      unfold consistentModule. simpl.
      eapply consistent_more with (next := nextRef this); [|lia|exact Hl|exact Hw'].
      eapply consistent_info; [exact Hinv|exact Hi|done|done|].
      intros c0. rewrite Hc. intros [= <-]. by rewrite He.
  - rewrite (paired_absent _ _ Hinv Hc). unfold stopCollectionSync. rewrite Hc. simpl. eauto.
Qed.

(** The callback of an options watch runs through and keeps the module
    consistent. *)
Lemma onOptionsChanged_consistent path this :
  consistentModule this ->
  exists this', onOptionsChanged path this = Ok this' /\ consistentModule this'.
Proof.
  intros Hinv. unfold Collections.onOptionsChanged.
  destruct (collections this !! path) as [c|] eqn:Hc; [|eauto].
  destruct (syncEnabled c) eqn:He; [|eauto].
  destruct (paired_info _ _ _ Hinv Hc) as [i Hi].
  destruct (enabled_handles _ _ _ _ Hinv Hc Hi He) as (h & w & Hh & Hw & Hsubs).
  rewrite (CollectionsFacts.stopCollectionSync_enabled _ _ _ _ Hc Hi He), Hh, Hw. simpl.
  erewrite startCollectionSync_record; simpl; rewrite ?lookup_insert_eq; try reflexivity.
  eexists. split; [reflexivity|]. unfold consistentModule. simpl.
  rewrite !insert_insert_eq.
  rewrite <- (insert_insert_eq (collections this) path _
                {| list_ := list_ c; syncEnabled := false; syncing := false |}).
  rewrite <- (insert_insert_eq (collectionsInfo this) path _
                {| unsubscribeFromSync := None; firstSync := firstSync i;
                   collectionSubscribers := [];
                   unsubscribeFromCollectionOptions := None |}).
  eapply consistent_opened with (next := nextRef this) (o := mapCollectionOptions path);
    [| |done|done|done|done|lia|..]; simpl.
  - eapply consistent_closed with (tr' := trace this ++ [Unlisten h; Unwatch w]);
      [exact Hinv|exact Hc|exact Hi|exact Hh|exact Hw|done..| |].
    + by rewrite openListeners_app.
    + by rewrite openWatches_app.
  - intros i0. rewrite lookup_insert_eq. by intros [= <-].
  - by rewrite openListeners_app.
  - by rewrite openWatches_app.
Qed.

(** A snapshot that is applied keeps the module consistent. *)
Lemma updateCollectionFromSnapshot_consistent path refPath snapshot this this' :
  consistentModule this ->
  updateCollectionFromSnapshot mapCollectionOptions path refPath snapshot this = Ok this' ->
  consistentModule this'.
Proof.
  intros Hinv. unfold updateCollectionFromSnapshot.
  destruct (collections this !! path) as [c|] eqn:Hc; [|by intros [= <-]].
  destruct (collectionsInfo this !! path) as [i|] eqn:Hi; [|discriminate].
  destruct (Firestore.updateCollectionFromSnapshot _ _ _ _) as [updated|e]; [|discriminate].
  simpl. intros [= <-]. unfold consistentModule. simpl.
  eapply consistent_collection with (c := c); [|exact Hc|done].
  eapply consistent_info; [exact Hinv|exact Hi|done|done|].
  simpl. intros c0 Hc0. rewrite Hc in Hc0. injection Hc0 as <-.
  destruct (syncEnabled c) eqn:He.
  - by destruct (enabled_handles _ _ _ _ Hinv Hc Hi He) as (h & w & _ & _ & Hsubs).
  - by destruct (disabled_handles _ _ _ _ Hinv Hc Hi He) as (_ & _ & Hnone).
Qed.

(** Every event other than a snapshot is handled without an exception;
    an event that is handled keeps the module consistent. *)
Lemma deliver_succeeds e st :
  consistentModule st.1 -> isSnapshot e = false ->
  exists st', deliver e st = Ok st'.
Proof.
  intros Hinv Hsnap. destruct st as [this fs]. simpl in Hinv.
  destruct e as [[path callback|k|dt]|h refPath snapshot|h error|w]; simpl; try discriminate.
  - destruct (syncCollection_consistent path callback this Hinv) as (r & -> & _). simpl. eauto.
  - destruct (fs !! k); eauto.
  - unfold advance.
    edestruct fire_consistent as (this' & -> & _); [|simpl; eauto]. exact Hinv.
  - destruct (pathOf h _) as [path|]; [|eauto].
    destruct (onSyncError_consistent path error this Hinv) as (this' & -> & _). simpl. eauto.
  - destruct (pathOf w _) as [path|]; [|eauto].
    destruct (onOptionsChanged_consistent path this Hinv) as (this' & -> & _). simpl. eauto.
Qed.

Lemma deliver_consistent e st st' :
  consistentModule st.1 -> deliver e st = Ok st' -> consistentModule st'.1.
Proof.
  intros Hinv. destruct st as [this fs]. simpl in Hinv.
  destruct e as [[path callback|k|dt]|h refPath snapshot|h error|w]; simpl.
  - destruct (syncCollection_consistent path callback this Hinv) as (r & -> & Hr). simpl.
    by intros [= <-].
  - destruct (fs !! k); by intros [= <-].
  - unfold advance.
    edestruct fire_consistent as (this' & -> & Hinv'); [|simpl; by intros [= <-]]. exact Hinv.
  - destruct (pathOf h _) as [path|]; [|by intros [= <-]].
    destruct (updateCollectionFromSnapshot _ _ _ _ _) as [this'|] eqn:Hupd; [|discriminate].
    simpl. intros [= <-]. simpl. by eapply updateCollectionFromSnapshot_consistent.
  - destruct (pathOf h _) as [path|]; [|by intros [= <-]].
    destruct (onSyncError_consistent path error this Hinv) as (this' & -> & Hinv'). simpl.
    by intros [= <-].
  - destruct (pathOf w _) as [path|]; [|by intros [= <-]].
    destruct (onOptionsChanged_consistent path this Hinv) as (this' & -> & Hinv'). simpl.
    by intros [= <-].
Qed.

Lemma deliverAll_consistent events : forall st st',
  consistentModule st.1 -> deliverAll events st = Ok st' -> consistentModule st'.1.
Proof.
  induction events as [|e events IH]; intros st st' Hinv; simpl.
  - by intros [= <-].
  - destruct (deliver e st) as [st1|] eqn:Hd; [|discriminate]. simpl.
    apply IH. by eapply deliver_consistent.
Qed.

Lemma reachable_consistent events this fs :
  deliverAll events (newModule, []) = Ok (this, fs) -> consistentModule this.
Proof.
  intros Hrun.
  apply (deliverAll_consistent events (newModule, []) (this, fs) consistent_newModule Hrun).
Qed.

Lemma one_per_path (opened : list (nat * string)) :
  NoDup opened.*1 ->
  (forall h1 h2 p, (h1, p) ∈ opened -> (h2, p) ∈ opened -> h1 = h2) ->
  NoDup opened.*2.
Proof.
  intros Hnd Hone. apply NoDup_alt. intros a b p.
  rewrite !list_lookup_fmap.
  destruct (opened !! a) as [[h1 p1]|] eqn:Ha; [|discriminate].
  destruct (opened !! b) as [[h2 p2]|] eqn:Hb; [|discriminate].
  simpl. intros [= ->] [= ->].
  assert (h1 = h2) as ->.
  { eapply Hone; eapply list_elem_of_lookup_2; eassumption. }
  eapply NoDup_lookup; [exact Hnd| |]; rewrite list_lookup_fmap; [by rewrite Ha|by rewrite Hb].
Qed.

Section Inert.
(** Callbacks that make no calls and do not throw. *)
Variable react : nat -> string -> reaction.
Hypothesis react_inert : forall callback error, react callback error = inert.

Local Abbreviation notifyLive := (notifyLive mapCollectionOptions unsubscribeWaitTime react).
Local Abbreviation onSyncErrorLive :=
  (onSyncErrorLive mapCollectionOptions unsubscribeWaitTime react).
Local Abbreviation deliverWith := (deliverWith mapCollectionOptions unsubscribeWaitTime react).
Local Abbreviation deliverAllWith :=
  (deliverAllWith mapCollectionOptions unsubscribeWaitTime react).

(** The loop over the live array is then the loop over the subscribers
    there were when it began. *)
Lemma notifyLive_inert fuel path error : forall index this fs r,
  notifyLive fuel path index error (this, fs) = Some r ->
  r = Ok ((notifySubscribers (drop index (subscribersOf path this)) error this, fs), Returned).
Proof.
  induction fuel as [|fuel IH]; intros index this fs r; [discriminate|].
  cbn [Lifecycle.notifyLive fst snd].
  destruct (subscribersOf path this !! index) as [subscriber|] eqn:Hs.
  - rewrite (drop_S _ _ _ Hs). unfold notifySubscribers. cbn [fold_left].
    destruct (onError subscriber) as [callback|].
    + rewrite react_inert. cbn [calls throws inert callAll].
      intros Hr. apply IH in Hr. exact Hr.
    + intros Hr. apply IH in Hr. exact Hr.
  - intros [= <-]. rewrite drop_ge; [done|]. by apply lookup_ge_None_1.
Qed.

(** ... and it returns, once the fuel covers the subscribers left. *)
Lemma notifyLive_inert_returns fuel path error : forall index this fs,
  (length (subscribersOf path this) - index < fuel)%nat ->
  notifyLive fuel path index error (this, fs)
  = Some (Ok ((notifySubscribers (drop index (subscribersOf path this)) error this, fs),
              Returned)).
Proof.
  induction fuel as [|fuel IH]; intros index this fs Hfuel; [lia|].
  cbn [Lifecycle.notifyLive fst snd].
  destruct (subscribersOf path this !! index) as [subscriber|] eqn:Hs.
  - pose proof (lookup_lt_Some _ _ _ Hs) as Hlt.
    rewrite (drop_S _ _ _ Hs). unfold notifySubscribers. cbn [fold_left].
    destruct (onError subscriber) as [callback|].
    + rewrite react_inert. cbn [calls throws inert callAll].
      rewrite IH; [done|]. unfold subscribersOf, emit in *. simpl. lia.
    + rewrite IH; [done|lia].
  - rewrite drop_ge; [done|]. by apply lookup_ge_None_1.
Qed.

Lemma stopCollectionSync_subscribers path this this1 :
  stopCollectionSync path false this = Ok this1 ->
  subscribersOf path this1 = subscribersOf path this.
Proof.
  unfold stopCollectionSync, subscribersOf.
  destruct (collections this !! path) as [c|] eqn:Hc; [|by intros [= <-]].
  destruct (syncEnabled c); [|by intros [= <-]].
  destruct (collectionsInfo this !! path) as [i|] eqn:Hi; [|discriminate].
  intros [= <-]. unfold setSyncStatus.
  destruct (unsubscribeFromSync i), (unsubscribeFromCollectionOptions i);
    simpl; rewrite Hc; simpl; by rewrite lookup_insert_eq.
Qed.

Lemma onSyncErrorLive_inert fuel path error this fs r :
  onSyncErrorLive fuel path error (this, fs) = Some r ->
  r = (this' ← onSyncError path error this; Ok ((this', fs), Returned)).
Proof.
  unfold Lifecycle.onSyncErrorLive, onSyncError. cbn [fst snd].
  destruct (stopCollectionSync path false this) as [this1|e] eqn:Hstop;
    cbn [mbind outcome_bind]; [|by intros [= <-]].
  destruct (collectionsInfo this !! path) as [i|] eqn:Hi; [|by intros [= <-]].
  destruct (notifyLive fuel path 0 error (this1, fs)) as [r'|] eqn:Hloop; [|discriminate].
  apply notifyLive_inert in Hloop. subst r'.
  rewrite drop_0, (stopCollectionSync_subscribers _ _ _ Hstop).
  unfold subscribersOf at 1. rewrite Hi. by intros [= <-].
Qed.

Lemma deliverWith_inert fuel e st r :
  deliverWith fuel e st = Some r -> r = deliver e st.
Proof.
  destruct st as [this fs].
  destruct e as [o|h refPath snapshot|h error|w]; try (by intros [= <-]).
  cbn [Lifecycle.deliverWith Lifecycle.deliver fst snd].
  destruct (pathOf h (openListeners (trace this))) as [path|]; [|by intros [= <-]].
  destruct (onSyncErrorLive fuel path error (this, fs)) as [r'|] eqn:Hh; [|discriminate].
  apply onSyncErrorLive_inert in Hh. subst r'.
  destruct (onSyncError path error this) as [this'|e]; cbn [mbind outcome_bind];
    by intros [= <-].
Qed.

Lemma deliverAllWith_inert fuel events : forall st r,
  deliverAllWith fuel events st = Some r -> r = deliverAll events st.
Proof.
  induction events as [|e events IH]; intros st r; [by intros [= <-]|].
  cbn [Lifecycle.deliverAllWith Lifecycle.deliverAll].
  destruct (deliverWith fuel e st) as [r1|] eqn:He; [|discriminate].
  apply deliverWith_inert in He. subst r1.
  destruct (deliver e st) as [st1|e1]; cbn [mbind outcome_bind].
  - apply IH.
  - by intros [= <-].
Qed.

Lemma reachable_inert fuel events this fs :
  deliverAllWith fuel events (newModule, []) = Some (Ok (this, fs)) ->
  consistentModule this.
Proof.
  intros Hrun. apply deliverAllWith_inert in Hrun.
  by apply (reachable_consistent events this fs).
Qed.
End Inert.

(** X22. With error callbacks that neither call back into the module nor
    throw: whatever happened to a new module (subscribe calls, calls of the
    returned unsubscribe functions, time passing, snapshots, stream errors
    with the callbacks they run, and options changes, in any order), the
    remote listeners it has opened and not closed are exactly those of the
    paths whose sync is on, each held in the record of its path, and so are
    the options watches; no path has two open listeners or two watches. *)
Theorem open_listeners_are_the_synced_paths
    (react : nat -> string -> reaction) (fuel : nat)
    (events : list event) (this : Module) (fs : list (string * nat)) :
  (forall callback error, react callback error = inert) ->
  deliverAllWith mapCollectionOptions unsubscribeWaitTime react fuel events (newModule, [])
    = Some (Ok (this, fs)) ->
  (forall h path, (h, path) ∈ openListeners (trace this) <-> listening this path h) /\
  (forall w path, (w, path) ∈ openWatches (trace this) <-> watching this path w) /\
  NoDup (openListeners (trace this)).*2 /\
  NoDup (openWatches (trace this)).*2.
Proof.
  intros Hinert Hrun. pose proof (reachable_inert react Hinert _ _ _ _ Hrun) as Hinv.
  pose proof Hinv as [H1 H2 H3 H4 H5 H6 H7 H8].
  assert (forall p i, collectionsInfo this !! p = Some i ->
            is_Some (unsubscribeFromSync i) \/ is_Some (unsubscribeFromCollectionOptions i) ->
            exists c, collections this !! p = Some c /\ syncEnabled c = true) as Hon.
  { intros p i Hi Hsome. destruct (paired_collection _ _ _ Hinv Hi) as [c Hc].
    exists c. split; [done|]. destruct (syncEnabled c) eqn:He; [done|].
    destruct (disabled_handles _ _ _ _ Hinv Hc Hi He) as (Hh & Hw & _).
    rewrite Hh, Hw in Hsome. destruct Hsome as [[? ?]|[? ?]]; discriminate. }
  split; [|split; [|split]].
  - intros h path. rewrite H3. unfold listening. split.
    + intros (i & Hi & Hh). destruct (Hon path i Hi) as (c & Hc & He); [left; by eexists|].
      by exists c, i.
    + intros (c & i & _ & Hi & _ & Hh). eauto.
  - intros w path. rewrite H4. unfold watching. split.
    + intros (i & Hi & Hw). destruct (Hon path i Hi) as (c & Hc & He); [right; by eexists|].
      by exists c, i.
    + intros (c & i & _ & Hi & _ & Hw). eauto.
  - apply one_per_path; [done|]. intros h1 h2 p.
    rewrite !H3. intros (i1 & Hi1 & Hh1) (i2 & Hi2 & Hh2). congruence.
  - apply one_per_path; [done|]. intros w1 w2 p.
    rewrite !H4. intros (i1 & Hi1 & Hw1) (i2 & Hi2 & Hw2). congruence.
Qed.

(** X23. With error callbacks that neither call back into the module nor
    throw: whatever happened to a new module, sync of a path is on exactly
    while the path has a subscriber: every path with a status record has an
    info record, and [syncEnabled] is true if and only if the list of
    subscribers is not empty. *)
Theorem sync_is_on_while_subscribed
    (react : nat -> string -> reaction) (fuel : nat)
    (events : list event) (this : Module) (fs : list (string * nat))
    (path : string) (collection : CollectionSyncedList) :
  (forall callback error, react callback error = inert) ->
  deliverAllWith mapCollectionOptions unsubscribeWaitTime react fuel events (newModule, [])
    = Some (Ok (this, fs)) ->
  collections this !! path = Some collection ->
  exists collectionInfo,
    collectionsInfo this !! path = Some collectionInfo /\
    (syncEnabled collection = true <-> collectionSubscribers collectionInfo <> []).
Proof.
  intros Hinert Hrun Hc. pose proof (reachable_inert react Hinert _ _ _ _ Hrun) as Hinv.
  destruct (paired_info _ _ _ Hinv Hc) as [i Hi]. exists i. split; [done|].
  destruct (syncEnabled collection) eqn:He.
  - destruct (enabled_handles _ _ _ _ Hinv Hc Hi He) as (h & w & _ & _ & Hsubs). done.
  - destruct (disabled_handles _ _ _ _ Hinv Hc Hi He) as (_ & _ & Hnone).
    rewrite Hnone. split; [discriminate|done].
Qed.


(** X25. When the options of a path with sync on change, the listener and
    the watch of the path are closed and new ones opened on the next two
    handles, in that order; the subscribers and the cached list stay, and
    [firstSync] is raised again, so that the next snapshot replaces the
    list.  The records of other paths, the timers and the clock are
    untouched. *)
Theorem options_change_restarts_listener
    (path : string) (this : Module) (c : CollectionSyncedList) (i : CollectionsInfo)
    (h w : nat) :
  collections this !! path = Some c ->
  syncEnabled c = true ->
  collectionsInfo this !! path = Some i ->
  unsubscribeFromSync i = Some h ->
  unsubscribeFromCollectionOptions i = Some w ->
  exists this',
    onOptionsChanged path this = Ok this' /\
    trace this' = trace this ++ [Unlisten h; Unwatch w;
                                 Listen (nextRef this) path (mapCollectionOptions path);
                                 Watch (S (nextRef this)) path] /\
    collections this' !! path
      = Some {| list_ := list_ c; syncEnabled := true; syncing := true |} /\
    collectionsInfo this' !! path
      = Some {| unsubscribeFromSync := Some (nextRef this); firstSync := true;
                collectionSubscribers := collectionSubscribers i;
                unsubscribeFromCollectionOptions := Some (S (nextRef this)) |} /\
    (forall p, p <> path ->
       collections this' !! p = collections this !! p /\
       collectionsInfo this' !! p = collectionsInfo this !! p) /\
    timers this' = timers this /\ now this' = now this.
Proof.
  intros Hc He Hi Hh Hw. unfold Collections.onOptionsChanged. rewrite Hc, He.
  rewrite (CollectionsFacts.stopCollectionSync_enabled _ _ _ _ Hc Hi He), Hh, Hw. simpl.
  erewrite startCollectionSync_record; simpl; rewrite ?lookup_insert_eq; try reflexivity.
  eexists. split; [reflexivity|]. simpl. rewrite !lookup_insert_eq, <- app_assoc.
  split; [done|]. split; [done|]. split; [done|]. split; [|done].
  intros p Hp. by rewrite !lookup_insert_ne.
Qed.

End Operations.

Lemma open_listeners_are_the_synced_paths_witness :
  exists this fs,
    deliverAllWith Firestore.OptPath 50 quiet 10 busyDay (newModule, []) = Some (Ok (this, fs)) /\
    openListeners (trace this) = [(3%nat, "orders")] /\
    listening this "orders" 3 /\
    NoDup (openListeners (trace this)).*2.
Proof.
  destruct (deliverAllWith Firestore.OptPath 50 quiet 10 busyDay (newModule, []))
    as [[[this fs]|e]|] eqn:Hrun; [|by vm_compute in Hrun..].
  exists this, fs. split; [reflexivity|].
  destruct (open_listeners_are_the_synced_paths Firestore.OptPath 50 quiet 10 busyDay this fs
              (fun _ _ => eq_refl) Hrun)
    as (Hl & _ & Hone & _).
  assert (openListeners (trace this) = [(3%nat, "orders")]) as Hopen.
  { assert (match deliverAllWith Firestore.OptPath 50 quiet 10 busyDay (newModule, []) with
            | Some (Ok st) => openListeners (trace st.1)
            | _ => []
            end = [(3%nat, "orders")]) as Hopen by (vm_compute; reflexivity).
    rewrite Hrun in Hopen. exact Hopen. }
  split; [exact Hopen|]. split; [|exact Hone].
  apply Hl. rewrite Hopen. apply list_elem_of_here.
Defined.

Lemma sync_is_on_while_subscribed_witness :
  exists this fs collection collectionInfo,
    deliverAllWith Firestore.OptPath 50 quiet 10 quietEvening (newModule, [])
      = Some (Ok (this, fs)) /\
    collections this !! "orders" = Some collection /\
    collectionsInfo this !! "orders" = Some collectionInfo /\
    (syncEnabled collection = true <-> collectionSubscribers collectionInfo <> []).
Proof.
  destruct (deliverAllWith Firestore.OptPath 50 quiet 10 quietEvening (newModule, []))
    as [[[this fs]|e]|] eqn:Hrun; [|by vm_compute in Hrun..].
  destruct (collections this !! "orders") as [collection|] eqn:Hc.
  - destruct (sync_is_on_while_subscribed Firestore.OptPath 50 quiet 10 quietEvening this fs
                "orders" collection (fun _ _ => eq_refl) Hrun Hc)
      as (collectionInfo & Hi & Hiff).
    exists this, fs, collection, collectionInfo.
    split; [reflexivity|]. split; [exact Hc|]. split; [exact Hi|exact Hiff].
  - assert (match deliverAllWith Firestore.OptPath 50 quiet 10 quietEvening (newModule, []) with
            | Some (Ok st) => syncEnabled <$> collections st.1 !! "orders"
            | _ => None
            end = Some false) as Hrecord by (vm_compute; reflexivity).
    rewrite Hrun in Hrecord. simpl in Hrecord. rewrite Hc in Hrecord. discriminate Hrecord.
Defined.

(** A callback that subscribes again while it is told of the error: the
    new subscriber is pushed onto the array the loop runs over and cleared
    with it, which leaves sync on for a path without subscribers; the next
    subscribe call then installs a second options watch beside the first,
    whose unsubscribe function is lost. *)
Example resubscribing_callback_leaves_sync_on :
  match deliverAllWith Firestore.OptPath 50 resubscribes 10 failure (newModule, []) with
  | Some (Ok st) =>
      (syncEnabled <$> collections st.1 !! "users",
       collectionSubscribers <$> collectionsInfo st.1 !! "users")
  | _ => (None, None)
  end = (Some true, Some []) /\
  match deliverAllWith Firestore.OptPath 50 resubscribes 10
          (failure ++ [Called (Subscribe "users" None)]) (newModule, []) with
  | Some (Ok st) => openWatches (trace st.1)
  | _ => []
  end = [(4%nat, "users"); (6%nat, "users")].
Proof. split; vm_compute; reflexivity. Qed.

(** A callback that throws: the subscribers are not cleared, which leaves
    subscribers on a path whose sync is off. *)
Example throwing_callback_leaves_subscribers :
  match deliverAllWith Firestore.OptPath 50 throwsBack 10 failure (newModule, []) with
  | Some (Ok st) =>
      (syncEnabled <$> collections st.1 !! "users",
       collectionSubscribers <$> collectionsInfo st.1 !! "users")
  | _ => (None, None)
  end = (Some false, Some [{| subscriberRef := 2; onError := Some 7%nat |}]).
Proof. vm_compute. reflexivity. Qed.


Lemma options_change_restarts_listener_witness :
  exists this',
    onOptionsChanged Firestore.OptPath "users" syncedModule = Ok this' /\
    trace this' = [Listen 0 "users" (Firestore.OptPath "users"); Watch 1 "users";
                   Unlisten 0; Unwatch 1;
                   Listen 4 "users" (Firestore.OptPath "users"); Watch 5 "users"] /\
    collectionsInfo this' !! "users"
      = Some {| unsubscribeFromSync := Some 4%nat; firstSync := true;
                collectionSubscribers :=
                  [{| subscriberRef := 2; onError := Some 7%nat |};
                   {| subscriberRef := 3; onError := None |}];
                unsubscribeFromCollectionOptions := Some 5%nat |}.
Proof.
  destruct (options_change_restarts_listener Firestore.OptPath "users" syncedModule
              {| list_ := [Firestore.user "u1" 30];
                 syncEnabled := true; syncing := false |}
              {| unsubscribeFromSync := Some 0%nat; firstSync := false;
                 collectionSubscribers :=
                   [{| subscriberRef := 2; onError := Some 7%nat |};
                    {| subscriberRef := 3; onError := None |}];
                 unsubscribeFromCollectionOptions := Some 1%nat |} 0%nat 1%nat)
    as (this' & Hrun & Htrace & _ & Hinfo & _); [reflexivity..|].
  exists this'. split; [exact Hrun|]. split; [exact Htrace|exact Hinfo].
Defined.

End LifecycleFacts.

(** ** Properties of the listeners of a subscription *)

Module SubscriptionsFacts.
Import Js Firestore Subscriptions.

(** Induction on an unsubscribe function, with the hypothesis for every
    value of the map of a subscription. *)
Fixpoint unsubscriber_ind' (P : unsubscriber -> Prop)
    (HListener : forall h kind, P (Listener h kind))
    (HSubscription : forall options refPath subscriptions,
       Forall (fun entry => P entry.2) subscriptions ->
       P (Subscription options refPath subscriptions))
    (u : unsubscriber) : P u :=
  match u with
  | Listener h kind => HListener h kind
  | Subscription options refPath subscriptions =>
      HSubscription options refPath subscriptions
        ((fix all (entries : list (string * unsubscriber))
            : Forall (fun entry => P entry.2) entries :=
            match entries with
            | [] => List.Forall_nil _
            | entry :: rest =>
                List.Forall_cons _ entry rest
                  (unsubscriber_ind' P HListener HSubscription entry.2) (all rest)
            end) subscriptions)
  end.

Section Opened.
Implicit Types (tr : list effect) (opened : list (nat * string)).

Lemma openListeners_after tr tr' :
  openListeners (tr ++ tr') = foldl listenerStep (openListeners tr) tr'.
Proof. unfold openListeners. apply foldl_app. Qed.

Lemma closed_all (hs : list nat) : forall opened,
  foldl listenerStep opened (Closed <$> hs)
  = List.filter (fun x => bool_decide (x.1 ∉ hs)) opened.
Proof.
  induction hs as [|h hs IH]; intros opened.
  - simpl. induction opened as [|x opened IHo]; [done|].
    cbn [List.filter]. by rewrite <- IHo.
  - cbn [fmap list_fmap foldl listenerStep]. rewrite IH. clear IH.
    induction opened as [|x opened IHo]; [done|].
    cbn [List.filter]. destruct (Nat.eqb_spec x.1 h) as [Heq|Hne]; cbn [negb].
    + rewrite (bool_decide_eq_false_2 (x.1 ∉ h :: hs)); [exact IHo|].
      intros Hn. apply Hn. rewrite Heq. apply list_elem_of_here.
    + cbn [List.filter]. rewrite IHo.
      destruct (decide (x.1 ∈ hs)) as [Hin|Hnin].
      * rewrite (bool_decide_eq_false_2 (x.1 ∉ hs)) by (intros Hn; by apply Hn).
        rewrite (bool_decide_eq_false_2 (x.1 ∉ h :: hs)); [done|].
        intros Hn. apply Hn. by apply list_elem_of_further.
      * rewrite (bool_decide_eq_true_2 (x.1 ∉ hs)) by done.
        rewrite (bool_decide_eq_true_2 (x.1 ∉ h :: hs)); [done|].
        intros [?|?]%elem_of_cons; done.
Qed.

Lemma listenersOf_cons key child subscriptions :
  listenersOf ((key, child) :: subscriptions) = listenersAt key child ++ listenersOf subscriptions.
Proof. reflexivity. Qed.

Lemma listenersOf_app subscriptions1 subscriptions2 :
  listenersOf (subscriptions1 ++ subscriptions2)
  = listenersOf subscriptions1 ++ listenersOf subscriptions2.
Proof. unfold listenersOf. apply flat_map_app. Qed.

Lemma listenersAt_subscription key options refPath subscriptions :
  listenersAt key (Subscription options refPath subscriptions) = listenersOf subscriptions.
Proof. reflexivity. Qed.

Lemma unsubscribe_closes u : forall key,
  unsubscribe u = Closed <$> (listenersAt key u).*1.
Proof.
  induction u as [h kind|options refPath subscriptions IH] using unsubscriber_ind';
    intros key; [done|].
  rewrite listenersAt_subscription. cbn [unsubscribe].
  induction IH as [|[k child] rest Hchild _ IHrest]; [done|].
  rewrite listenersOf_cons. cbn [flat_map snd]. cbn [snd] in Hchild.
  rewrite (Hchild k), IHrest, !fmap_app. done.
Qed.
End Opened.

Section Maps.
Context {A : Type}.
Implicit Types (m : list (string * A)).

Lemma mapGet_Some k m v :
  mapGet k m = Some v ->
  exists m1 m2, m = m1 ++ (k, v) :: m2 /\
    (forall v', mapSet k v' m = m1 ++ (k, v') :: m2) /\
    mapDelete k m = m1 ++ m2.
Proof.
  induction m as [|[k' v0] m IH]; [discriminate|]. simpl.
  destruct (String.eqb_spec k' k) as [->|Hne].
  - intros [= ->]. by exists [], m.
  - intros Hget. destruct (IH Hget) as (m1 & m2 & -> & Hset & Hdel).
    exists ((k', v0) :: m1), m2. split; [done|]. split.
    + intros v'. simpl. by rewrite Hset.
    + simpl. by rewrite Hdel.
Qed.

Lemma mapGet_None k m :
  mapGet k m = None ->
  (forall v', mapSet k v' m = m ++ [(k, v')]) /\ mapDelete k m = m.
Proof.
  induction m as [|[k' v0] m IH]; [done|]. simpl.
  destruct (String.eqb_spec k' k) as [->|Hne]; [discriminate|].
  intros Hget. destruct (IH Hget) as [Hset Hdel]. split.
  - intros v'. by rewrite Hset.
  - by rewrite Hdel.
Qed.
End Maps.

Section Accounting.
Implicit Types (held : list (nat * string)) (w : world).

Lemma filter_handles (f : nat * string -> bool) (l : list (nat * string)) :
  NoDup l.*1 -> NoDup (List.filter f l).*1.
Proof.
  induction l as [|[h p] l IH]; [done|].
  rewrite fmap_cons. cbn [List.filter fst].
  intros [Hfresh Hnd]%NoDup_cons. destruct (f (h, p)); [|by apply IH].
  rewrite fmap_cons. apply NoDup_cons. split; [|by apply IH].
  intros Hin. apply Hfresh. apply list_elem_of_fmap in Hin as ([h2 p2] & Heq & Hin).
  simpl in Heq. subst h2. apply list_elem_of_In, filter_In in Hin as [Hin _].
  apply list_elem_of_fmap. exists (h, p2). split; [done|]. by apply list_elem_of_In.
Qed.

Lemma elem_of_filter_closed (l : list (nat * string)) (hs : list nat) x :
  x ∈ List.filter (fun x => bool_decide (x.1 ∉ hs)) l <-> x ∈ l /\ x.1 ∉ hs.
Proof.
  rewrite list_elem_of_In, filter_In, bool_decide_eq_true, <- list_elem_of_In. reflexivity.
Qed.

Lemma accounted_permutation held held' w :
  held ≡ₚ held' -> accounted held w -> accounted held' w.
Proof.
  intros Hperm [H1 H2 H3 H4]. split.
  - by rewrite <- Hperm.
  - intros x Hx. apply H2. by rewrite Hperm.
  - intros x. rewrite H3. by rewrite Hperm.
  - done.
Qed.

(** The consumer was called, or nothing happened. *)
Lemma accounted_same held w w' :
  accounted held w -> (next w <= next w')%nat ->
  openListeners (trace w') = openListeners (trace w) ->
  accounted held w'.
Proof.
  intros [H1 H2 H3 H4] Hnext Hopen. split; rewrite ?Hopen; try done.
  intros x Hx. specialize (H2 x Hx). lia.
Qed.

(** The listeners [gone] were closed and are held no more. *)
Lemma accounted_removed before gone after w w' :
  accounted (before ++ gone ++ after) w ->
  next w' = next w ->
  openListeners (trace w')
    = List.filter (fun x => bool_decide (x.1 ∉ gone.*1)) (openListeners (trace w)) ->
  accounted (before ++ after) w'.
Proof.
  intros [H1 H2 H3 H4] Hnext Hopen.
  rewrite !fmap_app in H1. apply NoDup_app in H1 as (Hb & Hbga & Hga).
  apply NoDup_app in Hga as (Hg & Hgaa & Ha).
  split; rewrite ?Hopen, ?Hnext.
  - rewrite fmap_app. apply NoDup_app. split; [done|]. split; [|done].
    intros h Hh Hh'. apply (Hbga h Hh). apply elem_of_app. by right.
  - intros x Hx. apply H2. rewrite !elem_of_app in *. tauto.
  - intros x. rewrite elem_of_filter_closed, H3, !elem_of_app. split.
    + intros [[?|[Hx|?]] Hnot]; [tauto| |tauto].
      destruct Hnot. apply list_elem_of_fmap. by exists x.
    + intros [Hx|Hx].
      * split; [tauto|]. intros Hg'. apply (Hbga x.1); [apply list_elem_of_fmap; by exists x|].
        apply elem_of_app. by left.
      * split; [tauto|]. intros Hg'. apply (Hgaa x.1); [done|].
        apply list_elem_of_fmap. by exists x.
  - by apply filter_handles.
Qed.

(** A listener was opened, on the next handle, and is held. *)
Lemma accounted_added before after w w' path :
  accounted (before ++ after) w ->
  next w' = S (next w) ->
  openListeners (trace w') = openListeners (trace w) ++ [(next w, path)] ->
  accounted (before ++ (next w, path) :: after) w'.
Proof.
  intros Hacc Hnext Hopen.
  apply (accounted_permutation ((before ++ after) ++ [(next w, path)])).
  { transitivity ((next w, path) :: (before ++ after));
      [symmetry; apply Permutation_cons_append|apply Permutation_middle]. }
  destruct Hacc as [H1 H2 H3 H4]. split; rewrite ?Hopen, ?Hnext.
  - rewrite fmap_app. apply NoDup_app. split; [done|]. split; [|apply NoDup_singleton].
    intros h Hh ->%list_elem_of_singleton.
    apply list_elem_of_fmap in Hh as (x & Heq & Hx). specialize (H2 x Hx). simpl in Heq. lia.
  - intros x [Hx|Hx%list_elem_of_singleton]%elem_of_app; [|subst x; simpl; lia].
    specialize (H2 x Hx). lia.
  - intros x. rewrite elem_of_app, H3, !elem_of_app. done.
  - rewrite fmap_app. apply NoDup_app. split; [done|]. split; [|apply NoDup_singleton].
    intros h Hh ->%list_elem_of_singleton.
    apply list_elem_of_fmap in Hh as (x & Heq & Hx). apply H3 in Hx.
    specialize (H2 x Hx). simpl in Heq. lia.
Qed.

Lemma filter_closed_none (l : list (nat * string)) :
  List.filter (fun x => bool_decide (x.1 ∉ ([] : list nat))) l = l.
Proof.
  induction l as [|x l IH]; [done|]. cbn [List.filter].
  rewrite bool_decide_eq_true_2 by apply not_elem_of_nil. by rewrite IH.
Qed.
End Accounting.

Section Callbacks.

(** One change, for one subcollection, keeps the account of the listeners:
    those of the map and those held elsewhere. *)
Lemma onDocumentChange_accounted options refPath sub subscriptions w change elsewhere :
  accounted (listenersOf subscriptions ++ elsewhere) w ->
  accounted (listenersOf (onDocumentChange options refPath sub (subscriptions, w) change).1
               ++ elsewhere)
            (onDocumentChange options refPath sub (subscriptions, w) change).2.
Proof.
  intros Hacc. unfold onDocumentChange.
  set (path := collectionPath options +:+ "/" +:+ snap_id (doc change) +:+ "/"
                 +:+ collectionPath sub).
  destruct (mapGet path subscriptions) as [u|] eqn:Hget.
  - destruct (mapGet_Some _ _ _ Hget) as (m1 & m2 & -> & Hset & Hdel).
    rewrite listenersOf_app, listenersOf_cons, <- !app_assoc in Hacc.
    assert (accounted (listenersOf m1 ++ listenersOf m2 ++ elsewhere)
                      (emit (unsubscribe u) w)) as Hclosed.
    { eapply accounted_removed; [exact Hacc|done|]. simpl.
      rewrite openListeners_after, (unsubscribe_closes u path). apply closed_all. }
    destruct (type change); simpl.
    + rewrite Hset, listenersOf_app, listenersOf_cons, <- !app_assoc. simpl.
      apply (accounted_added (listenersOf m1) (listenersOf m2 ++ elsewhere)
               (emit (unsubscribe u) w) _ path Hclosed); [done|].
      simpl. by rewrite app_assoc, openListeners_after.
    + rewrite listenersOf_app, listenersOf_cons, <- !app_assoc. exact Hacc.
    + rewrite Hdel, listenersOf_app, <- !app_assoc. exact Hclosed.
  - destruct (mapGet_None _ _ Hget) as [Hset Hdel].
    destruct (type change); simpl.
    + rewrite Hset, listenersOf_app, <- !app_assoc. simpl.
      apply (accounted_added (listenersOf subscriptions) elsewhere w _ path Hacc); [done|].
      simpl. by rewrite openListeners_after.
    + exact Hacc.
    + rewrite Hdel. exact Hacc.
Qed.

Lemma onSnapshot_accounted options refPath subscriptions snapshot w elsewhere :
  accounted (listenersOf subscriptions ++ elsewhere) w ->
  accounted (listenersOf (onSnapshot options refPath subscriptions snapshot w).1 ++ elsewhere)
            (onSnapshot options refPath subscriptions snapshot w).2.
Proof.
  intros Hacc. unfold onSnapshot.
  assert (accounted (listenersOf subscriptions ++ elsewhere)
                    (emit [Updated refPath snapshot] w)) as Hstart.
  { eapply accounted_same; [exact Hacc|done|]. simpl. by rewrite openListeners_after. }
  generalize dependent (emit [Updated refPath snapshot] w). clear Hacc.
  revert subscriptions.
  induction (subcollections options) as [|sub subs IH]; intros subscriptions w0 Hacc; [done|].
  cbn [foldl].
  assert (forall changes subscriptions w0,
            accounted (listenersOf subscriptions ++ elsewhere) w0 ->
            accounted
              (listenersOf (foldl (onDocumentChange options refPath sub)
                              (subscriptions, w0) changes).1 ++ elsewhere)
              (foldl (onDocumentChange options refPath sub) (subscriptions, w0) changes).2)
    as Hinner.
  { clear. induction changes as [|change changes IHc]; intros subscriptions w0 Hacc; [done|].
    cbn [foldl].
    pose proof (onDocumentChange_accounted options refPath sub subscriptions w0 change
                  elsewhere Hacc) as Hstep.
    destruct (onDocumentChange options refPath sub (subscriptions, w0) change) as [m1 w1].
    by apply IHc. }
  specialize (Hinner snapshot subscriptions w0 Hacc).
  destruct (foldl (onDocumentChange options refPath sub) (subscriptions, w0) snapshot)
    as [m1 w1].
  by apply IH.
Qed.
End Callbacks.

Section Deliveries.

Lemma deliverTo_subscription h d options refPath subscriptions w :
  deliverTo h d (Subscription options refPath subscriptions) w =
  match ownListener h subscriptions, d with
  | Some OfQuery, QueryResult snapshot =>
      let '(subscriptions', w') := onSnapshot options refPath subscriptions snapshot w in
      (Subscription options refPath subscriptions', w')
  | Some OfDocument, DocumentResult snapshot =>
      (Subscription options refPath subscriptions, emit [UpdatedDocument [] snapshot] w)
  | Some _, _ => (Subscription options refPath subscriptions, w)
  | None, _ =>
      let '(subscriptions', w') := deliverEach h d subscriptions w in
      (Subscription options refPath subscriptions', w')
  end.
Proof. reflexivity. Qed.

Lemma deliverEach_cons h d key child rest w :
  deliverEach h d ((key, child) :: rest) w =
  let '(child', w1) := deliverTo h d child w in
  let '(rest', w2) := deliverEach h d rest w1 in
  ((key, child') :: rest', w2).
Proof. reflexivity. Qed.

(** A delivery keeps the account of the listeners: those the unsubscribe
    function reaches and those held elsewhere. *)
Lemma deliverTo_accounted h d u : forall key elsewhere w,
  accounted (listenersAt key u ++ elsewhere) w ->
  accounted (listenersAt key (deliverTo h d u w).1 ++ elsewhere) (deliverTo h d u w).2.
Proof.
  induction u as [h' kind|options refPath subscriptions IH] using unsubscriber_ind';
    intros key elsewhere w Hacc; [exact Hacc|].
  rewrite deliverTo_subscription. rewrite listenersAt_subscription in Hacc.
  destruct (ownListener h subscriptions) as [kind|].
  - destruct kind, d as [snapshot|snapshot]; try exact Hacc.
    + pose proof (onSnapshot_accounted options refPath subscriptions snapshot w elsewhere Hacc)
        as Hstep.
      by destruct (onSnapshot options refPath subscriptions snapshot w) as [m' w'].
    + simpl. eapply accounted_same; [exact Hacc|done|]. simpl. by rewrite openListeners_after.
  - assert (forall elsewhere w,
              accounted (listenersOf subscriptions ++ elsewhere) w ->
              accounted (listenersOf (deliverEach h d subscriptions w).1 ++ elsewhere)
                        (deliverEach h d subscriptions w).2) as Heach.
    { clear Hacc elsewhere w.
      induction IH as [|[k c] rest Hc _ IHrest]; intros elsewhere w Hacc; [exact Hacc|].
      rewrite deliverEach_cons. rewrite listenersOf_cons, <- app_assoc in Hacc.
      cbn [snd] in Hc. specialize (Hc k _ _ Hacc).
      destruct (deliverTo h d c w) as [c' w1]. cbn [fst snd] in Hc.
      apply (accounted_permutation _ (listenersOf rest ++ listenersAt k c' ++ elsewhere)) in Hc;
        [|apply Permutation_app_swap_app].
      specialize (IHrest _ _ Hc).
      destruct (deliverEach h d rest w1) as [rest' w2].
      cbn [fst snd] in *. rewrite listenersOf_cons, <- app_assoc.
      eapply accounted_permutation; [|exact IHrest]. apply Permutation_app_swap_app. }
    specialize (Heach elsewhere w Hacc).
    destruct (deliverEach h d subscriptions w) as [m' w']. by destruct d.
Qed.

Lemma deliver_accounted e st :
  accounted (listeners st.1) st.2 ->
  accounted (listeners (deliver e st).1) (deliver e st).2.
Proof.
  intros Hacc. unfold deliver. case_bool_decide; [|exact Hacc].
  pose proof (deliverTo_accounted e.1 e.2 st.1 "" [] st.2) as Hstep.
  rewrite !app_nil_r in Hstep. by apply Hstep.
Qed.

Lemma deliverAll_accounted events : forall st,
  accounted (listeners st.1) st.2 ->
  accounted (listeners (deliverAll events st).1) (deliverAll events st).2.
Proof.
  induction events as [|e events IH]; intros st Hacc; [exact Hacc|].
  unfold deliverAll. cbn [foldl]. apply IH. by apply deliver_accounted.
Qed.

Lemma accounted_nothing w : openListeners (trace w) = [] -> accounted [] w.
Proof.
  intros Hopen. split; rewrite ?Hopen; try done.
  - apply NoDup_nil_2.
  - by intros x ?%elem_of_nil.
  - apply NoDup_nil_2.
Qed.

Lemma subscribeToCollectionAt_accounted options refPath w :
  openListeners (trace w) = [] ->
  accounted (listeners (subscribeToCollectionAt options refPath w).1)
            (subscribeToCollectionAt options refPath w).2.
Proof.
  intros Hopen. unfold subscribeToCollectionAt, listeners. simpl.
  apply (accounted_added [] [] w _ (collectionPath options) (accounted_nothing w Hopen));
    [done|]. simpl. by rewrite openListeners_after.
Qed.

(** Calling the unsubscribe function closes every listener it reaches. *)
Lemma unsubscribe_accounted u w :
  accounted (listeners u) w -> openListeners (trace w ++ unsubscribe u) = [].
Proof.
  intros [_ _ Hopen _]. rewrite openListeners_after, (unsubscribe_closes u ""), closed_all.
  apply elem_of_nil_inv. intros x [Hx Hnot]%elem_of_filter_closed.
  apply Hnot. apply list_elem_of_fmap. exists x. split; [done|]. by apply Hopen.
Qed.
End Deliveries.

Section MapEntries.
Context {A : Type}.
Implicit Types (m : list (string * A)).

Lemma mapSet_elem k v m x : x ∈ mapSet k v m -> x = (k, v) \/ x ∈ m.
Proof.
  destruct (mapGet k m) as [u|] eqn:Hget.
  - destruct (mapGet_Some _ _ _ Hget) as (m1 & m2 & -> & -> & _).
    rewrite !elem_of_app, !elem_of_cons. tauto.
  - destruct (mapGet_None _ _ Hget) as [-> _].
    rewrite elem_of_app, list_elem_of_singleton. tauto.
Qed.

Lemma mapDelete_elem k m x : x ∈ mapDelete k m -> x ∈ m.
Proof.
  destruct (mapGet k m) as [u|] eqn:Hget.
  - destruct (mapGet_Some _ _ _ Hget) as (m1 & m2 & -> & _ & ->).
    rewrite !elem_of_app, !elem_of_cons. tauto.
  - by destruct (mapGet_None _ _ Hget) as [_ ->].
Qed.
End MapEntries.

Section Reached.

Lemma ownListener_Some h subscriptions kind :
  ownListener h subscriptions = Some kind ->
  exists key, (key, Listener h kind) ∈ subscriptions.
Proof.
  induction subscriptions as [|[k [h' kind'|n r m]] rest IH]; [discriminate| |]; simpl.
  - destruct (Nat.eqb_spec h' h) as [->|Hne].
    + intros [= ->]. exists k. apply list_elem_of_here.
    + intros Hown. destruct (IH Hown) as [key Hkey]. exists key. by apply list_elem_of_further.
  - intros Hown. destruct (IH Hown) as [key Hkey]. exists key. by apply list_elem_of_further.
Qed.

Lemma ownListener_None h subscriptions key kind :
  ownListener h subscriptions = None -> (key, Listener h kind) ∉ subscriptions.
Proof.
  induction subscriptions as [|[k [h' kind'|n r m]] rest IH]; simpl.
  - intros _. apply not_elem_of_nil.
  - destruct (Nat.eqb_spec h' h) as [->|Hne]; [discriminate|].
    intros Hown [[= _ Heq _]|Hin]%elem_of_cons; [done|]. by apply IH.
  - intros Hown [[=]|Hin]%elem_of_cons. by apply IH.
Qed.

Lemma listenersOf_entry key child subscriptions x :
  (key, child) ∈ subscriptions -> x ∈ listenersAt key child -> x ∈ listenersOf subscriptions.
Proof.
  intros Hentry Hx. unfold listenersOf. apply list_elem_of_In, in_flat_map.
  exists (key, child). split; by apply list_elem_of_In.
Qed.

Lemma unsubscribe_no_calls u : Forall (fun e => isCall e = false) (unsubscribe u).
Proof. rewrite (unsubscribe_closes u ""). by apply Forall_fmap, Forall_true. Qed.

(** The snapshot callback calls the consumer once, first, and apart from
    that only opens and closes listeners. *)
Lemma onDocumentChange_trace options refPath sub st change :
  exists es, trace (onDocumentChange options refPath sub st change).2 = trace st.2 ++ es /\
             Forall (fun e => isCall e = false) es.
Proof.
  destruct st as [subscriptions w]. unfold onDocumentChange.
  destruct (mapGet _ subscriptions) as [u|], (type change); simpl.
  - exists (unsubscribe u ++ [Opened (next w)
              (collectionPath options +:+ "/" +:+ snap_id (doc change) +:+ "/"
                 +:+ collectionPath sub)]).
    rewrite app_assoc. split; [done|].
    apply Forall_app. split; [apply unsubscribe_no_calls|]. by repeat constructor.
  - exists []. by rewrite app_nil_r.
  - exists (unsubscribe u). split; [done|]. apply unsubscribe_no_calls.
  - eexists. split; [reflexivity|]. by repeat constructor.
  - exists []. by rewrite app_nil_r.
  - exists []. by rewrite app_nil_r.
Qed.

Lemma onSnapshot_trace options refPath subscriptions snapshot w :
  exists es,
    trace (onSnapshot options refPath subscriptions snapshot w).2
      = trace w ++ Updated refPath snapshot :: es /\
    Forall (fun e => isCall e = false) es.
Proof.
  unfold onSnapshot.
  assert (forall subs st,
            exists es,
              trace (foldl (fun st sub =>
                              foldl (onDocumentChange options refPath sub) st snapshot)
                       st subs).2 = trace st.2 ++ es /\
              Forall (fun e => isCall e = false) es) as Houter.
  { assert (forall sub changes st,
              exists es,
                trace (foldl (onDocumentChange options refPath sub) st changes).2
                  = trace st.2 ++ es /\
                Forall (fun e => isCall e = false) es) as Hinner.
    { intros sub. induction changes as [|change changes IH]; intros st.
      - exists []. by rewrite app_nil_r.
      - cbn [foldl].
        destruct (onDocumentChange_trace options refPath sub st change) as (es1 & H1 & Hes1).
        destruct (IH (onDocumentChange options refPath sub st change)) as (es2 & H2 & Hes2).
        exists (es1 ++ es2). rewrite H2, H1, app_assoc. split; [done|]. by apply Forall_app. }
    induction subs as [|sub subs IH]; intros st.
    - exists []. by rewrite app_nil_r.
    - cbn [foldl]. destruct (Hinner sub snapshot st) as (es1 & H1 & Hes1).
      destruct (IH (foldl (onDocumentChange options refPath sub) st snapshot))
        as (es2 & H2 & Hes2).
      exists (es1 ++ es2). rewrite H2, H1, app_assoc. split; [done|]. by apply Forall_app. }
  destruct (Houter (subcollections options)
              (subscriptions, emit [Updated refPath snapshot] w)) as (es & Hes & Hcalls).
  exists es. rewrite Hes. simpl. by rewrite <- app_assoc.
Qed.

Variable Q : NormalizedFirestoreObjectOptions -> list string -> string -> listenerKind -> Prop.
Hypothesis Qnests : nests Q.

Lemma onDocumentChange_every options refPath sub subscriptions w change key :
  Q options refPath key OfQuery ->
  everyListener Q (Subscription options refPath subscriptions) ->
  everyListener Q
    (Subscription options refPath
       (onDocumentChange options refPath sub (subscriptions, w) change).1).
Proof.
  intros HQ Hevery. inversion Hevery as [|? ? ? Hdirect Hall]; subst.
  unfold onDocumentChange. destruct (type change); simpl.
  - constructor.
    + intros k h kind [[= ]|Hin]%mapSet_elem. by apply Hdirect with h.
    + apply Forall_forall. intros x [->|Hin]%mapSet_elem.
      * simpl. constructor.
        -- intros k h kind [= -> _ ->]%list_elem_of_singleton.
           apply (Qnests options refPath key sub (snap_id (doc change)) HQ).
        -- repeat constructor.
      * by apply (proj1 (Forall_forall _ _) Hall).
  - exact Hevery.
  - constructor.
    + intros k h kind Hin%mapDelete_elem. by apply Hdirect with h.
    + apply Forall_forall. intros x Hin%mapDelete_elem.
      by apply (proj1 (Forall_forall _ _) Hall).
Qed.

Lemma onSnapshot_every options refPath subscriptions snapshot w key :
  Q options refPath key OfQuery ->
  everyListener Q (Subscription options refPath subscriptions) ->
  everyListener Q
    (Subscription options refPath (onSnapshot options refPath subscriptions snapshot w).1).
Proof.
  intros HQ. unfold onSnapshot. generalize (emit [Updated refPath snapshot] w).
  revert subscriptions.
  induction (subcollections options) as [|sub subs IH]; intros subscriptions w0 Hevery;
    [exact Hevery|].
  cbn [foldl].
  assert (forall changes subscriptions w0,
            everyListener Q (Subscription options refPath subscriptions) ->
            everyListener Q
              (Subscription options refPath
                 (foldl (onDocumentChange options refPath sub) (subscriptions, w0) changes).1))
    as Hinner.
  { clear -HQ Qnests. induction changes as [|change changes IHc]; intros subscriptions w0 Hevery;
      [exact Hevery|].
    cbn [foldl].
    pose proof (onDocumentChange_every options refPath sub subscriptions w0 change key
                  HQ Hevery) as Hstep.
    destruct (onDocumentChange options refPath sub (subscriptions, w0) change) as [m1 w1].
    by apply IHc. }
  specialize (Hinner snapshot subscriptions w0 Hevery).
  destruct (foldl (onDocumentChange options refPath sub) (subscriptions, w0) snapshot)
    as [m1 w1].
  by apply IH.
Qed.

Lemma deliverTo_every h d u : forall w,
  everyListener Q u -> everyListener Q (deliverTo h d u w).1.
Proof.
  induction u as [h' kind|options refPath subscriptions IH] using unsubscriber_ind';
    intros w Hevery; [exact Hevery|].
  rewrite deliverTo_subscription.
  destruct (ownListener h subscriptions) as [kind|] eqn:Hown.
  - destruct (ownListener_Some _ _ _ Hown) as [key Hkey].
    destruct kind, d as [snapshot|snapshot]; try exact Hevery.
    pose proof (onSnapshot_every options refPath subscriptions snapshot w key) as Hstep.
    destruct (onSnapshot options refPath subscriptions snapshot w) as [m' w'].
    apply Hstep; [|exact Hevery].
    inversion Hevery as [|? ? ? Hdirect _]; subst. by apply Hdirect with h.
  - assert (forall w, Forall (fun entry => everyListener Q entry.2) subscriptions ->
              Forall (fun entry => everyListener Q entry.2) (deliverEach h d subscriptions w).1
              /\ forall key h' kind,
                   (key, Listener h' kind) ∈ (deliverEach h d subscriptions w).1 ->
                   (key, Listener h' kind) ∈ subscriptions) as Heach.
    { clear Hevery Hown w.
      induction IH as [|[k c] rest Hc _ IHrest]; intros w Hall.
      - split; [done|]. by intros key h' kind ?%elem_of_nil.
      - rewrite deliverEach_cons. apply Forall_cons in Hall as [Hchild Hall].
        cbn [snd] in Hc, Hchild. specialize (Hc w Hchild).
        assert (forall h' kind, (deliverTo h d c w).1 = Listener h' kind ->
                  c = Listener h' kind) as Hsame.
        { intros h' kind. destruct c as [h0 kind0|n r m]; [done|].
          rewrite deliverTo_subscription.
          destruct (ownListener h m) as [[|]|], d;
            try destruct (onSnapshot _ _ _ _ _); try destruct (deliverEach _ _ _ _); done. }
        destruct (deliverTo h d c w) as [c' w1]. cbn [fst] in Hc, Hsame.
        destruct (IHrest w1 Hall) as [Hrest Hdirect].
        destruct (deliverEach h d rest w1) as [rest' w2]. cbn [fst] in *.
        split; [by constructor|].
        intros key h' kind [[= -> Hc']|Hin]%elem_of_cons.
        + rewrite (Hsame h' kind (eq_sym Hc')). apply list_elem_of_here.
        + apply list_elem_of_further. by apply Hdirect. }
    inversion Hevery as [|? ? ? Hdirect Hall]; subst.
    destruct (Heach w Hall) as [Hall' Hdirect'].
    destruct (deliverEach h d subscriptions w) as [m' w'].
    destruct d; constructor; cbn [fst] in *; try done;
      intros key h' kind Hin; apply (Hdirect key h' kind); by apply Hdirect'.
Qed.
End Reached.

Section Calls.

Lemma deliverTo_absent h d u : forall key w,
  h ∉ (listenersAt key u).*1 -> deliverTo h d u w = (u, w).
Proof.
  induction u as [h' kind|options refPath subscriptions IH] using unsubscriber_ind';
    intros key w Habsent; [done|].
  rewrite deliverTo_subscription. rewrite listenersAt_subscription in Habsent.
  destruct (ownListener h subscriptions) as [kind|] eqn:Hown.
  { destruct (ownListener_Some _ _ _ Hown) as [k Hk]. destruct Habsent.
    apply list_elem_of_fmap. exists (h, k). split; [done|].
    eapply listenersOf_entry; [exact Hk|]. apply list_elem_of_here. }
  assert (deliverEach h d subscriptions w = (subscriptions, w)) as ->; [|by destruct d].
  clear Hown. revert w.
  induction IH as [|[k c] rest Hc _ IHrest]; intros w; [done|].
  rewrite listenersOf_cons, fmap_app, not_elem_of_app in Habsent.
  destruct Habsent as [Hhere Hrest].
  rewrite deliverEach_cons. cbn [snd] in Hc. rewrite (Hc k w Hhere).
  by rewrite (IHrest Hrest w).
Qed.

Lemma deliverEach_absent h d subscriptions w :
  h ∉ (listenersOf subscriptions).*1 -> deliverEach h d subscriptions w = (subscriptions, w).
Proof.
  revert w. induction subscriptions as [|[k c] rest IH]; intros w Habsent; [done|].
  rewrite listenersOf_cons, fmap_app, not_elem_of_app in Habsent.
  destruct Habsent as [Hhere Hrest].
  rewrite deliverEach_cons, (deliverTo_absent h d c k w Hhere). by rewrite (IH w Hrest).
Qed.

Variable Q : NormalizedFirestoreObjectOptions -> list string -> string -> listenerKind -> Prop.

(** A query snapshot delivered to a listener a subscription reaches: the
    consumer is called once if it is a query listener, with the reference
    path of the call that opened it, and not at all if it is the listener of
    a document. *)
Lemma deliverTo_calls h snapshot u : forall key w,
  (forall h' kind, u <> Listener h' kind) ->
  NoDup (listenersAt key u).*1 ->
  everyListener Q u ->
  h ∈ (listenersAt key u).*1 ->
  exists options refPath k kind,
    Q options refPath k kind /\ (h, k) ∈ listenersAt key u /\
    match kind with
    | OfQuery =>
        exists es,
          trace (deliverTo h (QueryResult snapshot) u w).2
            = trace w ++ Updated refPath snapshot :: es /\
          Forall (fun e => isCall e = false) es
    | OfDocument => trace (deliverTo h (QueryResult snapshot) u w).2 = trace w
    end.
Proof.
  induction u as [h' kind|options refPath subscriptions IH] using unsubscriber_ind';
    intros key w Hsub Hnd Hevery Hin; [by destruct (Hsub h' kind)|].
  clear Hsub. rewrite deliverTo_subscription. rewrite listenersAt_subscription in *.
  inversion Hevery as [|? ? ? Hdirect Hall]; subst.
  destruct (ownListener h subscriptions) as [kind|] eqn:Hown.
  - destruct (ownListener_Some _ _ _ Hown) as [k Hk].
    exists options, refPath, k, kind. split; [by apply Hdirect with h|].
    split; [eapply listenersOf_entry; [exact Hk|apply list_elem_of_here]|].
    destruct kind; [|done].
    destruct (onSnapshot_trace options refPath subscriptions snapshot w) as (es & Hes & Hcalls).
    destruct (onSnapshot options refPath subscriptions snapshot w) as [m' w'].
    by exists es.
  - assert (exists options refPath k kind,
              Q options refPath k kind /\ (h, k) ∈ listenersOf subscriptions /\
              match kind with
              | OfQuery =>
                  exists es,
                    trace (deliverEach h (QueryResult snapshot) subscriptions w).2
                      = trace w ++ Updated refPath snapshot :: es /\
                    Forall (fun e => isCall e = false) es
              | OfDocument =>
                  trace (deliverEach h (QueryResult snapshot) subscriptions w).2 = trace w
              end) as Heach.
    { assert (forall k kind, (k, Listener h kind) ∉ subscriptions) as Hnone
        by (intros k kind; by apply ownListener_None).
      clear Hown Hevery Hdirect. revert w.
      induction IH as [|[k0 c] rest Hc _ IHrest]; intros w; [by apply elem_of_nil in Hin|].
      rewrite listenersOf_cons, fmap_app in Hnd, Hin.
      apply NoDup_app in Hnd as (Hndc & Hdisjoint & Hndrest).
      apply Forall_cons in Hall as [Hchild Hall]. cbn [snd] in Hc, Hchild.
      rewrite deliverEach_cons.
      destruct (decide (h ∈ (listenersAt k0 c).*1)) as [Hhere|Hhere].
      + assert (forall h' kind, c <> Listener h' kind) as Hsub.
        { intros h' kind ->. simpl in Hhere. apply list_elem_of_singleton in Hhere as <-.
          apply (Hnone k0 kind). apply list_elem_of_here. }
        destruct (Hc k0 w Hsub Hndc Hchild Hhere) as (o & r & k & kind & HQ & Hk & Htrace).
        exists o, r, k, kind. split; [done|].
        split; [rewrite listenersOf_cons, elem_of_app; by left|].
        destruct (deliverTo h (QueryResult snapshot) c w) as [c' w1].
        rewrite (deliverEach_absent h _ rest w1 (Hdisjoint h Hhere)). exact Htrace.
      + rewrite (deliverTo_absent h _ c k0 w Hhere).
        assert (h ∈ (listenersOf rest).*1) as Hrest
          by (apply elem_of_app in Hin as [?|?]; done).
        destruct (IHrest Hndrest Hrest Hall) with (w := w)
          as (o & r & k & kind & HQ & Hk & Htrace).
        { intros k kind Hk. apply (Hnone k kind). by apply list_elem_of_further. }
        exists o, r, k, kind. split; [done|].
        split; [rewrite listenersOf_cons, elem_of_app; by right|].
        by destruct (deliverEach h (QueryResult snapshot) rest w) as [rest' w2]. }
    destruct Heach as (o & r & k & kind & HQ & Hk & Htrace).
    exists o, r, k, kind. split; [done|]. split; [done|].
    by destruct (deliverEach h (QueryResult snapshot) subscriptions w) as [m' w'].
Qed.

Hypothesis Qnests : nests Q.

Lemma deliverAll_every events : forall st,
  everyListener Q st.1 -> everyListener Q (deliverAll events st).1.
Proof.
  induction events as [|e events IH]; intros st Hevery; [exact Hevery|].
  unfold deliverAll. cbn [foldl]. apply IH. unfold deliver.
  case_bool_decide; [|exact Hevery]. by apply deliverTo_every.
Qed.
End Calls.

Section Roots.

(** What a subscribe call returned stays the closure of that call. *)
Lemma deliverTo_root h d u w :
  (forall h' kind, u <> Listener h' kind) ->
  forall h' kind, (deliverTo h d u w).1 <> Listener h' kind.
Proof.
  destruct u as [h0 kind0|options refPath subscriptions]; intros Hsub h' kind.
  - by destruct (Hsub h0 kind0).
  - rewrite deliverTo_subscription.
    destruct (ownListener h subscriptions) as [[|]|], d;
      try destruct (onSnapshot _ _ _ _ _); try destruct (deliverEach _ _ _ _); done.
Qed.

Lemma deliverAll_root events : forall st,
  (forall h' kind, st.1 <> Listener h' kind) ->
  forall h' kind, (deliverAll events st).1 <> Listener h' kind.
Proof.
  induction events as [|e events IH]; intros st Hsub; [exact Hsub|].
  unfold deliverAll. cbn [foldl]. apply IH. unfold deliver.
  case_bool_decide; [|exact Hsub]. by apply deliverTo_root.
Qed.
End Roots.

Section Spelling.
Local Open Scope string_scope.

Lemma spelledFrom_nests root : nests (spelledFrom root).
Proof.
  intros options refPath key sub id (_ & _ & Hspell) path. split; [done|]. split; [done|].
  unfold spell in *. rewrite foldl_app. cbn [foldl collectionPath withPath].
  rewrite <- Hspell. unfold path. rewrite DecoratorsFacts.append_assoc. reflexivity.
Qed.

Lemma below_nests id documentPath : nests (below id documentPath).
Proof.
  intros options refPath key sub id' [rest ->] path. by eexists.
Qed.

Lemma subscribeToCollection_spelled options w :
  everyListener (spelledFrom (collectionPath (normalizeFirestoreObjectOptions options)))
    (subscribeToCollection options w).1.
Proof.
  unfold subscribeToCollection, subscribeToCollectionAt. simpl. constructor.
  - by intros key h kind [= -> _ ->]%list_elem_of_singleton.
  - repeat constructor.
Qed.

Lemma subscribeToDocument_below id options w :
  everyListener
    (below id (collectionPath (normalizeFirestoreObjectOptions options) +:+ "/" +:+ id))
    (subscribeToDocument id options w).1.
Proof.
  unfold subscribeToDocument. cbn [openListener].
  set (documentPath := collectionPath (normalizeFirestoreObjectOptions options) +:+ "/" +:+ id).
  assert (forall subs (subscriptions : list (string * unsubscriber)) w,
            everyListener (below id documentPath) (Subscription (normalizeFirestoreObjectOptions options) []
                                        subscriptions) ->
            everyListener (below id documentPath)
              (Subscription (normalizeFirestoreObjectOptions options) []
                 (foldl (fun (st : list (string * unsubscriber) * world) sub =>
                           let path := documentPath +:+ "/" +:+ collectionPath sub in
                           let '(s, w') :=
                             subscribeToCollectionAt (withPath sub path)
                               [id; collectionPath sub] st.2 in
                           (mapSet path s st.1, w'))
                        (subscriptions, w) subs).1)) as Hloop.
  { induction subs as [|sub subs IH]; intros subscriptions w1 Hevery; [exact Hevery|].
    cbn [foldl]. apply IH. cbn [fst snd subscribeToCollectionAt openListener].
    inversion Hevery as [|? ? ? Hdirect Hall]; subst. constructor.
    - intros k h kind [[=]|Hin]%mapSet_elem. by apply Hdirect with h.
    - apply Forall_forall. intros x [->|Hin]%mapSet_elem.
      + simpl. constructor; [|repeat constructor].
        intros k h kind [= -> _ ->]%list_elem_of_singleton. by eexists.
      + by apply (proj1 (Forall_forall _ _) Hall). }
  specialize (Hloop (subcollections (normalizeFirestoreObjectOptions options))
                [(documentPath, Listener (next w) OfDocument)]
                {| next := S (next w); trace := trace w ++ [Opened (next w) documentPath] |}).
  destruct (foldl _ _ _) as [subscriptions w2]. apply Hloop. constructor.
  - by intros k h kind [= -> _ ->]%list_elem_of_singleton.
  - repeat constructor.
Qed.
End Spelling.

Section Documents.

Lemma append_longer (a b : string) c : a <> a +:+ String c b.
Proof.
  induction a as [|x a IH]; [discriminate|].
  change (String x a +:+ String c b) with (String x (a +:+ String c b)).
  intros [= Heq]. by apply IH.
Qed.

Lemma mapGet_snoc {A} k k' (v : A) m :
  mapGet k m = None -> k' <> k -> mapGet k (m ++ [(k', v)]) = None.
Proof.
  intros Hget Hne. induction m as [|[k0 v0] m IH]; simpl in *.
  - by destruct (String.eqb_spec k' k).
  - destruct (String.eqb k0 k); [discriminate|]. by apply IH.
Qed.

(** The loop of [subscribeToDocument] over the subcollections. *)
Lemma subscribeToDocument_loop id documentPath subs : forall subscriptions w,
  NoDup (collectionPath <$> subs) ->
  (forall sub, sub ∈ subs ->
     mapGet (documentPath +:+ "/" +:+ collectionPath sub) subscriptions = None) ->
  accounted (listenersOf subscriptions) w ->
  let st :=
    foldl (fun (st : list (string * unsubscriber) * world) sub =>
             let path := documentPath +:+ "/" +:+ collectionPath sub in
             let '(s, w') :=
               subscribeToCollectionAt (withPath sub path) [id; collectionPath sub] st.2 in
             (mapSet path s st.1, w'))
          (subscriptions, w) subs in
  accounted (listenersOf st.1) st.2.
Proof.
  induction subs as [|sub subs IH]; intros subscriptions w Hnd Hfree Hacc; [exact Hacc|].
  rewrite fmap_cons in Hnd. apply NoDup_cons in Hnd as [Hsub Hnd].
  cbn [foldl]. apply IH; [exact Hnd| |]; cbn [fst snd subscribeToCollectionAt openListener].
  - intros sub' Hsub'.
    destruct (mapGet_None _ _ (Hfree sub (list_elem_of_here _ _))) as [-> _].
    apply mapGet_snoc; [apply Hfree; by apply list_elem_of_further|].
    intros Heq. apply String.app_inj in Heq. apply String.app_inj in Heq.
    apply Hsub. rewrite Heq. apply list_elem_of_fmap. by exists sub'.
  - destruct (mapGet_None _ _ (Hfree sub (list_elem_of_here _ _))) as [-> _].
    rewrite listenersOf_app. cbn [listenersOf flat_map listenersAt fst snd withPath collectionPath].
    rewrite !app_nil_r.
    rewrite <- (app_nil_r (listenersOf subscriptions)) in Hacc.
    pose proof (accounted_added (listenersOf subscriptions) [] w
                  {| next := S (next w);
                     trace := trace w
                       ++ [Opened (next w) (documentPath +:+ "/" +:+ collectionPath sub)] |}
                  (documentPath +:+ "/" +:+ collectionPath sub) Hacc eq_refl) as Hadded.
    apply Hadded. simpl. by rewrite openListeners_after.
Qed.

Lemma subscribeToDocument_accounted id options w :
  openListeners (trace w) = [] ->
  NoDup (collectionPath <$> subcollections (normalizeFirestoreObjectOptions options)) ->
  accounted (listeners (subscribeToDocument id options w).1)
            (subscribeToDocument id options w).2.
Proof.
  intros Hopen Hnd. unfold subscribeToDocument. cbn [openListener].
  set (documentPath := collectionPath (normalizeFirestoreObjectOptions options) +:+ "/" +:+ id).
  pose proof (subscribeToDocument_loop id documentPath
                (subcollections (normalizeFirestoreObjectOptions options))
                [(documentPath, Listener (next w) OfDocument)]
                {| next := S (next w); trace := trace w ++ [Opened (next w) documentPath] |}
                Hnd) as Hloop.
  cbn zeta in Hloop.
  destruct (foldl _ _ _) as [subscriptions w2]. apply Hloop.
  - intros sub _. simpl. destruct (String.eqb_spec documentPath
                                     (documentPath +:+ "/" +:+ collectionPath sub)) as [Heq|]; [|done].
    by apply append_longer in Heq.
  - apply (accounted_added [] [] w _ documentPath (accounted_nothing w Hopen)); [done|].
    simpl. by rewrite openListeners_after.
Qed.
End Documents.

(** X26. Whatever snapshots the client has delivered to the listeners of a
    [subscribeToCollection] call, the listeners left open are exactly those
    the returned unsubscribe function reaches (the one of the call and those
    of the nested calls for the subcollections of the documents that were
    added and not removed), each once; calling the function closes them
    all, so that none is leaked. *)
Theorem collection_unsubscribe_closes_every_listener
    (options : FirestoreObjectOptions) (events : list (nat * delivery))
    (w0 w : world) (u : unsubscriber) :
  openListeners (trace w0) = [] ->
  deliverAll events (subscribeToCollection options w0) = (u, w) ->
  (forall x, x ∈ openListeners (trace w) <-> x ∈ listeners u) /\
  NoDup (listeners u).*1 /\
  openListeners (trace w ++ unsubscribe u) = [].
Proof.
  intros Hopen Hrun.
  pose proof (deliverAll_accounted events (subscribeToCollection options w0)
                (subscribeToCollectionAt_accounted _ [] w0 Hopen)) as Hacc.
  rewrite Hrun in Hacc. cbn [fst snd] in Hacc.
  split; [apply Hacc|]. split; [apply Hacc|]. by apply unsubscribe_accounted.
Qed.

(** X27. The same for [subscribeToDocument], when the configured
    subcollections have distinct paths: the listener on the document and
    those of the subcollections, opened at once, and those of the nested
    calls are the ones left open, and the returned unsubscribe function
    closes them all. *)
Theorem document_unsubscribe_closes_every_listener
    (id : string) (options : FirestoreObjectOptions) (events : list (nat * delivery))
    (w0 w : world) (u : unsubscriber) :
  openListeners (trace w0) = [] ->
  NoDup (collectionPath <$> subcollections (normalizeFirestoreObjectOptions options)) ->
  deliverAll events (subscribeToDocument id options w0) = (u, w) ->
  (forall x, x ∈ openListeners (trace w) <-> x ∈ listeners u) /\
  NoDup (listeners u).*1 /\
  openListeners (trace w ++ unsubscribe u) = [].
Proof.
  intros Hopen Hnd Hrun.
  pose proof (deliverAll_accounted events (subscribeToDocument id options w0)
                (subscribeToDocument_accounted _ _ w0 Hopen Hnd)) as Hacc.
  rewrite Hrun in Hacc. cbn [fst snd] in Hacc.
  split; [apply Hacc|]. split; [apply Hacc|]. by apply unsubscribe_accounted.
Qed.

(** X28. A query snapshot delivered to an open listener of a
    [subscribeToCollection] call reaches the consumer once, before any
    listener is opened or closed for it, and the reference path it comes
    with spells the path of the listener below the path of the
    subscription: [id] and subcollection path, level by level. *)
Theorem update_names_the_listener_path
    (options : FirestoreObjectOptions) (events : list (nat * delivery))
    (w0 w : world) (u : unsubscriber) (h : nat) (path : string) (snapshot : QuerySnapshot) :
  openListeners (trace w0) = [] ->
  deliverAll events (subscribeToCollection options w0) = (u, w) ->
  (h, path) ∈ openListeners (trace w) ->
  exists refPath es,
    trace (deliver (h, QueryResult snapshot) (u, w)).2
      = trace w ++ Updated refPath snapshot :: es /\
    Forall (fun e => isCall e = false) es /\
    spell (collectionPath (normalizeFirestoreObjectOptions options)) refPath = path.
Proof.
  intros Hopen Hrun Hlistener.
  pose proof (deliverAll_accounted events (subscribeToCollection options w0)
                (subscribeToCollectionAt_accounted _ [] w0 Hopen)) as Hacc.
  pose proof (deliverAll_every _ (spelledFrom_nests _) events (subscribeToCollection options w0)
                (subscribeToCollection_spelled options w0)) as Hevery.
  rewrite Hrun in Hacc, Hevery. cbn [fst snd] in Hacc, Hevery.
  destruct Hacc as [Hnd _ Hheld _].
  assert (h ∈ (listeners u).*1) as Hin.
  { apply list_elem_of_fmap. exists (h, path). split; [done|]. by apply Hheld. }
  unfold deliver. cbn [fst snd]. rewrite bool_decide_eq_true_2.
  2:{ apply list_elem_of_fmap. by exists (h, path). }
  assert (forall h' kind, u <> Listener h' kind) as Hsub.
  { pose proof (deliverAll_root events (subscribeToCollection options w0)) as Hroot.
    rewrite Hrun in Hroot. by apply Hroot. }
  destruct (deliverTo_calls _ h snapshot u "" w Hsub Hnd Hevery Hin)
    as (o & r & k & kind & (-> & -> & Hspell) & Hk & es & Htrace & Hcalls).
  exists r, es. split; [exact Htrace|]. split; [exact Hcalls|].
  rewrite <- Hspell.
  apply Hheld in Hlistener. unfold listeners in *.
  apply list_elem_of_lookup in Hlistener as [a Ha]. apply list_elem_of_lookup in Hk as [b Hb].
  assert (a = b) as ->.
  { eapply NoDup_lookup; [exact Hnd| |]; rewrite list_lookup_fmap; [by rewrite Ha|by rewrite Hb]. }
  congruence.
Qed.

Section Updates.
Import Utils DocumentUpdates.

(** The search of a reference path depends on the object and the options
    it starts from only; where it started shows in the location. *)
Lemma getObjectLoop_shift rest : forall isRefId info1 info2,
  object info1 = object info2 -> Firestore.options info1 = Firestore.options info2 ->
  match getObjectLoop rest isRefId info1, getObjectLoop rest isRefId info2 with
  | Ok (Some found1), Ok (Some found2) =>
      object found1 = object found2 /\
      Firestore.options found1 = Firestore.options found2 /\
      exists l, location found1 = location info1 ++ l /\
                location found2 = location info2 ++ l /\
                (l = [] -> object found2 = object info2)
  | Ok None, Ok None => True
  | Throw e1, Throw e2 => e1 = e2
  | _, _ => False
  end.
Proof.
  induction rest as [|ref rest IH]; intros isRefId info1 info2 Hobject Hoptions.
  - cbn [getObjectLoop]. split; [done|]. split; [done|]. exists []. by rewrite !app_nil_r.
  - cbn [getObjectLoop]. rewrite Hobject, Hoptions. destruct isRefId.
    + destruct (object info2) as [| | | | |items|props]; try done.
      destruct (findById items ref 0) as [[[i d]|]|e]; cbn [mbind outcome_bind]; try done.
      specialize (IH (negb true)
                    {| object := d; options := Firestore.options info2;
                       parent := VArr items; key_ := Some (KIndex i);
                       location := location info1 ++ [KIndex i] |}
                    {| object := d; options := Firestore.options info2;
                       parent := VArr items; key_ := Some (KIndex i);
                       location := location info2 ++ [KIndex i] |} eq_refl eq_refl).
      destruct (getObjectLoop rest _ _) as [[found1|]|e1],
               (getObjectLoop rest _ _) as [[found2|]|e2]; try done.
      destruct IH as (Ho & Hopt & l & Hl1 & Hl2 & _). split; [done|]. split; [done|].
      exists (KIndex i :: l). cbn [location] in Hl1, Hl2.
      rewrite Hl1, Hl2, <- !app_assoc. done.
    + destruct (findSubcollection _ ref) as [sub|]; [|done].
      destruct (getProp (object info2) (name sub)) as [o|e]; cbn [mbind outcome_bind];
        [|done].
      destruct (truthy o); [|done].
      specialize (IH (negb false)
                    {| object := o; options := sub; parent := object info2;
                       key_ := Some (KName (name (Firestore.options info2)));
                       location := location info1 ++ [KName (name sub)] |}
                    {| object := o; options := sub; parent := object info2;
                       key_ := Some (KName (name (Firestore.options info2)));
                       location := location info2 ++ [KName (name sub)] |} eq_refl eq_refl).
      destruct (getObjectLoop rest _ _) as [[found1|]|e1],
               (getObjectLoop rest _ _) as [[found2|]|e2]; try done.
      destruct IH as (Ho & Hopt & l & Hl1 & Hl2 & _). split; [done|]. split; [done|].
      exists (KName (name sub) :: l). cbn [location] in Hl1, Hl2.
      rewrite Hl1, Hl2, <- !app_assoc. done.
Qed.

Lemma writeAt_array items l new :
  l <> [] -> exists items', writeAt (VArr items) l new = VArr items'.
Proof.
  destruct l as [|[i|n] l]; [done| |]; intros _; cbn [writeAt]; [|by eexists].
  destruct (items !! i); by eexists.
Qed.
End Updates.

Section Composition.
Import Utils DocumentUpdates.

(** X29. A collection update with the reference path [ref :: rest] on a
    document that holds a list under the name of the subcollection of path
    [ref] is the update of that list by [updateCollectionFromSnapshot], with
    the options of the subcollection and the rest of the path: the same
    result is put under the name, the same exception is thrown, and the
    other fields of the document stay. *)
Theorem collection_update_reaches_subcollection
    (prototype : value -> string -> inheritance)
    (props : gmap string value) (options : FirestoreObjectOptions)
    (ref : string) (rest : list string) (sub : NormalizedFirestoreObjectOptions)
    (items : list value) (snapshot : QuerySnapshot) :
  findSubcollection (subcollections (normalizeFirestoreObjectOptions options)) ref = Some sub ->
  props !! name sub = Some (VArr items) ->
  updateDocumentFromSnapshot prototype (VObj props) options (ref :: rest)
    (QueryResult snapshot) =
  (items' ← updateCollectionFromSnapshot items (OptNormalized sub) rest snapshot;
   Ok (Assigned (VObj (<[name sub := VArr items']> props)))).
Proof.
  intros Hfind Hprops.
  unfold updateDocumentFromSnapshot, updateCollectionFromSnapshot, getObjectFromRefPath.
  cbn [getObjectLoop object Firestore.options location negb normalizeFirestoreObjectOptions].
  rewrite Hfind. cbn [getProp]. rewrite Hprops.
  cbn [default mbind outcome_bind truthy app id].
  pose proof (getObjectLoop_shift rest true
                {| object := VArr items; options := sub; parent := VObj props;
                   key_ := Some (KName (name (normalizeFirestoreObjectOptions options)));
                   location := [KName (name sub)] |}
                {| object := VArr items; options := sub; parent := VNull;
                   key_ := None; location := [] |} eq_refl eq_refl) as Hshift.
  destruct (getObjectLoop rest true _) as [[found1|]|e1],
           (getObjectLoop rest true _) as [[found2|]|e2]; try done;
    cbn [mbind outcome_bind].
  - destruct Hshift as (Hobject & Hoptions & l & Hl1 & Hl2 & Hroot).
    cbn [object location app] in Hl1, Hl2, Hroot.
    rewrite Hobject, Hoptions, Hl1, Hl2.
    destruct (applyCollectionChangesTo (object found2) snapshot (Firestore.options found2))
      as [changed|e] eqn:Hchanged; cbn [mbind outcome_bind]; [|done].
    cbn [writeAt]. rewrite Hprops.
    assert (exists items', writeAt (VArr items) l changed = VArr items') as [items' ->].
    { destruct l as [|k l]; [|by apply writeAt_array].
      rewrite (Hroot eq_refl) in Hchanged. simpl in Hchanged. injection Hchanged as <-.
      by eexists. }
    done.
  - by rewrite insert_id.
  - by rewrite Hshift.
Qed.

(** X30. The reference path [subscribeToDocument] hands to the consumer
    with a collection update starts with the id of the document, which
    [updateDocumentFromSnapshot] reads as the path of a subcollection: for a
    query snapshot delivered to an open listener other than the one of the
    document, the consumer is called once, with a reference path [id ::
    ...], and unless a configured subcollection has the id for its path,
    [updateDocumentFromSnapshot] on what the consumer got throws a
    TypeError, whatever the document. *)
Theorem document_subscription_paths_start_with_id
    (prototype : value -> string -> inheritance)
    (id : string) (options : FirestoreObjectOptions) (events : list (nat * delivery))
    (w0 w : world) (u : unsubscriber) (h : nat) (path : string) (snapshot : QuerySnapshot)
    (document : value) :
  openListeners (trace w0) = [] ->
  NoDup (collectionPath <$> subcollections (normalizeFirestoreObjectOptions options)) ->
  deliverAll events (subscribeToDocument id options w0) = (u, w) ->
  (h, path) ∈ openListeners (trace w) ->
  path <> collectionPath (normalizeFirestoreObjectOptions options) +:+ "/" +:+ id ->
  findSubcollection (subcollections (normalizeFirestoreObjectOptions options)) id = None ->
  exists refPath es,
    trace (deliver (h, QueryResult snapshot) (u, w)).2
      = trace w ++ Updated (id :: refPath) snapshot :: es /\
    Forall (fun e => isCall e = false) es /\
    updateDocumentFromSnapshot prototype document options (id :: refPath)
      (QueryResult snapshot)
      = Throw TypeError.
Proof.
  intros Hopen Hdistinct Hrun Hlistener Hpath Hfind.
  pose proof (deliverAll_accounted events (subscribeToDocument id options w0)
                (subscribeToDocument_accounted _ _ w0 Hopen Hdistinct)) as Hacc.
  pose proof (deliverAll_every _ (below_nests id _) events (subscribeToDocument id options w0)
                (subscribeToDocument_below id options w0)) as Hevery.
  rewrite Hrun in Hacc, Hevery. cbn [fst snd] in Hacc, Hevery.
  destruct Hacc as [Hnd _ Hheld _].
  assert (h ∈ (listeners u).*1) as Hin.
  { apply list_elem_of_fmap. exists (h, path). split; [done|]. by apply Hheld. }
  unfold deliver. cbn [fst snd]. rewrite bool_decide_eq_true_2.
  2:{ apply list_elem_of_fmap. by exists (h, path). }
  assert (forall h' kind, u <> Listener h' kind) as Hsub.
  { pose proof (deliverAll_root events (subscribeToDocument id options w0)) as Hroot.
    rewrite Hrun in Hroot. apply Hroot. intros h' kind. unfold subscribeToDocument.
    cbn [openListener]. by destruct (foldl _ _ _). }
  destruct (deliverTo_calls _ h snapshot u "" w Hsub Hnd Hevery Hin)
    as (o & r & k & kind & HQ & Hk & Htrace).
  assert (k = path) as ->.
  { apply Hheld in Hlistener. unfold listeners in *.
    apply list_elem_of_lookup in Hlistener as [a Ha]. apply list_elem_of_lookup in Hk as [b Hb].
    assert (a = b) as ->.
    { eapply NoDup_lookup; [exact Hnd| |]; rewrite list_lookup_fmap;
        [by rewrite Ha|by rewrite Hb]. }
    congruence. }
  destruct kind; [|done]. destruct HQ as [refPath ->].
  destruct Htrace as (es & Htrace & Hcalls).
  exists refPath, es. split; [exact Htrace|]. split; [exact Hcalls|].
  unfold updateDocumentFromSnapshot, getObjectFromRefPath.
  cbn [getObjectLoop Firestore.options]. by rewrite Hfind.
Qed.
End Composition.

Lemma usersWithOrders_distinct :
  NoDup (collectionPath <$> subcollections (normalizeFirestoreObjectOptions usersWithOrders)).
Proof. apply NoDup_singleton. Qed.

Lemma collection_unsubscribe_closes_every_listener_witness :
  openListeners (trace newWorld) = [] /\
  listeners (deliverAll usersComeAndGo (subscribeToCollection usersWithOrders newWorld)).1
    = [(0%nat, "users"); (2%nat, "users/u2/orders")] /\
  openListeners
    (trace (deliverAll usersComeAndGo (subscribeToCollection usersWithOrders newWorld)).2
       ++ unsubscribe
            (deliverAll usersComeAndGo (subscribeToCollection usersWithOrders newWorld)).1)
    = [].
Proof.
  assert (openListeners (trace newWorld) = []) as Hopen by reflexivity.
  destruct (collection_unsubscribe_closes_every_listener usersWithOrders usersComeAndGo
              newWorld
              (deliverAll usersComeAndGo (subscribeToCollection usersWithOrders newWorld)).2
              (deliverAll usersComeAndGo (subscribeToCollection usersWithOrders newWorld)).1
              Hopen (surjective_pairing _)) as (_ & _ & Hclosed).
  split; [exact Hopen|]. split; [vm_compute; reflexivity|exact Hclosed].
Defined.

Lemma document_unsubscribe_closes_every_listener_witness :
  openListeners (trace newWorld) = [] /\
  listeners (deliverAll [(1%nat, QueryResult [addOrder])]
               (subscribeToDocument "u1" usersWithOrders newWorld)).1
    = [(0%nat, "users/u1"); (1%nat, "users/u1/orders")] /\
  openListeners
    (trace (deliverAll [(1%nat, QueryResult [addOrder])]
              (subscribeToDocument "u1" usersWithOrders newWorld)).2
       ++ unsubscribe
            (deliverAll [(1%nat, QueryResult [addOrder])]
               (subscribeToDocument "u1" usersWithOrders newWorld)).1)
    = [].
Proof.
  assert (openListeners (trace newWorld) = []) as Hopen by reflexivity.
  destruct (document_unsubscribe_closes_every_listener "u1" usersWithOrders
              [(1%nat, QueryResult [addOrder])] newWorld
              (deliverAll [(1%nat, QueryResult [addOrder])]
                 (subscribeToDocument "u1" usersWithOrders newWorld)).2
              (deliverAll [(1%nat, QueryResult [addOrder])]
                 (subscribeToDocument "u1" usersWithOrders newWorld)).1
              Hopen usersWithOrders_distinct (surjective_pairing _)) as (_ & _ & Hclosed).
  split; [exact Hopen|]. split; [vm_compute; reflexivity|exact Hclosed].
Defined.

Lemma update_names_the_listener_path_witness :
  (1%nat, "users/u1/orders")
    ∈ openListeners
        (trace (deliverAll [(0%nat, QueryResult [userArrives "u1"])]
                  (subscribeToCollection usersWithOrders newWorld)).2) /\
  exists refPath es,
    trace (deliver (1%nat, QueryResult [addOrder])
             ((deliverAll [(0%nat, QueryResult [userArrives "u1"])]
                 (subscribeToCollection usersWithOrders newWorld)).1,
              (deliverAll [(0%nat, QueryResult [userArrives "u1"])]
                 (subscribeToCollection usersWithOrders newWorld)).2)).2
      = trace (deliverAll [(0%nat, QueryResult [userArrives "u1"])]
                 (subscribeToCollection usersWithOrders newWorld)).2
          ++ Updated refPath [addOrder] :: es /\
    Forall (fun e => isCall e = false) es /\
    spell "users" refPath = "users/u1/orders".
Proof.
  assert ((1%nat, "users/u1/orders")
            ∈ openListeners
                (trace (deliverAll [(0%nat, QueryResult [userArrives "u1"])]
                          (subscribeToCollection usersWithOrders newWorld)).2)) as Hlistener.
  { assert (openListeners
              (trace (deliverAll [(0%nat, QueryResult [userArrives "u1"])]
                        (subscribeToCollection usersWithOrders newWorld)).2)
            = [(0%nat, "users"); (1%nat, "users/u1/orders")]) as ->
      by (vm_compute; reflexivity).
    apply list_elem_of_further, list_elem_of_here. }
  split; [exact Hlistener|].
  exact (update_names_the_listener_path usersWithOrders
           [(0%nat, QueryResult [userArrives "u1"])] newWorld _ _ 1%nat "users/u1/orders"
           [addOrder] eq_refl (surjective_pairing _) Hlistener).
Defined.

Lemma collection_update_reaches_subcollection_witness :
  DocumentUpdates.updateDocumentFromSnapshot Utils.objectPrototype
    (userWithOrders "u1" []) usersWithOrders
    ["orders"] (QueryResult [addOrder]) =
  (items' ← updateCollectionFromSnapshot [] (OptNormalized (NOptions "orders" "orders" []))
              [] [addOrder];
   Ok (Utils.Assigned
         (VObj (<["orders" := VArr items']> {[ "id" := VStr "u1"; "orders" := VArr [] ]})))).
Proof.
  apply (collection_update_reaches_subcollection Utils.objectPrototype
           {[ "id" := VStr "u1"; "orders" := VArr [] ]} usersWithOrders "orders" []
           (NOptions "orders" "orders" []) [] [addOrder]).
  - reflexivity.
  - vm_compute. reflexivity.
Defined.

Lemma document_subscription_paths_start_with_id_witness :
  exists refPath es,
    trace (deliver (1%nat, QueryResult [addOrder])
             ((deliverAll [] (subscribeToDocument "u1" usersWithOrders newWorld)).1,
              (deliverAll [] (subscribeToDocument "u1" usersWithOrders newWorld)).2)).2
      = trace (deliverAll [] (subscribeToDocument "u1" usersWithOrders newWorld)).2
          ++ Updated ("u1" :: refPath) [addOrder] :: es /\
    Forall (fun e => isCall e = false) es /\
    DocumentUpdates.updateDocumentFromSnapshot Utils.objectPrototype
    (userWithOrders "u1" []) usersWithOrders
      ("u1" :: refPath) (QueryResult [addOrder]) = Throw TypeError.
Proof.
  apply (document_subscription_paths_start_with_id Utils.objectPrototype
           "u1" usersWithOrders [] newWorld _ _
           1%nat "users/u1/orders" [addOrder] (userWithOrders "u1" []) eq_refl
           usersWithOrders_distinct (surjective_pairing _)).
  - assert (openListeners
              (trace (deliverAll [] (subscribeToDocument "u1" usersWithOrders newWorld)).2)
            = [(0%nat, "users/u1"); (1%nat, "users/u1/orders")]) as ->
      by (vm_compute; reflexivity).
    apply list_elem_of_further, list_elem_of_here.
  - intros Heq. vm_compute in Heq. discriminate Heq.
  - vm_compute. reflexivity.
Defined.

End SubscriptionsFacts.
